(** * Confluence2Notion: the Markdown-to-blocks pipeline, embedded and verified

    The development follows the layout of the extension:
    - [JS]       strings as sequences of UTF-16 code units and the string
                 primitives the sources call;
    - [Regex]    a backtracking matcher for the regular expressions that
                 occur in the sources;
    - the background worker (inline formatter, block creators, list tree
      builder, page assembler, page-id validation);
    - the content script (code-fence serializer, table grid resolver). *)

From Stdlib Require Import ZArith NArith Ascii String Lia Bool.
From stdpp Require Import base tactics option list.

(* ====================================================================== *)
(** ** JavaScript strings *)
(* ====================================================================== *)

(** A JavaScript string is a finite sequence of 16-bit code units. *)
Abbreviation jsstring := (list N) (only parsing).

Module JS.

(** ASCII literals of the sources, written ["..."] in Rocq. *)
Definition js (s : string) : jsstring := map N_of_ascii (list_ascii_of_string s).
Arguments js s%_string.

Definition eqb (a b : jsstring) : bool := bool_decide (a = b).

(** WhiteSpace and LineTerminator code points, i.e. what [\s] matches
    and what [trim] strips. *)
Definition is_space (c : N) : bool :=
  ((9 <=? c) && (c <=? 13) || (c =? 32) || (c =? 160) || (c =? 5760)
   || (8192 <=? c) && (c <=? 8202) || (c =? 8232) || (c =? 8233)
   || (c =? 8239) || (c =? 8287) || (c =? 12288) || (c =? 65279))%N.

(** LineTerminator: what [.] refuses. *)
Definition is_line_terminator (c : N) : bool :=
  ((c =? 10) || (c =? 13) || (c =? 8232) || (c =? 8233))%N.

Definition is_digit (c : N) : bool := ((48 <=? c) && (c <=? 57))%N.

Fixpoint trimStart (s : jsstring) : jsstring :=
  match s with
  | c :: s' => if is_space c then trimStart s' else s
  | [] => []
  end.

Definition trimEnd (s : jsstring) : jsstring := rev (trimStart (rev s)).

Definition trim (s : jsstring) : jsstring := trimEnd (trimStart s).

(** [!s || !s.trim()] *)
Definition blank (s : jsstring) : bool :=
  match trim s with [] => true | _ => false end.

Fixpoint startsWith (s p : jsstring) : bool :=
  match p, s with
  | [], _ => true
  | a :: p', b :: s' => (a =? b)%N && startsWith s' p'
  | _ :: _, [] => false
  end.

Definition endsWith (s p : jsstring) : bool := startsWith (rev s) (rev p).

Fixpoint includes (s p : jsstring) : bool :=
  startsWith s p || match s with [] => false | _ :: s' => includes s' p end.

(** [s.slice(a, b)] for [0 <= a], [0 <= b]. *)
Definition slice (s : jsstring) (a b : nat) : jsstring := take (b - a) (drop a s).

(** [s.split(sep)] for a one-unit separator. *)
Fixpoint split (sep : N) (s : jsstring) : list jsstring :=
  match s with
  | [] => [[]]
  | c :: s' =>
      if (c =? sep)%N then [] :: split sep s'
      else match split sep s' with
           | l :: ls => (c :: l) :: ls
           | [] => [[c]]
           end
  end.

(** [lines.join(sep)] *)
Fixpoint join (sep : jsstring) (ls : list jsstring) : jsstring :=
  match ls with
  | [] => []
  | [l] => l
  | l :: ls' => l ++ sep ++ join sep ls'
  end.

(** [c.repeat(n)] *)
Definition repeat (c : N) (n : nat) : jsstring := replicate n c.

(** [toLowerCase], exact on every string whose lower-case form is
    ASCII: A-Z, and the Kelvin sign U+212A, the only other code point
    whose lower-case form is an ASCII letter.  Code units whose
    lower-case form lies outside ASCII are left as they are; they never
    equal a key of the ASCII tables they are looked up in. *)
Definition lower_unit (c : N) : N :=
  if ((65 <=? c) && (c <=? 90))%N then (c + 32)%N
  else if (c =? 8490)%N then 107%N else c.
Definition toLowerCase (s : jsstring) : jsstring := map lower_unit s.

(** Decimal rendering of a number, as template literals do. *)
Fixpoint digits_fuel (fuel n : nat) (acc : jsstring) : jsstring :=
  match fuel with
  | O => acc
  | S f =>
      let acc' := (48 + N.of_nat (n mod 10))%N :: acc in
      if n / 10 =? 0 then acc' else digits_fuel f (n / 10) acc'
  end.
Definition dec (n : nat) : jsstring := digits_fuel (S n) n [].

End JS.
Export JS.


(* ====================================================================== *)
(** ** Regular expressions *)
(* ====================================================================== *)

(** The sources drive every parser with JavaScript regular expressions.
    [regex] is the fragment they use; [rmatch] is the backtracking matcher
    of the language specification (continuation passing, leftmost
    alternative first, greedy or lazy iteration, an iteration that consumes
    nothing fails). *)
Module Regex.

Inductive regex : Type :=
| Eps
| Chr (p : N -> bool)                 (* one code unit of a class *)
| Seq (r1 r2 : regex)
| Alt (r1 r2 : regex)
| Star (greedy : bool) (r : regex)    (* r* and r*? *)
| Group (n : nat) (r : regex)         (* n-th capturing group *)
| Backref (n : nat)                   (* \n *)
| Bol                                 (* ^ without the m flag *)
| Eol                                 (* $ without the m flag *)
| NotAhead (r : regex)                (* (?!r) *)
| NotBehind (p : N -> bool).          (* (?<!c), c one code unit class *)

Definition Plus (greedy : bool) (r : regex) : regex := Seq r (Star greedy r).
Definition Opt (r : regex) : regex := Alt r Eps.
Fixpoint Rep (n : nat) (r : regex) : regex :=
  match n with O => Eps | S n' => Seq r (Rep n' r) end.
Fixpoint Lit (s : jsstring) : regex :=
  match s with
  | [] => Eps
  | [c] => Chr (N.eqb c)
  | c :: s' => Seq (Chr (N.eqb c)) (Lit s')
  end.

(** Character classes. *)
Definition one (c : string) : N -> bool :=
  fun x => existsb (N.eqb x) (js c).
Definition none (c : string) : N -> bool := fun x => negb (one c x).
Definition dot : N -> bool := fun x => negb (is_line_terminator x).
(** [[a-f0-9]] under the [i] flag: canonicalisation maps no code unit
    outside ASCII onto an ASCII one, so the class is [[a-fA-F0-9]]. *)
Definition hex_i (c : N) : bool :=
  (is_digit c || (97 <=? c) && (c <=? 102) || (65 <=? c) && (c <=? 70))%N.

(** Matcher state: the input split at the cursor ([before] is reversed),
    and the captures made so far. *)
Record mstate : Type := MState {
  before : jsstring;
  after : jsstring;
  caps : list (nat * jsstring)
}.

Definition cap_get (n : nat) (cs : list (nat * jsstring)) : option jsstring :=
  snd <$> find (fun e => Nat.eqb (fst e) n) cs.

(** The text consumed between two states of one match. *)
Definition consumed (st st' : mstate) : jsstring :=
  rev (take (length (before st') - length (before st)) (before st')).

(** Iteration of a matcher [step]: each turn must move the cursor; the
    fuel is the number of code units left plus one and cannot run out. *)
Fixpoint star_loop (step : mstate -> (mstate -> option mstate) -> option mstate)
    (greedy : bool) (k : mstate -> option mstate) (fuel : nat) (st : mstate)
    {struct fuel} : option mstate :=
  match fuel with
  | O => None
  | S fuel' =>
      let again (_ : unit) :=
        step st (fun st1 =>
          if length (after st1) <? length (after st)
          then star_loop step greedy k fuel' st1 else None) in
      if greedy
      then match again () with Some x => Some x | None => k st end
      else match k st with Some x => Some x | None => again () end
  end.

Fixpoint rmatch (r : regex) (st : mstate) (k : mstate -> option mstate)
  {struct r} : option mstate :=
  match r with
  | Eps => k st
  | Chr p =>
      match after st with
      | c :: rest =>
          if p c then k (MState (c :: before st) rest (caps st)) else None
      | [] => None
      end
  | Seq r1 r2 => rmatch r1 st (fun st1 => rmatch r2 st1 k)
  | Alt r1 r2 =>
      match rmatch r1 st k with
      | Some x => Some x
      | None => rmatch r2 st k
      end
  | Star greedy r1 => star_loop (rmatch r1) greedy k (S (length (after st))) st
  | Group n r1 =>
      rmatch r1 st (fun st1 =>
        k (MState (before st1) (after st1) ((n, consumed st st1) :: caps st1)))
  | Backref n =>
      match cap_get n (caps st) with
      | None => k st
      | Some s =>
          if startsWith (after st) s
          then k (MState (rev s ++ before st) (drop (length s) (after st)) (caps st))
          else None
      end
  | Bol => match before st with [] => k st | _ => None end
  | Eol => match after st with [] => k st | _ => None end
  | NotAhead r1 =>
      match rmatch r1 st Some with Some _ => None | None => k st end
  | NotBehind p =>
      match before st with
      | c :: _ => if p c then None else k st
      | [] => k st
      end
  end.

(** The match object: [index], [m[0]] and the numbered groups. *)
Record MatchResult : Type := Match {
  index : nat;
  whole : jsstring;
  groups : list (nat * jsstring)
}.

Definition group (n : nat) (m : MatchResult) : option jsstring := cap_get n (groups m).
Definition endIndex (m : MatchResult) : nat := index m + length (whole m).

Definition match_here (r : regex) (pre suf : jsstring) (i : nat) : option MatchResult :=
  let st := MState pre suf [] in
  (fun st' => Match i (consumed st st') (caps st')) <$> rmatch r st Some.

(** Leftmost match at or after the cursor. *)
Fixpoint scan (r : regex) (pre suf : jsstring) (i : nat) : option MatchResult :=
  match match_here r pre suf i with
  | Some m => Some m
  | None =>
      match suf with
      | [] => None
      | c :: suf' => scan r (c :: pre) suf' (S i)
      end
  end.

(** [regex.exec(s)] with [regex.lastIndex = lastIndex]. *)
Definition exec_from (r : regex) (s : jsstring) (lastIndex : nat) : option MatchResult :=
  if length s <? lastIndex then None
  else scan r (rev (take lastIndex s)) (drop lastIndex s) lastIndex.

(** [s.match(r)] and [r.test(s)] for a regex without the g flag. *)
Definition exec (r : regex) (s : jsstring) : option MatchResult := exec_from r s 0.
Definition test (r : regex) (s : jsstring) : bool := bool_decide (is_Some (exec r s)).

(** [while ((m = regex.exec(s)) !== null) ...] for a regex with the g
    flag: each call resumes at the end of the previous match.  A match of
    length zero leaves [lastIndex] where it is and the loop never ends;
    the model then runs out of fuel and answers [None]. *)
Fixpoint execAll_fuel (fuel : nat) (r : regex) (s : jsstring) (lastIndex : nat)
  : option (list MatchResult) :=
  match fuel with
  | O => None
  | S fuel' =>
      match exec_from r s lastIndex with
      | None => Some []
      | Some m => cons m <$> execAll_fuel fuel' r s (endIndex m)
      end
  end.
Definition execAll (r : regex) (s : jsstring) : option (list MatchResult) :=
  execAll_fuel (S (length s)) r s 0.

(** [s.replace(r, by)] for a regex without the g flag and a replacement
    without [$] patterns: the leftmost match is replaced. *)
Definition replace (r : regex) (s : jsstring) (by_ : jsstring) : jsstring :=
  match exec r s with
  | None => s
  | Some m => take (index m) s ++ by_ ++ drop (endIndex m) s
  end.

End Regex.
Export Regex.

(* ====================================================================== *)
(** ** Background worker: URL validation and the inline formatter *)
(* ====================================================================== *)

(** What the sources read from a [URL] object. *)
Record URLRecord : Type := mkURL {
  protocol : jsstring;
  href : jsstring;
  pathname : jsstring
}.

(** The style flags of a run.  The sources only ever set a flag to
    [true]; an absent [annotations] object is the record of four [false]. *)
Record Annotations : Type := mkAnn {
  bold : bool;
  italic : bool;
  strikethrough : bool;
  code : bool
}.

Definition noAnnotations : Annotations := mkAnn false false false false.

(** [{ ...parent }] followed by [Object.assign(merged, child)]. *)
Definition mergeAnnotations (parent child : Annotations) : Annotations :=
  mkAnn (bold parent || bold child) (italic parent || italic child)
        (strikethrough parent || strikethrough child) (code parent || code child).

(** [{ type: 'text', text: { content, link: { url } }, annotations }] *)
Record RichText : Type := mkRun {
  content : jsstring;
  annotations : Annotations;
  link : option jsstring
}.

Definition emptyRun : RichText := mkRun [] noAnnotations None.

Inductive InlineType : Type := TCode | TBold | TStrikethrough | TItalic | TLink.

Record InlineMatch : Type := mkInline {
  m_start : nat;
  m_end : nat;
  m_type : InlineType;
  m_content : jsstring;
  m_link : option jsstring;
  m_fullMatch : jsstring
}.

(** The [for (i = 0; i < xs.length; i += size) xs.slice(i, i + size)] idiom. *)
Fixpoint chunks_fuel {A : Type} (fuel size : nat) (xs : list A) : list (list A) :=
  match fuel with
  | O => []
  | S fuel' =>
      match xs with
      | [] => []
      | _ :: _ => take size xs :: chunks_fuel fuel' size (drop size xs)
      end
  end.
Definition chunks {A : Type} (size : nat) (xs : list A) : list (list A) :=
  chunks_fuel (length xs) size xs.

Definition MAX_TEXT_LENGTH : nat := 2000.

(** [/^https?:\/\/.+/] *)
Definition re_http : regex :=
  Seq Bol (Seq (Lit (js "http")) (Seq (Opt (Lit (js "s")))
    (Seq (Lit (js "://")) (Plus true (Chr dot))))).

(** [/(\*\*|__|\*|_|~~|`|\[)/] *)
Definition re_nested : regex :=
  Group 1 (Alt (Lit (js "**")) (Alt (Lit (js "__")) (Alt (Lit (js "*"))
    (Alt (Lit (js "_")) (Alt (Lit (js "~~")) (Alt (Lit (js "`")) (Lit (js "[")))))))).

(** The seven inline patterns, in the order of the [patterns] array. *)
Definition re_code : regex :=
  Seq (Lit (js "`")) (Seq (Group 1 (Plus true (Chr (none "`")))) (Lit (js "`"))).
Definition re_bold_star : regex :=
  Seq (Lit (js "**")) (Seq (Group 1 (Plus true (Chr (none "*")))) (Lit (js "**"))).
Definition re_bold_under : regex :=
  Seq (Seq (Lit (js "__")) (NotAhead (Lit (js "_"))))
      (Seq (Group 1 (Plus true (Chr (none "_")))) (Lit (js "__"))).
Definition re_strike : regex :=
  Seq (Lit (js "~~")) (Seq (Group 1 (Plus true (Chr (none "~")))) (Lit (js "~~"))).
Definition re_italic_star : regex :=
  Seq (Seq (NotBehind (one "*")) (Seq (Lit (js "*")) (NotAhead (Lit (js "*")))))
      (Seq (Group 1 (Plus false (Chr (none "*"))))
           (Seq (Lit (js "*")) (NotAhead (Lit (js "*"))))).
Definition re_italic_under : regex :=
  Seq (Seq (NotBehind (one "_")) (Seq (Lit (js "_")) (NotAhead (Lit (js "_")))))
      (Seq (Group 1 (Plus false (Chr (none "_"))))
           (Seq (Lit (js "_")) (NotAhead (Lit (js "_"))))).
Definition re_link : regex :=
  Seq (Lit (js "[")) (Seq (Group 1 (Plus true (Chr (none "]"))))
    (Seq (Lit (js "](")) (Seq (Group 2 (Plus true (Chr (none ")")))) (Lit (js ")"))))).

Definition patterns : list (regex * InlineType) :=
  [ (re_code, TCode); (re_bold_star, TBold); (re_bold_under, TBold);
    (re_strike, TStrikethrough); (re_italic_star, TItalic);
    (re_italic_under, TItalic); (re_link, TLink) ].

(** [match[1] || match[0]] *)
Definition toInlineMatch (ty : InlineType) (m : MatchResult) : InlineMatch :=
  mkInline (index m) (endIndex m) ty
    (match group 1 m with
     | Some (c :: g) => c :: g
     | _ => whole m
     end)
    (group 2 m) (whole m).

(** [patterns.forEach(...)]: every match of every pattern, pattern by
    pattern. *)
Fixpoint collectMatches (ps : list (regex * InlineType)) (text : jsstring)
  : option (list InlineMatch) :=
  match ps with
  | [] => Some []
  | (re, ty) :: ps' =>
      ms ← execAll re text;
      rest ← collectMatches ps' text;
      Some (map (toInlineMatch ty) ms ++ rest)
  end.

(** [matches.sort((a, b) => a.start - b.start)]; the sort is stable. *)
Fixpoint insertByStart (x : InlineMatch) (l : list InlineMatch) : list InlineMatch :=
  match l with
  | [] => [x]
  | y :: l' => if m_start x <? m_start y then x :: l else y :: insertByStart x l'
  end.
Definition sortByStart (l : list InlineMatch) : list InlineMatch :=
  fold_left (fun acc x => insertByStart x acc) l [].

(** Keep a match unless it intersects one already kept. *)
Definition overlaps (current existing : InlineMatch) : bool :=
  negb ((m_end current <=? m_start existing) || (m_end existing <=? m_start current)).
Definition removeOverlapping (matches : list InlineMatch) : list InlineMatch :=
  fold_left (fun kept current =>
               if existsb (overlaps current) kept then kept else kept ++ [current])
            matches [].

Definition annotationsOf (ty : InlineType) : Annotations :=
  match ty with
  | TBold => mkAnn true false false false
  | TItalic => mkAnn false true false false
  | TStrikethrough => mkAnn false false true false
  | TCode => mkAnn false false false true
  | TLink => noAnnotations
  end.

Section InlineFormatter.

(** [new URL(s)]: [None] when the constructor throws. *)
Variable URL : jsstring -> option URLRecord.

Definition validateAndCleanUrl (url : jsstring) : option jsstring :=
  if blank url then None
  else
    let trimmed := trim url in
    let first :=
      if test re_http trimmed then
        match URL trimmed with
        | Some urlObj =>
            if eqb (protocol urlObj) (js "http:") || eqb (protocol urlObj) (js "https:")
            then Some (Some (href urlObj))      (* return urlObj.href *)
            else None                           (* leave the if *)
        | None => Some None                     (* catch: return null *)
        end
      else None in
    match first with
    | Some result => result
    | None =>
        if startsWith trimmed (js "//") then
          match URL (js "https:" ++ trimmed) with
          | Some urlObj => Some (href urlObj)
          | None => None
          end
        else None
    end.

(** [createRichTextSegment(content, annotations, link)]: the link is
    validated once more before it is attached. *)
Definition createRichTextSegment (content : jsstring) (annotations : Annotations)
    (link : option jsstring) : RichText :=
  mkRun content annotations (link ≫= validateAndCleanUrl).

(** The last loop of [parseInlineMarkdown]. *)
Definition splitLongSegment (segment : RichText) : list RichText :=
  if length (content segment) <=? MAX_TEXT_LENGTH then [segment]
  else map (fun chunk => createRichTextSegment chunk (annotations segment) (link segment))
           (chunks MAX_TEXT_LENGTH (content segment)).

(** [{ ...segment, annotations: merged, text: { ...segment.text, link } }] *)
Definition mergeNested (parent : Annotations) (segment : RichText) : RichText :=
  mkRun (content segment) (mergeAnnotations parent (annotations segment))
        (link segment ≫= validateAndCleanUrl).

Definition plainBefore (text : jsstring) (lastIndex upto : nat) : list RichText :=
  if lastIndex <? upto then
    match slice text lastIndex upto with
    | [] => []
    | plainText => [createRichTextSegment plainText noAnnotations None]
    end
  else [].

(** Run construction: the body of [parseInlineMarkdown] from the
    pattern scan to the remaining plain text.  [recur] is the function
    itself, called on the content of a bold, italic or strikethrough
    match. *)
Definition buildRichText (recur : jsstring -> option (list RichText))
    (text : jsstring) : option (list RichText) :=
  matches ← collectMatches patterns text;
  let nonOverlapping := removeOverlapping (sortByStart matches) in
  let step (st : option (list RichText * nat)) (m : InlineMatch) :=
    '(richText, lastIndex) ← st;
    let richText := richText ++ plainBefore text lastIndex (m_start m) in
    let annotations := annotationsOf (m_type m) in
    match m_type m with
    | TCode =>
        Some (richText ++ [createRichTextSegment (m_content m) annotations None],
              m_end m)
    | TLink =>
        let link := m_link m ≫= validateAndCleanUrl in
        Some (richText ++ [createRichTextSegment (m_content m) annotations link],
              m_end m)
    | _ =>
        if test re_nested (m_content m) then
          nested ← recur (m_content m);
          Some (richText ++ map (mergeNested annotations) nested, m_end m)
        else
          Some (richText ++ [createRichTextSegment (m_content m) annotations None],
                m_end m)
    end in
  '(richText, lastIndex) ← fold_left step nonOverlapping (Some ([], 0));
  Some (richText ++ plainBefore text lastIndex (length text)).

(** The end of [parseInlineMarkdown]: long runs are split, and an empty
    result becomes one empty run. *)
Definition finishRuns (richText : list RichText) : list RichText :=
  let result := concat (map splitLongSegment richText) in
  match result with [] => [emptyRun] | _ => result end.

(** The recursion is bounded by [fuel]; [None] stands for a call that
    does not return. *)
Fixpoint parseInline_fuel (fuel : nat) (text : jsstring) : option (list RichText) :=
  match fuel with
  | O => None
  | S fuel' =>
      if blank text then Some [emptyRun]
      else finishRuns <$> buildRichText (parseInline_fuel fuel') text
  end.

Definition parseInlineMarkdown (text : jsstring) : option (list RichText) :=
  parseInline_fuel (S (length text)) text.

End InlineFormatter.

(* ====================================================================== *)
(** ** Background worker: blocks and block creators *)
(* ====================================================================== *)

(** The value read from [langMap[key]]: a string of the table, or a member
    inherited from [Object.prototype] (a function or object, truthy). *)
Inductive LangValue : Type :=
| LangString (s : jsstring)
| LangInherited (name : jsstring).

(** The block objects of the target API.  [children] is [None] when the
    object has no [children] key. *)
#[warnings="-register-all"]
Inductive Block : Type :=
| Paragraph (rich_text : list RichText)
| Heading (level : nat) (rich_text : list RichText)
| BulletedListItem (rich_text : list RichText) (children : option (list Block))
| NumberedListItem (rich_text : list RichText) (children : option (list Block))
| ToDo (rich_text : list RichText) (checked : bool) (children : option (list Block))
| Quote (rich_text : list RichText)
| Callout (rich_text : list RichText) (icon : jsstring) (color : jsstring)
| Code (rich_text : list RichText) (language : LangValue)
| Image (external_url : jsstring) (caption : list RichText)
| Divider
| Table (table_width : nat) (rows : list (list (list RichText))).

Local Open Scope string_scope.

(** [new Set([...])] of [normalizeLanguage]. *)
Definition validNotionLanguages : list jsstring :=
  map js [
    "abap"; "abc"; "agda"; "arduino"; "ascii art"; "assembly"; "bash";
    "basic"; "bnf"; "c"; "c#"; "c++"; "clojure"; "coffeescript"; "coq";
    "css"; "dart"; "dhall"; "diff"; "docker"; "ebnf"; "elixir"; "elm";
    "erlang"; "f#"; "flow"; "fortran"; "gherkin"; "glsl"; "go"; "graphql";
    "groovy"; "haskell"; "hcl"; "html"; "idris"; "java"; "javascript";
    "json"; "julia"; "kotlin"; "latex"; "less"; "lisp"; "livescript";
    "llvm ir"; "lua"; "makefile"; "markdown"; "markup"; "matlab";
    "mathematica"; "mermaid"; "nix"; "notion formula"; "objective-c";
    "ocaml"; "pascal"; "perl"; "php"; "plain text"; "powershell"; "prolog";
    "protobuf"; "purescript"; "python"; "r"; "racket"; "reason"; "ruby";
    "rust"; "sass"; "scala"; "scheme"; "scss"; "shell"; "smalltalk";
    "solidity"; "sql"; "swift"; "toml"; "typescript"; "vb.net"; "verilog";
    "vhdl"; "visual basic"; "webassembly"; "xml"; "yaml"; "java/c/c++/c#" ].

(** The object literal [langMap], entry by entry in source order.  A key
    written twice keeps the value written last. *)
Definition langMap : list (jsstring * jsstring) :=
  map (fun e => (js (fst e), js (snd e))) [
    ("js", "javascript"); ("ts", "typescript"); ("py", "python");
    ("rb", "ruby"); ("sh", "bash"); ("shell", "shell"); ("zsh", "shell");
    ("yml", "yaml"); ("md", "markdown"); ("cpp", "c++"); ("csharp", "c#");
    ("cs", "c#"); ("fsharp", "f#"); ("fs", "f#"); ("rs", "rust");
    ("objc", "objective-c"); ("obj-c", "objective-c");
    ("vb", "visual basic"); ("tex", "latex"); ("dockerfile", "docker");
    ("make", "makefile"); ("asm", "assembly"); ("wasm", "webassembly");
    ("gql", "graphql"); ("hbs", "markup"); ("handlebars", "markup");
    ("pug", "markup"); ("jade", "markup"); ("text", "plain text");
    ("txt", "plain text"); ("plaintext", "plain text");
    ("none", "plain text"); ("", "plain text"); ("f#", "fsharp");
    ("vb", "vb"); ("vbnet", "vb"); ("csharp", "csharp"); ("c#", "csharp");
    ("powershell", "powershell"); ("ps1", "powershell");
    ("dockerfile", "dockerfile"); ("makefile", "makefile");
    ("cmake", "makefile"); ("diff", "diff"); ("patch", "diff") ].

Definition ownProperty (entries : list (jsstring * jsstring)) (key : jsstring)
  : option jsstring :=
  snd <$> find (fun e => eqb (fst e) key) (rev entries).

(** Property names every object literal inherits. *)
Definition objectPrototypeKeys : list jsstring :=
  map js [ "constructor"; "__proto__"; "hasOwnProperty"; "isPrototypeOf";
    "propertyIsEnumerable"; "toLocaleString"; "toString"; "valueOf";
    "__defineGetter__"; "__defineSetter__"; "__lookupGetter__";
    "__lookupSetter__" ].

Local Close Scope string_scope.

(** [obj[key]]: [None] is [undefined]. *)
Definition propertyGet (entries : list (jsstring * jsstring)) (key : jsstring)
  : option LangValue :=
  match ownProperty entries key with
  | Some v => Some (LangString v)
  | None =>
      if existsb (eqb key) objectPrototypeKeys then Some (LangInherited key) else None
  end.

Definition truthy (v : option LangValue) : bool :=
  match v with
  | Some (LangString []) | None => false
  | Some _ => true
  end.

Definition plain_text : jsstring := js "plain text".

Definition normalizeLanguage (lang : jsstring) : LangValue :=
  if blank lang then LangString plain_text
  else
    let normalized := trim (toLowerCase lang) in
    match propertyGet langMap normalized with
    | Some v =>
        if truthy (Some v) then v
        else if existsb (eqb normalized) validNotionLanguages
             then LangString normalized else LangString plain_text
    | None =>
        if existsb (eqb normalized) validNotionLanguages
        then LangString normalized else LangString plain_text
    end.

(** [.replace(/\r\n/g, '\n')] and [.replace(/\r/g, '\n')] *)
Fixpoint replaceCRLF (s : jsstring) : jsstring :=
  match s with
  | [] => []
  | c :: s' =>
      match s' with
      | d :: s'' =>
          if ((c =? 13) && (d =? 10))%N then 10%N :: replaceCRLF s''
          else c :: replaceCRLF s'
      | [] => [c]
      end
  end.
Definition replaceCR (s : jsstring) : jsstring :=
  map (fun c => if (c =? 13)%N then 10%N else c) s.

Definition MAX_CODE_LENGTH : nat := 2000.

Definition truncation_notice : jsstring :=
  [10; 10]%N ++ js "... (truncated, original code too long) ...".

Definition createCodeBlock (code : jsstring) (language : jsstring) : Block :=
  let normalizedLang := normalizeLanguage language in
  let codeString := replaceCR (replaceCRLF code) in
  if length codeString <=? MAX_CODE_LENGTH then
    Code [mkRun codeString noAnnotations None] normalizedLang
  else
    let truncated := slice codeString 0 (MAX_CODE_LENGTH - 100) ++ truncation_notice in
    Code [mkRun truncated noAnnotations None] normalizedLang.

Definition createDividerBlock : Block := Divider.

(** The picture-frame emoji, U+1F5BC U+FE0F, in UTF-16. *)
Definition emoji_frame : jsstring := [55357; 56764; 65039]%N.
(** The page emoji, U+1F4C4. *)
Definition emoji_page : jsstring := [55357; 56516]%N.

(** [/^!\[(.*?)\]\((.*?)\)$/] *)
Definition re_image : regex :=
  Seq Bol (Seq (Lit (js "![")) (Seq (Group 1 (Star false (Chr dot)))
    (Seq (Lit (js "](")) (Seq (Group 2 (Star false (Chr dot)))
      (Seq (Lit (js ")")) Eol))))).

Section BlockCreators.

Variable URL : jsstring -> option URLRecord.

Definition createParagraphBlock (text : jsstring) : option Block :=
  Paragraph <$> parseInlineMarkdown URL text.

Definition createHeadingBlock (level : nat) (text : jsstring) : option Block :=
  Heading (Nat.min (Nat.max level 1) 3) <$> parseInlineMarkdown URL text.

Definition createBulletedListItem (text : jsstring) : option Block :=
  (fun rt => BulletedListItem rt None) <$> parseInlineMarkdown URL text.

Definition createNumberedListItem (text : jsstring) : option Block :=
  (fun rt => NumberedListItem rt None) <$> parseInlineMarkdown URL text.

Definition createTodoBlock (text : jsstring) (checked : bool) : option Block :=
  (fun rt => ToDo rt checked None) <$> parseInlineMarkdown URL text.

Definition createQuoteBlock (text : jsstring) : option Block :=
  Quote <$> parseInlineMarkdown URL text.

Definition createImageBlock (url caption : jsstring) : option Block :=
  match validateAndCleanUrl URL url with
  | None =>
      let imageText :=
        match caption with [] => js "Image" | _ => js "Image: " ++ caption end in
      let imageUrl := match url with [] => js "N/A" | _ => url end in
      let isValidHttpUrl :=
        startsWith imageUrl (js "http://") || startsWith imageUrl (js "https://") in
      let richText :=
        [mkRun imageText noAnnotations None] ++
        (if isValidHttpUrl
         then [mkRun (js " - View original image") noAnnotations (Some imageUrl)]
         else [mkRun (js " - URL: " ++ imageUrl) noAnnotations None]) in
      Some (Callout richText emoji_frame (js "yellow_background"))
  | Some validUrl =>
      cap ← match caption with
            | [] => Some []
            | _ => parseInlineMarkdown URL caption
            end;
      Some (Image validUrl cap)
  end.

(** The "Images" step of the tokenizer loop: [None] when the line is
    not a standalone image. *)
Definition imageRule (line : jsstring) : option (option Block) :=
  imageMatch ← exec re_image line;
  Some (createImageBlock (default [] (group 2 imageMatch))
                         (default [] (group 1 imageMatch))).

End BlockCreators.

(* ====================================================================== *)
(** ** Background worker: the block tokenizer *)
(* ====================================================================== *)

Definition fence3 : jsstring := js "```".

(** The inner [while] of the fenced-code step, run on the lines that
    follow the opening fence: the code lines, and how many lines were
    passed before the closing fence or the end of the input. *)
Fixpoint collectCodeLines (indent : jsstring) (rest : list jsstring)
  : list jsstring * nat :=
  match rest with
  | [] => ([], 0)
  | currentLine :: rest' =>
      let currentTrimmed := trimStart currentLine in
      if startsWith currentTrimmed fence3 && eqb (trim currentTrimmed) fence3
      then ([], 0)
      else
        let codeLine :=
          match indent with
          | _ :: _ =>
              if startsWith currentLine indent
              then drop (length indent) currentLine else currentLine
          | [] => currentLine
          end in
        let '(codeLines, n) := collectCodeLines indent rest' in
        (codeLine :: codeLines, S n)
  end.

(** The fenced-code step at line [i]: the block and the new cursor. *)
Definition fencedCode (lines : list jsstring) (i : nat) (line : jsstring) : Block * nat :=
  let trimmedLine := trimStart line in
  let leadingSpaces := length line - length trimmedLine in
  let afterFence := trim (drop 3 trimmedLine) in
  let language := match afterFence with [] => plain_text | _ => afterFence end in
  let indent := take leadingSpaces line in
  let '(codeLines, n) := collectCodeLines indent (drop (S i) lines) in
  let codeContent := join [10%N] codeLines in
  (createCodeBlock codeContent language, S (S i + n)).

Section Tokenizer.

(** Steps 3 to 9 of the loop (heading, rule, table, quote, list, image,
    paragraph) taken together: the blocks pushed for the line at the
    cursor and the new cursor. *)
Variable laterRules : list jsstring -> nat -> list Block * nat.

(** The loop [while (i < lines.length)].  [None] stands for a loop that
    does not end. *)
Fixpoint tokenizeFrom (fuel : nat) (lines : list jsstring) (i : nat)
  : option (list Block) :=
  match fuel with
  | O => None
  | S fuel' =>
      match lines !! i with
      | None => Some []
      | Some line =>
          if blank line then tokenizeFrom fuel' lines (S i)
          else if startsWith (trimStart line) fence3 then
            let '(block, next) := fencedCode lines i line in
            cons block <$> tokenizeFrom fuel' lines next
          else
            let '(blocks, next) := laterRules lines i in
            app blocks <$> tokenizeFrom fuel' lines next
      end
  end.

Definition markdownToNotionBlocks (markdown : jsstring) : option (list Block) :=
  let lines := split 10 markdown in
  tokenizeFrom (S (length lines)) lines 0.

End Tokenizer.

(* ====================================================================== *)
(** ** Background worker: the list parser and the list tree builder *)
(* ====================================================================== *)

Inductive ListType : Type := TaskList | BulletList | NumberList.

Record ListItem : Type := mkItem {
  item_indent : nat;
  indentLevel : Z;
  item_content : jsstring;
  item_checked : bool;
  lineIndex : nat
}.

(** [Seq] over a list of parts. *)
Definition seqs (rs : list regex) : regex := fold_right Seq Eps rs.

(** Building blocks of the numbering patterns: [\d+], [\s*], [\.],
    the class of the ideographic comma U+3001 and the full stop, and
    [(\d)\1+]. *)
Definition re_digits : regex := Plus true (Chr is_digit).
Definition re_spaces0 : regex := Star true (Chr is_space).
Definition re_spaces1 : regex := Plus true (Chr is_space).
Definition re_dot : regex := Lit (js ".").
Definition re_sep : regex := Chr (fun c => ((c =? 12289) || (c =? 46))%N).
Definition re_dup (n : nat) : regex :=
  Seq (Group n (Chr is_digit)) (Plus true (Backref n)).

(** The thirteen [replace] calls of the numbering clean-up, in order,
    each with its replacement. *)
Definition numberingSteps : list (regex * jsstring) :=
  [ (seqs [Bol; re_dup 1; re_dot; Group 2 re_digits; re_sep; re_spaces0], []);
    (seqs [Bol; re_dup 1; re_dot; Group 2 re_digits; re_dot; Group 3 re_digits;
           re_sep; re_spaces0], []);
    (seqs [Bol; re_dup 1; re_dot; Group 2 re_digits; re_dot; Group 3 re_digits;
           re_dot; Group 4 re_digits; re_sep; re_spaces0], []);
    (seqs [Bol; re_dup 1; re_sep; re_spaces0], []);
    (seqs [Bol; Group 1 re_digits; Lit (js "["); Group 2 re_digits; re_sep], js "[");
    (seqs [Bol; Group 1 re_digits; Lit (js "[");
           Group 2 (seqs [re_digits; re_dot; re_digits]); re_sep], js "[");
    (seqs [Bol; Group 1 re_digits; Lit (js "[");
           Group 2 (seqs [re_digits; re_dot; re_digits; re_dot; re_digits]); re_sep],
     js "[");
    (seqs [Bol; re_dup 1; Lit (js "["); re_dup 2; re_sep], js "[");
    (seqs [Bol; re_digits; re_dot; re_digits; re_dot; re_digits; re_dot; re_digits;
           re_sep; re_spaces0], []);
    (seqs [Bol; re_digits; re_dot; re_digits; re_dot; re_digits; re_sep; re_spaces0], []);
    (seqs [Bol; re_digits; re_dot; re_digits; re_sep; re_spaces0], []);
    (seqs [Bol; re_digits; re_sep; re_spaces0], []);
    (seqs [Bol; re_digits; re_dot; re_digits; re_spaces1; re_digits; re_dot; re_digits;
           re_sep; re_spaces0], []) ].

(** [cleanListContent] of [buildNestedList]; [parseNestedList] runs the
    same calls on bullet and numbered items. *)
Definition cleanListContent (content : jsstring) : jsstring :=
  fold_left (fun c step => replace (fst step) c (snd step)) numberingSteps content.

(** [/^(\s{0,})- \[([ x])\]\s+(.+)$/] *)
Definition re_task_item : regex :=
  seqs [Bol; Group 1 re_spaces0; Lit (js "- ["); Group 2 (Chr (one " x"));
        Lit (js "]"); re_spaces1; Group 3 (Plus true (Chr dot)); Eol].
(** [/^(\s{0,})[-*+]\s+(.+)$/] *)
Definition re_bullet_item : regex :=
  seqs [Bol; Group 1 re_spaces0; Chr (one "-*+"); re_spaces1;
        Group 2 (Plus true (Chr dot)); Eol].
(** [/^(\s{0,})\d+\.\s+(.+)$/] *)
Definition re_number_item : regex :=
  seqs [Bol; Group 1 re_spaces0; re_digits; re_dot; re_spaces1;
        Group 2 (Plus true (Chr dot)); Eol].
(** [/^(\s{0,})[-*+]\s+/] and [/^(\s{0,})\d+\.\s+/] *)
Definition re_bullet_start : regex :=
  seqs [Bol; Group 1 re_spaces0; Chr (one "-*+"); re_spaces1].
Definition re_number_start : regex :=
  seqs [Bol; Group 1 re_spaces0; re_digits; re_dot; re_spaces1].
(** [/^(\s{0,})([-*+]|\d+\.|-\s*\[[ x]\])\s+/] *)
Definition re_next_item : regex :=
  seqs [Bol; Group 1 re_spaces0;
        Group 2 (Alt (Chr (one "-*+"))
                (Alt (Seq re_digits re_dot)
                     (seqs [Lit (js "-"); re_spaces0; Lit (js "[");
                            Chr (one " x"); Lit (js "]")])));
        re_spaces1].

(** The item read from one line: indent, content, checked. *)
Definition matchItem (listType : ListType) (line : jsstring)
  : option (nat * jsstring * bool) :=
  match listType with
  | TaskList =>
      m ← exec re_task_item line;
      Some (length (default [] (group 1 m)), default [] (group 3 m),
            eqb (default [] (group 2 m)) (js "x"))
  | BulletList =>
      m ← exec re_bullet_item line;
      Some (length (default [] (group 1 m)),
            cleanListContent (default [] (group 2 m)), false)
  | NumberList =>
      m ← exec re_number_item line;
      Some (length (default [] (group 1 m)),
            cleanListContent (default [] (group 2 m)), false)
  end.

(** The collecting loop of [parseNestedList], run on the lines from the
    cursor [i] on; [baseIndent] is [None] for [-1].  Returns the items and
    the cursor the loop stopped at. *)
Fixpoint collectItems (listType : ListType) (rest : list jsstring) (i : nat)
    (baseIndent : option nat) : list ListItem * nat :=
  match rest with
  | [] => ([], i)
  | line :: rest' =>
      match matchItem listType line with
      | Some (indent, content, checked) =>
          let base := default indent baseIndent in
          let relativeIndent := (Z.of_nat indent - Z.of_nat base)%Z in
          let item := mkItem indent (relativeIndent / 2)%Z content checked i in
          let '(items, stop) := collectItems listType rest' (S i) (Some base) in
          (item :: items, stop)
      | None =>
          match rest' with
          | nextLine :: _ =>
              if blank line then
                match exec re_next_item nextLine with
                | Some nextMatch =>
                    let nextIndent := length (default [] (group 1 nextMatch)) in
                    if match baseIndent with
                       | None => true
                       | Some b => b <=? nextIndent
                       end
                    then collectItems listType rest' (S i) baseIndent
                    else ([], i)
                | None => ([], i)
                end
              else ([], i)
          | [] => ([], i)
          end
      end
  end.

(** A node of the tree under construction.  Nodes are objects shared
    between [rootNodes], the [children] arrays and [nodeStack]; they live
    in a heap and are named by their position in it. *)
Record TreeNode : Type := mkNode {
  node_item : ListItem;
  node_children : list nat
}.

Record BuildState : Type := mkBuild {
  heap : list TreeNode;
  rootNodes : list nat;
  nodeStack : list (nat * Z)           (* top of the stack first *)
}.

(** [while (nodeStack.length > 0 && top.indentLevel >= item.indentLevel) pop] *)
Fixpoint popStack (level : Z) (stack : list (nat * Z)) : list (nat * Z) :=
  match stack with
  | (ref, l) :: below => if (level <=? l)%Z then popStack level below else stack
  | [] => []
  end.

Definition pushChild (child : nat) (node : TreeNode) : TreeNode :=
  mkNode (node_item node) (node_children node ++ [child]).

(** One turn of the tree-building loop. *)
Definition addNode (st : BuildState) (item : ListItem) : BuildState :=
  let ref := length (heap st) in
  let heap1 := heap st ++ [mkNode item []] in
  let stack := popStack (indentLevel item) (nodeStack st) in
  match stack with
  | [] =>
      mkBuild heap1 (rootNodes st ++ [ref]) [(ref, indentLevel item)]
  | (parent, _) :: _ =>
      mkBuild (alter (pushChild ref) parent heap1) (rootNodes st)
              ((ref, indentLevel item) :: stack)
  end.

Definition buildTree (items : list ListItem) : BuildState :=
  fold_left addNode items (mkBuild [] [] []).

(** [block[blockType].children = children] *)
Definition setChildren (block : Block) (children : list Block) : Block :=
  match block with
  | BulletedListItem rt _ => BulletedListItem rt (Some children)
  | NumberedListItem rt _ => NumberedListItem rt (Some children)
  | ToDo rt checked _ => ToDo rt checked (Some children)
  | other => other
  end.

(** [`[ind${level}]`] followed by a space. *)
Definition indentMarker (level : nat) : jsstring :=
  js "[ind" ++ dec level ++ js "] ".

Section ListTreeBuilder.

Variable URL : jsstring -> option URLRecord.
Variable listType : ListType.

Definition createListItemBlock (content : jsstring) (checked : bool) : option Block :=
  let cleanContent := cleanListContent content in
  match listType with
  | TaskList => createTodoBlock URL cleanContent checked
  | BulletList => createBulletedListItem URL cleanContent
  | NumberList => createNumberedListItem URL cleanContent
  end.

(** [flattenTreeToBlocks(nodes, depth, resultArray)]: the blocks pushed
    onto [resultArray].  The recursion follows the references of the
    heap and is bounded by [fuel]. *)
Fixpoint flattenTreeToBlocks (fuel : nat) (h : list TreeNode) (nodes : list nat)
    (depth : nat) {struct fuel} : option (list Block) :=
  match fuel with
  | O => None
  | S fuel' =>
      (fix each (nodes : list nat) : option (list Block) :=
         match nodes with
         | [] => Some []
         | ref :: others =>
             node ← h !! ref;
             let content :=
               if 3 <=? depth
               then indentMarker (depth + 1) ++ item_content (node_item node)
               else item_content (node_item node) in
             block ← createListItemBlock content (item_checked (node_item node));
             pushed ←
               match node_children node with
               | [] => Some [block]
               | _ :: _ =>
                   below ← flattenTreeToBlocks fuel' h (node_children node) (depth + 1);
                   if depth <? 2 then Some [setChildren block below]
                   else Some (block :: below)
               end;
             rest ← each others;
             Some (pushed ++ rest)
         end) nodes
  end.

Definition buildNestedList (items : list ListItem) : option (list Block) :=
  match items with
  | [] => Some []
  | _ :: _ =>
      let st := buildTree items in
      flattenTreeToBlocks (S (length (heap st))) (heap st) (rootNodes st) 0
  end.

Definition parseNestedList (lines : list jsstring) (startIndex : nat)
  : option (list Block * nat) :=
  let '(items, stop) := collectItems listType (drop startIndex lines) startIndex None in
  nestedBlocks ← buildNestedList items;
  Some (nestedBlocks, stop).

End ListTreeBuilder.

(** [parseList]: [None] when the line opens no list. *)
Definition parseList (URL : jsstring -> option URLRecord) (lines : list jsstring)
    (startIndex : nat) : option (option (list Block * nat)) :=
  line ← lines !! startIndex;
  if test re_task_item line then Some (parseNestedList URL TaskList lines startIndex)
  else if test re_bullet_start line then Some (parseNestedList URL BulletList lines startIndex)
  else if test re_number_start line then Some (parseNestedList URL NumberList lines startIndex)
  else None.

(* ====================================================================== *)
(** ** Background worker: page-id validation and the page assembler *)
(* ====================================================================== *)

(** A thrown value: an [Error] object with its [name] and [message]. *)
Record JSError : Type := mkError {
  err_name : jsstring;
  err_message : jsstring
}.

Definition Error (message : jsstring) : JSError := mkError (js "Error") message.

(** [String(error)] *)
Definition errorToString (e : JSError) : jsstring :=
  match err_name e, err_message e with
  | name, [] => name
  | [], message => message
  | name, message => name ++ js ": " ++ message
  end.

(** [error.message || String(error)] *)
Definition errorText (e : JSError) : jsstring :=
  match err_message e with
  | [] => errorToString e
  | message => message
  end.

(** [/-([a-f0-9]{32})$/i], [/([a-f0-9]{32})$/i] and [/^[a-f0-9]{32}$/i] *)
Definition re_dash_id : regex :=
  Seq (Lit (js "-")) (Seq (Group 1 (Rep 32 (Chr hex_i))) Eol).
Definition re_tail_id : regex := Seq (Group 1 (Rep 32 (Chr hex_i))) Eol.
Definition re_bare_id : regex := Seq Bol (Seq (Rep 32 (Chr hex_i)) Eol).

(** [s.replace(/-/g, '')] *)
Definition removeDashes (s : jsstring) : jsstring :=
  filter (fun c => c <> 45%N) s.

Definition formatNotionId (id : jsstring) : jsstring :=
  let cleanId := removeDashes id in
  if negb (length cleanId =? 32) then id
  else slice cleanId 0 8 ++ js "-" ++ slice cleanId 8 12 ++ js "-" ++
       slice cleanId 12 16 ++ js "-" ++ slice cleanId 16 20 ++ js "-" ++
       slice cleanId 20 32.

Section PageId.

Variable URL : jsstring -> option URLRecord.

(** [inl e] is [throw e]. *)
Definition extractAndValidatePageId (input : jsstring) : JSError + jsstring :=
  if blank input then inl (Error (js "Parent page ID is required"))
  else
    let trimmed := trim input in
    if startsWith trimmed (js "http://") || startsWith trimmed (js "https://") then
      (* whatever is thrown inside the try block is replaced by the catch *)
      match URL trimmed with
      | None => inl (Error (js "Invalid Notion page URL format"))
      | Some url =>
          let found :=
            match exec re_dash_id (pathname url) with
            | Some m => Some m
            | None => exec re_tail_id (pathname url)
            end in
          match found with
          | Some m => inr (formatNotionId (default [] (group 1 m)))
          | None => inl (Error (js "Invalid Notion page URL format"))
          end
      end
    else
      let cleanId := removeDashes trimmed in
      if negb (test re_bare_id cleanId)
      then inl (Error (js "Invalid page ID format. Expected 32-character hex string."))
      else inr (formatNotionId cleanId).

End PageId.

(** The body of a request to the API. *)
Inductive RequestBody : Type :=
| PageData (parent_page_id : jsstring) (title : jsstring) (children : list Block)
| ChildrenData (children : list Block).

(** What the worker does to the outside, in order. *)
Inductive Event : Type :=
| ProgressUpdate (percent : Z) (status : jsstring)
| NotionRequest (endpoint method : jsstring) (body : RequestBody) (apiToken : jsstring).

(** The parsed body of a response. *)
Record ApiData : Type := mkData {
  data_message : option jsstring;
  data_id : jsstring;
  data_url : jsstring
}.

(** What [fetch] and [response.json()] come to. *)
Inductive FetchOutcome : Type :=
| FetchRejected (e : JSError)
| FetchResponse (ok : bool) (status : nat) (data : ApiData).

(** What [handleCreatePage] answers: [{ success, pageUrl, pageId }] or
    [{ success, error }]. *)
Record HandlerResult : Type := mkResult {
  success : bool;
  pageUrl : option jsstring;
  pageId : option jsstring;
  error : option jsstring
}.

(** What reaches [handleCreatePage] in [message.data]; an absent field is
    the empty string (both are falsy). *)
Record PageRequest : Type := mkRequest {
  req_title : jsstring;
  req_markdown : jsstring;
  req_parentPageId : jsstring;
  req_apiToken : jsstring;
  req_sourceUrl : jsstring
}.

(** How a computation ends: with a value, with a thrown error, or not at
    all. *)
Inductive Outcome (A : Type) : Type :=
| Returned (a : A)
| Thrown (e : JSError)
| Diverged.
Arguments Returned {A} a.
Arguments Thrown {A} e.
Arguments Diverged {A}.

(** Computations that log events as they go. *)
Definition Eff (A : Type) : Type := list Event -> Outcome A * list Event.

Definition ret {A : Type} (a : A) : Eff A := fun tr => (Returned a, tr).
Definition throw {A : Type} (e : JSError) : Eff A := fun tr => (Thrown e, tr).
Definition diverge {A : Type} : Eff A := fun tr => (Diverged, tr).
Definition bind {A B : Type} (m : Eff A) (k : A -> Eff B) : Eff B :=
  fun tr =>
    match m tr with
    | (Returned a, tr') => k a tr'
    | (Thrown e, tr') => (Thrown e, tr')
    | (Diverged, tr') => (Diverged, tr')
    end.
(** [try { m } catch (error) { handler(error) }] *)
Definition tryCatch {A : Type} (m : Eff A) (handler : JSError -> Eff A) : Eff A :=
  fun tr =>
    match m tr with
    | (Thrown e, tr') => handler e tr'
    | other => other
    end.
Definition lift {A : Type} (r : JSError + A) : Eff A :=
  match r with inl e => throw e | inr a => ret a end.

Notation "x <- m ;; k" := (bind m (fun x => k))
  (at level 100, m at next level, right associativity).
Notation "m ;;; k" := (bind m (fun _ => k))
  (at level 100, right associativity).

Definition MAX_BLOCKS_PER_REQUEST : nat := 100.

Definition placeholderBlock : Block :=
  Paragraph [mkRun (js "(Content could not be converted)") noAnnotations None].

Definition sourceCallout (sourceUrl : jsstring) : Block :=
  Callout [mkRun (js "Imported from Confluence: ") noAnnotations None;
           mkRun sourceUrl noAnnotations (Some sourceUrl)]
          emoji_page (js "gray_background").

(** [80 + Math.floor((chunkIndex / totalChunks) * 15)], in exact
    arithmetic.  The source computes the quotient and the product in
    binary64; the two agree whenever the quotient is exact, in particular
    for [chunkIndex = totalChunks]. *)
Definition chunkProgress (chunkIndex totalChunks : nat) : Z :=
  (80 + (Z.of_nat chunkIndex * 15) / Z.of_nat totalChunks)%Z.

Section PageAssembler.

Variable URL : jsstring -> option URLRecord.
Variable laterRules : list jsstring -> nat -> list Block * nat.

(** The network: the outcome of a request, given everything the worker
    did before it. *)
Variable fetch : list Event -> Event -> FetchOutcome.

Definition sendProgressUpdate (percent : Z) (status : jsstring) : Eff unit :=
  fun tr => (Returned tt, tr ++ [ProgressUpdate percent status]).

Definition notionRequest (endpoint method : jsstring) (body : RequestBody)
    (apiToken : jsstring) : Eff ApiData :=
  fun tr =>
    let request := NotionRequest endpoint method body apiToken in
    match fetch tr request with
    | FetchRejected e => (Thrown e, tr ++ [request])
    | FetchResponse ok status data =>
        if ok then (Returned data, tr ++ [request])
        else
          let message :=
            match data_message data with
            | Some (c :: m) => c :: m
            | _ => js "API error: " ++ dec status
            end in
          (Thrown (Error message), tr ++ [request])
    end.

Definition appendEndpoint (pageId : jsstring) : jsstring :=
  js "/blocks/" ++ pageId ++ js "/children".

Fixpoint appendEach (pageId : jsstring) (chunkList : list (list Block))
    (apiToken : jsstring) : Eff unit :=
  match chunkList with
  | [] => ret tt
  | chunk :: rest =>
      notionRequest (appendEndpoint pageId) (js "PATCH") (ChildrenData chunk) apiToken ;;;
      appendEach pageId rest apiToken
  end.

Definition appendBlocksToPage (pageId : jsstring) (blocks : list Block)
    (apiToken : jsstring) : Eff unit :=
  if length blocks <=? MAX_BLOCKS_PER_REQUEST then
    notionRequest (appendEndpoint pageId) (js "PATCH") (ChildrenData blocks) apiToken ;;;
    ret tt
  else appendEach pageId (chunks MAX_BLOCKS_PER_REQUEST blocks) apiToken.

(** The loop over [remainingBlocks]; [chunkIndex] counts from 1. *)
Fixpoint uploadChunks (pageId apiToken : jsstring) (totalChunks : nat)
    (chunkList : list (list Block)) (chunkIndex : nat) : Eff unit :=
  match chunkList with
  | [] => ret tt
  | chunk :: rest =>
      sendProgressUpdate (chunkProgress chunkIndex totalChunks)
        (js "Uploading blocks " ++ dec chunkIndex ++ js "/" ++ dec totalChunks ++ js "...") ;;;
      appendBlocksToPage pageId chunk apiToken ;;;
      uploadChunks pageId apiToken totalChunks rest (S chunkIndex)
  end.

(** [createNotionPage]; it answers [(pageId, pageUrl)]. *)
Definition createNotionPage (title markdown parentPageId apiToken sourceUrl : jsstring)
  : Eff (jsstring * jsstring) :=
  sendProgressUpdate 60 (js "Converting Markdown to Notion blocks...") ;;;
  converted <- match markdownToNotionBlocks laterRules markdown with
               | Some bs => ret bs
               | None => diverge
               end ;;
  let blocks := match converted with [] => [placeholderBlock] | _ => converted end in
  sendProgressUpdate 65 (js "Generated " ++ dec (length blocks) ++ js " blocks") ;;;
  let blocks := match sourceUrl with
                | [] => blocks
                | _ => sourceCallout sourceUrl :: blocks
                end in
  let initialBlocks := take MAX_BLOCKS_PER_REQUEST blocks in
  let remainingBlocks := drop MAX_BLOCKS_PER_REQUEST blocks in
  sendProgressUpdate 70 (js "Creating page in Notion...") ;;;
  page <- notionRequest (js "/pages") (js "POST")
            (PageData parentPageId title initialBlocks) apiToken ;;
  sendProgressUpdate 80 (js "Page created, uploading content...") ;;;
  (match remainingBlocks with
   | [] => ret tt
   | _ :: _ =>
       let totalChunks :=
         (length remainingBlocks + (MAX_BLOCKS_PER_REQUEST - 1)) / MAX_BLOCKS_PER_REQUEST in
       uploadChunks (data_id page) apiToken totalChunks
         (chunks MAX_BLOCKS_PER_REQUEST remainingBlocks) 1
   end) ;;;
  sendProgressUpdate 95 (js "Finalizing...") ;;;
  ret (data_id page, data_url page).

Definition handleCreatePage (data : PageRequest) : Eff HandlerResult :=
  tryCatch
    (match req_apiToken data with
     | [] => throw (Error (js "Notion API token is required"))
     | _ => ret tt
     end ;;;
     match req_title data with
     | [] => throw (Error (js "Page title is required"))
     | _ => ret tt
     end ;;;
     match req_markdown data with
     | [] => throw (Error (js "Markdown content is required"))
     | _ => ret tt
     end ;;;
     validatedPageId <- lift (extractAndValidatePageId URL (req_parentPageId data)) ;;
     sendProgressUpdate 55 (js "Starting page creation...") ;;;
     result <- createNotionPage (req_title data) (req_markdown data) validatedPageId
                 (req_apiToken data) (req_sourceUrl data) ;;
     ret (mkResult true (Some (snd result)) (Some (fst result)) None))
    (fun error =>
       sendProgressUpdate 50 (js "Error: " ++ err_message error) ;;;
       ret (mkResult false None None (Some (errorText error)))).

End PageAssembler.

(** The requests and the percentages of a trace, in order. *)
Definition requestsOf (tr : list Event) : list Event :=
  omap (fun e => match e with NotionRequest _ _ _ _ => Some e | _ => None end) tr.
Definition percentsOf (tr : list Event) : list Z :=
  omap (fun e => match e with ProgressUpdate p _ => Some p | _ => None end) tr.

(* ====================================================================== *)
(** ** Content script: the code-fence serializer *)
(* ====================================================================== *)

(** [while (codeContent.includes('`'.repeat(fenceCount))) fenceCount++] *)
Fixpoint fenceCount_fuel (fuel : nat) (codeContent : jsstring) (fenceCount : nat)
  : option nat :=
  match fuel with
  | O => None
  | S fuel' =>
      if includes codeContent (JS.repeat 96 fenceCount)
      then fenceCount_fuel fuel' codeContent (S fenceCount)
      else Some fenceCount
  end.

(** The fence of a code block: three backticks, or more when the code
    contains them. *)
Definition chooseFence (codeContent : jsstring) : option jsstring :=
  if includes codeContent fence3 then
    JS.repeat 96 <$> fenceCount_fuel (S (length codeContent)) codeContent 4
  else Some fence3.

(** The replacement of the rule [confluenceCodeBlock], given the language
    and the text read from the [<pre>] element. *)
Definition confluenceCodeBlock (language codeContent : jsstring) : option jsstring :=
  fence ← chooseFence codeContent;
  Some ([10; 10]%N ++ fence ++
        match language with [] => [] | _ => js " " ++ language end ++
        [10%N] ++ codeContent ++ [10%N] ++ fence ++ [10; 10]%N).

(* ====================================================================== *)
(** ** Content script: the table grid resolver *)
(* ====================================================================== *)

(** The numbers of the resolver are integers held in doubles: a finite
    integer that a double can hold, an infinity, or [NaN].  The two
    zeros behave alike in everything the resolver does with them. *)
Inductive JSNumber : Type :=
| Finite (z : Z)
| PlusInfinity
| MinusInfinity
| NotANumber.

(** The Number value for the integer [z]: the nearest double, a tie
    going to the even significand of 53 bits, and an infinity from
    [2^1024 - 2^970] on.  Integers up to [2^53] in magnitude are exact. *)
Definition toNumber (z : Z) : JSNumber :=
  let a := Z.abs z in
  if (a <=? 2 ^ 53)%Z then Finite z
  else
    let e := (Z.log2 a - 52)%Z in
    let q := (a / 2 ^ e)%Z in
    let r := (a mod 2 ^ e)%Z in
    let half := (2 ^ (e - 1))%Z in
    let q := if (half <? r)%Z || ((half =? r)%Z && Z.odd q) then (q + 1)%Z else q in
    let rounded := (q * 2 ^ e)%Z in
    if (2 ^ 1024 <=? rounded)%Z
    then (if (z <? 0)%Z then MinusInfinity else PlusInfinity)
    else Finite (Z.sgn z * rounded).

(** [a + b] *)
Definition jsAdd (a b : JSNumber) : JSNumber :=
  match a, b with
  | NotANumber, _ | _, NotANumber => NotANumber
  | PlusInfinity, MinusInfinity | MinusInfinity, PlusInfinity => NotANumber
  | PlusInfinity, _ | _, PlusInfinity => PlusInfinity
  | MinusInfinity, _ | _, MinusInfinity => MinusInfinity
  | Finite x, Finite y => toNumber (x + y)
  end.

(** A [<td>] or [<th>]: its text, and the integers [parseInt] reads in
    its [rowspan] and [colspan] attributes ([None] when it reads none
    and answers [NaN]). *)
Record TableCell : Type := mkCell {
  textContent : jsstring;
  rowspanAttr : option Z;
  colspanAttr : option Z
}.

(** [parseInt(...) || 1]: [NaN] and the zeros give 1. *)
Definition spanOf (attr : option Z) : JSNumber :=
  match attr with
  | None | Some 0%Z => Finite 1
  | Some n => toNumber n
  end.

(** [.replace(/\n+/g, ' ')] and [.replace(/\s+/g, ' ')]: every maximal
    run of the class becomes one space. *)
Fixpoint collapseRuns (p : N -> bool) (inRun : bool) (s : jsstring) : jsstring :=
  match s with
  | [] => []
  | c :: s' =>
      if p c then (if inRun then collapseRuns p true s' else 32%N :: collapseRuns p true s')
      else c :: collapseRuns p false s'
  end.

(** [.replace(/\|/g, '\\|')] *)
Definition escapePipes (s : jsstring) : jsstring :=
  flat_map (fun c => if (c =? 124)%N then [92; 124]%N else [c]) s.

Definition filler : jsstring := js " ".

Definition cellText (cell : TableCell) : jsstring :=
  let text := trim (textContent cell) in
  let text := collapseRuns (N.eqb 10) false text in
  let text := collapseRuns is_space false text in
  let text := escapePipes text in
  match text with [] => filler | _ => text end.

(** [grid[row][col]]; [None] is [null]. *)
Abbreviation Grid := (list (list (option jsstring))) (only parsing).

Definition setCell (grid : Grid) (row col : nat) (v : jsstring) : Grid :=
  alter (fun cells => <[col := Some v]> cells) row grid.

Fixpoint skipFilled (cells : list (option jsstring)) (col : nat) : nat :=
  match cells with
  | Some _ :: rest => skipFilled rest (S col)
  | _ => col
  end.

(** The two nested [for] loops that fill the span of a cell anchored at
    [(rowIndex, colIndex)]: [rowCount] and [colCount] are the numbers of
    turns the loop conditions allow. *)
Definition fillSpan (grid : Grid) (rowIndex colIndex rowCount colCount : nat)
    (text : jsstring) : Grid :=
  fold_left (fun g r =>
    fold_left (fun g c =>
      if (r =? 0) && (c =? 0)
      then setCell g (rowIndex + r) (colIndex + c) text
      else setCell g (rowIndex + r) (colIndex + c) filler)
      (seq 0 colCount) g)
    (seq 0 rowCount) grid.

(** The turns of [for (let k = 0; k < span && from + k < limit; k++)],
    with [room] for [limit - from]. *)
Definition turns (span : JSNumber) (room : Z) : nat :=
  match span with
  | Finite s => Z.to_nat (Z.min s room)
  | PlusInfinity => Z.to_nat room
  | MinusInfinity | NotANumber => 0
  end.

(** [grid[rowIndex][colIndex] !== null]: it holds of every index that is
    not the index of a [null] of the row [cells], so of the negative
    ones as well, where the row answers [undefined]. *)
Definition notNull (cells : list (option jsstring)) (colIndex : JSNumber) : bool :=
  match colIndex with
  | Finite z =>
      if (z <? 0)%Z then true
      else match cells !! Z.to_nat z with Some None => false | _ => true end
  | _ => true
  end.

(** [colIndex < columnCount] *)
Definition lessThan (colIndex : JSNumber) (columnCount : nat) : bool :=
  match colIndex with
  | Finite z => (z <? Z.of_nat columnCount)%Z
  | MinusInfinity => true
  | PlusInfinity | NotANumber => false
  end.

(** [while (colIndex < columnCount && grid[rowIndex][colIndex] !== null)
    colIndex++], on the row [cells] of the grid, for [fuel] turns at
    most; [None] when the fuel does not suffice. *)
Fixpoint searchLoop (columnCount : nat) (cells : list (option jsstring)) (fuel : nat)
    (colIndex : JSNumber) : option JSNumber :=
  match fuel with
  | O => None
  | S fuel' =>
      if lessThan colIndex columnCount then
        if notNull cells colIndex
        then searchLoop columnCount cells fuel' (jsAdd colIndex (Finite 1))
        else Some colIndex
      else Some colIndex
  end.

Section GridFill.

Variable rowsLength : nat.            (* rows.length *)
Variable columnCount : nat.

(** The outcome of [searchLoop] with fuel enough, [None] when no fuel
    suffices and the loop never ends ([searchLoop_returns],
    [searchLoop_never_ends]).  An index below zero walks up to zero
    first; it gets there from [-2^53 - 3] on, while from [-2^53 - 4]
    down [colIndex++] rounds to a number that is again that far down, as
    it does on [-Infinity].  The comparison fails on [NaN] and on
    [+Infinity]. *)
Definition nextAvailable (cells : list (option jsstring)) (colIndex : JSNumber)
  : option JSNumber :=
  match colIndex with
  | Finite z =>
      if (Z.of_nat columnCount <=? z)%Z then Some colIndex
      else if (z <? - 2 ^ 53 - 3)%Z then None
      else
        let start := Z.to_nat (Z.max 0 z) in
        Some (Finite (Z.of_nat (skipFilled (drop start cells) start)))
  | MinusInfinity => None
  | PlusInfinity | NotANumber => Some colIndex
  end.

(** The callback of [cells.forEach]: the grid and [colIndex] after the
    cell; [None] when the search for the anchor never ends.  After the
    search the index is a column from 0 on, [+Infinity] or [NaN]; on
    [NaN] no comparison holds, so the callback does not return early,
    writes nothing and leaves [NaN]. *)
Definition placeCell (rowIndex : nat) (st : Grid * JSNumber) (cell : TableCell)
  : option (Grid * JSNumber) :=
  let '(grid, colIndex) := st in
  colIndex ← nextAvailable (default [] (grid !! rowIndex)) colIndex;
  let rowspan := spanOf (rowspanAttr cell) in
  let colspan := spanOf (colspanAttr cell) in
  let text := cellText cell in
  match colIndex with
  | Finite c =>
      if (Z.of_nat columnCount <=? c)%Z then Some (grid, colIndex)
      else
        let rowCount := turns rowspan (Z.of_nat rowsLength - Z.of_nat rowIndex) in
        let colCount := turns colspan (Z.of_nat columnCount - c) in
        Some (fillSpan grid rowIndex (Z.to_nat c) rowCount colCount text,
              jsAdd colIndex colspan)
  | PlusInfinity => Some (grid, colIndex)
  | MinusInfinity | NotANumber => Some (grid, jsAdd colIndex colspan)
  end.

(** [cells.forEach(...)] from a state of the row on. *)
Fixpoint placeCells (rowIndex : nat) (cells : list TableCell) (st : Grid * JSNumber)
  : option (Grid * JSNumber) :=
  match cells with
  | [] => Some st
  | cell :: rest => st' ← placeCell rowIndex st cell; placeCells rowIndex rest st'
  end.

Definition fillRow (grid : Grid) (rowIndex : nat) (cells : list TableCell) : option Grid :=
  fst <$> placeCells rowIndex cells (grid, Finite 0).

(** [rows.forEach((row, rowIndex) => ...)] from [rowIndex] on. *)
Fixpoint fillRows (grid : Grid) (rowIndex : nat) (rows : list (list TableCell))
  : option Grid :=
  match rows with
  | [] => Some grid
  | cells :: rest => grid' ← fillRow grid rowIndex cells; fillRows grid' (S rowIndex) rest
  end.

End GridFill.

(** The column count: the sum of the colspans of the first row. *)
Definition columnCountOf (rows : list (list TableCell)) : JSNumber :=
  match rows with
  | [] => Finite 0
  | firstRow :: _ =>
      fold_left (fun n cell => jsAdd n (spanOf (colspanAttr cell))) firstRow (Finite 0)
  end.

(** [columnCount] as a length, when it is one: [new Array(columnCount)]
    throws a [RangeError] on anything but an integer of
    [0 .. 2^32 - 1]. *)
Definition arrayLength (columnCount : JSNumber) : option nat :=
  match columnCount with
  | Finite c =>
      if ((c <? 0) || (4294967295 <? c))%Z then None else Some (Z.to_nat c)
  | _ => None
  end.

(** The grid of the second pass.  [None] stands for no grid: the
    [RangeError] of [new Array(columnCount)], or a search for an anchor
    that never ends. *)
Definition resolveGrid (rows : list (list TableCell)) : option Grid :=
  n ← arrayLength (columnCountOf rows);
  fillRows (length rows) n (replicate (length rows) (replicate n None)) 0 rows.

(** The third pass: one Markdown line per row, the separator after the
    first. *)
Definition rowMarkdown (rowData : list (option jsstring)) : jsstring :=
  js "| " ++ join (js " | ") (map (default filler) rowData) ++ js " |" ++ [10%N].

Definition separatorRow (columnCount : nat) : jsstring :=
  js "|" ++ concat (replicate columnCount (js " --- |")) ++ [10%N].

(** The replacement of the rule [confluenceTable], given the cells of
    the [<tr>] elements. *)
Definition confluenceTable (rows : list (list TableCell)) : option jsstring :=
  match rows with
  | [] => Some []
  | _ :: _ =>
      grid ← resolveGrid rows;
      let body :=
        match grid with
        | [] => []
        | first :: others =>
            rowMarkdown first ++
            separatorRow (default 0 (arrayLength (columnCountOf rows))) ++
            concat (map rowMarkdown others)
        end in
      Some ([10; 10]%N ++ body ++ [10%N])
  end.

(* ====================================================================== *)
(** ** Vocabulary of the statements *)
(* ====================================================================== *)

(** [validNotionLanguages.has(v)] for the value [normalizeLanguage]
    returns. *)
Definition isValidNotionLanguage (v : LangValue) : bool :=
  match v with
  | LangString s => existsb (eqb s) validNotionLanguages
  | LangInherited _ => false
  end.

(** The normalized inputs on which [langMap] answers outside
    [validNotionLanguages]. *)
Definition offendingLanguages : list jsstring :=
  map js ["c#"; "csharp"; "f#"; "vb"; "vbnet"; "dockerfile"; "constructor";
          "__proto__"]%string.

Definition is_upper (c : N) : bool := ((65 <=? c) && (c <=? 90))%N.


(** A regex without capturing groups outside lookaheads leaves the
    captures as they are; a regex that [consumes] moves the cursor. *)
Fixpoint nogroups (r : regex) : bool :=
  match r with
  | Seq r1 r2 | Alt r1 r2 => nogroups r1 && nogroups r2
  | Star _ r1 => nogroups r1
  | Group _ _ => false
  | _ => true
  end.

Fixpoint consumes (r : regex) : bool :=
  match r with
  | Chr _ => true
  | Seq r1 r2 => consumes r1 || consumes r2
  | Alt r1 r2 => consumes r1 && consumes r2
  | Group _ r1 => consumes r1
  | _ => false
  end.

(** [st'] continues [st] after reading [w]. *)
Definition reads (st st' : mstate) (w : jsstring) : Prop :=
  before st' = rev w ++ before st /\ after st = w ++ after st'.


(** A match of [r] in [s]: [r] matches at [index m], reading [whole m]. *)
Definition matchOf (r : regex) (s : jsstring) (m : MatchResult) : Prop :=
  exists st', rmatch r (MState (rev (take (index m) s)) (drop (index m) s) []) Some = Some st'
    /\ index m <= length s
    /\ drop (index m) s = whole m ++ after st'
    /\ groups m = caps st'
    /\ (consumes r = true -> whole m <> []).

(** The content of a match that is formatted again is shorter than the
    text. *)
Definition shrinks (text : jsstring) (m : InlineMatch) : Prop :=
  match m_type m with
  | TBold | TItalic | TStrikethrough => length (m_content m) < length text
  | TCode | TLink => True
  end.

(** The code units that open an inline pattern. *)
Definition is_markup (c : N) : bool := one "`*_~[" c.
Definition markupFree (t : jsstring) : Prop := Forall (fun c => is_markup c = false) t.


(** A link that validation leaves as it is. *)
Definition linkStable (URL : jsstring -> option URLRecord) (l : option jsstring) : Prop :=
  l ≫= validateAndCleanUrl URL = l.


(** A stand-in for the platform's URL parser, used to run examples: it
    accepts what starts with [http] and serializes everything to one
    canonical address. *)
Definition toyURL (s : jsstring) : option URLRecord :=
  if startsWith s (js "http")
  then Some (mkURL (js "https:") (js "https://example.org/") (js "/"))
  else None.


(** A second stand-in for the platform's URL parser, which reads the
    path: scheme, [//], host up to the first [/], and the rest as the
    path. *)
Fixpoint fromSlash (s : jsstring) : jsstring :=
  match s with
  | [] => []
  | c :: s' => if (c =? 47)%N then s else fromSlash s'
  end.

Definition simpleURL (s : jsstring) : option URLRecord :=
  let parse (scheme : jsstring) :=
    let path := fromSlash (drop (length scheme + 2) s) in
    Some (mkURL scheme s (match path with [] => js "/" | _ => path end)) in
  if startsWith s (js "http://") then parse (js "http:")
  else if startsWith s (js "https://") then parse (js "https:")
  else None.

(** The shape 8-4-4-4-12 of hexadecimal digits: writing [x] for every
    digit gives the template. *)
Definition isHyphenatedUUID (id : jsstring) : bool :=
  eqb (map (fun c => if hex_i c then 120%N else c) id)
      (js "xxxxxxxx-xxxx-xxxx-xxxx-xxxxxxxxxxxx").

(** [true] on sequences of 32 hexadecimal digits. *)
Definition isHex32 (h : jsstring) : bool := (length h =? 32) && forallb hex_i h.


(** The inputs of the specification's example. *)
Definition example_url : jsstring := js "https://x.tld/Page-2dadca9a3fff80278295e23720dd2a53".
Definition example_id : jsstring := js "2dadca9a-3fff-8027-8295-e23720dd2a53".


(** The callout that stands for an image whose URL is refused. *)
Definition imagePlaceholder (url caption : jsstring) : Block :=
  Callout
    [ mkRun (match caption with [] => js "Image" | _ => js "Image: " ++ caption end)
            noAnnotations None;
      if startsWith url (js "http://") || startsWith url (js "https://")
      then mkRun (js " - View original image") noAnnotations (Some url)
      else mkRun (js " - URL: " ++ match url with [] => js "N/A" | _ => url end)
                 noAnnotations None ]
    emoji_frame (js "yellow_background").


(** Stand-ins for the later tokenizer steps and for the network, used to
    run examples: every non-blank line becomes a divider; the network
    accepts the page creation and either accepts or refuses the appends. *)
Definition dividerRules (lines : list jsstring) (i : nat) : list Block * nat :=
  ([Divider], S i).

Definition toyPage : ApiData :=
  mkData None (js "page-1") (js "https://www.notion.so/page-1").

Definition acceptingNetwork (tr : list Event) (request : Event) : FetchOutcome :=
  FetchResponse true 200 toyPage.

Definition appendRefusingNetwork (tr : list Event) (request : Event) : FetchOutcome :=
  match request with
  | NotionRequest _ method _ _ =>
      if eqb method (js "POST") then FetchResponse true 200 toyPage
      else FetchResponse false 500 (mkData (Some (js "append refused")) [] [])
  | _ => FetchRejected (Error [])
  end.

(** 150 lines of one letter. *)
Definition markdown150 : jsstring := concat (replicate 150 (js "x" ++ [10%N])).

Definition toyParent : jsstring := js "2dadca9a3fff80278295e23720dd2a53".

(** The events of a successful upload of [blocks], more than 100 and at
    most 200 of them, without source URL. *)
Definition twoCallEvents (title parentPageId apiToken : jsstring) (blocks : list Block)
    (page : ApiData) : list Event :=
  [ ProgressUpdate 60 (js "Converting Markdown to Notion blocks...");
    ProgressUpdate 65 (js "Generated " ++ dec (length blocks) ++ js " blocks");
    ProgressUpdate 70 (js "Creating page in Notion...");
    NotionRequest (js "/pages") (js "POST")
      (PageData parentPageId title (take 100 blocks)) apiToken;
    ProgressUpdate 80 (js "Page created, uploading content...");
    ProgressUpdate 95 (js "Uploading blocks 1/1...");
    NotionRequest (appendEndpoint (data_id page)) (js "PATCH")
      (ChildrenData (drop 100 blocks)) apiToken;
    ProgressUpdate 95 (js "Finalizing...") ].


(** A list of percentages that never goes down. *)
Definition nonDecreasing (l : list Z) : Prop :=
  forall i j p q, i <= j -> l !! i = Some p -> l !! j = Some q -> (p <= q)%Z.


(** A code text with three backticks in it. *)
Definition nestedFenceCode : jsstring := js "x```y".

(* ---------------------------------------------------------------------- *)
(** ** Vocabulary of the table grid *)
(* ---------------------------------------------------------------------- *)

(** [grid[i][j]]: [None] is [undefined] (outside the grid), [Some None]
    is [null]. *)
Definition cellAt (grid : Grid) (i j : nat) : option (option jsstring) :=
  grid !! i ≫= (fun cells => cells !! j).

(** A grid of [n] rows of [width] cells. *)
Definition gridShape (n width : nat) (grid : Grid) : Prop :=
  length grid = n /\ Forall (fun cells => length cells = width) grid.

(** The positions a span touches, with what is written there. *)
Definition spanWrites (rowIndex colIndex rowCount colCount : nat) (text : jsstring)
  : list (nat * nat * jsstring) :=
  flat_map (fun r =>
    map (fun c => (rowIndex + r, colIndex + c,
                   if (r =? 0) && (c =? 0) then text else filler))
        (seq 0 colCount))
    (seq 0 rowCount).

Definition applyWrites (grid : Grid) (ws : list (nat * nat * jsstring)) : Grid :=
  fold_left (fun g w => setCell g w.1.1 w.1.2 w.2) ws grid.

(** The state of the second pass when it reaches a cell: the rows
    [rowsBefore] are done, and so are the cells [cellsBefore] of the
    current row.  [None] when there is no grid or the pass does not get
    there. *)
Definition stateBefore (rows rowsBefore : list (list TableCell))
    (cellsBefore : list TableCell) : option (list (list (option jsstring)) * JSNumber) :=
  let n := length rows in
  columnCount ← arrayLength (columnCountOf rows);
  grid ← fillRows n columnCount (replicate n (replicate columnCount None)) 0 rowsBefore;
  placeCells n columnCount (length rowsBefore) cellsBefore (grid, Finite 0).

(** The column the next cell is anchored at. *)
Definition anchorOf (rows rowsBefore : list (list TableCell))
    (cellsBefore : list TableCell) : option JSNumber :=
  columnCount ← arrayLength (columnCountOf rows);
  st ← stateBefore rows rowsBefore cellsBefore;
  nextAvailable columnCount (default [] (st.1 !! length rowsBefore)) st.2.

(** Span attributes that stay far inside the integers a double holds
    exactly: every sum the resolver forms with them is exact. *)
Definition smallAttr (attr : option Z) : Prop :=
  match attr with
  | Some z => (Z.abs z <= 2 ^ 52)%Z
  | None => True
  end.

Definition smallSpans (rows : list (list TableCell)) : Prop :=
  Forall (Forall (fun cell => smallAttr (rowspanAttr cell) /\ smallAttr (colspanAttr cell)))
         rows.

(** The second pass in exact integers: what the resolver computes as
    long as its numbers stay among the integers a double holds exactly. *)
Definition exactSpan (attr : option Z) : Z :=
  match attr with
  | None | Some 0%Z => 1%Z
  | Some n => n
  end.

Definition exactNextAvailable (cells : list (option jsstring)) (colIndex : Z) : Z :=
  let start := Z.to_nat (Z.max 0 colIndex) in
  Z.of_nat (skipFilled (drop start cells) start).

Section ExactFill.

Variable rowsLength : nat.
Variable columnCount : nat.

Definition exactPlaceCell (rowIndex : nat) (st : Grid * Z) (cell : TableCell) : Grid * Z :=
  let '(grid, colIndex) := st in
  let colIndex := exactNextAvailable (default [] (grid !! rowIndex)) colIndex in
  if (Z.of_nat columnCount <=? colIndex)%Z then (grid, colIndex)
  else
    let rowspan := exactSpan (rowspanAttr cell) in
    let colspan := exactSpan (colspanAttr cell) in
    let text := cellText cell in
    let rowCount := Z.to_nat (Z.min rowspan (Z.of_nat rowsLength - Z.of_nat rowIndex)) in
    let colCount := Z.to_nat (Z.min colspan (Z.of_nat columnCount - colIndex)) in
    (fillSpan grid rowIndex (Z.to_nat colIndex) rowCount colCount text,
     (colIndex + colspan)%Z).

Definition exactFillRow (grid : Grid) (rowIndex : nat) (cells : list TableCell) : Grid :=
  fst (fold_left (exactPlaceCell rowIndex) cells (grid, 0%Z)).

Fixpoint exactFillRows (grid : Grid) (rowIndex : nat) (rows : list (list TableCell)) : Grid :=
  match rows with
  | [] => grid
  | cells :: rest => exactFillRows (exactFillRow grid rowIndex cells) (S rowIndex) rest
  end.

End ExactFill.

(** A number a double holds. *)
Definition representable (z : Z) : Prop := toNumber z = Finite z.

Definition spanTable : list (list TableCell) :=
  [ [ mkCell (js "X") (Some 2%Z) None; mkCell (js "Y") None None;
      mkCell (js "Z") None None; mkCell (js "W") None None ];
    [ mkCell (js "A") (Some 2%Z) (Some 2%Z); mkCell (js "V") None None ];
    [ mkCell (js "P") None None; mkCell (js "Q") None None ] ].

Definition lastRowTable : list (list TableCell) :=
  [ [ mkCell (js "A") (Some 2%Z) (Some 2%Z) ] ].

(* ---------------------------------------------------------------------- *)
(** ** Vocabulary of the list tree *)
(* ---------------------------------------------------------------------- *)

(** The tree of the builder, in first-child / next-sibling form: a forest
    is empty, or a first node with the forest of its children and the
    forest of the siblings after it. *)
Inductive Forest : Type :=
| FNil
| FCons (item : ListItem) (children siblings : Forest).

Fixpoint fsize (f : Forest) : nat :=
  match f with
  | FNil => 0
  | FCons _ c s => S (fsize c + fsize s)
  end.

Fixpoint fheight (f : Forest) : nat :=
  match f with
  | FNil => 0
  | FCons _ c s => Nat.max (S (fheight c)) (fheight s)
  end.

(** The builder names nodes in the order it creates them, which is the
    document order: the roots of a forest laid out from [start] on. *)
Fixpoint rootRefs (start : nat) (f : Forest) : list nat :=
  match f with
  | FNil => []
  | FCons _ c s => start :: rootRefs (S start + fsize c) s
  end.

(** The part of the heap that holds a forest laid out from [start] on. *)
Fixpoint layout (start : nat) (f : Forest) : list TreeNode :=
  match f with
  | FNil => []
  | FCons item c s =>
      mkNode item (rootRefs (S start) c) :: layout (S start) c ++ layout (S start + fsize c) s
  end.

(** The path from the last root to the last node, root first: the
    content of [nodeStack], bottom first. *)
Fixpoint spine (start : nat) (f : Forest) : list (nat * Z) :=
  match f with
  | FNil => []
  | FCons x c FNil => (start, indentLevel x) :: spine (S start) c
  | FCons x c s => spine (S start + fsize c) s
  end.

(** A new last node at depth [d] of the path. *)
Fixpoint insertAt (d : nat) (item : ListItem) (f : Forest) : Forest :=
  match f with
  | FNil => FCons item FNil FNil
  | FCons x c FNil =>
      match d with
      | 0 => FCons x c (FCons item FNil FNil)
      | S d' => FCons x (insertAt d' item c) FNil
      end
  | FCons x c s => FCons x c (insertAt d item s)
  end.

(** The items in document order, each with its depth in the tree. *)
Fixpoint preorder (depth : nat) (f : Forest) : list (nat * ListItem) :=
  match f with
  | FNil => []
  | FCons item c s => (depth, item) :: preorder (S depth) c ++ preorder depth s
  end.

Definition represents (st : BuildState) (f : Forest) : Prop :=
  heap st = layout 0 f /\ rootNodes st = rootRefs 0 f /\ nodeStack st = reverse (spine 0 f).

(** The depth of each item of a list, from the indent levels alone: the
    parent of an item is the nearest item before it with a smaller
    indent level, and an item without a parent has depth 0.  [seen]
    holds the items already numbered, nearest first. *)
Fixpoint trueDepths (seen : list (Z * nat)) (levels : list Z) : list nat :=
  match levels with
  | [] => []
  | l :: rest =>
      let d := match List.find (fun p => (p.1 <? l)%Z) seen with
               | Some p => S p.2
               | None => 0
               end in
      d :: trueDepths ((l, d) :: seen) rest
  end.

Definition stackAgrees (stack : list (nat * Z)) (seen : list (Z * nat)) : Prop :=
  forall l, length (popStack l stack) =
            match List.find (fun p => (p.1 <? l)%Z) seen with
            | Some p => S p.2
            | None => 0
            end.

Definition fiveLevels : list (list N) :=
  [ js "- a"; js "  - b"; js "    - c"; js "      - d"; js "        - e" ].

(** The block of a list item without a [children] key. *)
Definition leafBlock (listType : ListType) (rt : list RichText) (checked : bool) : Block :=
  match listType with
  | TaskList => ToDo rt checked None
  | BulletList => BulletedListItem rt None
  | NumberList => NumberedListItem rt None
  end.

(** The text of the block of an item at depth [d]. *)
Definition expectedText (d : nat) (item : ListItem) : jsstring :=
  if 3 <=? d then indentMarker (d + 1) ++ item_content item
  else cleanListContent (item_content item).

(** The blocks of a tree of blocks in document order, each without its
    [children] and with its nesting level: 0 for the blocks of the
    list, 1 for the blocks of their [children] arrays, and so on. *)
Fixpoint outline (level : nat) (b : Block) : list (nat * Block) :=
  match b with
  | BulletedListItem rt (Some cs) =>
      (level, BulletedListItem rt None) :: flat_map (outline (S level)) cs
  | NumberedListItem rt (Some cs) =>
      (level, NumberedListItem rt None) :: flat_map (outline (S level)) cs
  | ToDo rt checked (Some cs) =>
      (level, ToDo rt checked None) :: flat_map (outline (S level)) cs
  | other => [(level, other)]
  end.

(** No [children] array is empty. *)
Fixpoint childrenNonEmpty (b : Block) : bool :=
  match b with
  | BulletedListItem _ (Some cs) | NumberedListItem _ (Some cs) | ToDo _ _ (Some cs) =>
      match cs with [] => false | _ => forallb childrenNonEmpty cs end
  | _ => true
  end.

(** An entry of the outline is the block of an item at depth [d]: at
    level [d] up to 2, with the text of that depth. *)
Definition itemMatches (URL : jsstring -> option URLRecord) (listType : ListType)
    (entry : nat * Block) (di : nat * ListItem) : Prop :=
  entry.1 = Nat.min di.1 2
  /\ exists rt, parseInlineMarkdown URL (expectedText di.1 di.2) = Some rt
       /\ entry.2 = leafBlock listType rt (item_checked di.2).

(** *** Lines of a list *)
















(* ====================================================================== *)
(** ** Background worker: tables, quotes and the rules of the tokenizer *)
(* ====================================================================== *)

(** [r{0,n}], greedy; [r{lo,lo+n}] is [Rep lo r] followed by it. *)
Fixpoint UpTo (n : nat) (r : regex) : regex :=
  match n with
  | O => Eps
  | S n' => Opt (Seq r (UpTo n' r))
  end.

(** [/^(#{1,6})\s+(.+)$/] *)
Definition re_heading : regex :=
  seqs [Bol; Group 1 (Seq (Chr (N.eqb 35)) (UpTo 5 (Chr (N.eqb 35))));
        re_spaces1; Group 2 (Plus true (Chr dot)); Eol].

(** [/^(-{3,}|_{3,}|\*{3,})$/] *)
Definition re_rule : regex :=
  let run (c : N) := Seq (Rep 3 (Chr (N.eqb c))) (Star true (Chr (N.eqb c))) in
  seqs [Bol; Group 1 (Alt (run 45%N) (Alt (run 95%N) (run 42%N))); Eol].

(** [/^\s*\|.+\|\s*$/] and [/\|/] *)
Definition re_table_row : regex :=
  seqs [Bol; re_spaces0; Lit (js "|"); Plus true (Chr dot); Lit (js "|"); re_spaces0; Eol].
Definition re_pipe : regex := Lit (js "|").

(** The class [[\s\-:]]. *)
Definition separatorUnit (c : N) : bool := (is_space c || (c =? 45) || (c =? 58))%N.

(** [/^\|[\s\-:]+(\|[\s\-:]+)*\|\s*$/] and
    [/^[\s\-:]+(\|[\s\-:]+)+[\s\-:]*$/] *)
Definition re_separator_piped : regex :=
  seqs [Bol; Lit (js "|"); Plus true (Chr separatorUnit);
        Star true (Group 1 (Seq (Lit (js "|")) (Plus true (Chr separatorUnit))));
        Lit (js "|"); re_spaces0; Eol].
Definition re_separator_bare : regex :=
  seqs [Bol; Plus true (Chr separatorUnit);
        Plus true (Group 1 (Seq (Lit (js "|")) (Plus true (Chr separatorUnit))));
        Star true (Chr separatorUnit); Eol].

Definition isSeparator (trimmed : jsstring) : bool :=
  test re_separator_piped trimmed || test re_separator_bare trimmed.

(** The collecting loop of [parseTable], run on the lines from the
    cursor [i] on: the table lines, the cursor the loop stopped at and
    [foundSeparator]; [None] is [return null]. *)
Fixpoint collectTableLines (rest : list jsstring) (i : nat) (tableLines : list jsstring)
    (foundSeparator : bool) : option (list jsstring * nat * bool) :=
  match rest with
  | [] => Some (tableLines, i, foundSeparator)
  | line :: rest' =>
      let trimmed := trim line in
      if isSeparator trimmed then collectTableLines rest' (S i) tableLines true
      else if includes trimmed (js "|") && (1 <=? length (split 124 trimmed) - 1)
      then collectTableLines rest' (S i) (tableLines ++ [trimmed]) foundSeparator
      else
        match tableLines with
        | _ :: _ => Some (tableLines, i, foundSeparator)
        | [] =>
            if negb (includes trimmed (js "|")) || (length (split 124 trimmed) <? 2)
            then None
            else collectTableLines rest' (S i) tableLines foundSeparator
        end
  end.

(** [while (cells.length > 1 && last === '' && secondLast === '')
    cells.pop()], on the cells in reverse order. *)
Fixpoint popEmptyCells (reversed : list jsstring) : list jsstring :=
  match reversed with
  | [] :: (([] :: _) as rest) => popEmptyCells rest
  | _ => reversed
  end.

Definition parseTableRow (row : jsstring) : list jsstring :=
  if blank row then []
  else
    let cleaned := trim row in
    let cleaned := if startsWith cleaned (js "|") then drop 1 cleaned else cleaned in
    let cleaned :=
      if endsWith cleaned (js "|") then take (length cleaned - 1) cleaned else cleaned in
    let cells := map trim (split 124 cleaned) in
    let cells := rev (popEmptyCells (rev cells)) in
    match cells with [] => [[]] | _ => cells end.

Record TableData : Type := mkTable {
  headers : list jsstring;
  table_rows : list (list jsstring);
  table_nextIndex : nat
}.

Definition parseTable (lines : list jsstring) (startIndex : nat) : option TableData :=
  '(tableLines, i, foundSeparator) ←
     collectTableLines (drop startIndex lines) startIndex [] false;
  match tableLines with
  | [] => None
  | first :: others =>
      let headers := parseTableRow first in
      match headers with
      | [] => None
      | _ :: _ =>
          let rows := map parseTableRow others in
          if (length rows =? 0) && negb foundSeparator && (length tableLines =? 1)
          then None
          else Some (mkTable headers rows i)
      end
  end.

(** The emoji that open a callout,
    [[\u{1F300}-\u{1F9FF}]|[\u{2600}-\u{26FF}]|[\u{2700}-\u{27BF}]] under
    the [u] flag, in UTF-16: the pairs from D83C DF00 to D83E DDFF, and the
    two ranges of the basic plane. *)
Definition between (lo hi : N) (c : N) : bool := ((lo <=? c) && (c <=? hi))%N.
Definition re_emoji : regex :=
  Alt (Alt (Seq (Chr (N.eqb 55356)) (Chr (between 57088 57343)))
           (Alt (Seq (Chr (N.eqb 55357)) (Chr (between 56320 57343)))
                (Seq (Chr (N.eqb 55358)) (Chr (between 56320 56831)))))
      (Alt (Chr (between 9728 9983)) (Chr (between 9984 10175))).

(** [/^(emoji)\s*(.+)$/u] *)
Definition re_callout : regex :=
  seqs [Bol; Group 1 re_emoji; re_spaces0; Group 2 (Plus true (Chr dot)); Eol].

(** [calloutTypes] and [colors]: the emoji are U+2139 U+FE0F,
    U+26A0 U+FE0F, U+1F4DD, U+1F4A1, U+2705, U+274C, U+1F514, U+1F4AC. *)
Definition calloutTypes : list (jsstring * jsstring) :=
  [ ([8505; 65039]%N, js "info"); ([9888; 65039]%N, js "warning");
    ([55357; 56541]%N, js "note"); ([55357; 56481]%N, js "tip");
    ([9989]%N, js "success"); ([10060]%N, js "error");
    ([55357; 56596]%N, js "notification"); ([55357; 56492]%N, js "comment") ].

Definition calloutColors : list (jsstring * jsstring) :=
  [ (js "info", js "blue_background"); (js "warning", js "yellow_background");
    (js "note", js "gray_background"); (js "tip", js "green_background");
    (js "success", js "green_background"); (js "error", js "red_background");
    (js "notification", js "purple_background"); (js "comment", js "gray_background") ].

(** [while (i < lines.length && lines[i].startsWith('> '))
    quoteLines.push(lines[i].slice(2))] *)
Fixpoint collectQuoteLines (rest : list jsstring) : list jsstring :=
  match rest with
  | line :: rest' =>
      if startsWith line (js "> ") then drop 2 line :: collectQuoteLines rest' else []
  | [] => []
  end.

Record QuoteData : Type := mkQuote {
  isCallout : bool;
  quote_content : jsstring;
  quote_emoji : jsstring;
  quote_type : jsstring;
  quote_nextIndex : nat
}.

(** [parseBlockquote]; [emoji] and [type] are absent when [isCallout] is
    false.  The emoji is one code point of [re_emoji], never the name of
    an inherited property, so [calloutTypes[emoji]] reads own entries
    only. *)
Definition parseBlockquote (lines : list jsstring) (startIndex : nat) : QuoteData :=
  let quoteLines := collectQuoteLines (drop startIndex lines) in
  let i := startIndex + length quoteLines in
  let content := trim (join [10%N] quoteLines) in
  match exec re_callout content with
  | Some calloutMatch =>
      let emoji := default [] (group 1 calloutMatch) in
      let text := default [] (group 2 calloutMatch) in
      let type := default (js "info") (ownProperty calloutTypes emoji) in
      mkQuote true text emoji type i
  | None => mkQuote false content [] [] i
  end.

Section BlockRules.

Variable URL : jsstring -> option URLRecord.

(** The cell of a table row: [richText.length > 0 ? richText : [empty]]. *)
Definition cellRichText (cell : jsstring) : option (list RichText) :=
  richText ← parseInlineMarkdown URL cell;
  Some (match richText with [] => [emptyRun] | _ => richText end).

(** Padding with empty strings, then [splice(tableWidth)]. *)
Definition normalizeRow (tableWidth : nat) (row : list jsstring) : list jsstring :=
  take tableWidth (row ++ replicate (tableWidth - length row) []).

Definition createTableBlock (headers : list jsstring) (rows : list (list jsstring))
  : option Block :=
  let tableWidth := length headers in
  let normalizedRows := map (normalizeRow tableWidth) rows in
  headerRow ← mapM cellRichText headers;
  dataRows ← mapM (mapM cellRichText) normalizedRows;
  Some (Table tableWidth (headerRow :: dataRows)).

(** [createCalloutBlock(content, emoji, type)] for a [type] of
    [calloutTypes]: [colors[type] || 'gray_background']. *)
Definition createCalloutBlock (content emoji type : jsstring) : option Block :=
  richText ← parseInlineMarkdown URL content;
  Some (Callout richText emoji
          (default (js "gray_background") (ownProperty calloutColors type))).

(** The "Tables" step: [None] when the line is left to the steps after
    it. *)
Definition tableRule (lines : list jsstring) (i : nat) (line : jsstring)
  : option (option (list Block * nat)) :=
  if includes line (js "|") then
    if test re_table_row line || test re_pipe line && (2 <=? length (split 124 line)) then
      match parseTable lines i with
      | Some tableData =>
          if 0 <? length (headers tableData) then
            Some (block ← createTableBlock (headers tableData) (table_rows tableData);
                  Some ([block], table_nextIndex tableData))
          else None
      | None => None
      end
    else None
  else None.

(** The "Blockquotes" step. *)
Definition quoteRule (lines : list jsstring) (i : nat) : option (list Block * nat) :=
  let quoteData := parseBlockquote lines i in
  block ← (if isCallout quoteData
           then createCalloutBlock (quote_content quoteData) (quote_emoji quoteData)
                  (quote_type quoteData)
           else createQuoteBlock URL (quote_content quoteData));
  Some ([block], quote_nextIndex quoteData).

(** Steps 3 to 9 of the loop of [markdownToNotionBlocks] for the line at
    the cursor: the blocks pushed and the new cursor.  The step for
    flowchart lines pushes the paragraph the last step pushes, and is one
    with it here. *)
Definition blockRules (lines : list jsstring) (i : nat) : option (list Block * nat) :=
  line ← lines !! i;
  match exec re_heading line with
  | Some headingMatch =>
      block ← createHeadingBlock URL (length (default [] (group 1 headingMatch)))
                (default [] (group 2 headingMatch));
      Some ([block], S i)
  | None =>
      if test re_rule line then Some ([createDividerBlock], S i)
      else
        match tableRule lines i line with
        | Some pushed => pushed
        | None =>
            if startsWith line (js "> ") then quoteRule lines i
            else
              match parseList URL lines i with
              | Some listData => listData
              | None =>
                  match imageRule URL line with
                  | Some image => block ← image; Some ([block], S i)
                  | None => block ← createParagraphBlock URL line; Some ([block], S i)
                  end
              end
        end
  end.

(** [blockRules] always answers for a line of the text (see
    [blockRules_total]); outside the text the loop does not run. *)
Definition pushedBlocks (lines : list jsstring) (i : nat) : list Block * nat :=
  default ([], S i) (blockRules lines i).

(** The converter with all its steps. *)
Definition convertMarkdown (markdown : jsstring) : option (list Block) :=
  markdownToNotionBlocks pushedBlocks markdown.

End BlockRules.

(* ====================================================================== *)
(** ** Popup: the page-id helpers *)
(* ====================================================================== *)

(** The popup has its own [formatNotionId], with the body of the
    worker's: [formatNotionId] stands for both. *)

Section Popup.

Variable URL : jsstring -> option URLRecord.

(** [new URL(s).searchParams.get('pageId')]; [None] is [null]. *)
Variable pageIdParam : jsstring -> option jsstring.

(** [extractNotionPageId]; [None] is [null]. *)
Definition extractNotionPageId (input : jsstring) : option jsstring :=
  if blank input then None
  else
    let trimmed := trim input in
    if startsWith trimmed (js "http://") || startsWith trimmed (js "https://") then
      match URL trimmed with
      | None => None
      | Some url =>
          let found :=
            match exec re_dash_id (pathname url) with
            | Some m => Some m
            | None => exec re_tail_id (pathname url)
            end in
          match found with
          | Some m => Some (formatNotionId (default [] (group 1 m)))
          | None =>
              match pageIdParam trimmed with
              | Some ((_ :: _) as pageId) => Some (formatNotionId pageId)
              | _ => None
              end
          end
      end
    else
      let cleanId := removeDashes trimmed in
      if test re_bare_id cleanId then Some (formatNotionId cleanId) else None.

End Popup.

Definition isValidNotionPageId (pageId : jsstring) : bool :=
  match pageId with
  | [] => false
  | _ => test re_bare_id (removeDashes pageId)
  end.

Definition shortenPageId (pageId : jsstring) : jsstring :=
  match pageId with
  | [] => js "-"
  | _ =>
      let cleanId := removeDashes pageId in
      if length cleanId <=? 12 then pageId else slice cleanId 0 8 ++ js "..."
  end.

(* ====================================================================== *)
(** ** Content script: panels *)
(* ====================================================================== *)

(** The emoji of the rule [infoPanel]: U+2139 U+FE0F, U+26A0 U+FE0F,
    U+1F4DD and U+1F4A1. *)
Definition emoji_info : jsstring := [8505; 65039]%N.
Definition emoji_warning : jsstring := [9888; 65039]%N.
Definition emoji_note : jsstring := [55357; 56541]%N.
Definition emoji_tip : jsstring := [55357; 56481]%N.

Definition panelEmojis : list (jsstring * jsstring) :=
  [ (js "info", emoji_info); (js "warning", emoji_warning);
    (js "note", emoji_note); (js "tip", emoji_tip) ].

(** [.replace(/\n{3,}/g, '\n\n')]: [run] counts the line feeds just
    passed. *)
Fixpoint squeezeNewlines (run : nat) (s : jsstring) : jsstring :=
  match s with
  | [] => []
  | c :: s' =>
      if (c =? 10)%N
      then (if run <? 2 then c :: squeezeNewlines (S run) s' else squeezeNewlines (S run) s')
      else c :: squeezeNewlines 0 s'
  end.

(** The replacement of the rule [infoPanel], given the attribute
    [data-panel-type] (which the filter requires) and the converted
    content.  [None] when the type names a member that object literals
    inherit: the text of that member is then written in place of the
    emoji, and is left out here. *)
Definition infoPanel (panelType content : jsstring) : option jsstring :=
  let type := match panelType with [] => js "info" | _ => panelType end in
  emoji ← match ownProperty panelEmojis type with
          | Some emoji => Some emoji
          | None => if existsb (eqb type) objectPrototypeKeys then None else Some emoji_info
          end;
  let cleanedContent := squeezeNewlines 0 (trim content) in
  Some (match cleanedContent with
        | [] => [10%N] ++ js "> " ++ emoji ++ [10; 10]%N
        | _ => [10%N] ++ js "> " ++ emoji ++ js " " ++ cleanedContent ++ [10; 10]%N
        end).

(** The replacement of the rule [panelContent]. *)
Definition panelContent (content : jsstring) : jsstring :=
  [10%N] ++ js "> " ++ emoji_tip ++ js " " ++ squeezeNewlines 0 (trim content) ++ [10; 10]%N.

(* ====================================================================== *)
(** ** Content script: file names of images *)
(* ====================================================================== *)

(** A lower-case letter under the [i] flag: the letter or its capital. *)
Definition letter_i (x : N) : N -> bool := fun c => ((c =? x) || (c =? x - 32))%N.

(** A literal of lower-case letters under the [i] flag. *)
Definition LitI (s : string) : regex := fold_right (fun x r => Seq (Chr (letter_i x)) r) Eps (js s).

(** [/\.(jpg|jpeg|png|gif|webp|svg|bmp|ico)$/i] *)
Definition re_image_ext : regex :=
  Seq (Lit (js "."))
    (Seq (Group 1 (fold_right Alt (LitI "ico")
                     (map LitI ["jpg"; "jpeg"; "png"; "gif"; "webp"; "svg"; "bmp"]%string)))
         Eol).

(** The class [[a-zA-Z0-9._-]]. *)
Definition safeUnit (c : N) : bool :=
  (((97 <=? c) && (c <=? 122)) || ((65 <=? c) && (c <=? 90)) || is_digit c
   || (c =? 46) || (c =? 95) || (c =? 45))%N.

(** [.replace(/[^a-zA-Z0-9._-]/g, '_')] *)
Definition cleanFilename (s : jsstring) : jsstring :=
  map (fun c => if safeUnit c then c else 95%N) s.

Section ImageFilename.

Variable URL : jsstring -> option URLRecord.

(** [getImageFilename(url, alt, index)]; an absent [alt] is the empty
    string. *)
Definition getImageFilename (url alt : jsstring) (index : nat) : jsstring :=
  let numbered := js "image-" ++ dec (index + 1) in
  match URL url with
  | None => numbered ++ js ".png"
  | Some urlObj =>
      let pathname := pathname urlObj in
      let extension :=
        match exec re_image_ext pathname with
        | Some m =>
            match toLowerCase (default [] (group 1 m)) with
            | [] => js "png"
            | lowered => lowered
            end
        | None => js "png"
        end in
      let filename :=
        match default [] (last (split 47 pathname)) with
        | [] => numbered
        | name => name
        end in
      let filename := default [] (head (split 63 filename)) in
      let filename :=
        match exec re_image_ext filename with
        | Some _ => filename
        | None => filename ++ js "." ++ extension
        end in
      let filename := cleanFilename filename in
      if length filename <? 5 then
        let altBased := match alt with [] => [] | _ => take 50 (cleanFilename alt) end in
        match altBased with
        | [] => numbered ++ js "." ++ extension
        | _ => altBased
        end
      else filename
  end.

End ImageFilename.

(* ====================================================================== *)
(** ** Content script: inline code, strikethrough and task items *)
(* ====================================================================== *)

(** The rule [inlineCode]: [`\`${content}\``]. *)
Definition inlineCode (content : jsstring) : jsstring := js "`" ++ content ++ js "`".

(** The rule [strikethrough]: [`~~${content}~~`]; the name alone is
    that of an annotation. *)
Definition strikethroughRule (content : jsstring) : jsstring := js "~~" ++ content ++ js "~~".

(** The rule [taskList]: [`- [${checked}] ${content.trim()}\n`], where
    [checked] is [x] when the item holds a ticked check box and a space
    otherwise; [checkbox] is [None] when the item holds no check box. *)
Definition taskList (checkbox : option bool) (content : jsstring) : jsstring :=
  js "- [" ++ (if default false checkbox then js "x" else js " ") ++ js "] "
    ++ trim content ++ [10%N].

(* ====================================================================== *)
(** ** Vocabulary of the further properties *)
(* ====================================================================== *)

(** The shape of a trimmed string: empty, or between two characters
    that are not white space. *)
Definition solid (s : jsstring) : Prop :=
  match s with
  | [] => True
  | c :: _ => is_space c = false /\ exists t d, s = t ++ [d] /\ is_space d = false
  end.

(** The blocks of the page: the converted blocks or the placeholder,
    after the source callout when a source URL is given. *)
Definition pageBlocks (sourceUrl : jsstring) (converted : list Block) : list Block :=
  let blocks := match converted with [] => [placeholderBlock] | _ => converted end in
  match sourceUrl with
  | [] => blocks
  | _ => sourceCallout sourceUrl :: blocks
  end.

(** The request that appends [chunk] to the page [pageId]. *)
Definition appendRequest (pageId apiToken : jsstring) (chunk : list Block) : Event :=
  NotionRequest (appendEndpoint pageId) (js "PATCH") (ChildrenData chunk) apiToken.

(** A request that the network, after the events [tr], rejects or
    answers with a status that is not ok. *)
Definition failedAt (fetch : list Event -> Event -> FetchOutcome) (tr : list Event)
    (e : Event) : bool :=
  match e with
  | NotionRequest _ _ _ _ =>
      match fetch tr e with
      | FetchResponse true _ _ => false
      | _ => true
      end
  | ProgressUpdate _ _ => false
  end.

(** No request follows a failed one. *)
Definition stopsAtFailure (fetch : list Event -> Event -> FetchOutcome)
    (tr events : list Event) : Prop :=
  forall i e, events !! i = Some e -> failedAt fetch (tr ++ take i events) e = true ->
              requestsOf (drop (S i) events) = [].

Definition noFailure (fetch : list Event -> Event -> FetchOutcome)
    (tr events : list Event) : Prop :=
  forall i e, events !! i = Some e -> failedAt fetch (tr ++ take i events) e = false.

(** A computation that only adds events, sends nothing after a failed
    request, and returns only when no request failed. *)
Definition disciplined {A : Type} (fetch : list Event -> Event -> FetchOutcome)
    (m : Eff A) : Prop :=
  forall tr, exists events,
    snd (m tr) = tr ++ events
    /\ stopsAtFailure fetch tr events
    /\ (forall a, fst (m tr) = Returned a -> noFailure fetch tr events).

(** A Markdown text of three blank lines. *)
Definition blankMarkdown : jsstring := js "  " ++ [10%N] ++ [9%N] ++ [10%N].

(** The letters of the extensions, in either case. *)
Definition is_letter (c : N) : bool :=
  (((97 <=? c) && (c <=? 122)) || ((65 <=? c) && (c <=? 90)))%N.

(** The inline patterns, each with the code unit it opens with. *)
Definition patternKeys : list (regex * N) :=
  [ (re_code, 96%N); (re_bold_star, 42%N); (re_bold_under, 95%N); (re_strike, 126%N);
    (re_italic_star, 42%N); (re_italic_under, 95%N); (re_link, 91%N) ].

(* ---------------------------------------------------------------------- *)
(** ** Vocabulary of the patterns *)
(* ---------------------------------------------------------------------- *)

(** What a pattern can match, apart from the order in which the matcher
    tries: [Matches r st st'] when [r] takes the cursor from [st] to
    [st']. *)
Inductive Matches : regex -> mstate -> mstate -> Prop :=
| MatchesEps st : Matches Eps st st
| MatchesChr p c pre suf cs :
    p c = true -> Matches (Chr p) (MState pre (c :: suf) cs) (MState (c :: pre) suf cs)
| MatchesSeq r1 r2 st st1 st2 :
    Matches r1 st st1 -> Matches r2 st1 st2 -> Matches (Seq r1 r2) st st2
| MatchesAltL r1 r2 st st' : Matches r1 st st' -> Matches (Alt r1 r2) st st'
| MatchesAltR r1 r2 st st' : Matches r2 st st' -> Matches (Alt r1 r2) st st'
| MatchesStarStop g r st : Matches (Star g r) st st
| MatchesStarStep g r st st1 st2 :
    Matches r st st1 -> length (after st1) < length (after st) ->
    Matches (Star g r) st1 st2 -> Matches (Star g r) st st2
| MatchesGroup n r st st1 :
    Matches r st st1 ->
    Matches (Group n r) st
      (MState (before st1) (after st1) ((n, consumed st st1) :: caps st1))
| MatchesBackrefUnset n st :
    cap_get n (caps st) = None -> Matches (Backref n) st st
| MatchesBackref n st s :
    cap_get n (caps st) = Some s -> startsWith (after st) s = true ->
    Matches (Backref n) st
      (MState (rev s ++ before st) (drop (length s) (after st)) (caps st))
| MatchesBol st : before st = [] -> Matches Bol st st
| MatchesEol st : after st = [] -> Matches Eol st st
| MatchesNotAhead r st : rmatch r st Some = None -> Matches (NotAhead r) st st
| MatchesNotBehind p st :
    match before st with c :: _ => p c = false | [] => True end ->
    Matches (NotBehind p) st st.

(** The code units a pattern can read all satisfy [P]. *)
Fixpoint readsOnly (P : N -> Prop) (r : regex) : Prop :=
  match r with
  | Chr p => forall c, p c = true -> P c
  | Seq r1 r2 | Alt r1 r2 => readsOnly P r1 /\ readsOnly P r2
  | Star _ r1 | Group _ r1 => readsOnly P r1
  | Backref _ => False
  | _ => True
  end.

(* ---------------------------------------------------------------------- *)
(** ** Vocabulary of the table round trip *)
(* ---------------------------------------------------------------------- *)

(** The texts of a row of the grid, and what is left of them between
    the pipes once trimmed. *)
Definition rowTexts (rowData : list (option jsstring)) : list jsstring :=
  map (default filler) rowData.

Definition trimmedTexts (rowData : list (option jsstring)) : list jsstring :=
  map trim (rowTexts rowData).

(** A grid of two rows and two columns without spans. *)
Definition plainTable : list (list TableCell) :=
  [ [mkCell (js "Name") None None; mkCell (js "Role") None None];
    [mkCell (js "Ada") None None; mkCell (js "Engineer") None None] ].

(** Texts of a row that can be read back: they hold no pipe and no
    line feed, and one of them holds a code unit that is neither white
    space nor a dash nor a colon. *)
Definition readableTexts (texts : list jsstring) : Prop :=
  Forall (Forall (fun c => c <> 124%N /\ c <> 10%N)) texts
  /\ Exists (Exists (fun c => separatorUnit c = false)) texts.

(** The text of a cell between two pipes, and the line of a row. *)
Definition pad (t : jsstring) : jsstring := 32%N :: t ++ [32%N].

Definition rowLine (texts : list jsstring) : jsstring :=
  js "| " ++ join (js " | ") texts ++ js " |".

(** The separator line under the header, without its line feed. *)
Definition separatorLine (columnCount : nat) : jsstring :=
  js "|" ++ concat (replicate columnCount (js " --- |")).

(** A line that opens a list has a text after its marker: it matches
    the pattern of the items of the list it opens. *)
Definition listLineHasText (line : jsstring) : Prop :=
  (test re_bullet_start line = true -> is_Some (exec re_bullet_item line))
  /\ (test re_number_start line = true -> is_Some (exec re_number_item line)).

(* ====================================================================== *)
(** * Verification *)
(* ====================================================================== *)

Example js_literal : js "a-Z" = [97; 45; 90]%N.
Proof. reflexivity. Qed.

Example trim_example : trim (js "  js ") = js "js".
Proof. reflexivity. Qed.

Example split_example :
  split 10 (js "a" ++ [10%N] ++ js "b" ++ [10%N]) = [js "a"; js "b"; []].
Proof. reflexivity. Qed.

Example dec_example : dec 150 = js "150" /\ dec 0 = js "0".
Proof. split; reflexivity. Qed.

(* ---------------------------------------------------------------------- *)
(** ** Strings *)
(* ---------------------------------------------------------------------- *)

Lemma eqb_eq (a b : jsstring) : eqb a b = true <-> a = b.
Proof. unfold eqb. apply bool_decide_eq_true. Qed.

Lemma trimStart_Forall (P : N -> Prop) s : Forall P s -> Forall P (trimStart s).
Proof.
  induction 1 as [|c s Hc Hs IH]; simpl; [constructor|].
  destruct (is_space c); [exact IH | constructor; assumption].
Qed.

Lemma trim_Forall (P : N -> Prop) s : Forall P s -> Forall P (trim s).
Proof.
  intros H. unfold trim, trimEnd.
  apply Forall_rev, trimStart_Forall, Forall_rev, trimStart_Forall, H.
Qed.

Lemma toLowerCase_no_upper s : Forall (fun c => is_upper c = false) (toLowerCase s).
Proof.
  unfold toLowerCase. apply Forall_map. apply Forall_forall. intros c _. simpl.
  unfold lower_unit, is_upper.
  destruct ((65 <=? c)%N && (c <=? 90)%N) eqn:E.
  - apply andb_true_iff in E as [E1 E2]. apply N.leb_le in E1, E2.
    apply andb_false_iff. right. apply N.leb_gt. lia.
  - destruct (c =? 8490)%N eqn:E2; [reflexivity | exact E].
Qed.

(* ---------------------------------------------------------------------- *)
(** ** Language normalization *)
(* ---------------------------------------------------------------------- *)

Lemma ownProperty_In entries key v :
  ownProperty entries key = Some v -> In (key, v) entries.
Proof.
  unfold ownProperty. intros H.
  destruct (find _ _) as [[k v']|] eqn:E; simplify_eq/=.
  apply find_some in E as [Hin Hk].
  apply in_rev. simpl in Hk. apply eqb_eq in Hk. subst. exact Hin.
Qed.

(** The aliases the specification names are mapped as it says. *)
Lemma normalizeLanguage_aliases :
  normalizeLanguage (js "js") = LangString (js "javascript")
  /\ normalizeLanguage (js "py") = LangString (js "python")
  /\ normalizeLanguage (js "sh") = LangString (js "bash").
Proof. vm_compute. repeat split. Qed.

(** Empty and whitespace-only inputs give ["plain text"]. *)
Lemma normalizeLanguage_blank lang :
  blank lang = true -> normalizeLanguage lang = LangString plain_text.
Proof. intros H. unfold normalizeLanguage. rewrite H. reflexivity. Qed.

(** So do inputs that neither table knows. *)
Lemma normalizeLanguage_unrecognized lang :
  propertyGet langMap (trim (toLowerCase lang)) = None ->
  existsb (eqb (trim (toLowerCase lang))) validNotionLanguages = false ->
  normalizeLanguage lang = LangString plain_text.
Proof.
  intros H1 H2. unfold normalizeLanguage. destruct (blank lang); [reflexivity|].
  rewrite H1, H2. reflexivity.
Qed.

(** The answer lies in the closed set except on eight normalized inputs:
    six keys whose later duplicate in [langMap] maps outside the set, and
    two names inherited from [Object.prototype]. *)
Lemma normalizeLanguage_closed_except lang :
  isValidNotionLanguage (normalizeLanguage lang) = true
  \/ In (trim (toLowerCase lang)) offendingLanguages.
Proof.
  unfold normalizeLanguage.
  destruct (blank lang); [left; vm_compute; reflexivity|].
  pose proof (trim_Forall _ _ (toLowerCase_no_upper lang)) as Hlow.
  set (n := trim (toLowerCase lang)) in *.
  assert (Hfall : isValidNotionLanguage
            (if existsb (eqb n) validNotionLanguages
             then LangString n else LangString plain_text) = true).
  { destruct (existsb (eqb n) validNotionLanguages) eqn:E;
      [exact E | vm_compute; reflexivity]. }
  unfold propertyGet.
  destruct (ownProperty langMap n) as [v|] eqn:E.
  - apply ownProperty_In in E.
    assert (Hcases : forallb (fun e =>
              isValidNotionLanguage (LangString (snd e))
              && truthy (Some (LangString (snd e)))
              || existsb (eqb (fst e)) offendingLanguages) langMap = true)
      by (vm_compute; reflexivity).
    rewrite forallb_forall in Hcases. apply Hcases in E. cbn [fst snd] in E.
    apply orb_true_iff in E as [E|E].
    + apply andb_true_iff in E as [H1 H2]. left.
      destruct v; [discriminate H2 | exact H1].
    + right. apply existsb_exists in E as [k [Hin Hk]].
      apply eqb_eq in Hk. subst k. exact Hin.
  - destruct (existsb (eqb n) objectPrototypeKeys) eqn:Ep; [|left; exact Hfall].
    right. apply existsb_exists in Ep as [k [Hin Hk]]. apply eqb_eq in Hk. subst k.
    assert (Hcases : forallb (fun k =>
              existsb is_upper k || existsb (eqb k) offendingLanguages)
              objectPrototypeKeys = true) by (vm_compute; reflexivity).
    rewrite forallb_forall in Hcases. apply Hcases in Hin.
    apply orb_true_iff in Hin as [Hup|Hoff].
    + apply existsb_exists in Hup as [c [Hc Hup]].
      rewrite Forall_forall in Hlow. apply list_elem_of_In in Hc.
      apply Hlow in Hc. congruence.
    + apply existsb_exists in Hoff as [k [Hin Hk]].
      apply eqb_eq in Hk. subst k. exact Hin.
Qed.

(** C6 (code defect).  The claim says every answer of the language
    normalizer is a member of the closed set of accepted tags.  On the
    input ["c#"], itself a member of that set, the later duplicate key of
    [langMap] answers ["csharp"], which the set does not contain. *)
Theorem C6_normalizeLanguage_leaves_closed_set :
  normalizeLanguage (js "c#") = LangString (js "csharp")
  /\ isValidNotionLanguage (normalizeLanguage (js "c#")) = false
  /\ isValidNotionLanguage (LangString (js "c#")) = true.
Proof. vm_compute. repeat split. Qed.

(* ---------------------------------------------------------------------- *)
(** ** The matcher *)
(* ---------------------------------------------------------------------- *)

Lemma startsWith_app s p : startsWith s p = true <-> exists rest, s = p ++ rest.
Proof.
  revert s. induction p as [|a p IH]; intros [|b s]; simpl.
  - split; [intros _; exists []; reflexivity | reflexivity].
  - split; [intros _; exists (b :: s); reflexivity | reflexivity].
  - split; [discriminate | intros [rest H]; discriminate].
  - rewrite andb_true_iff, N.eqb_eq, IH. split.
    + intros [-> [rest ->]]. exists rest. reflexivity.
    + intros [rest H]. injection H as -> ->. split; [reflexivity | exists rest; reflexivity].
Qed.

Lemma reads_refl st : reads st st [].
Proof. split; reflexivity. Qed.

Lemma reads_trans st1 st2 st3 w1 w2 :
  reads st1 st2 w1 -> reads st2 st3 w2 -> reads st1 st3 (w1 ++ w2).
Proof.
  intros [B1 A1] [B2 A2]. split.
  - rewrite B2, B1, rev_app_distr, app_assoc. reflexivity.
  - rewrite A1, A2, app_assoc. reflexivity.
Qed.

Lemma reads_consumed st st' w : reads st st' w -> consumed st st' = w.
Proof.
  intros [B _]. unfold consumed. rewrite B, length_app, length_rev.
  replace (length w + length (before st) - length (before st)) with (length (rev w)) by (rewrite length_rev; lia).
  rewrite take_app_length. apply rev_involutive.
Qed.

Lemma reads_length st st' w : reads st st' w -> length (after st) = length w + length (after st').
Proof. intros [_ A]. rewrite A, length_app. reflexivity. Qed.

Lemma star_loop_sound (step : mstate -> (mstate -> option mstate) -> option mstate)
    (P : Prop) g k :
  (forall st k res, step st k = Some res ->
     exists st' w, k st' = Some res /\ reads st st' w /\ (P -> caps st' = caps st)) ->
  forall fuel st res, star_loop step g k fuel st = Some res ->
     exists st' w, k st' = Some res /\ reads st st' w /\ (P -> caps st' = caps st).
Proof.
  intros Hstep. induction fuel as [|fuel IHf]; intros st res H; simpl in H; [discriminate|].
  assert (Hstay : k st = Some res ->
     exists st' w, k st' = Some res /\ reads st st' w /\ (P -> caps st' = caps st)).
  { intros Hk. exists st, []. split; [exact Hk|]. split; [apply reads_refl | reflexivity]. }
  assert (Hagain : step st (fun st1 =>
              if length (after st1) <? length (after st)
              then star_loop step g k fuel st1 else None) = Some res ->
     exists st' w, k st' = Some res /\ reads st st' w /\ (P -> caps st' = caps st)).
  { intros Ha. apply Hstep in Ha as (st1 & w1 & Ha & R1 & G1).
    destruct (length (after st1) <? length (after st)); [|discriminate].
    apply IHf in Ha as (st2 & w2 & Ha & R2 & G2).
    exists st2, (w1 ++ w2). split; [exact Ha|]. split; [eapply reads_trans; eassumption|].
    intros N. rewrite G2, G1; auto. }
  destruct g.
  - match type of H with match ?a with _ => _ end = _ => destruct a as [x|] eqn:E end.
    + injection H as ->. apply Hagain. reflexivity.
    + apply Hstay. exact H.
  - destruct (k st) as [x|] eqn:E.
    + injection H as ->. apply Hstay. reflexivity.
    + apply Hagain. exact H.
Qed.

Lemma rmatch_sound r : forall st k res,
  rmatch r st k = Some res ->
  exists st' w, k st' = Some res /\ reads st st' w
    /\ (nogroups r = true -> caps st' = caps st)
    /\ (consumes r = true -> w <> []).
Proof.
  induction r as [|p|r1 IH1 r2 IH2|r1 IH1 r2 IH2|g r1 IH1|n r1 IH1|n| | |r1 IH1|p];
    intros st k res H; cbn [rmatch] in H.
  - exists st, []. split; [exact H|]. split; [apply reads_refl|]. split; [reflexivity | discriminate].
  - destruct (after st) as [|c rest] eqn:Ea; [discriminate|].
    destruct (p c); [|discriminate].
    exists (MState (c :: before st) rest (caps st)), [c].
    split; [exact H|]. split; [split; [reflexivity | exact Ea]|].
    split; [reflexivity | discriminate].
  - apply IH1 in H as (st1 & w1 & H & R1 & G1 & C1).
    apply IH2 in H as (st2 & w2 & H & R2 & G2 & C2).
    exists st2, (w1 ++ w2). split; [exact H|]. split; [eapply reads_trans; eassumption|].
    simpl. split.
    + intros [N1 N2]%andb_true_iff. rewrite G2, G1; auto.
    + intros Hc Hnil. apply app_eq_nil in Hnil as [-> ->].
      apply orb_true_iff in Hc as [Hc|Hc]; [apply (C1 Hc) | apply (C2 Hc)]; reflexivity.
  - simpl. destruct (rmatch r1 st k) as [x|] eqn:E1.
    + injection H as ->. apply IH1 in E1 as (st1 & w1 & H & R1 & G1 & C1).
      exists st1, w1. repeat split; try assumption; try apply R1.
      * intros [N1 _]%andb_true_iff. auto.
      * intros [N1 _]%andb_true_iff. auto.
    + apply IH2 in H as (st1 & w1 & H & R1 & G1 & C1).
      exists st1, w1. repeat split; try assumption; try apply R1.
      * intros [_ N1]%andb_true_iff. auto.
      * intros [_ N1]%andb_true_iff. auto.
  - apply (star_loop_sound (rmatch r1) (nogroups r1 = true)) in H
      as (st' & w & H & R & G).
    + exists st', w. split; [exact H|]. split; [exact R|]. split; [exact G | discriminate].
    + intros st0 k0 res0 H0. apply IH1 in H0 as (st1 & w1 & H0 & R1 & G1 & _).
      exists st1, w1. auto.
  - apply IH1 in H as (st1 & w1 & H & R1 & G1 & C1).
    eexists _, w1. split; [exact H|]. split; [exact R1|]. split; [discriminate|]. exact C1.
  - destruct (cap_get n (caps st)) as [s|].
    + destruct (startsWith (after st) s) eqn:E; [|discriminate].
      apply startsWith_app in E as [rest E].
      eexists _, s. split; [exact H|]. split.
      * split; [reflexivity|]. simpl. rewrite E at 1. rewrite E, drop_app_length. reflexivity.
      * split; [reflexivity | discriminate].
    + exists st, []. split; [exact H|]. split; [apply reads_refl|]. split; [reflexivity | discriminate].
  - destruct (before st); [|discriminate].
    exists st, []. split; [exact H|]. split; [apply reads_refl|]. split; [reflexivity | discriminate].
  - destruct (after st); [|discriminate].
    exists st, []. split; [exact H|]. split; [apply reads_refl|]. split; [reflexivity | discriminate].
  - destruct (rmatch r1 st Some); [discriminate|].
    exists st, []. split; [exact H|]. split; [apply reads_refl|]. split; [reflexivity | discriminate].
  - assert (Hk : k st = Some res).
    { destruct (before st) as [|c ?]; [exact H|]. destruct (p c); [discriminate | exact H]. }
    exists st, []. split; [exact Hk|]. split; [apply reads_refl|]. split; [reflexivity | discriminate].
Qed.

Lemma match_here_sound r pre suf i m :
  match_here r pre suf i = Some m ->
  exists st', rmatch r (MState pre suf []) Some = Some st'
    /\ index m = i /\ suf = whole m ++ after st' /\ groups m = caps st'
    /\ (consumes r = true -> whole m <> []).
Proof.
  unfold match_here. intros H.
  destruct (rmatch r (MState pre suf []) Some) as [st'|] eqn:E; [|discriminate].
  injection H as <-. exists st'. split; [reflexivity|]. simpl.
  apply rmatch_sound in E as (st'' & w & [= ->] & R & _ & C).
  rewrite (reads_consumed _ _ _ R). destruct R as [_ A]. simpl in A. auto.
Qed.

Lemma scan_sound r : forall suf pre i m,
  scan r pre suf i = Some m ->
  exists skipped suf', suf = skipped ++ suf' /\ index m = i + length skipped
    /\ match_here r (rev skipped ++ pre) suf' (index m) = Some m.
Proof.
  induction suf as [|c suf IH]; intros pre i m H; simpl in H.
  - destruct (match_here r pre [] i) as [m'|] eqn:E; [|discriminate].
    injection H as ->. exists [], []. pose proof E as E'.
    apply match_here_sound in E' as (_ & _ & Hi & _). rewrite Hi.
    split; [reflexivity|]. split; [simpl; lia | exact E].
  - destruct (match_here r pre (c :: suf) i) as [m'|] eqn:E.
    + injection H as ->. exists [], (c :: suf). pose proof E as E'.
      apply match_here_sound in E' as (_ & _ & Hi & _). rewrite Hi.
      split; [reflexivity|]. split; [simpl; lia | exact E].
    + apply IH in H as (skipped & suf' & -> & Hi & H).
      exists (c :: skipped), suf'. split; [reflexivity|]. split; [simpl; lia|].
      simpl. rewrite <- app_assoc. exact H.
Qed.

Lemma exec_from_sound r s lastIndex m :
  exec_from r s lastIndex = Some m -> lastIndex <= index m /\ matchOf r s m.
Proof.
  unfold exec_from. destruct (length s <? lastIndex) eqn:El; [discriminate|].
  apply Nat.ltb_ge in El. intros H.
  apply scan_sound in H as (skipped & suf' & Hs & Hi & H).
  apply match_here_sound in H as (st' & H & _ & Hw & Hg & Hc).
  assert (Hlen : length (drop lastIndex s) = length skipped + length suf')
    by (rewrite Hs, length_app; reflexivity).
  rewrite length_drop in Hlen.
  assert (Htake : take (index m) s = take lastIndex s ++ skipped).
  { rewrite Hi. rewrite <- (take_drop lastIndex s) at 1.
    rewrite take_app_add'; [|rewrite length_take; lia].
    rewrite Hs, take_app_length. reflexivity. }
  assert (Hdrop : drop (index m) s = suf').
  { rewrite Hi. rewrite <- (take_drop lastIndex s) at 1.
    rewrite drop_app_add'; [|rewrite length_take; lia].
    rewrite Hs, drop_app_length. reflexivity. }
  split; [lia|]. exists st'. rewrite Htake, Hdrop, rev_app_distr.
  split; [exact H|]. split; [lia|]. auto.
Qed.

Lemma matchOf_end r s m : matchOf r s m -> endIndex m <= length s.
Proof.
  intros (st' & _ & Hi & Hd & _). unfold endIndex.
  assert (H : length (drop (index m) s) = length (whole m) + length (after st'))
    by (rewrite Hd, length_app; reflexivity).
  rewrite length_drop in H. lia.
Qed.

Lemma execAll_fuel_total r s : consumes r = true ->
  forall fuel lastIndex, lastIndex <= length s < fuel + lastIndex ->
  exists ms, execAll_fuel fuel r s lastIndex = Some ms /\ Forall (matchOf r s) ms.
Proof.
  intros Hc. induction fuel as [|fuel IH]; intros lastIndex Hlen; simpl.
  - exfalso. lia.
  - destruct (exec_from r s lastIndex) as [m|] eqn:E.
    + apply exec_from_sound in E as [Hi Hm].
      pose proof (matchOf_end _ _ _ Hm) as He.
      assert (Hne : whole m <> []) by (destruct Hm as (? & _ & _ & _ & _ & C); auto).
      destruct (IH (endIndex m)) as (ms & -> & Hms).
      { unfold endIndex in *. destruct (whole m); [congruence|]. simpl in *. lia. }
      exists (m :: ms). split; [reflexivity|]. constructor; assumption.
    + exists []. split; [reflexivity | constructor].
Qed.

Lemma execAll_total r s : consumes r = true ->
  exists ms, execAll r s = Some ms /\ Forall (matchOf r s) ms.
Proof. intros Hc. apply execAll_fuel_total; [exact Hc | lia]. Qed.

(* ---------------------------------------------------------------------- *)
(** ** The inline formatter *)
(* ---------------------------------------------------------------------- *)

(** In a match of [A(R)B] the group is not empty and shorter than the
    match. *)
Lemma delimited_group A R B s m :
  nogroups A = true -> consumes A = true ->
  nogroups R = true -> consumes R = true -> nogroups B = true ->
  matchOf (Seq A (Seq (Group 1 R) B)) s m ->
  exists w, group 1 m = Some w /\ w <> [] /\ length w < length (whole m).
Proof.
  intros NA CA NR CR NB (st' & H & _ & Hd & Hg & _).
  cbn [rmatch] in H.
  apply rmatch_sound in H as (st1 & wA & H & R1 & G1 & C1).
  apply rmatch_sound in H as (st2 & wR & H & R2 & G2 & C2).
  apply rmatch_sound in H as (st3 & wB & [= <-] & R3 & G3 & _).
  specialize (G1 NA). specialize (G2 NR). specialize (G3 NB).
  specialize (C1 CA). specialize (C2 CR).
  simpl in G1, G3. rewrite G2, G1, (reads_consumed _ _ _ R2) in G3.
  exists wR. unfold group. rewrite Hg, G3. split; [reflexivity|]. split; [exact C2|].
  destruct R1 as [_ A1], R2 as [_ A2], R3 as [_ A3]. simpl in A1, A3.
  rewrite A1, A2, A3 in Hd.
  replace (wA ++ wR ++ wB ++ after st3) with ((wA ++ wR ++ wB) ++ after st3) in Hd
    by (rewrite <- !app_assoc; reflexivity).
  apply app_inv_tail in Hd. rewrite <- Hd, !length_app.
  destruct wA; [congruence | simpl; lia].
Qed.

Lemma toInlineMatch_shrinks A R B ty text m :
  nogroups A = true -> consumes A = true ->
  nogroups R = true -> consumes R = true -> nogroups B = true ->
  matchOf (Seq A (Seq (Group 1 R) B)) text m ->
  shrinks text (toInlineMatch ty m).
Proof.
  intros NA CA NR CR NB Hm.
  destruct (delimited_group _ _ _ _ _ NA CA NR CR NB Hm) as (w & Hw & Hne & Hlt).
  pose proof (matchOf_end _ _ _ Hm) as He. unfold endIndex in He.
  unfold shrinks, toInlineMatch; simpl. rewrite Hw.
  destruct w; [congruence|]. destruct ty; try exact I; lia.
Qed.

Lemma collectMatches_total text :
  exists ms, collectMatches patterns text = Some ms /\ Forall (shrinks text) ms.
Proof.
  unfold patterns, collectMatches.
  destruct (execAll_total re_code text eq_refl) as (m1 & -> & H1).
  destruct (execAll_total re_bold_star text eq_refl) as (m2 & -> & H2).
  destruct (execAll_total re_bold_under text eq_refl) as (m3 & -> & H3).
  destruct (execAll_total re_strike text eq_refl) as (m4 & -> & H4).
  destruct (execAll_total re_italic_star text eq_refl) as (m5 & -> & H5).
  destruct (execAll_total re_italic_under text eq_refl) as (m6 & -> & H6).
  destruct (execAll_total re_link text eq_refl) as (m7 & -> & H7).
  simpl. eexists. split; [reflexivity|].
  repeat apply Forall_app_2; try solve [constructor].
  - apply Forall_map. apply Forall_forall. intros; exact I.
  - apply Forall_map. eapply Forall_impl; [exact H2|]. intros m Hm.
    eapply toInlineMatch_shrinks; [..|exact Hm]; reflexivity.
  - apply Forall_map. eapply Forall_impl; [exact H3|]. intros m Hm.
    eapply toInlineMatch_shrinks; [..|exact Hm]; reflexivity.
  - apply Forall_map. eapply Forall_impl; [exact H4|]. intros m Hm.
    eapply toInlineMatch_shrinks; [..|exact Hm]; reflexivity.
  - apply Forall_map. eapply Forall_impl; [exact H5|]. intros m Hm.
    eapply toInlineMatch_shrinks; [..|exact Hm]; reflexivity.
  - apply Forall_map. eapply Forall_impl; [exact H6|]. intros m Hm.
    eapply toInlineMatch_shrinks; [..|exact Hm]; reflexivity.
  - apply Forall_map. apply Forall_forall. intros; exact I.
Qed.

Lemma insertByStart_Forall (P : InlineMatch -> Prop) x l :
  P x -> Forall P l -> Forall P (insertByStart x l).
Proof.
  intros Hx. induction 1 as [|y l Hy Hl IH]; simpl.
  - constructor; [exact Hx | constructor].
  - destruct (m_start x <? m_start y); repeat constructor; assumption.
Qed.

Lemma sortByStart_Forall (P : InlineMatch -> Prop) l :
  Forall P l -> Forall P (sortByStart l).
Proof.
  unfold sortByStart. intros H.
  assert (G : forall acc, Forall P acc -> Forall P (fold_left (fun acc x => insertByStart x acc) l acc)).
  { induction H as [|x l Hx Hl IH]; intros acc Hacc; simpl; [exact Hacc|].
    apply IH. apply insertByStart_Forall; assumption. }
  apply G. constructor.
Qed.

Lemma removeOverlapping_Forall (P : InlineMatch -> Prop) l :
  Forall P l -> Forall P (removeOverlapping l).
Proof.
  unfold removeOverlapping. intros H.
  assert (G : forall acc, Forall P acc ->
     Forall P (fold_left (fun kept current =>
        if existsb (overlaps current) kept then kept else kept ++ [current]) l acc)).
  { induction H as [|x l Hx Hl IH]; intros acc Hacc; simpl; [exact Hacc|].
    apply IH. destruct (existsb (overlaps x) acc); [exact Hacc|].
    apply Forall_app_2; [exact Hacc | repeat constructor; exact Hx]. }
  apply G. constructor.
Qed.

Section InlineFormatterFacts.

Variable URL : jsstring -> option URLRecord.

Lemma buildRichText_total recur text :
  (forall c, length c < length text -> is_Some (recur c)) ->
  is_Some (buildRichText URL recur text).
Proof.
  intros Hrec. unfold buildRichText.
  destruct (collectMatches_total text) as (ms & -> & Hms). simpl.
  apply sortByStart_Forall, removeOverlapping_Forall in Hms.
  set (l := removeOverlapping (sortByStart ms)) in *. clearbody l.
  match goal with |- is_Some (?b ≫= _) => assert (Hfold : is_Some b) end.
  { generalize (@nil RichText, 0). induction Hms as [|m l Hm Hl IH]; intros acc; simpl.
    - eexists; reflexivity.
    - destruct acc as [richText lastIndex]. unfold shrinks in Hm. simpl.
      destruct (m_type m); try apply IH;
        (destruct (test re_nested (m_content m)); [|apply IH]);
        destruct (Hrec _ Hm) as [nested ->]; simpl; apply IH. }
  destruct Hfold as [[richText lastIndex] ->]. simpl. eexists; reflexivity.
Qed.

(** The inline formatter returns on every input. *)
Lemma parseInline_fuel_total : forall fuel text,
  length text < fuel -> is_Some (parseInline_fuel URL fuel text).
Proof.
  induction fuel as [|fuel IH]; intros text Hlen; [lia|]. simpl.
  destruct (blank text); [eexists; reflexivity|].
  destruct (buildRichText_total (parseInline_fuel URL fuel) text) as [rt ->].
  - intros c Hc. apply IH. lia.
  - eexists; reflexivity.
Qed.

Lemma parseInlineMarkdown_total text : is_Some (parseInlineMarkdown URL text).
Proof. apply parseInline_fuel_total. lia. Qed.

End InlineFormatterFacts.

(* ---------------------------------------------------------------------- *)
(** ** Chunking and the split of long runs *)
(* ---------------------------------------------------------------------- *)

Lemma chunks_fuel_concat {A} size : 0 < size ->
  forall fuel (xs : list A), length xs <= fuel -> concat (chunks_fuel fuel size xs) = xs.
Proof.
  intros Hs. induction fuel as [|fuel IH]; intros xs Hlen.
  - destruct xs; [reflexivity | simpl in Hlen; lia].
  - destruct xs as [|x xs]; [reflexivity|].
    cbn [chunks_fuel concat]. rewrite IH; [apply take_drop|].
    rewrite length_drop. simpl in *. lia.
Qed.

Lemma chunks_concat {A} size (xs : list A) : 0 < size -> concat (chunks size xs) = xs.
Proof. intros Hs. apply chunks_fuel_concat; [exact Hs | reflexivity]. Qed.

Lemma chunks_fuel_bound {A} size fuel (xs : list A) :
  Forall (fun c => length c <= size) (chunks_fuel fuel size xs).
Proof.
  revert xs. induction fuel as [|fuel IH]; intros xs; simpl; [constructor|].
  destruct xs as [|x xs]; [constructor|].
  constructor; [|apply IH]. rewrite length_take. lia.
Qed.

Lemma chunks_fits {A} size (xs : list A) :
  0 < length xs <= size -> chunks size xs = [xs].
Proof.
  intros Hlen. unfold chunks. destruct xs as [|x xs]; [simpl in Hlen; lia|].
  cbn [length chunks_fuel]. rewrite take_ge by (simpl in *; lia).
  rewrite drop_ge by (simpl in *; lia). destruct (length xs); reflexivity.
Qed.

Lemma chunks_long {A} size (xs : list A) :
  0 < size < length xs -> 2 <= length (chunks size xs).
Proof.
  intros Hlen. unfold chunks. destruct xs as [|x xs]; [simpl in Hlen; lia|].
  cbn [length chunks_fuel].
  destruct (drop size (x :: xs)) as [|y ys] eqn:E.
  - apply (f_equal length) in E. rewrite length_drop in E. simpl in *. lia.
  - destruct (length xs) eqn:El; [simpl in *; lia|]. simpl. lia.
Qed.

Section SplitFacts.
Variable URL : jsstring -> option URLRecord.

Hypothesis href_canonical : forall x u,
  validateAndCleanUrl URL x = Some u -> validateAndCleanUrl URL u = Some u.

Lemma validated_stable (l : option jsstring) :
  linkStable URL (l ≫= validateAndCleanUrl URL).
Proof using href_canonical.
  unfold linkStable. destruct l as [x|]; [|reflexivity]. simpl.
  destruct (validateAndCleanUrl URL x) as [u|] eqn:E; [|reflexivity].
  simpl. apply (href_canonical _ _ E).
Qed.

Lemma splitLongSegment_bound segment :
  Forall (fun r => length (content r) <= MAX_TEXT_LENGTH) (splitLongSegment URL segment).
Proof.
  unfold splitLongSegment.
  destruct (length (content segment) <=? MAX_TEXT_LENGTH) eqn:E.
  - apply Nat.leb_le in E. constructor; [exact E | constructor].
  - apply Forall_map. simpl. apply chunks_fuel_bound.
Qed.

Lemma splitLongSegment_content segment :
  concat (map content (splitLongSegment URL segment)) = content segment.
Proof.
  unfold splitLongSegment.
  destruct (length (content segment) <=? MAX_TEXT_LENGTH); [apply app_nil_r|].
  rewrite map_map. simpl. rewrite map_id. apply chunks_concat. unfold MAX_TEXT_LENGTH. lia.
Qed.

Lemma splitLongSegment_inherits segment :
  linkStable URL (link segment) ->
  Forall (fun r => annotations r = annotations segment /\ link r = link segment)
         (splitLongSegment URL segment).
Proof.
  intros Hl. unfold splitLongSegment.
  destruct (length (content segment) <=? MAX_TEXT_LENGTH); [repeat constructor|].
  apply Forall_map, Forall_forall. intros chunk _. simpl. split; [reflexivity | exact Hl].
Qed.

Lemma splitLongSegment_short segment :
  length (content segment) <= MAX_TEXT_LENGTH -> splitLongSegment URL segment = [segment].
Proof. intros H. unfold splitLongSegment. apply Nat.leb_le in H. rewrite H. reflexivity. Qed.

Lemma splitLongSegment_long segment :
  MAX_TEXT_LENGTH < length (content segment) -> 2 <= length (splitLongSegment URL segment).
Proof.
  intros H. unfold splitLongSegment.
  destruct (length (content segment) <=? MAX_TEXT_LENGTH) eqn:E;
    [apply Nat.leb_le in E; lia|].
  rewrite length_map. apply chunks_long. unfold MAX_TEXT_LENGTH in *. lia.
Qed.

Lemma finishRuns_bound richText :
  Forall (fun r => length (content r) <= MAX_TEXT_LENGTH) (finishRuns URL richText).
Proof.
  unfold finishRuns.
  assert (H : Forall (fun r => length (content r) <= MAX_TEXT_LENGTH)
                (concat (map (splitLongSegment URL) richText))).
  { apply Forall_concat, Forall_map, Forall_forall. intros seg _.
    apply splitLongSegment_bound. }
  destruct (concat (map (splitLongSegment URL) richText)); [|exact H].
  constructor; [simpl; lia | constructor].
Qed.

Lemma buildRichText_links recur text richText :
  buildRichText URL recur text = Some richText ->
  Forall (fun r => linkStable URL (link r)) richText.
Proof using href_canonical.
  unfold buildRichText. destruct (collectMatches patterns text) as [ms|]; [|discriminate].
  simpl. set (l := removeOverlapping (sortByStart ms)). clearbody l.
  assert (Hplain : forall a b, Forall (fun r => linkStable URL (link r)) (plainBefore URL text a b)).
  { intros a b. unfold plainBefore. destruct (a <? b); [|constructor].
    destruct (slice text a b); repeat constructor. }
  assert (Hfold : forall acc rt li,
    match acc with Some (rt0, _) => Forall (fun r => linkStable URL (link r)) rt0 | None => True end ->
    fold_left (fun (st : option (list RichText * nat)) (m : InlineMatch) =>
      st ≫= (fun '(richText, lastIndex) =>
        let richText := richText ++ plainBefore URL text lastIndex (m_start m) in
        let annotations := annotationsOf (m_type m) in
        match m_type m with
        | TCode =>
            Some (richText ++ [createRichTextSegment URL (m_content m) annotations None], m_end m)
        | TLink =>
            let link := m_link m ≫= validateAndCleanUrl URL in
            Some (richText ++ [createRichTextSegment URL (m_content m) annotations link], m_end m)
        | _ =>
            if test re_nested (m_content m) then
              recur (m_content m) ≫= (fun nested =>
              Some (richText ++ map (mergeNested URL annotations) nested, m_end m))
            else
              Some (richText ++ [createRichTextSegment URL (m_content m) annotations None], m_end m)
        end)) l acc = Some (rt, li) ->
    Forall (fun r => linkStable URL (link r)) rt).
  { induction l as [|m l IH]; intros acc rt li Hacc H; simpl in H.
    - subst acc. exact Hacc.
    - eapply IH; [|exact H]. destruct acc as [[rt0 li0]|]; [|exact I]. simpl.
      assert (Hseg : forall c a o, Forall (fun r => linkStable URL (link r))
                ((rt0 ++ plainBefore URL text li0 (m_start m)) ++ [createRichTextSegment URL c a o])).
      { intros. apply Forall_app_2; [apply Forall_app_2; [exact Hacc | apply Hplain]|].
        repeat constructor. simpl. apply validated_stable. }
      destruct (m_type m); try apply Hseg;
        (destruct (test re_nested (m_content m)); [|apply Hseg]);
        (destruct (recur (m_content m)) as [nested|]; [|exact I]); simpl;
        (apply Forall_app_2; [apply Forall_app_2; [exact Hacc | apply Hplain]|]);
        apply Forall_map, Forall_forall; intros seg _; simpl; apply validated_stable. }
  intros H.
  match type of H with ?f ≫= _ = _ => destruct f as [[rt li]|] eqn:E; [|discriminate] end.
  simpl in H. injection H as <-.
  apply Forall_app_2; [|apply Hplain].
  eapply Hfold; [|exact E]. constructor.
Qed.

End SplitFacts.

(* ---------------------------------------------------------------------- *)
(** ** Text without markup *)
(* ---------------------------------------------------------------------- *)

Lemma scan_none r (P : N -> Prop) :
  (forall pre i, match_here r pre [] i = None) ->
  (forall pre c suf i, P c -> match_here r pre (c :: suf) i = None) ->
  forall suf pre i, Forall P suf -> scan r pre suf i = None.
Proof.
  intros Hnil Hcons. induction suf as [|c suf IH]; intros pre i Hs; simpl.
  - rewrite Hnil. reflexivity.
  - inversion Hs; subst. rewrite Hcons by assumption. apply IH. assumption.
Qed.

Lemma execAll_none r (P : N -> Prop) s :
  (forall pre i, match_here r pre [] i = None) ->
  (forall pre c suf i, P c -> match_here r pre (c :: suf) i = None) ->
  Forall P s -> execAll r s = Some [].
Proof.
  intros Hnil Hcons Hs. unfold execAll. simpl. unfold exec_from. simpl.
  rewrite (scan_none r P Hnil Hcons) by assumption. reflexivity.
Qed.

Lemma is_markup_false c :
  is_markup c = false ->
  (96 =? c)%N = false /\ (42 =? c)%N = false /\ (95 =? c)%N = false
  /\ (126 =? c)%N = false /\ (91 =? c)%N = false.
Proof.
  unfold is_markup, one. simpl. rewrite !orb_false_iff.
  rewrite !(N.eqb_sym c). tauto.
Qed.

Ltac eval_js :=
  repeat match goal with
         | |- context [js ?s] =>
             let v := eval vm_compute in (js s) in change (js s) with v
         end.

Ltac no_markup_match :=
  intros; cbn [fst]; unfold match_here, re_code, re_bold_star, re_bold_under, re_strike,
    re_italic_star, re_italic_under, re_link, none, one;
  eval_js; cbn -[N.eqb];
  try match goal with
      | H : is_markup _ = false |- _ =>
          apply is_markup_false in H; destruct H as (H1 & H2 & H3 & H4 & H5);
          rewrite ?H1, ?H2, ?H3, ?H4, ?H5
      end;
  repeat match goal with
         | |- context [match ?b with [] => _ | _ :: _ => _ end] => is_var b; destruct b
         | |- context [if ?b then _ else _] => destruct b
         end;
  reflexivity.

Lemma patterns_need_markup :
  Forall (fun p => (forall pre i, match_here (fst p) pre [] i = None) /\
                   (forall pre c suf i, is_markup c = false ->
                      match_here (fst p) pre (c :: suf) i = None)) patterns.
Proof.
  unfold patterns. repeat (constructor; [split; [no_markup_match | no_markup_match]|]).
  constructor.
Qed.

Lemma collectMatches_none text :
  markupFree text -> collectMatches patterns text = Some [].
Proof.
  intros Hfree. pose proof patterns_need_markup as H.
  induction H as [|[re ty] ps [Hnil Hcons] Hps IH]; [reflexivity|].
  simpl. rewrite (execAll_none re _ text Hnil Hcons Hfree). simpl.
  rewrite IH. reflexivity.
Qed.

Section PlainText.
Variable URL : jsstring -> option URLRecord.

Lemma buildRichText_plain recur text :
  markupFree text -> text <> [] ->
  buildRichText URL recur text = Some [mkRun text noAnnotations None].
Proof.
  intros Hfree Hne. unfold buildRichText. rewrite collectMatches_none by assumption.
  simpl. unfold plainBefore. destruct text as [|c text]; [congruence|].
  simpl. unfold slice. simpl. rewrite take_ge by lia. reflexivity.
Qed.

Lemma blank_nil_false text : blank text = false -> text <> [].
Proof. intros H ->. discriminate H. Qed.

(** A text without markup is one plain run, cut every 2000 code units. *)
Lemma parseInlineMarkdown_plain text :
  markupFree text -> blank text = false ->
  parseInlineMarkdown URL text = Some (finishRuns URL [mkRun text noAnnotations None]).
Proof.
  intros Hfree Hb. unfold parseInlineMarkdown. simpl. rewrite Hb.
  rewrite buildRichText_plain; [reflexivity | exact Hfree | apply blank_nil_false, Hb].
Qed.

Lemma parseInlineMarkdown_blank text :
  blank text = true -> parseInlineMarkdown URL text = Some [emptyRun].
Proof. intros Hb. unfold parseInlineMarkdown. simpl. rewrite Hb. reflexivity. Qed.

End PlainText.

(** C8 (corrected).  For every string [t] without inline-markup code
    units and of at most 2000 code units, the inline formatter returns
    exactly one run, without annotations and without link; its content is
    [t], or the empty string when [t] is empty or all white space. *)
Theorem C8_plain_text_single_run (URL : jsstring -> option URLRecord) (t : jsstring) :
  markupFree t -> length t <= MAX_TEXT_LENGTH ->
  parseInlineMarkdown URL t =
    Some [mkRun (if blank t then [] else t) noAnnotations None].
Proof.
  intros Hfree Hlen. destruct (blank t) eqn:Hb.
  - apply parseInlineMarkdown_blank. exact Hb.
  - rewrite parseInlineMarkdown_plain by assumption.
    unfold finishRuns. simpl. rewrite splitLongSegment_short by exact Hlen. reflexivity.
Qed.

Lemma C8_plain_text_single_run_witness :
  markupFree (js "plain text, no markup") /\
  parseInlineMarkdown (fun _ => None) (js "plain text, no markup") =
    Some [mkRun (js "plain text, no markup") noAnnotations None].
Proof.
  assert (H : markupFree (js "plain text, no markup")).
  { apply Forall_forall. intros c Hc. apply list_elem_of_In in Hc. vm_compute in Hc.
    repeat (destruct Hc as [<-|Hc]; [reflexivity|]). destruct Hc. }
  split; [exact H|].
  apply (C8_plain_text_single_run (fun _ => None) (js "plain text, no markup") H).
  vm_compute. lia.
Defined.

(** C8 as stated fails on a long text: 2001 letters [a] carry no markup
    and come back as two runs, of 2000 letters and of one. *)
Lemma C8_long_plain_text_two_runs :
  forallb (fun c => negb (is_markup c)) (JS.repeat 97 2001) = true
  /\ parseInlineMarkdown (fun _ => None) (JS.repeat 97 2001) =
       Some [mkRun (JS.repeat 97 2000) noAnnotations None;
             mkRun (JS.repeat 97 1) noAnnotations None]
  /\ ~ (exists run, parseInlineMarkdown (fun _ => None) (JS.repeat 97 2001) = Some [run]).
Proof.
  split; [vm_compute; reflexivity|]. split; [vm_compute; reflexivity|].
  intros [run H]. vm_compute in H. discriminate H.
Qed.

(* ---------------------------------------------------------------------- *)
(** ** The length ceiling of runs *)
(* ---------------------------------------------------------------------- *)

Lemma splitLongSegment_nonempty URL segment : splitLongSegment URL segment <> [].
Proof.
  destruct (Nat.le_gt_cases (length (content segment)) MAX_TEXT_LENGTH) as [Hs|Hl].
  - rewrite splitLongSegment_short by exact Hs. discriminate.
  - apply (splitLongSegment_long URL) in Hl. intros Heq. rewrite Heq in Hl.
    simpl in Hl. lia.
Qed.

(** C5.  On every input the inline formatter returns, and every run it
    returns has at most 2000 code units.  The runs are the runs of the
    construction phase, each one split on its own: a run within the
    ceiling is kept, a longer run becomes two or more consecutive runs
    whose contents concatenate to its content, each with its annotations
    and its link.  The link is validated again when the chunk is built;
    [href_canonical] says what the platform's URL serializer guarantees,
    that a validated URL validates to itself. *)
Theorem C5_runs_within_ceiling (URL : jsstring -> option URLRecord)
    (href_canonical : forall x u,
       validateAndCleanUrl URL x = Some u -> validateAndCleanUrl URL u = Some u)
    (text : jsstring) :
  exists result,
    parseInlineMarkdown URL text = Some result
    /\ Forall (fun r => length (content r) <= 2000) result
    /\ (blank text = false ->
        exists richText,
          buildRichText URL (parseInline_fuel URL (length text)) text = Some richText
          /\ (richText <> [] -> result = concat (map (splitLongSegment URL) richText))
          /\ Forall (fun segment =>
                let parts := splitLongSegment URL segment in
                concat (map content parts) = content segment
                /\ Forall (fun p => annotations p = annotations segment
                                    /\ link p = link segment) parts
                /\ (length (content segment) <= 2000 -> parts = [segment])
                /\ (2000 < length (content segment) -> 2 <= length parts))
              richText).
Proof.
  destruct (parseInlineMarkdown_total URL text) as [result Hres].
  exists result. split; [exact Hres|].
  unfold parseInlineMarkdown in Hres. simpl in Hres.
  destruct (blank text) eqn:Hb.
  - injection Hres as <-. split; [|discriminate].
    constructor; [simpl; lia | constructor].
  - destruct (buildRichText URL (parseInline_fuel URL (length text)) text)
      as [richText|] eqn:Hrt; [|discriminate].
    simpl in Hres. injection Hres as <-.
    split; [apply finishRuns_bound|]. intros _. exists richText.
    split; [reflexivity|]. split.
    + intros Hne. unfold finishRuns.
      destruct richText as [|seg rest]; [congruence|]. simpl.
      pose proof (splitLongSegment_nonempty URL seg) as Hs.
      destruct (splitLongSegment URL seg); [congruence | reflexivity].
    + apply buildRichText_links in Hrt; [|exact href_canonical].
      eapply Forall_impl; [exact Hrt|]. intros segment Hl. simpl.
      split; [apply splitLongSegment_content|].
      split; [apply splitLongSegment_inherits; exact Hl|].
      split; [apply splitLongSegment_short | apply splitLongSegment_long].
Qed.

Lemma C5_runs_within_ceiling_witness :
  exists result,
    parseInlineMarkdown toyURL (js "see **bold** and [site](http://a.example)") = Some result
    /\ Forall (fun r => length (content r) <= 2000) result.
Proof.
  assert (Hcanon : forall x u,
    validateAndCleanUrl toyURL x = Some u -> validateAndCleanUrl toyURL u = Some u).
  { intros x u H.
    assert (Hu : u = js "https://example.org/").
    { unfold validateAndCleanUrl, toyURL in H.
      repeat match type of H with
             | context [if ?b then _ else _] => destruct b
             end; simpl in H; congruence. }
    subst u. vm_compute. reflexivity. }
  destruct (C5_runs_within_ceiling toyURL Hcanon
              (js "see **bold** and [site](http://a.example)")) as (result & H1 & H2 & _).
  exists result. split; assumption.
Defined.

(* ---------------------------------------------------------------------- *)
(** ** Anchored patterns and counted repetitions *)
(* ---------------------------------------------------------------------- *)

Lemma match_here_bol r pre suf i :
  pre <> [] -> match_here (Seq Bol r) pre suf i = None.
Proof. intros H. unfold match_here. cbn. destruct pre; [congruence | reflexivity]. Qed.

Lemma scan_bol r : forall suf pre i, pre <> [] -> scan (Seq Bol r) pre suf i = None.
Proof.
  induction suf as [|c suf IH]; intros pre i H; cbn [scan];
    rewrite match_here_bol by exact H; [reflexivity|].
  apply IH. discriminate.
Qed.

(** A pattern that starts with [^] matches at the start or not at all. *)
Lemma exec_bol r s : exec (Seq Bol r) s = match_here (Seq Bol r) [] s 0.
Proof.
  unfold exec, exec_from. simpl. rewrite drop_0.
  destruct s as [|c s]; cbn [scan]; destruct (match_here (Seq Bol r) [] _ 0); try reflexivity.
  apply scan_bol. discriminate.
Qed.

Lemma rmatch_rep_chr p : forall n st k,
  rmatch (Rep n (Chr p)) st k =
    if (n <=? length (after st)) && forallb p (take n (after st))
    then k (MState (rev (take n (after st)) ++ before st) (drop n (after st)) (caps st))
    else None.
Proof.
  induction n as [|n IH]; intros [b a cs] k; cbn [Rep rmatch before after caps].
  - simpl. rewrite drop_0. reflexivity.
  - destruct a as [|c a]; [reflexivity|]. cbn [length take forallb drop].
    destruct (p c); [|rewrite andb_false_r; reflexivity].
    rewrite IH. cbn [before after caps]. 
    change (S n <=? S (length a)) with (n <=? length a). cbn [andb].
    destruct ((n <=? length a) && forallb p (take n a)); [|reflexivity].
    cbn [rev]. rewrite <- app_assoc. reflexivity.
Qed.

(* ---------------------------------------------------------------------- *)
(** ** Page-id extraction *)
(* ---------------------------------------------------------------------- *)

Lemma isHex32_spec h : isHex32 h = true <-> length h = 32 /\ Forall (fun c => hex_i c = true) h.
Proof.
  unfold isHex32. rewrite andb_true_iff, Nat.eqb_eq, forallb_forall, Forall_forall.
  split; intros [H1 H2]; (split; [exact H1|]); intros c Hc; apply H2;
    apply list_elem_of_In; exact Hc.
Qed.

Lemma exec_exact_rep p n s :
  exec (Seq Bol (Seq (Rep n (Chr p)) Eol)) s =
    if (length s =? n) && forallb p s then Some (Match 0 s []) else None.
Proof.
  rewrite exec_bol. unfold match_here.
  cbn [rmatch before]. rewrite rmatch_rep_chr. cbn [after before caps rmatch].
  destruct (Nat.eqb_spec (length s) n) as [E|E].
  - subst n. rewrite Nat.leb_refl, take_ge, drop_ge by lia. cbn [andb].
    destruct (forallb p s); [|reflexivity]. cbn [fmap option_fmap option_map].
    unfold consumed. cbn [before caps]. rewrite app_nil_r, length_rev, Nat.sub_0_r.
    rewrite <- (length_rev s), take_ge, rev_involutive by lia. reflexivity.
  - destruct (Nat.leb_spec n (length s)) as [L|L]; [|reflexivity].
    cbn [andb]. destruct (forallb p (take n s)); [|reflexivity].
    destruct (drop n s) eqn:Ed; [|reflexivity].
    apply (f_equal length) in Ed. rewrite length_drop in Ed. simpl in Ed. lia.
Qed.

Lemma test_bare_id s : test re_bare_id s = isHex32 s.
Proof.
  unfold test, re_bare_id, isHex32. rewrite exec_exact_rep.
  destruct ((length s =? 32) && forallb hex_i s); reflexivity.
Qed.

Lemma removeDashes_hex h : Forall (fun c => hex_i c = true) h -> removeDashes h = h.
Proof.
  unfold removeDashes. induction 1 as [|c h Hc Hh IH]; [reflexivity|].
  rewrite filter_cons. destruct (decide (c <> 45%N)) as [_|E].
  - rewrite IH. reflexivity.
  - apply dec_stable in E. subst c. discriminate Hc.
Qed.

Lemma formatNotionId_shape h :
  isHex32 h = true -> isHyphenatedUUID (formatNotionId h) = true.
Proof.
  intros H. apply isHex32_spec in H as [Hlen Hhex].
  unfold formatNotionId. rewrite removeDashes_hex by exact Hhex.
  rewrite Hlen. cbn [Nat.eqb negb].
  do 32 (destruct h as [|? h]; [exfalso; simpl in Hlen; lia|]).
  destruct h; [|exfalso; simpl in Hlen; lia]. clear Hlen.
  repeat match goal with
         | H : Forall _ (_ :: _) |- _ => apply Forall_cons in H as [? H]
         end.
  unfold isHyphenatedUUID, slice. apply eqb_eq.
  cbn -[hex_i]. 
  repeat match goal with H : hex_i _ = true |- _ => rewrite H; clear H end.
  reflexivity.
Qed.

Lemma consumed_app w pre a a' cs cs' :
  consumed (MState pre a cs) (MState (rev w ++ pre) a' cs') = w.
Proof.
  unfold consumed. cbn [before]. rewrite length_app, length_rev.
  replace (length w + length pre - length pre) with (length (rev w)) by (rewrite length_rev; lia).
  rewrite take_app_length. apply rev_involutive.
Qed.

Lemma match_here_tail_rep p n pre suf i :
  match_here (Seq (Group 1 (Rep n (Chr p))) Eol) pre suf i =
    if (length suf =? n) && forallb p suf then Some (Match i suf [(1, suf)]) else None.
Proof.
  unfold match_here. cbn [rmatch]. rewrite rmatch_rep_chr. cbn [after before caps].
  destruct (Nat.eqb_spec (length suf) n) as [E|E].
  - subst n. rewrite Nat.leb_refl, take_ge, drop_ge by lia. cbn [andb].
    destruct (forallb p suf); [|reflexivity].
    cbn [fmap option_fmap option_map caps]. rewrite !consumed_app. reflexivity.
  - destruct (Nat.leb_spec n (length suf)) as [L|L]; [|reflexivity].
    cbn [andb]. destruct (forallb p (take n suf)); [|reflexivity].
    destruct (drop n suf) eqn:Ed; [|reflexivity].
    apply (f_equal length) in Ed. rewrite length_drop in Ed. simpl in Ed. lia.
Qed.

Lemma match_here_dash_rep p n pre suf i :
  match_here (Seq (Chr (N.eqb 45)) (Seq (Group 1 (Rep n (Chr p))) Eol)) pre suf i =
    match suf with
    | c :: h =>
        if (45 =? c)%N && ((length h =? n) && forallb p h)
        then Some (Match i suf [(1, h)]) else None
    | [] => None
    end.
Proof.
  destruct suf as [|c h]; [reflexivity|].
  unfold match_here. cbn [rmatch after before caps].
  destruct (N.eqb_spec 45 c) as [<-|E]; [|reflexivity]. cbn [andb].
  rewrite rmatch_rep_chr. cbn [after before caps].
  destruct (Nat.eqb_spec (length h) n) as [En|En].
  - subst n. rewrite Nat.leb_refl, take_ge, drop_ge by lia. cbn [andb].
    destruct (forallb p h); [|reflexivity].
    cbn [fmap option_fmap option_map caps]. rewrite consumed_app.
    replace (rev h ++ 45%N :: pre) with (rev (45%N :: h) ++ pre)
      by (simpl; rewrite <- app_assoc; reflexivity).
    rewrite consumed_app. reflexivity.
  - destruct (Nat.leb_spec n (length h)) as [L|L]; [|reflexivity].
    cbn [andb]. destruct (forallb p (take n h)); [|reflexivity].
    destruct (drop n h) eqn:Ed; [|reflexivity].
    apply (f_equal length) in Ed. rewrite length_drop in Ed. simpl in Ed. lia.
Qed.

Lemma re_dash_id_eq :
  re_dash_id = Seq (Chr (N.eqb 45)) (Seq (Group 1 (Rep 32 (Chr hex_i))) Eol).
Proof. reflexivity. Qed.

(** A match of either path pattern captures 32 hexadecimal digits. *)
Lemma exec_dash_id_group path m :
  exec re_dash_id path = Some m -> exists h, group 1 m = Some h /\ isHex32 h = true.
Proof.
  intros H. apply scan_sound in H as (skipped & suf & _ & _ & H).
  rewrite re_dash_id_eq, match_here_dash_rep in H.
  destruct suf as [|c h]; [discriminate|].
  destruct (45 =? c)%N; [|discriminate]. cbn [andb] in H.
  destruct ((length h =? 32) && forallb hex_i h) eqn:E; [|discriminate].
  injection H as <-. exists h. split; [reflexivity | exact E].
Qed.

Lemma exec_tail_id_group path m :
  exec re_tail_id path = Some m -> exists h, group 1 m = Some h /\ isHex32 h = true.
Proof.
  intros H. apply scan_sound in H as (skipped & suf & _ & _ & H).
  unfold re_tail_id in H. rewrite match_here_tail_rep in H.
  destruct ((length suf =? 32) && forallb hex_i suf) eqn:E; [|discriminate].
  injection H as <-. exists suf. split; [reflexivity | exact E].
Qed.

(** On a path that ends in a dash and 32 hexadecimal digits the first
    pattern finds exactly those digits. *)
Lemma scan_dash_id h : isHex32 h = true ->
  forall front pre i,
  scan re_dash_id pre (front ++ 45%N :: h) i =
    Some (Match (i + length front) (45%N :: h) [(1, h)]).
Proof.
  intros Hh. induction front as [|c front IH]; intros pre i; cbn [app scan].
  - rewrite re_dash_id_eq, match_here_dash_rep. cbn [N.eqb Pos.eqb andb].
    unfold isHex32 in Hh. rewrite Hh. rewrite Nat.add_0_r. reflexivity.
  - rewrite re_dash_id_eq at 1. rewrite match_here_dash_rep.
    assert (Hlen : (length (front ++ 45%N :: h) =? 32) = false).
    { apply Nat.eqb_neq. apply isHex32_spec in Hh as [Hl _].
      rewrite length_app. simpl. lia. }
    rewrite Hlen. cbn [andb]. rewrite andb_false_r.
    rewrite IH. cbn [length]. f_equal. f_equal. lia.
Qed.

Lemma exec_dash_id front h : isHex32 h = true ->
  exec re_dash_id (front ++ 45%N :: h) = Some (Match (length front) (45%N :: h) [(1, h)]).
Proof.
  intros Hh. unfold exec, exec_from. cbn [length Nat.ltb Nat.leb take rev].
  rewrite drop_0. apply (scan_dash_id h Hh front [] 0).
Qed.

Section PageIdFacts.

Variable URL : jsstring -> option URLRecord.

(** Whatever is accepted comes back in the form 8-4-4-4-12. *)
Lemma extractAndValidatePageId_shape input id :
  extractAndValidatePageId URL input = inr id -> isHyphenatedUUID id = true.
Proof.
  unfold extractAndValidatePageId. destruct (blank input); [discriminate|].
  destruct (startsWith (trim input) (js "http://") || startsWith (trim input) (js "https://")).
  - destruct (URL (trim input)) as [u|]; [|discriminate].
    destruct (exec re_dash_id (pathname u)) as [m|] eqn:E1.
    + apply exec_dash_id_group in E1 as (h & -> & Hh). intros [= <-].
      apply formatNotionId_shape, Hh.
    + destruct (exec re_tail_id (pathname u)) as [m|] eqn:E2; [|discriminate].
      apply exec_tail_id_group in E2 as (h & -> & Hh). intros [= <-].
      apply formatNotionId_shape, Hh.
  - rewrite test_bare_id.
    destruct (isHex32 (removeDashes (trim input))) eqn:E; [|discriminate].
    intros [= <-]. 
    assert (Hrd : removeDashes (removeDashes (trim input)) = removeDashes (trim input)).
    { apply removeDashes_hex. apply isHex32_spec in E. apply E. }
    unfold formatNotionId. rewrite Hrd.
    pose proof (formatNotionId_shape _ E) as F. unfold formatNotionId in F.
    rewrite Hrd in F. exact F.
Qed.

Lemma blank_false_of_trim input c t : trim input = c :: t -> blank input = false.
Proof. intros H. unfold blank. rewrite H. reflexivity. Qed.

(** A bare identifier, hyphenated or not, is accepted. *)
Lemma extractAndValidatePageId_bare input :
  isHex32 (removeDashes (trim input)) = true ->
  extractAndValidatePageId URL input = inr (formatNotionId (removeDashes (trim input))).
Proof.
  intros Hh. unfold extractAndValidatePageId.
  destruct (trim input) as [|c t] eqn:Et; [discriminate Hh|].
  rewrite (blank_false_of_trim _ _ _ Et).
  assert (Hc : (104 =? c)%N = false).
  { destruct (N.eqb_spec 104 c) as [<-|]; [|reflexivity].
    apply isHex32_spec in Hh as [_ Hh]. unfold removeDashes in Hh.
    rewrite filter_cons in Hh. destruct (decide (104%N <> 45%N)) as [_|E]; [|exfalso; apply E; discriminate].
    apply Forall_cons in Hh as [Hh _]. discriminate Hh. }
  change (startsWith (c :: t) (js "http://")) with ((104 =? c)%N && startsWith t (js "ttp://")).
  change (startsWith (c :: t) (js "https://")) with ((104 =? c)%N && startsWith t (js "ttps://")).
  rewrite Hc. cbn [andb orb]. rewrite test_bare_id, Hh. reflexivity.
Qed.

(** So is a URL whose path ends in a dash and 32 hexadecimal digits. *)
Lemma extractAndValidatePageId_url input u front h :
  startsWith (trim input) (js "http://") || startsWith (trim input) (js "https://") = true ->
  URL (trim input) = Some u ->
  pathname u = front ++ 45%N :: h ->
  isHex32 h = true ->
  extractAndValidatePageId URL input = inr (formatNotionId h).
Proof.
  intros Hs Hu Hp Hh. unfold extractAndValidatePageId.
  destruct (trim input) as [|c t] eqn:Et; [discriminate Hs|].
  rewrite (blank_false_of_trim _ _ _ Et), Hs, Hu, Hp, exec_dash_id by exact Hh.
  reflexivity.
Qed.

End PageIdFacts.

Section HandlerFacts.

Variable URL : jsstring -> option URLRecord.
Variable laterRules : list jsstring -> nat -> list Block * nat.
Variable fetch : list Event -> Event -> FetchOutcome.

(** A parent id that fails validation ends the handler before any
    request: the answer is a failure and the only event is the progress
    update of the catch block. *)
Lemma handleCreatePage_rejects data e tr :
  extractAndValidatePageId URL (req_parentPageId data) = inl e ->
  exists err,
    handleCreatePage URL laterRules fetch data tr =
      (Returned (mkResult false None None (Some (errorText err))),
       tr ++ [ProgressUpdate 50 (js "Error: " ++ err_message err)]).
Proof.
  intros H. unfold handleCreatePage, tryCatch, bind, throw, ret, lift, sendProgressUpdate.
  destruct (req_apiToken data); [eexists; reflexivity|].
  destruct (req_title data); [eexists; reflexivity|].
  destruct (req_markdown data); [eexists; reflexivity|].
  rewrite H. eexists; reflexivity.
Qed.

End HandlerFacts.

Lemma requestsOf_app tr1 tr2 : requestsOf (tr1 ++ tr2) = requestsOf tr1 ++ requestsOf tr2.
Proof. unfold requestsOf. apply omap_app. Qed.

Lemma scan_tail_id h : isHex32 h = true ->
  forall front pre i,
  scan re_tail_id pre (front ++ h) i = Some (Match (i + length front) h [(1, h)]).
Proof.
  intros Hh. pose proof Hh as Hh'. apply isHex32_spec in Hh' as [Hl _].
  induction front as [|c front IH]; intros pre i.
  - cbn [app]. destruct h as [|c0 h0]; [discriminate Hl|]. cbn [scan].
    unfold re_tail_id. rewrite match_here_tail_rep.
    unfold isHex32 in Hh. rewrite Hh, Nat.add_0_r. reflexivity.
  - cbn [app scan]. unfold re_tail_id at 1. rewrite match_here_tail_rep.
    replace (length (c :: front ++ h) =? 32) with false
      by (symmetry; apply Nat.eqb_neq; cbn [length]; rewrite length_app; lia).
    cbn [andb]. rewrite IH. f_equal. f_equal. cbn [length]. lia.
Qed.

Lemma exec_tail_id front h : isHex32 h = true ->
  exec re_tail_id (front ++ h) = Some (Match (length front) h [(1, h)]).
Proof.
  intros Hh. unfold exec, exec_from. cbn [length Nat.ltb Nat.leb take rev].
  rewrite drop_0. apply (scan_tail_id h Hh front [] 0).
Qed.

Local Abbreviation pathMatch path :=
  (match exec re_dash_id path with
   | Some m => Some m
   | None => exec re_tail_id path
   end).

Lemma suffix_unique (front1 front2 h1 h2 : jsstring) :
  front1 ++ h1 = front2 ++ h2 -> length h1 = length h2 -> h1 = h2.
Proof.
  intros E L. apply (f_equal (@rev N)) in E. rewrite !rev_app_distr in E.
  apply app_inj_1 in E as [E _]; [|rewrite !length_rev; exact L].
  apply (f_equal (@rev N)) in E. rewrite !rev_involutive in E. exact E.
Qed.

(** The two path patterns together find the last 32 code units of a
    path when they are hexadecimal digits, and nothing otherwise. *)
Lemma pathMatch_spec path h :
  (exists m, pathMatch path = Some m /\ group 1 m = Some h)
  <-> exists front, path = front ++ h /\ isHex32 h = true.
Proof.
  split.
  - intros (m & Hm & Hg). destruct (exec re_dash_id path) as [m1|] eqn:E1.
    + injection Hm as Em. subst m. apply scan_sound in E1 as (skipped & suf & Hp & _ & H).
      rewrite re_dash_id_eq, match_here_dash_rep in H.
      destruct suf as [|c h']; [discriminate|].
      destruct (45 =? c)%N; [|discriminate]. cbn [andb] in H.
      destruct ((length h' =? 32) && forallb hex_i h') eqn:E; [|discriminate].
      injection H as Em. rewrite <- Em in Hg. cbn in Hg. injection Hg as <-.
      exists (skipped ++ [c]). split; [rewrite <- app_assoc; exact Hp | exact E].
    + apply scan_sound in Hm as (skipped & suf & Hp & _ & H).
      unfold re_tail_id in H. rewrite match_here_tail_rep in H.
      destruct ((length suf =? 32) && forallb hex_i suf) eqn:E; [|discriminate].
      injection H as Em. rewrite <- Em in Hg. cbn in Hg. injection Hg as <-.
      exists skipped. split; [exact Hp | exact E].
  - intros (front & -> & Hh). destruct (exec re_dash_id (front ++ h)) as [m1|] eqn:E1.
    + exists m1. split; [reflexivity|].
      apply scan_sound in E1 as (skipped & suf & Hp & _ & H).
      rewrite re_dash_id_eq, match_here_dash_rep in H.
      destruct suf as [|c h']; [discriminate|].
      destruct (45 =? c)%N; [|discriminate]. cbn [andb] in H.
      destruct ((length h' =? 32) && forallb hex_i h') eqn:E; [|discriminate].
      injection H as Em. rewrite <- Em. cbn. f_equal.
      apply (suffix_unique (skipped ++ [c]) front); [rewrite <- app_assoc; symmetry; exact Hp|].
      apply isHex32_spec in Hh as [-> _]. apply isHex32_spec in E as [-> _]. reflexivity.
    + rewrite (exec_tail_id front h Hh). eexists. split; reflexivity.
Qed.

Section PageIdAccepted.

Variable URL : jsstring -> option URLRecord.

(** What is accepted, and what for: a text that opens with [http://] or
    [https://], parses as a URL and has a path that ends in 32
    hexadecimal digits; or a text that does not open so and is 32
    hexadecimal digits once its dashes are removed. *)
Lemma extractAndValidatePageId_accepts input id :
  extractAndValidatePageId URL input = inr id <->
  if startsWith (trim input) (js "http://") || startsWith (trim input) (js "https://")
  then exists u front h,
         URL (trim input) = Some u /\ pathname u = front ++ h /\ isHex32 h = true
         /\ id = formatNotionId h
  else isHex32 (removeDashes (trim input)) = true
       /\ id = formatNotionId (removeDashes (trim input)).
Proof.
  unfold extractAndValidatePageId. destruct (blank input) eqn:Eb.
  { unfold blank in Eb. destruct (trim input); [|discriminate Eb]. cbn.
    split; [discriminate|]. intros [H _]. discriminate H. }
  destruct (startsWith (trim input) (js "http://") || startsWith (trim input) (js "https://")).
  - destruct (URL (trim input)) as [u|].
    2:{ split; [discriminate|]. intros (u & _ & _ & H & _). discriminate H. }
    split.
    + destruct (pathMatch (pathname u)) as [m|] eqn:Em; [|discriminate].
      intros [= <-].
      assert (Hg : exists h, group 1 m = Some h).
      { destruct (exec re_dash_id (pathname u)) as [m1|] eqn:E1.
        - injection Em as <-. apply exec_dash_id_group in E1 as (h & Hh & _). eauto.
        - apply exec_tail_id_group in Em as (h & Hh & _). eauto. }
      destruct Hg as [h Hg].
      destruct (proj1 (pathMatch_spec (pathname u) h)) as (front & Hp & Hh); [eauto|].
      exists u, front, h. rewrite Hg. auto.
    + intros (u' & front & h & [= <-] & Hp & Hh & ->).
      destruct (proj2 (pathMatch_spec (pathname u) h)) as (m & Hm & Hg); [eauto|].
      rewrite Hm, Hg. reflexivity.
  - rewrite test_bare_id. destruct (isHex32 (removeDashes (trim input))); cbn [negb].
    + split; [intros [= <-]; auto | intros [_ ->]; reflexivity].
    + split; [discriminate | intros [H _]; discriminate H].
Qed.

End PageIdAccepted.

(** C7, amended.  Page-id extraction: whatever it accepts it returns in
    the form 8-4-4-4-12.  It accepts exactly two kinds of input.  One is
    a text that, trimmed, opens with [http://] or [https://] in lower
    case, that the URL parser accepts, and whose path ends in 32
    hexadecimal digits, with or without a dash before them; the result is
    those digits, hyphenated.  The other is a text that does not open so
    and that is 32 hexadecimal digits once its dashes, wherever they
    stand, are removed; the result is those digits, hyphenated.  On the
    URL of the specification it answers the hyphenated identifier (given
    that the platform reads the path of that URL as written);
    ["not-a-valid-id"] throws the format error; and after any rejected
    parent id the handler answers a failure without a request to the
    network. *)
Theorem C7_page_id_extraction (URL : jsstring -> option URLRecord) :
  (forall input id,
     extractAndValidatePageId URL input = inr id -> isHyphenatedUUID id = true)
  /\ (forall input id,
       extractAndValidatePageId URL input = inr id <->
       if startsWith (trim input) (js "http://") || startsWith (trim input) (js "https://")
       then exists u front h,
              URL (trim input) = Some u /\ pathname u = front ++ h /\ isHex32 h = true
              /\ id = formatNotionId h
       else isHex32 (removeDashes (trim input)) = true
            /\ id = formatNotionId (removeDashes (trim input)))
  /\ (forall u,
       URL example_url = Some u ->
       pathname u = js "/Page-2dadca9a3fff80278295e23720dd2a53" ->
       extractAndValidatePageId URL example_url = inr example_id)
  /\ extractAndValidatePageId URL (js "not-a-valid-id") =
       inl (Error (js "Invalid page ID format. Expected 32-character hex string."))
  /\ (forall laterRules fetch data tr e,
       extractAndValidatePageId URL (req_parentPageId data) = inl e ->
       exists result tr',
         handleCreatePage URL laterRules fetch data tr = (Returned result, tr')
         /\ success result = false
         /\ requestsOf tr' = requestsOf tr).
Proof.
  split; [apply extractAndValidatePageId_shape|].
  split; [apply extractAndValidatePageId_accepts|].
  split.
  { intros u Hu Hp.
    apply (extractAndValidatePageId_url URL example_url u (js "/Page")
             (js "2dadca9a3fff80278295e23720dd2a53")); try assumption; reflexivity. }
  split; [vm_compute; reflexivity|].
  intros laterRules fetch data tr e He.
  destruct (handleCreatePage_rejects URL laterRules fetch data e tr He) as [err ->].
  eexists _, _. split; [reflexivity|]. split; [reflexivity|].
  rewrite requestsOf_app. simpl. apply app_nil_r.
Qed.

Lemma C7_page_id_extraction_witness :
  extractAndValidatePageId simpleURL example_url = inr example_id
  /\ isHyphenatedUUID example_id = true
  /\ extractAndValidatePageId simpleURL (js "2DADCA9A-3fff-8027-8295-e23720dd2a53") =
       inr (js "2DADCA9A-3fff-8027-8295-e23720dd2a53")
  /\ requestsOf (snd (handleCreatePage simpleURL (fun _ i => ([], S i))
                        (fun _ _ => FetchRejected (Error []))
                        (mkRequest (js "T") (js "text") (js "not-a-valid-id") (js "secret") [])
                        [])) = [].
Proof.
  destruct (C7_page_id_extraction simpleURL) as (Hshape & Hiff & Hex & Hbad & Hnet).
  assert (H1 : extractAndValidatePageId simpleURL example_url = inr example_id).
  { apply (Hex (mkURL (js "https:") example_url (js "/Page-2dadca9a3fff80278295e23720dd2a53")));
      reflexivity. }
  split; [exact H1|]. split; [exact (Hshape _ _ H1)|]. split.
  { apply (Hiff (js "2DADCA9A-3fff-8027-8295-e23720dd2a53")). split; reflexivity. }
  destruct (Hnet (fun _ i => ([], S i)) (fun _ _ => FetchRejected (Error []))
              (mkRequest (js "T") (js "text") (js "not-a-valid-id") (js "secret") [])
              [] _ Hbad) as (result & tr' & -> & _ & Hreq).
  exact Hreq.
Defined.

(** C7 as stated fails in both directions.  A URL whose path ends in a
    dash and 32 hexadecimal digits is rejected when its scheme is written
    in upper case: it is read as a bare identifier.  And inputs of
    neither shape are accepted: a text that is 32 hexadecimal digits
    around dashes in any places, and a URL whose path ends in the 32
    digits without a dash before them. *)
Lemma C7_shapes_are_not_the_accepted_inputs :
  (forall URL,
     extractAndValidatePageId URL (js "HTTPS://x.tld/Page-2dadca9a3fff80278295e23720dd2a53")
     = inl (Error (js "Invalid page ID format. Expected 32-character hex string.")))
  /\ (forall URL,
       extractAndValidatePageId URL (js "-2d-adca9a3fff80278295e23720dd2a5--3") = inr example_id)
  /\ (forall URL u,
       URL (js "https://x.tld/2dadca9a3fff80278295e23720dd2a53") = Some u ->
       pathname u = js "/2dadca9a3fff80278295e23720dd2a53" ->
       extractAndValidatePageId URL (js "https://x.tld/2dadca9a3fff80278295e23720dd2a53")
       = inr example_id)
  /\ extractAndValidatePageId simpleURL (js "https://x.tld/2dadca9a3fff80278295e23720dd2a53")
     = inr example_id.
Proof.
  split; [intros URL; vm_compute; reflexivity|].
  split; [intros URL; vm_compute; reflexivity|].
  assert (H : forall URL u,
            URL (js "https://x.tld/2dadca9a3fff80278295e23720dd2a53") = Some u ->
            pathname u = js "/2dadca9a3fff80278295e23720dd2a53" ->
            extractAndValidatePageId URL (js "https://x.tld/2dadca9a3fff80278295e23720dd2a53")
            = inr example_id).
  { intros URL u Hu Hp. apply extractAndValidatePageId_accepts.
    change (trim (js "https://x.tld/2dadca9a3fff80278295e23720dd2a53"))
      with (js "https://x.tld/2dadca9a3fff80278295e23720dd2a53").
    change (startsWith _ (js "http://") || startsWith _ (js "https://")) with true.
    exists u, (js "/"), (js "2dadca9a3fff80278295e23720dd2a53").
    split; [exact Hu|]. split; [exact Hp|]. split; reflexivity. }
  split; [exact H|].
  apply (H simpleURL (mkURL (js "https:") (js "https://x.tld/2dadca9a3fff80278295e23720dd2a53")
                        (js "/2dadca9a3fff80278295e23720dd2a53"))); reflexivity.
Qed.


(* ---------------------------------------------------------------------- *)
(** ** Images that fail validation *)
(* ---------------------------------------------------------------------- *)

Lemma re_http_needs_scheme t :
  test re_http t = true ->
  startsWith t (js "http://") || startsWith t (js "https://") = true.
Proof.
  unfold test. intros H. apply bool_decide_eq_true in H. destruct H as [m H].
  unfold re_http in H. rewrite exec_bol in H. unfold match_here in H.
  destruct (rmatch _ _ _) as [st|] eqn:E; [clear H|discriminate].
  change (js "http") with [104; 116; 116; 112]%N in E.
  change (js "s") with [115]%N in E. change (js "://") with [58; 47; 47]%N in E.
  cbn [rmatch Lit Opt Plus before after caps] in E.
  change (js "http://") with [104; 116; 116; 112; 58; 47; 47]%N.
  change (js "https://") with [104; 116; 116; 112; 115; 58; 47; 47]%N.
  repeat match type of E with
         | match ?t with [] => _ | _ :: _ => _ end = _ =>
             destruct t; [discriminate E|]
         | (if (?a =? ?b)%N then _ else _) = _ =>
             destruct (a =? b)%N eqn:?; [|discriminate E]
         end.
  match type of E with
  | match ?x with Some _ => _ | None => _ end = _ => destruct x eqn:E1; [|clear E1]
  end.
  - clear E.
    repeat match type of E1 with
         | match ?t with [] => _ | _ :: _ => _ end = _ =>
             destruct t; [discriminate E1|]
         | (if (?a =? ?b)%N then _ else _) = _ =>
             destruct (a =? b)%N eqn:?; [|discriminate E1]
         end.
    cbn [startsWith].
    repeat match goal with H : (_ =? _)%N = true |- _ => rewrite H; clear H end.
    cbn [andb orb]. apply orb_true_r.
  - repeat match type of E with
         | match ?t with [] => _ | _ :: _ => _ end = _ =>
             destruct t; [discriminate E|]
         | (if (?a =? ?b)%N then _ else _) = _ =>
             destruct (a =? b)%N eqn:?; [|discriminate E]
         end.
    cbn [startsWith].
    repeat match goal with H : (_ =? _)%N = true |- _ => rewrite H; clear H end.
    reflexivity.
Qed.

(** A URL that is not absolute fails validation, whatever the platform's
    parser does. *)
Lemma validateAndCleanUrl_not_absolute URL url :
  startsWith (trim url) (js "http://") = false ->
  startsWith (trim url) (js "https://") = false ->
  startsWith (trim url) (js "//") = false ->
  validateAndCleanUrl URL url = None.
Proof.
  intros H1 H2 H3. unfold validateAndCleanUrl. destruct (blank url); [reflexivity|].
  destruct (test re_http (trim url)) eqn:E.
  - apply re_http_needs_scheme in E. rewrite H1, H2 in E. discriminate E.
  - rewrite H3. reflexivity.
Qed.

Lemma createImageBlock_invalid URL url caption :
  validateAndCleanUrl URL url = None ->
  createImageBlock URL url caption = Some (imagePlaceholder url caption).
Proof.
  intros H. unfold createImageBlock, imagePlaceholder. rewrite H.
  destruct url as [|c url]; [reflexivity|].
  destruct (startsWith (c :: url) (js "http://") || startsWith (c :: url) (js "https://"));
    reflexivity.
Qed.

(** The image step on a line whose URL fails validation returns (it
    does not throw) the callout that stands for the image. *)
Lemma imageRule_invalid (URL : jsstring -> option URLRecord)
    (line : jsstring) (imageMatch : MatchResult) :
  exec re_image line = Some imageMatch ->
  let url := default [] (group 2 imageMatch) in
  let caption := default [] (group 1 imageMatch) in
  (validateAndCleanUrl URL url = None ->
   imageRule URL line = Some (Some (imagePlaceholder url caption)))
  /\ (startsWith (trim url) (js "http://") = false ->
      startsWith (trim url) (js "https://") = false ->
      startsWith (trim url) (js "//") = false ->
      imageRule URL line = Some (Some (imagePlaceholder url caption))).
Proof.
  intros Hm url caption.
  assert (H : validateAndCleanUrl URL url = None ->
              imageRule URL line = Some (Some (imagePlaceholder url caption))).
  { intros Hv. unfold imageRule. rewrite Hm. simpl.
    fold url caption. rewrite createImageBlock_invalid by exact Hv. reflexivity. }
  split; [exact H|]. intros H1 H2 H3. apply H.
  apply validateAndCleanUrl_not_absolute; assumption.
Qed.

Example imageRule_on_relative_url :
  imageRule toyURL (js "![diagram](/download/attachments/1/a.png)") =
    Some (Some (Callout
      [ mkRun (js "Image: diagram") noAnnotations None;
        mkRun (js " - URL: /download/attachments/1/a.png") noAnnotations None ]
      emoji_frame (js "yellow_background"))).
Proof.
  assert (Hm : exec re_image (js "![diagram](/download/attachments/1/a.png)") =
               Some (Match 0 (js "![diagram](/download/attachments/1/a.png)")
                       [(2, js "/download/attachments/1/a.png"); (1, js "diagram")]))
    by (vm_compute; reflexivity).
  destruct (imageRule_invalid toyURL _ _ Hm) as [H _].
  rewrite H; [reflexivity|]. vm_compute. reflexivity.
Qed.

(** A refused URL that starts with [http://] is carried as a link. *)
Example image_with_http_url_keeps_link :
  createImageBlock (fun _ => None) (js "http://") (js "") =
    Some (Callout [ mkRun (js "Image") noAnnotations None;
                    mkRun (js " - View original image") noAnnotations (Some (js "http://")) ]
                  emoji_frame (js "yellow_background")).
Proof. vm_compute. reflexivity. Qed.

(* ---------------------------------------------------------------------- *)
(** ** The page assembler *)
(* ---------------------------------------------------------------------- *)

Lemma chunks_nonempty {A} size (xs : list A) :
  xs <> [] -> exists rest, chunks size xs = take size xs :: rest.
Proof. destruct xs; [congruence|]. intros _. eexists. reflexivity. Qed.

Section AssemblerFacts.

Variable laterRules : list jsstring -> nat -> list Block * nat.
Variable fetch : list Event -> Event -> FetchOutcome.

Lemma notionRequest_ok endpoint method body apiToken tr status data :
  fetch tr (NotionRequest endpoint method body apiToken) = FetchResponse true status data ->
  notionRequest fetch endpoint method body apiToken tr =
    (Returned data, tr ++ [NotionRequest endpoint method body apiToken]).
Proof. intros H. unfold notionRequest. rewrite H. reflexivity. Qed.

Lemma appendBlocksToPage_fits pageId blocks apiToken tr status data :
  length blocks <= 100 ->
  fetch tr (NotionRequest (appendEndpoint pageId) (js "PATCH") (ChildrenData blocks) apiToken)
    = FetchResponse true status data ->
  appendBlocksToPage fetch pageId blocks apiToken tr =
    (Returned tt, tr ++ [NotionRequest (appendEndpoint pageId) (js "PATCH")
                           (ChildrenData blocks) apiToken]).
Proof.
  intros Hlen H. unfold appendBlocksToPage, MAX_BLOCKS_PER_REQUEST.
  apply Nat.leb_le in Hlen. rewrite Hlen. unfold bind.
  rewrite (notionRequest_ok _ _ _ _ _ _ _ H). reflexivity.
Qed.

Lemma createNotionPage_two_calls title markdown parentPageId apiToken blocks tr0 :
  markdownToNotionBlocks laterRules markdown = Some blocks ->
  100 < length blocks <= 200 ->
  (forall tr request, exists status data, fetch tr request = FetchResponse true status data) ->
  exists page,
    createNotionPage laterRules fetch title markdown parentPageId apiToken [] tr0 =
      (Returned (data_id page, data_url page),
       tr0 ++ twoCallEvents title parentPageId apiToken blocks page).
Proof.
  intros Hmd Hlen Hok. unfold createNotionPage, MAX_BLOCKS_PER_REQUEST.
  unfold bind at 1. unfold sendProgressUpdate at 1.
  rewrite Hmd. unfold bind at 1. unfold ret at 1.
  destruct blocks as [|b0 blocks0] eqn:Eb; [simpl in Hlen; lia|]. rewrite <- Eb in *.
  replace (match blocks with [] => [placeholderBlock] | _ :: _ => blocks end) with blocks
    by (rewrite Eb; reflexivity).
  unfold bind at 1. unfold sendProgressUpdate at 1.
  unfold bind at 1. unfold sendProgressUpdate at 1.
  unfold bind at 1.
  match goal with |- context [notionRequest fetch ?e ?m ?b ?t ?tr] =>
    destruct (Hok tr (NotionRequest e m b t)) as (status & page & Hf);
    rewrite (notionRequest_ok e m b t tr status page Hf)
  end.
  exists page.
  unfold bind at 1. unfold sendProgressUpdate at 1.
  assert (Hrem : length (drop 100 blocks) = length blocks - 100) by apply length_drop.
  destruct (drop 100 blocks) as [|r0 rem0] eqn:Er; [simpl in Hrem; lia|]. rewrite <- Er in *.
  assert (Htotal : (length (drop 100 blocks) + (100 - 1)) / 100 = 1).
  { rewrite Hrem. symmetry.
    apply (Nat.div_unique _ 100 1 (length blocks - 100 + 99 - 100)); lia. }
  rewrite Htotal. rewrite chunks_fits by lia.
  unfold bind at 1. cbn [uploadChunks].
  unfold bind at 1. unfold sendProgressUpdate at 1.
  unfold bind at 1.
  match goal with |- context [appendBlocksToPage fetch ?p ?b ?t ?tr] =>
    destruct (Hok tr (NotionRequest (appendEndpoint p) (js "PATCH") (ChildrenData b) t))
      as (status2 & data2 & Hf2);
    rewrite (appendBlocksToPage_fits p b t tr status2 data2 ltac:(lia) Hf2)
  end.
  unfold ret at 1. unfold bind at 1. unfold sendProgressUpdate at 1. unfold ret.
  f_equal. rewrite <- !app_assoc. reflexivity.
Qed.

Lemma notionRequest_trace endpoint method body apiToken tr :
  snd (notionRequest fetch endpoint method body apiToken tr) =
    tr ++ [NotionRequest endpoint method body apiToken].
Proof.
  unfold notionRequest. destruct (fetch tr _) as [e|ok status data]; [reflexivity|].
  destruct ok; reflexivity.
Qed.

(** When the page is created and the first append throws,
    [createNotionPage] throws the same error after logging the page
    creation and the append. *)
Lemma createNotionPage_append_throws title markdown parentPageId apiToken sourceUrl
    blocks page status e tr0 :
  markdownToNotionBlocks laterRules markdown = Some blocks ->
  100 < length blocks ->
  (forall tr body,
     fetch tr (NotionRequest (js "/pages") (js "POST") body apiToken) =
       FetchResponse true status page) ->
  (forall tr body,
     fst (notionRequest fetch (appendEndpoint (data_id page)) (js "PATCH") body apiToken tr) =
       Thrown e) ->
  exists events,
    createNotionPage laterRules fetch title markdown parentPageId apiToken sourceUrl tr0 =
      (Thrown e, tr0 ++ events)
    /\ In (NotionRequest (js "/pages") (js "POST")
             (PageData parentPageId title
                (take 100 (match sourceUrl with
                           | [] => blocks
                           | _ => sourceCallout sourceUrl :: blocks
                           end))) apiToken) events.
Proof.
  intros Hmd Hlen Hcreate Happend. unfold createNotionPage, MAX_BLOCKS_PER_REQUEST.
  unfold bind at 1. unfold sendProgressUpdate at 1.
  rewrite Hmd. unfold bind at 1. unfold ret at 1.
  destruct blocks as [|b0 blocks0] eqn:Eb; [simpl in Hlen; lia|]. rewrite <- Eb in *.
  replace (match blocks with [] => [placeholderBlock] | _ :: _ => blocks end) with blocks
    by (rewrite Eb; reflexivity).
  set (all := match sourceUrl with [] => blocks | _ => sourceCallout sourceUrl :: blocks end).
  assert (Hall : 100 < length all) by (subst all; destruct sourceUrl; simpl; lia).
  clearbody all.
  unfold bind at 1. unfold sendProgressUpdate at 1.
  unfold bind at 1. unfold sendProgressUpdate at 1.
  unfold bind at 1.
  rewrite (notionRequest_ok _ _ _ _ _ _ _ (Hcreate _ _)).
  unfold bind at 1. unfold sendProgressUpdate at 1.
  assert (Hrem : length (drop 100 all) = length all - 100) by apply length_drop.
  destruct (drop 100 all) as [|r0 rem0] eqn:Er; [simpl in Hrem; lia|]. rewrite <- Er in *.
  unfold bind at 1.
  destruct (chunks_nonempty 100 (drop 100 all)) as [rest ->];
    [rewrite Er; discriminate|]. cbn [uploadChunks].
  unfold bind at 1. unfold sendProgressUpdate at 1.
  unfold bind at 1. unfold appendBlocksToPage, MAX_BLOCKS_PER_REQUEST.
  assert (Hfit : (length (take 100 (drop 100 all)) <=? 100) = true)
    by (apply Nat.leb_le; rewrite length_take; lia).
  rewrite Hfit. unfold bind at 1.
  match goal with |- context [notionRequest fetch ?a ?b ?c ?d ?tr] =>
    pose proof (Happend tr c) as Hthrow;
    pose proof (notionRequest_trace a b c d tr) as Htrace;
    destruct (notionRequest fetch a b c d tr) as [out tr']
  end.
  cbn [fst snd] in Hthrow, Htrace. subst out tr'.
  eexists. split.
  - rewrite <- !app_assoc. reflexivity.
  - cbn. tauto.
Qed.

End AssemblerFacts.

(** C1.  When the tokenizer yields 150 blocks, no source URL is given
    and the network accepts every request, [createNotionPage] returns the
    page and issues exactly two requests, in this order: the page
    creation with the first 100 blocks, and one append with the other 50;
    the percentages it reports are 60, 65, 70, 80, 95, 95, each at least
    the one before. *)
Theorem C1_150_blocks_two_calls
    (laterRules : list jsstring -> nat -> list Block * nat)
    (fetch : list Event -> Event -> FetchOutcome)
    (title markdown parentPageId apiToken : jsstring) (blocks : list Block)
    (tr0 : list Event) :
  markdownToNotionBlocks laterRules markdown = Some blocks ->
  length blocks = 150 ->
  (forall tr request, exists status data, fetch tr request = FetchResponse true status data) ->
  exists page events,
    createNotionPage laterRules fetch title markdown parentPageId apiToken [] tr0 =
      (Returned (data_id page, data_url page), tr0 ++ events)
    /\ requestsOf events =
         [ NotionRequest (js "/pages") (js "POST")
             (PageData parentPageId title (take 100 blocks)) apiToken;
           NotionRequest (appendEndpoint (data_id page)) (js "PATCH")
             (ChildrenData (drop 100 blocks)) apiToken ]
    /\ length (take 100 blocks) = 100
    /\ length (drop 100 blocks) = 50
    /\ take 100 blocks ++ drop 100 blocks = blocks
    /\ percentsOf events = [60; 65; 70; 80; 95; 95]%Z
    /\ nonDecreasing (percentsOf events).
Proof.
  intros Hmd Hlen Hok.
  destruct (createNotionPage_two_calls laterRules fetch title markdown parentPageId apiToken
              blocks tr0 Hmd ltac:(lia) Hok) as [page Hrun].
  exists page, (twoCallEvents title parentPageId apiToken blocks page).
  split; [exact Hrun|]. split; [reflexivity|].
  split; [rewrite length_take; lia|]. split; [rewrite length_drop; lia|].
  split; [apply take_drop|]. split; [reflexivity|].
  intros i j p q Hij Hi Hj. cbn [twoCallEvents percentsOf omap list_omap] in Hi, Hj.
  do 6 (destruct i as [|i]; [do 6 (destruct j as [|j]; [simplify_eq/=; lia|]); discriminate Hj|]).
  discriminate Hi.
Qed.

Lemma C1_150_blocks_two_calls_witness :
  exists page events,
    createNotionPage dividerRules acceptingNetwork (js "Title") markdown150 toyParent
      (js "secret") [] [] = (Returned (data_id page, data_url page), events)
    /\ requestsOf events =
         [ NotionRequest (js "/pages") (js "POST")
             (PageData toyParent (js "Title") (replicate 100 Divider)) (js "secret");
           NotionRequest (appendEndpoint (data_id page)) (js "PATCH")
             (ChildrenData (replicate 50 Divider)) (js "secret") ]
    /\ percentsOf events = [60; 65; 70; 80; 95; 95]%Z.
Proof.
  assert (Hmd : markdownToNotionBlocks dividerRules markdown150 = Some (replicate 150 Divider))
    by (vm_compute; reflexivity).
  destruct (C1_150_blocks_two_calls dividerRules acceptingNetwork (js "Title") markdown150
              toyParent (js "secret") (replicate 150 Divider) [] Hmd eq_refl)
    as (page & events & Hrun & Hreq & _ & _ & _ & Hper & _).
  { intros tr request. exists 200, toyPage. reflexivity. }
  exists page, events. split; [exact Hrun|]. split; [exact Hreq | exact Hper].
Defined.

(** C9 (corrected).  When the page creation succeeds and the first
    append throws, [handleCreatePage] answers [{ success: false, error }]
    with the message of the error and nothing else: no page id and no
    page URL, although the request that created the page is in the
    trace; the last event is the progress update of the catch block. *)
Theorem C9_append_failure_answers_error_only
    (URL : jsstring -> option URLRecord)
    (laterRules : list jsstring -> nat -> list Block * nat)
    (fetch : list Event -> Event -> FetchOutcome)
    (data : PageRequest) (blocks : list Block) (validatedPageId : jsstring)
    (page : ApiData) (status : nat) (e : JSError) (tr0 : list Event) :
  req_apiToken data <> [] -> req_title data <> [] -> req_markdown data <> [] ->
  extractAndValidatePageId URL (req_parentPageId data) = inr validatedPageId ->
  markdownToNotionBlocks laterRules (req_markdown data) = Some blocks ->
  100 < length blocks ->
  (forall tr body,
     fetch tr (NotionRequest (js "/pages") (js "POST") body (req_apiToken data)) =
       FetchResponse true status page) ->
  (forall tr body,
     fst (notionRequest fetch (appendEndpoint (data_id page)) (js "PATCH") body
            (req_apiToken data) tr) = Thrown e) ->
  exists events,
    handleCreatePage URL laterRules fetch data tr0 =
      (Returned (mkResult false None None (Some (errorText e))), tr0 ++ events)
    /\ In (NotionRequest (js "/pages") (js "POST")
             (PageData validatedPageId (req_title data)
                (take 100 (match req_sourceUrl data with
                           | [] => blocks
                           | _ => sourceCallout (req_sourceUrl data) :: blocks
                           end))) (req_apiToken data)) events
    /\ last events = Some (ProgressUpdate 50 (js "Error: " ++ err_message e)).
Proof.
  intros Htoken Htitle Hmarkdown Hid Hmd Hlen Hcreate Happend.
  unfold handleCreatePage, tryCatch.
  destruct (req_apiToken data) as [|t0 token] eqn:Et; [congruence|]. rewrite <- Et in *.
  destruct (req_title data) as [|t1 title] eqn:Eti; [congruence|]. rewrite <- Eti in *.
  destruct (req_markdown data) as [|t2 markdown] eqn:Em; [congruence|]. rewrite <- Em in *.
  rewrite Hid. unfold lift.
  unfold bind at 1. unfold ret at 1. unfold bind at 1. unfold ret at 1.
  unfold bind at 1. unfold ret at 1. unfold bind at 1. unfold ret at 1.
  unfold bind at 1. unfold sendProgressUpdate at 1. unfold bind at 1.
  destruct (createNotionPage_append_throws laterRules fetch (req_title data)
              (req_markdown data) validatedPageId (req_apiToken data) (req_sourceUrl data)
              blocks page status e (tr0 ++ [ProgressUpdate 55 (js "Starting page creation...")])
              Hmd Hlen Hcreate Happend) as (events & -> & Hin).
  unfold bind, sendProgressUpdate, ret.
  exists ([ProgressUpdate 55 (js "Starting page creation...")] ++ events ++
          [ProgressUpdate 50 (js "Error: " ++ err_message e)]).
  split; [rewrite <- !app_assoc; reflexivity|]. split.
  - apply in_or_app. right. apply in_or_app. left. exact Hin.
  - rewrite app_assoc. apply last_snoc.
Qed.

Lemma C9_append_failure_answers_error_only_witness :
  exists events,
    handleCreatePage simpleURL dividerRules appendRefusingNetwork
      (mkRequest (js "Title") markdown150 toyParent (js "secret") []) [] =
      (Returned (mkResult false None None (Some (js "append refused"))), events)
    /\ In (NotionRequest (js "/pages") (js "POST")
             (PageData (formatNotionId toyParent) (js "Title") (replicate 100 Divider))
             (js "secret")) events.
Proof.
  assert (Hmd : markdownToNotionBlocks dividerRules markdown150 = Some (replicate 150 Divider))
    by (vm_compute; reflexivity).
  destruct (C9_append_failure_answers_error_only simpleURL dividerRules appendRefusingNetwork
              (mkRequest (js "Title") markdown150 toyParent (js "secret") [])
              (replicate 150 Divider) (formatNotionId toyParent) toyPage 200
              (Error (js "append refused")) [])
    as (events & Hrun & Hin & _).
  - discriminate.
  - discriminate.
  - discriminate.
  - vm_compute. reflexivity.
  - exact Hmd.
  - vm_compute. lia.
  - intros tr body. reflexivity.
  - intros tr body. reflexivity.
  - exists events. split; [exact Hrun | exact Hin].
Defined.

(** C9 as stated fails: the page is created (first request), the append
    is refused (second request), and the answer names neither the id nor
    the URL of the page. *)
Lemma C9_failure_result_omits_page :
  let run := handleCreatePage simpleURL dividerRules appendRefusingNetwork
               (mkRequest (js "Title") markdown150 toyParent (js "secret") []) [] in
  requestsOf (snd run) =
    [ NotionRequest (js "/pages") (js "POST")
        (PageData (js "2dadca9a-3fff-8027-8295-e23720dd2a53") (js "Title")
           (replicate 100 Divider)) (js "secret");
      NotionRequest (js "/blocks/page-1/children") (js "PATCH")
        (ChildrenData (replicate 50 Divider)) (js "secret") ]
  /\ fst run = Returned (mkResult false None None (Some (js "append refused")))
  /\ ~ (exists result, fst run = Returned result /\ pageId result = Some (data_id toyPage)).
Proof.
  split; [vm_compute; reflexivity|]. split; [vm_compute; reflexivity|].
  intros (result & H & Hid). vm_compute in H. injection H as <-. discriminate Hid.
Qed.

(* ---------------------------------------------------------------------- *)
(** ** Code fences *)
(* ---------------------------------------------------------------------- *)

Lemma startsWith_length s p : startsWith s p = true -> length p <= length s.
Proof.
  intros H. apply startsWith_app in H as [rest ->]. rewrite length_app. lia.
Qed.

Lemma includes_length s p : includes s p = true -> length p <= length s.
Proof.
  induction s as [|c s IH]; cbn [includes]; intros H.
  - apply orb_true_iff in H as [H|H]; [apply startsWith_length, H | discriminate].
  - apply orb_true_iff in H as [H|H]; [apply startsWith_length, H|].
    apply IH in H. simpl. lia.
Qed.

Lemma fenceCount_fuel_total codeContent : forall fuel n,
  length codeContent + 2 <= fuel + n -> 1 <= fuel ->
  exists m, n <= m /\ fenceCount_fuel fuel codeContent n = Some m
            /\ includes codeContent (JS.repeat 96 m) = false.
Proof.
  induction fuel as [|fuel IH]; intros n Hinv Hpos; [lia|]. cbn [fenceCount_fuel].
  destruct (includes codeContent (JS.repeat 96 n)) eqn:E.
  - apply includes_length in E. unfold JS.repeat in E. rewrite length_replicate in E.
    destruct (IH (S n)) as (m & Hm & Hf & Hi); [lia | lia |].
    exists m. split; [lia|]. split; assumption.
  - exists n. split; [lia|]. split; [reflexivity | exact E].
Qed.

(** The serializer's fence: when the code contains three backticks, the
    fence is a run of four or more backticks that the code does not
    contain. *)
Lemma chooseFence_avoids codeContent :
  includes codeContent fence3 = true ->
  exists n, 4 <= n /\ chooseFence codeContent = Some (JS.repeat 96 n)
            /\ includes codeContent (JS.repeat 96 n) = false.
Proof.
  intros H. unfold chooseFence. rewrite H.
  destruct (fenceCount_fuel_total codeContent (S (length codeContent)) 4) as (m & Hm & -> & Hi);
    [lia | lia |].
  exists m. split; [exact Hm|]. split; [reflexivity | exact Hi].
Qed.

(** C2 (code defect).  The serializer fences the code [x```y] with four
    backticks, as the claim says.  The tokenizer opens a code block on
    that fence but only ever closes one on a line of exactly three
    backticks: the closing fence of four is read as code, the block runs
    to the end of the Markdown, and the language after the opening fence
    is read with a backtick in front and lost.  The block that comes back
    holds [x```y], a line of four backticks and two empty lines, in
    plain text; the block of the original text in JavaScript is the last
    conjunct. *)
Theorem C2_longer_fence_is_not_closed
    (laterRules : list jsstring -> nat -> list Block * nat) :
  includes nestedFenceCode fence3 = true
  /\ confluenceCodeBlock (js "js") nestedFenceCode =
       Some ([10; 10]%N ++ js "```` js" ++ [10%N] ++ js "x```y" ++ [10%N] ++ js "````"
             ++ [10; 10]%N)
  /\ (forall markdown,
       confluenceCodeBlock (js "js") nestedFenceCode = Some markdown ->
       markdownToNotionBlocks laterRules markdown =
         Some [Code [mkRun (js "x```y" ++ [10%N] ++ js "````" ++ [10; 10]%N)
                           noAnnotations None]
                    (LangString plain_text)])
  /\ createCodeBlock nestedFenceCode (js "js") =
       Code [mkRun (js "x```y") noAnnotations None] (LangString (js "javascript")).
Proof.
  split; [reflexivity|]. split; [vm_compute; reflexivity|].
  split; [|vm_compute; reflexivity].
  intros markdown H. vm_compute in H. injection H as <-. vm_compute. reflexivity.
Qed.

(** A line of three backticks inside the code closes the block early:
    the code is cut there and what follows is tokenized as Markdown. *)
Example inner_fence_line_closes_block :
  let markdown := [10; 10]%N ++ js "````" ++ [10%N] ++ js "a" ++ [10%N] ++ js "```"
                  ++ [10%N] ++ js "b" ++ [10%N] ++ js "````" ++ [10; 10]%N in
  confluenceCodeBlock [] (js "a" ++ [10%N] ++ js "```" ++ [10%N] ++ js "b") = Some markdown
  /\ markdownToNotionBlocks dividerRules markdown =
       Some [ Code [mkRun (js "a") noAnnotations None] (LangString plain_text);
              Divider;
              Code [mkRun [10%N] noAnnotations None] (LangString plain_text) ].
Proof. split; vm_compute; reflexivity. Qed.

(** A code block without backticks does come back as it was. *)
Example plain_fence_round_trip :
  let code := js "let a = 1;" ++ [10%N] ++ js "a++;" in
  let markdown := [10; 10]%N ++ js "``` js" ++ [10%N] ++ code ++ [10%N] ++ js "```"
                  ++ [10; 10]%N in
  confluenceCodeBlock (js "js") code = Some markdown
  /\ markdownToNotionBlocks dividerRules markdown = Some [createCodeBlock code (js "js")].
Proof. split; vm_compute; reflexivity. Qed.

(* ---------------------------------------------------------------------- *)
(** ** The table grid *)
(* ---------------------------------------------------------------------- *)

Lemma setCell_shape n width grid r c v :
  gridShape n width grid -> gridShape n width (setCell grid r c v).
Proof.
  intros [Hn Hw]. unfold setCell. split.
  - rewrite length_alter. exact Hn.
  - rewrite Forall_forall in *. intros cells Hin.
    apply list_elem_of_lookup in Hin as [i Hi].
    destruct (decide (i = r)) as [->|Hne].
    + destruct (grid !! r) as [old|] eqn:E.
      * rewrite (list_lookup_alter_eq _ grid r) in Hi. rewrite E in Hi. simpl in Hi.
        injection Hi as <-. rewrite length_insert. apply Hw.
        apply list_elem_of_lookup. eauto.
      * rewrite list_lookup_alter_eq, E in Hi. discriminate.
    + rewrite list_lookup_alter_ne in Hi by congruence.
      apply Hw. apply list_elem_of_lookup. eauto.
Qed.

Lemma cellAt_setCell_eq grid r c v :
  is_Some (cellAt grid r c) -> cellAt (setCell grid r c v) r c = Some (Some v).
Proof.
  unfold cellAt, setCell. intros [old H].
  rewrite list_lookup_alter_eq. destruct (grid !! r) as [cells|]; [|discriminate].
  simpl in *. apply list_lookup_insert_eq. apply lookup_lt_Some in H. exact H.
Qed.

Lemma cellAt_setCell_ne grid r c v i j :
  (i, j) <> (r, c) -> cellAt (setCell grid r c v) i j = cellAt grid i j.
Proof.
  unfold cellAt, setCell. intros Hne.
  destruct (decide (i = r)) as [->|Hi].
  - rewrite list_lookup_alter_eq. destruct (grid !! r) as [cells|]; [|reflexivity].
    simpl. apply list_lookup_insert_ne. congruence.
  - rewrite list_lookup_alter_ne by congruence. reflexivity.
Qed.

Lemma cellAt_setCell_is_Some grid r c v i j :
  is_Some (cellAt (setCell grid r c v) i j) <-> is_Some (cellAt grid i j).
Proof.
  destruct (decide ((i, j) = (r, c))) as [[= -> ->]|Hne].
  - split; intros H.
    + unfold cellAt, setCell in *. rewrite list_lookup_alter_eq in H.
      destruct (grid !! r) as [cells|]; [|destruct H; discriminate].
      simpl in *. destruct H as [x H]. apply lookup_lt_Some in H.
      rewrite length_insert in H. apply lookup_lt_is_Some. exact H.
    + rewrite cellAt_setCell_eq by exact H. eauto.
  - rewrite cellAt_setCell_ne by exact Hne. reflexivity.
Qed.

Lemma fillSpan_writes grid rowIndex colIndex rowCount colCount text :
  fillSpan grid rowIndex colIndex rowCount colCount text =
    applyWrites grid (spanWrites rowIndex colIndex rowCount colCount text).
Proof.
  unfold fillSpan, applyWrites, spanWrites.
  generalize (seq 0 rowCount). intros rs. revert grid.
  induction rs as [|r rs IH]; intros grid; [reflexivity|].
  cbn [fold_left flat_map]. rewrite fold_left_app, <- IH. f_equal.
  generalize (seq 0 colCount). intros cs. revert grid.
  induction cs as [|c cs IHc]; intros grid; [reflexivity|].
  cbn [fold_left map]. rewrite <- IHc. cbn [fst snd].
  destruct ((r =? 0) && (c =? 0)); reflexivity.
Qed.

Lemma applyWrites_shape n width ws : forall grid,
  gridShape n width grid -> gridShape n width (applyWrites grid ws).
Proof.
  unfold applyWrites. induction ws as [|w ws IH]; intros grid H; [exact H|].
  apply IH. apply setCell_shape. exact H.
Qed.

Lemma applyWrites_is_Some ws i j : forall grid,
  is_Some (cellAt (applyWrites grid ws) i j) <-> is_Some (cellAt grid i j).
Proof.
  unfold applyWrites. induction ws as [|w ws IH]; intros grid; [reflexivity|].
  cbn [fold_left]. rewrite IH. apply cellAt_setCell_is_Some.
Qed.

(** A cell no write touches keeps its value. *)
Lemma applyWrites_untouched ws i j : forall grid,
  Forall (fun w => (w.1.1, w.1.2) <> (i, j)) ws ->
  cellAt (applyWrites grid ws) i j = cellAt grid i j.
Proof.
  unfold applyWrites. induction ws as [|w ws IH]; intros grid H; [reflexivity|].
  apply Forall_cons in H as [Hw Hws]. cbn [fold_left]. rewrite IH by exact Hws.
  apply cellAt_setCell_ne. congruence.
Qed.

(** A cell of the grid that is written, always with [v], ends as [v]. *)
Lemma applyWrites_value ws i j v : forall grid,
  Forall (fun w => (w.1.1, w.1.2) = (i, j) -> w.2 = v) ws ->
  Exists (fun w => (w.1.1, w.1.2) = (i, j)) ws ->
  is_Some (cellAt grid i j) ->
  cellAt (applyWrites grid ws) i j = Some (Some v).
Proof.
  unfold applyWrites. induction ws as [|w ws IH]; intros grid Hall Hex Hin.
  - inversion Hex.
  - apply Forall_cons in Hall as [Hw Hws]. cbn [fold_left].
    destruct (decide (Exists (fun w => (w.1.1, w.1.2) = (i, j)) ws)) as [Hex'|Hno].
    + apply IH; [exact Hws | exact Hex'|]. apply cellAt_setCell_is_Some. exact Hin.
    + apply Exists_cons in Hex as [Hhere|Hex']; [|contradiction].
      change (fold_left _ ws ?g) with (applyWrites g ws).
      rewrite applyWrites_untouched.
      * rewrite (Hw Hhere). injection Hhere as <- <-. apply cellAt_setCell_eq. exact Hin.
      * apply Forall_forall. intros w' Hw' Heq. apply Hno.
        apply Exists_exists. exists w'. split; assumption.
Qed.

(** Whatever a run of writes leaves in a cell is what was there or what
    one of the writes put there. *)
Lemma applyWrites_cases ws i j : forall grid,
  cellAt (applyWrites grid ws) i j = cellAt grid i j
  \/ exists w, w ∈ ws /\ (w.1.1, w.1.2) = (i, j)
       /\ cellAt (applyWrites grid ws) i j = Some (Some w.2).
Proof.
  unfold applyWrites. induction ws as [|w ws IH]; intros grid; [left; reflexivity|].
  cbn [fold_left]. destruct (IH (setCell grid w.1.1 w.1.2 w.2)) as [Hsame|(w' & Hin & Hpos & Hval)].
  - rewrite Hsame. destruct (decide ((i, j) = (w.1.1, w.1.2))) as [Heq|Hne].
    + destruct (cellAt grid i j) as [old|] eqn:Eold.
      * right. exists w. split; [left|]. split; [congruence|].
        injection Heq as -> ->. apply cellAt_setCell_eq. rewrite Eold. eauto.
      * left. destruct (cellAt (setCell grid w.1.1 w.1.2 w.2) i j) eqn:E; [|reflexivity].
        assert (Hs : is_Some (cellAt grid i j))
          by (apply (cellAt_setCell_is_Some grid w.1.1 w.1.2 w.2); rewrite E; eauto).
        rewrite Eold in Hs. destruct Hs; discriminate.
    + left. apply cellAt_setCell_ne. exact Hne.
  - right. exists w'. split; [right; exact Hin|]. split; assumption.
Qed.

Lemma spanWrites_elem rowIndex colIndex rowCount colCount text w :
  w ∈ spanWrites rowIndex colIndex rowCount colCount text ->
  exists r c, r < rowCount /\ c < colCount
    /\ w = (rowIndex + r, colIndex + c, if (r =? 0) && (c =? 0) then text else filler).
Proof.
  unfold spanWrites. intros H. apply list_elem_of_In in H.
  apply in_flat_map in H as (r & Hr & H). apply in_map_iff in H as (c & <- & Hc).
  apply in_seq in Hr, Hc. exists r, c. repeat split; lia.
Qed.

Lemma skipFilled_spec : forall cells col,
  col <= skipFilled cells col <= col + length cells
  /\ (forall k, k < skipFilled cells col - col -> exists v, cells !! k = Some (Some v))
  /\ (skipFilled cells col - col < length cells ->
      cells !! (skipFilled cells col - col) = Some None).
Proof.
  induction cells as [|[v|] cells IH]; intros col; cbn [skipFilled length].
  - split; [lia|]. split; [intros k Hk; lia | intros H; lia].
  - destruct (IH (S col)) as (Hb & Hfilled & Hnull). split; [lia|]. split.
    + intros [|k] Hk; [exists v; reflexivity|]. apply Hfilled. lia.
    + intros H. replace (skipFilled cells (S col) - col)
        with (S (skipFilled cells (S col) - S col)) by lia.
      apply Hnull. lia.
  - split; [lia|]. split; [intros k Hk; lia|]. intros _.
    rewrite Nat.sub_diag. reflexivity.
Qed.

(** The search for the anchor skips the filled cells and stops on an
    empty one, or at the end of the row. *)
Lemma exactNextAvailable_spec cells colIndex :
  let a := exactNextAvailable cells colIndex in
  (Z.max 0 colIndex <= a)%Z
  /\ (forall j, (Z.max 0 colIndex <= Z.of_nat j < a)%Z -> exists v, cells !! j = Some (Some v))
  /\ ((a < Z.of_nat (length cells))%Z -> cells !! Z.to_nat a = Some None).
Proof.
  unfold exactNextAvailable. set (start := Z.to_nat (Z.max 0 colIndex)).
  destruct (skipFilled_spec (drop start cells) start) as (Hb & Hfilled & Hnull).
  cbn zeta. split; [lia|]. split.
  - intros j Hj. destruct (Hfilled (j - start)) as [v Hv]; [lia|].
    exists v. rewrite lookup_drop in Hv. replace (start + (j - start)) with j in Hv by lia.
    exact Hv.
  - intros Ha. rewrite Nat2Z.id. rewrite length_drop in *.
    rewrite lookup_drop in Hnull.
    replace (start + (skipFilled (drop start cells) start - start))
      with (skipFilled (drop start cells) start) in Hnull by lia.
    apply Hnull. lia.
Qed.

Lemma gridShape_row n width grid i :
  gridShape n width grid -> i < n -> exists cells, grid !! i = Some cells /\ length cells = width.
Proof.
  intros [Hn Hw] Hi. destruct (lookup_lt_is_Some_2 grid i) as [cells Hc]; [lia|].
  exists cells. split; [exact Hc|]. rewrite Forall_forall in Hw. apply Hw.
  apply list_elem_of_lookup. eauto.
Qed.

Lemma cellAt_is_Some n width grid i j :
  gridShape n width grid -> (is_Some (cellAt grid i j) <-> i < n /\ j < width).
Proof.
  intros Hs. unfold cellAt. split.
  - intros [v H]. destruct (grid !! i) as [cells|] eqn:E; [|discriminate].
    simpl in H. pose proof (lookup_lt_Some _ _ _ E) as Hi.
    pose proof (lookup_lt_Some _ _ _ H) as Hj. destruct Hs as [Hn Hw].
    rewrite Forall_forall in Hw. rewrite (Hw cells) in Hj
      by (apply list_elem_of_lookup; eauto). lia.
  - intros [Hi Hj]. destruct (gridShape_row _ _ _ _ Hs Hi) as (cells & -> & Hlen).
    simpl. apply lookup_lt_is_Some. lia.
Qed.

Section PlaceCell.

Variables n width : nat.

(** What one cell does to the grid: it leaves a position as it is, or
    writes the filler at or beyond its anchor, or writes at its anchor,
    which was empty. *)
Lemma exactPlaceCell_cases rowIndex grid colIndex cell :
  gridShape n width grid -> rowIndex < n ->
  let a := exactNextAvailable (default [] (grid !! rowIndex)) colIndex in
  let grid' := fst (exactPlaceCell n width rowIndex (grid, colIndex) cell) in
  let colIndex' := snd (exactPlaceCell n width rowIndex (grid, colIndex) cell) in
  gridShape n width grid'
  /\ (Z.max 0 colIndex <= a)%Z
  /\ (colIndex' = a \/ colIndex' = (a + exactSpan (colspanAttr cell))%Z)
  /\ forall i j,
       cellAt grid' i j = cellAt grid i j
       \/ (rowIndex <= i /\ (a <= Z.of_nat j)%Z /\ cellAt grid' i j = Some (Some filler))
       \/ (i = rowIndex /\ Z.of_nat j = a /\ cellAt grid i j = Some None).
Proof.
  intros Hs Hr. cbn zeta.
  destruct (gridShape_row _ _ _ _ Hs Hr) as (cells & Hcells & Hlen).
  rewrite Hcells. change (default [] (Some cells)) with cells.
  destruct (exactNextAvailable_spec cells colIndex) as (Hmax & _ & Hnull).
  set (a := exactNextAvailable cells colIndex) in *.
  unfold exactPlaceCell. rewrite Hcells. change (default [] (Some cells)) with cells. fold a.
  destruct (Z.of_nat width <=? a)%Z eqn:Ew.
  - cbn [fst snd]. split; [exact Hs|]. split; [exact Hmax|]. split; [left; reflexivity|].
    intros i j. left. reflexivity.
  - apply Z.leb_gt in Ew. cbn [fst snd]. rewrite fillSpan_writes.
    split; [apply applyWrites_shape, Hs|]. split; [exact Hmax|].
    split; [right; reflexivity|]. intros i j.
    match goal with |- context [applyWrites grid ?ws] =>
      destruct (applyWrites_cases ws i j grid) as [Hsame|(w & Hin & Hpos & Hval)]
    end; [left; exact Hsame|]. right.
    apply spanWrites_elem in Hin as (r & c & Hrc & Hcc & ->).
    cbn [fst snd] in Hpos, Hval. injection Hpos as <- <-.
    destruct ((r =? 0) && (c =? 0)) eqn:E.
    + right. apply andb_true_iff in E as [->%Nat.eqb_eq ->%Nat.eqb_eq].
      rewrite !Nat.add_0_r. split; [reflexivity|]. split; [lia|].
      unfold cellAt. rewrite Hcells. simpl. apply Hnull. lia.
    + left. split; [lia|]. split; [lia | exact Hval].
Qed.

(** A cell that holds the filler holds it for good. *)
Lemma exactPlaceCell_keeps_filler rowIndex grid colIndex cell i j :
  gridShape n width grid -> rowIndex < n ->
  cellAt grid i j = Some (Some filler) ->
  cellAt (fst (exactPlaceCell n width rowIndex (grid, colIndex) cell)) i j = Some (Some filler).
Proof.
  intros Hs Hr Hf.
  destruct (exactPlaceCell_cases rowIndex grid colIndex cell Hs Hr) as (_ & _ & _ & Hc).
  destruct (Hc i j) as [H|[(_ & _ & H)|(_ & _ & H)]]; congruence.
Qed.

(** Cells above the row, and cells of the row left of the cursor, are
    out of reach. *)
Lemma exactPlaceCell_out_of_reach rowIndex grid colIndex cell i j :
  gridShape n width grid -> rowIndex < n ->
  i < rowIndex \/ (i = rowIndex /\ (Z.of_nat j < colIndex)%Z) ->
  cellAt (fst (exactPlaceCell n width rowIndex (grid, colIndex) cell)) i j = cellAt grid i j.
Proof.
  intros Hs Hr Hout.
  destruct (exactPlaceCell_cases rowIndex grid colIndex cell Hs Hr) as (_ & Hmax & _ & Hc).
  destruct (Hc i j) as [H|[(H1 & H2 & _)|(H1 & H2 & _)]]; [exact H | lia | lia].
Qed.

Lemma fold_exactPlaceCell_shape rowIndex cells : forall grid colIndex,
  gridShape n width grid -> rowIndex < n ->
  gridShape n width (fst (fold_left (exactPlaceCell n width rowIndex) cells (grid, colIndex))).
Proof.
  induction cells as [|cell cells IH]; intros grid colIndex Hs Hr; [exact Hs|].
  cbn [fold_left].
  destruct (exactPlaceCell n width rowIndex (grid, colIndex) cell) as [g' c'] eqn:E.
  apply IH; [|exact Hr].
  pose proof (exactPlaceCell_cases rowIndex grid colIndex cell Hs Hr) as (H & _).
  rewrite E in H. exact H.
Qed.

Lemma fold_exactPlaceCell_keeps_filler rowIndex cells i j : forall grid colIndex,
  gridShape n width grid -> rowIndex < n ->
  cellAt grid i j = Some (Some filler) ->
  cellAt (fst (fold_left (exactPlaceCell n width rowIndex) cells (grid, colIndex))) i j
    = Some (Some filler).
Proof.
  induction cells as [|cell cells IH]; intros grid colIndex Hs Hr Hf; [exact Hf|].
  cbn [fold_left].
  pose proof (exactPlaceCell_cases rowIndex grid colIndex cell Hs Hr) as (H & _).
  pose proof (exactPlaceCell_keeps_filler rowIndex grid colIndex cell i j Hs Hr Hf) as Hk.
  destruct (exactPlaceCell n width rowIndex (grid, colIndex) cell) as [g' c'].
  apply IH; assumption.
Qed.

(** With positive colspans the cursor only moves right, and what lies
    left of it in the row stays. *)
Lemma fold_exactPlaceCell_left_of_cursor rowIndex cells i j : forall grid colIndex,
  gridShape n width grid -> rowIndex < n ->
  Forall (fun cell => (0 < exactSpan (colspanAttr cell))%Z) cells ->
  i < rowIndex \/ (i = rowIndex /\ (Z.of_nat j < colIndex)%Z) ->
  cellAt (fst (fold_left (exactPlaceCell n width rowIndex) cells (grid, colIndex))) i j
    = cellAt grid i j.
Proof.
  induction cells as [|cell cells IH]; intros grid colIndex Hs Hr Hpos Hout; [reflexivity|].
  apply Forall_cons in Hpos as [Hp Hpos]. cbn [fold_left].
  pose proof (exactPlaceCell_cases rowIndex grid colIndex cell Hs Hr) as (Hs' & Hmax & Hcol & _).
  pose proof (exactPlaceCell_out_of_reach rowIndex grid colIndex cell i j Hs Hr Hout) as Hk.
  destruct (exactPlaceCell n width rowIndex (grid, colIndex) cell) as [g' c'].
  cbn [fst snd] in *. rewrite IH; [exact Hk | exact Hs' | exact Hr | exact Hpos |].
  destruct Hout as [Hout|[Hi Hj]]; [left; exact Hout|]. right. split; [exact Hi|].
  destruct Hcol as [->| ->]; lia.
Qed.

Lemma exactFillRows_shape rows : forall grid rowIndex,
  gridShape n width grid -> rowIndex + length rows <= n ->
  gridShape n width (exactFillRows n width grid rowIndex rows).
Proof.
  induction rows as [|cells rows IH]; intros grid rowIndex Hs Hr; [exact Hs|].
  cbn [exactFillRows]. simpl in Hr. apply IH; [|lia].
  apply fold_exactPlaceCell_shape; [exact Hs | lia].
Qed.

Lemma exactFillRows_keeps_filler rows i j : forall grid rowIndex,
  gridShape n width grid -> rowIndex + length rows <= n ->
  cellAt grid i j = Some (Some filler) ->
  cellAt (exactFillRows n width grid rowIndex rows) i j = Some (Some filler).
Proof.
  induction rows as [|cells rows IH]; intros grid rowIndex Hs Hr Hf; [exact Hf|].
  cbn [exactFillRows]. simpl in Hr. apply IH; [|lia|].
  - apply fold_exactPlaceCell_shape; [exact Hs | lia].
  - apply fold_exactPlaceCell_keeps_filler; [exact Hs | lia | exact Hf].
Qed.

Lemma exactFillRows_above rows i j : forall grid rowIndex,
  gridShape n width grid -> rowIndex + length rows <= n -> i < rowIndex ->
  cellAt (exactFillRows n width grid rowIndex rows) i j = cellAt grid i j.
Proof.
  induction rows as [|cells rows IH]; intros grid rowIndex Hs Hr Hi; [reflexivity|].
  cbn [exactFillRows]. simpl in Hr. rewrite IH; [| |lia|lia].
  - unfold exactFillRow. clear IH. revert grid Hs. generalize 0%Z.
    induction cells as [|cell cells IHc]; intros colIndex grid Hs; [reflexivity|].
    cbn [fold_left].
    pose proof (exactPlaceCell_cases rowIndex grid colIndex cell Hs ltac:(lia)) as (Hs' & _).
    pose proof (exactPlaceCell_out_of_reach rowIndex grid colIndex cell i j Hs ltac:(lia)
                  (or_introl Hi)) as Hk.
    destruct (exactPlaceCell n width rowIndex (grid, colIndex) cell) as [g' c'].
    cbn [fst] in *. rewrite IHc by exact Hs'. exact Hk.
  - apply fold_exactPlaceCell_shape; [exact Hs | lia].
Qed.

Lemma exactFillRows_app rows1 rows2 : forall grid rowIndex,
  exactFillRows n width grid rowIndex (rows1 ++ rows2) =
    exactFillRows n width (exactFillRows n width grid rowIndex rows1) (rowIndex + length rows1) rows2.
Proof.
  induction rows1 as [|cells rows1 IH]; intros grid rowIndex; cbn [exactFillRows app length].
  - rewrite Nat.add_0_r. reflexivity.
  - rewrite IH. f_equal. lia.
Qed.

End PlaceCell.

Lemma replicate_shape n width :
  gridShape n width (replicate n (replicate width (@None (list N)))).
Proof.
  split; [apply length_replicate|]. apply Forall_replicate, length_replicate.
Qed.

Lemma fillSpan_2x2 n width grid r c text :
  gridShape n width grid -> S r < n -> S c < width ->
  let g := fillSpan grid r c 2 2 text in
  cellAt g r c = Some (Some text)
  /\ cellAt g r (S c) = Some (Some filler)
  /\ cellAt g (S r) c = Some (Some filler)
  /\ cellAt g (S r) (S c) = Some (Some filler).
Proof.
  intros Hs Hr Hc. unfold fillSpan. cbn [seq fold_left Nat.eqb andb].
  rewrite !Nat.add_0_r, !Nat.add_1_r.
  assert (Hin : forall i j, i < n -> j < width -> is_Some (cellAt grid i j)).
  { intros i j Hi Hj. apply (cellAt_is_Some n width); [exact Hs | lia]. }
  repeat split;
    repeat (rewrite cellAt_setCell_ne by (intros [=]; lia));
    apply cellAt_setCell_eq; repeat (apply cellAt_setCell_is_Some);
    apply Hin; lia.
Qed.

Lemma exactFillRows_split n width grid rowsBefore cellsBefore cell cellsAfter rowsAfter :
  exactFillRows n width grid 0 (rowsBefore ++ (cellsBefore ++ cell :: cellsAfter) :: rowsAfter) =
    exactFillRows n width
      (fold_left (exactPlaceCell n width (length rowsBefore)) cellsAfter
         (exactPlaceCell n width (length rowsBefore)
            (fold_left (exactPlaceCell n width (length rowsBefore)) cellsBefore
               (exactFillRows n width grid 0 rowsBefore, 0%Z)) cell)).1
      (S (length rowsBefore)) rowsAfter.
Proof.
  rewrite exactFillRows_app. cbn [exactFillRows]. rewrite Nat.add_0_l.
  unfold exactFillRow. rewrite fold_left_app. reflexivity.
Qed.

(** *** Numbers in doubles *)

Lemma toNumber_exact z : (Z.abs z <= 2 ^ 53)%Z -> toNumber z = Finite z.
Proof. intros H. unfold toNumber. apply Z.leb_le in H. rewrite H. reflexivity. Qed.

Lemma spanOf_small attr : smallAttr attr -> spanOf attr = Finite (exactSpan attr).
Proof.
  destruct attr as [[|z|z]|]; cbn [smallAttr spanOf exactSpan]; intros H; try reflexivity;
    apply toNumber_exact; lia.
Qed.

Lemma exactSpan_small attr : smallAttr attr -> (Z.abs (exactSpan attr) <= 2 ^ 52)%Z.
Proof.
  destruct attr as [[|z|z]|]; cbn [smallAttr exactSpan]; intros H; try exact H;
    change (Z.abs 1) with 1%Z; lia.
Qed.

(** *** The pass and the pass in exact integers *)

Lemma exactNextAvailable_bound cells z :
  (Z.max 0 z <= exactNextAvailable cells z <= Z.max z (Z.of_nat (length cells)))%Z.
Proof.
  unfold exactNextAvailable. set (start := Z.to_nat (Z.max 0 z)).
  destruct (skipFilled_spec (drop start cells) start) as (Hb & _).
  rewrite length_drop in Hb. lia.
Qed.

Lemma nextAvailable_exact width cells z :
  length cells = width -> (- 2 ^ 53 - 3 <= z)%Z ->
  nextAvailable width cells (Finite z) = Some (Finite (exactNextAvailable cells z)).
Proof.
  intros Hlen Hz. unfold nextAvailable.
  destruct (Z.of_nat width <=? z)%Z eqn:Ew.
  - apply Z.leb_le in Ew. f_equal. f_equal. unfold exactNextAvailable.
    rewrite drop_ge by lia. cbn [skipFilled]. lia.
  - destruct (z <? - 2 ^ 53 - 3)%Z eqn:E; [apply Z.ltb_lt in E; lia|]. reflexivity.
Qed.

Section Exactness.

Variables n width : nat.
Hypothesis width_bound : (Z.of_nat width <= 4294967295)%Z.

Definition inReach (c : Z) : Prop := (- 2 ^ 52 <= c <= 2 ^ 52 + Z.of_nat width)%Z.

Lemma placeCell_exact rowIndex grid c cell :
  gridShape n width grid -> rowIndex < n ->
  smallAttr (rowspanAttr cell) /\ smallAttr (colspanAttr cell) -> inReach c ->
  placeCell n width rowIndex (grid, Finite c) cell
    = Some ((exactPlaceCell n width rowIndex (grid, c) cell).1,
            Finite (exactPlaceCell n width rowIndex (grid, c) cell).2)
  /\ inReach (exactPlaceCell n width rowIndex (grid, c) cell).2.
Proof.
  intros Hs Hr [Hrs Hcs] Hc. unfold inReach in *.
  destruct (gridShape_row _ _ _ _ Hs Hr) as (cells & Hcells & Hlen).
  unfold placeCell, exactPlaceCell. rewrite Hcells. change (default [] (Some cells)) with cells.
  rewrite (nextAvailable_exact width cells c Hlen) by lia. cbn [mbind option_bind].
  pose proof (exactNextAvailable_bound cells c) as Ha. rewrite Hlen in Ha.
  set (a := exactNextAvailable cells c) in *.
  destruct (Z.of_nat width <=? a)%Z eqn:Ew; cbn [fst snd].
  - split; [reflexivity | lia].
  - apply Z.leb_gt in Ew. pose proof (exactSpan_small _ Hcs) as Hb.
    rewrite (spanOf_small _ Hrs), (spanOf_small _ Hcs). cbn [turns jsAdd].
    rewrite toNumber_exact by lia. split; [reflexivity | lia].
Qed.

Lemma placeCells_exact rowIndex cells : forall grid c,
  gridShape n width grid -> rowIndex < n ->
  Forall (fun cell => smallAttr (rowspanAttr cell) /\ smallAttr (colspanAttr cell)) cells ->
  inReach c ->
  placeCells n width rowIndex cells (grid, Finite c)
    = Some ((fold_left (exactPlaceCell n width rowIndex) cells (grid, c)).1,
            Finite (fold_left (exactPlaceCell n width rowIndex) cells (grid, c)).2)
  /\ inReach (fold_left (exactPlaceCell n width rowIndex) cells (grid, c)).2.
Proof.
  induction cells as [|cell cells IH]; intros grid c Hs Hr Hsmall Hc; [split; [reflexivity | exact Hc]|].
  apply Forall_cons in Hsmall as [Hcell Hsmall]. cbn [placeCells fold_left].
  destruct (placeCell_exact rowIndex grid c cell Hs Hr Hcell Hc) as [-> Hc'].
  cbn [mbind option_bind].
  pose proof (exactPlaceCell_cases n width rowIndex grid c cell Hs Hr) as (Hs' & _).
  destruct (exactPlaceCell n width rowIndex (grid, c) cell) as [g' c'].
  cbn [fst snd] in *. apply IH; assumption.
Qed.

Lemma inReach_0 : inReach 0.
Proof. unfold inReach. lia. Qed.

Lemma fillRow_exact rowIndex cells grid :
  gridShape n width grid -> rowIndex < n ->
  Forall (fun cell => smallAttr (rowspanAttr cell) /\ smallAttr (colspanAttr cell)) cells ->
  fillRow n width grid rowIndex cells = Some (exactFillRow n width grid rowIndex cells).
Proof.
  intros Hs Hr Hsmall. unfold fillRow, exactFillRow.
  destruct (placeCells_exact rowIndex cells grid 0 Hs Hr Hsmall inReach_0) as [-> _].
  reflexivity.
Qed.

Lemma fillRows_exact rows : forall grid rowIndex,
  gridShape n width grid -> rowIndex + length rows <= n -> smallSpans rows ->
  fillRows n width grid rowIndex rows = Some (exactFillRows n width grid rowIndex rows).
Proof.
  induction rows as [|cells rows IH]; intros grid rowIndex Hs Hr Hsmall; [reflexivity|].
  apply Forall_cons in Hsmall as [Hcells Hsmall]. cbn [length] in Hr.
  cbn [fillRows exactFillRows]. rewrite fillRow_exact by (try assumption; lia).
  cbn [mbind option_bind]. apply IH; [|lia|exact Hsmall].
  apply fold_exactPlaceCell_shape; [exact Hs | lia].
Qed.

End Exactness.

(** *** The shape of the grid *)

Lemma fillSpan_shape n width grid r c rowCount colCount text :
  gridShape n width grid -> gridShape n width (fillSpan grid r c rowCount colCount text).
Proof. intros Hs. rewrite fillSpan_writes. apply applyWrites_shape, Hs. Qed.

Lemma placeCell_shape n width rowIndex grid colIndex cell grid' colIndex' :
  placeCell n width rowIndex (grid, colIndex) cell = Some (grid', colIndex') ->
  gridShape n width grid -> gridShape n width grid'.
Proof.
  unfold placeCell. intros H Hs.
  destruct (nextAvailable width (default [] (grid !! rowIndex)) colIndex) as [[c| | |]|];
    cbn [mbind option_bind] in H; try discriminate H;
    try (injection H as <- _; exact Hs).
  destruct (Z.of_nat width <=? c)%Z; injection H as <- _; [exact Hs|].
  apply fillSpan_shape, Hs.
Qed.

Lemma placeCells_shape n width rowIndex cells : forall st st',
  placeCells n width rowIndex cells st = Some st' ->
  gridShape n width st.1 -> gridShape n width st'.1.
Proof.
  induction cells as [|cell cells IH]; intros st st' H Hs; cbn [placeCells] in H.
  - injection H as <-. exact Hs.
  - destruct st as [grid colIndex].
    destruct (placeCell n width rowIndex (grid, colIndex) cell) as [[g1 c1]|] eqn:E;
      [|discriminate H].
    cbn [mbind option_bind] in H. apply (IH _ _ H).
    apply (placeCell_shape _ _ _ _ _ _ _ _ E Hs).
Qed.

Lemma fillRows_shape n width rows : forall grid rowIndex grid',
  fillRows n width grid rowIndex rows = Some grid' ->
  gridShape n width grid -> gridShape n width grid'.
Proof.
  induction rows as [|cells rows IH]; intros grid rowIndex grid' H Hs; cbn [fillRows] in H.
  - injection H as <-. exact Hs.
  - unfold fillRow in H.
    destruct (placeCells n width rowIndex cells (grid, Finite 0)) as [[g1 c1]|] eqn:E;
      [|discriminate H].
    cbn [fmap option_fmap option_map mbind option_bind fst] in H. apply (IH _ _ _ H).
    apply (placeCells_shape _ _ _ _ _ _ E Hs).
Qed.

Lemma arrayLength_Some columnCount n :
  arrayLength columnCount = Some n ->
  columnCount = Finite (Z.of_nat n) /\ (Z.of_nat n <= 4294967295)%Z.
Proof.
  destruct columnCount as [c| | |]; cbn [arrayLength]; try discriminate.
  destruct ((c <? 0)%Z || (4294967295 <? c)%Z) eqn:E; [discriminate|].
  apply orb_false_iff in E as [E1 E2]. apply Z.ltb_ge in E1, E2. intros [= <-].
  rewrite Z2Nat.id by exact E1. split; [reflexivity | exact E2].
Qed.

(** The search for the anchor, from an index the loop can walk up
    from: it skips the filled cells and stops on an empty one, or at the
    end of the row. *)
Lemma nextAvailable_spec width cells colIndex :
  length cells = width -> (- 2 ^ 53 - 3 <= colIndex)%Z ->
  exists a,
    nextAvailable width cells (Finite colIndex) = Some (Finite a)
    /\ (Z.max 0 colIndex <= a)%Z
    /\ (forall j, (Z.max 0 colIndex <= Z.of_nat j < a)%Z ->
          exists v, cells !! j = Some (Some v))
    /\ ((a < Z.of_nat (length cells))%Z -> cells !! Z.to_nat a = Some None).
Proof.
  intros Hlen Hz. exists (exactNextAvailable cells colIndex).
  split; [apply nextAvailable_exact; assumption|]. apply exactNextAvailable_spec.
Qed.

(** *** The search loop *)

(** From [-2^53 - 3] down a number rounds to [-2^53 - 4] or below. *)
Lemma toNumber_far_below a :
  (2 ^ 53 + 3 <= a)%Z ->
  toNumber (- a) = MinusInfinity
  \/ exists z, toNumber (- a) = Finite z /\ (z <= - 2 ^ 53 - 4)%Z.
Proof.
  intros Ha. unfold toNumber. rewrite Z.abs_opp, (Z.abs_eq a) by lia.
  destruct (Z.leb_spec a (2 ^ 53)%Z) as [H|_]; [lia|]. cbv zeta.
  set (e := (Z.log2 a - 52)%Z).
  assert (Hlog : (53 <= Z.log2 a)%Z).
  { rewrite <- (Z.log2_pow2 53) by lia. apply Z.log2_le_mono. lia. }
  assert (He : (1 <= e)%Z) by (unfold e; lia).
  assert (Hq : (2 ^ 52 <= a / 2 ^ e)%Z).
  { apply Z.div_le_lower_bound; [apply Z.pow_pos_nonneg; lia|].
    rewrite Z.mul_comm, <- Z.pow_add_r by lia.
    replace (52 + e)%Z with (Z.log2 a) by (unfold e; lia).
    apply Z.log2_spec. lia. }
  set (q := (a / 2 ^ e)%Z) in *.
  match goal with
  | |- context [if ?b then (q + 1)%Z else q] => set (q' := if b then (q + 1)%Z else q)
  end.
  assert (Hq' : (q <= q')%Z).
  { unfold q'. match goal with |- context [if ?b then _ else _] => destruct b end; lia. }
  assert (Hneg : (- a <? 0)%Z = true) by (apply Z.ltb_lt; lia).
  rewrite Hneg. destruct (2 ^ 1024 <=? q' * 2 ^ e)%Z; [left; reflexivity|right].
  eexists. split; [reflexivity|].
  rewrite Z.sgn_neg by lia.
  destruct (Z.eq_dec e 1%Z) as [E1|E1].
  - assert (Hr : (2 ^ 53 + 4 <= q' * 2 ^ e)%Z); [|lia].
    unfold q', q. rewrite E1. change (2 ^ (1 - 1))%Z with 1%Z. change (2 ^ 1)%Z with 2%Z.
    pose proof (Z.div_mod a 2%Z ltac:(lia)) as Hdm.
    pose proof (Z.mod_pos_bound a 2%Z ltac:(lia)) as Hm.
    destruct (Z.ltb_spec 1 (a mod 2)%Z); [lia|].
    destruct (Z.eqb_spec 1 (a mod 2)%Z) as [Er|Er]; cbn [orb andb].
    + destruct (Z.odd (a / 2)) eqn:Eo; [lia|].
      destruct (Z.eq_dec (a / 2)%Z (2 ^ 52 + 1)%Z) as [Eq|Eq]; [rewrite Eq in Eo; discriminate Eo|].
      lia.
    + lia.
  - assert (H4 : (2 ^ 2 <= 2 ^ e)%Z) by (apply Z.pow_le_mono_r; lia).
    change (2 ^ 2)%Z with 4%Z in H4. nia.
Qed.

(** Far below zero the loop never ends. *)
Lemma searchLoop_stuck columnCount cells : forall fuel colIndex,
  colIndex = MinusInfinity
  \/ (exists z, colIndex = Finite z /\ (z <= - 2 ^ 53 - 4)%Z) ->
  searchLoop columnCount cells fuel colIndex = None.
Proof.
  induction fuel as [|fuel IH]; intros colIndex H; [reflexivity|].
  destruct H as [->|(z & -> & Hz)].
  - cbn [searchLoop lessThan notNull jsAdd]. apply IH. left. reflexivity.
  - cbn [searchLoop lessThan notNull].
    replace (z <? Z.of_nat columnCount)%Z with true by (symmetry; apply Z.ltb_lt; lia).
    replace (z <? 0)%Z with true by (symmetry; apply Z.ltb_lt; lia).
    apply IH. cbn [jsAdd]. replace (z + 1)%Z with (- (- z - 1))%Z by lia.
    apply toNumber_far_below. lia.
Qed.

(** With more fuel the loop returns what it returned. *)
Lemma searchLoop_more columnCount cells : forall fuel more colIndex r,
  searchLoop columnCount cells fuel colIndex = Some r ->
  searchLoop columnCount cells (fuel + more) colIndex = Some r.
Proof.
  induction fuel as [|fuel IH]; intros more colIndex r H; [discriminate H|].
  cbn [searchLoop Nat.add] in *.
  destruct (lessThan colIndex columnCount); [|exact H].
  destruct (notNull cells colIndex); [|exact H]. apply IH, H.
Qed.

Lemma searchLoop_unique columnCount cells fuel fuel' colIndex r r' :
  searchLoop columnCount cells fuel colIndex = Some r ->
  searchLoop columnCount cells fuel' colIndex = Some r' -> r = r'.
Proof.
  intros H H'. apply (searchLoop_more _ _ _ fuel') in H.
  apply (searchLoop_more _ _ _ fuel) in H'. rewrite Nat.add_comm, H in H'. congruence.
Qed.

(** From a column of the row the loop walks over the filled positions. *)
Lemma searchLoop_walks columnCount cells :
  length cells = columnCount -> (Z.of_nat columnCount <= 2 ^ 53)%Z ->
  forall n k, columnCount - k = n -> k <= columnCount ->
    exists fuel, searchLoop columnCount cells fuel (Finite (Z.of_nat k))
                 = Some (Finite (Z.of_nat (skipFilled (drop k cells) k))).
Proof.
  intros Hlen Hcc. induction n as [|n IH]; intros k Hn Hk.
  - assert (k = columnCount) as -> by lia. exists 1. cbn [searchLoop lessThan].
    rewrite Z.ltb_irrefl. rewrite drop_ge by lia. reflexivity.
  - assert (Hlt : k < length cells) by lia.
    destruct (lookup_lt_is_Some_2 cells k Hlt) as [v Hv].
    rewrite (drop_S cells v k Hv).
    destruct v as [text|].
    + destruct (IH (S k)) as [fuel Hf]; [lia|lia|]. exists (S fuel).
      cbn [searchLoop lessThan notNull skipFilled].
      replace (Z.of_nat k <? Z.of_nat columnCount)%Z with true by (symmetry; apply Z.ltb_lt; lia).
      replace (Z.of_nat k <? 0)%Z with false by (symmetry; apply Z.ltb_ge; lia).
      rewrite Nat2Z.id, Hv. cbn [jsAdd]. rewrite toNumber_exact by lia.
      replace (Z.of_nat k + 1)%Z with (Z.of_nat (S k)) by lia. exact Hf.
    + exists 1. cbn [searchLoop lessThan notNull skipFilled].
      replace (Z.of_nat k <? Z.of_nat columnCount)%Z with true by (symmetry; apply Z.ltb_lt; lia).
      replace (Z.of_nat k <? 0)%Z with false by (symmetry; apply Z.ltb_ge; lia).
      rewrite Nat2Z.id, Hv. reflexivity.
Qed.

(** From below zero, not too far, the loop gets to zero. *)
Lemma searchLoop_climbs columnCount cells r fuel0 :
  searchLoop columnCount cells fuel0 (Finite 0) = Some r ->
  forall n z, Z.to_nat (- z) = n -> (- 2 ^ 53 <= z <= 0)%Z ->
    searchLoop columnCount cells (n + fuel0) (Finite z) = Some r.
Proof.
  intros H0. induction n as [|n IH]; intros z Hn Hz.
  - assert (z = 0%Z) as -> by lia. exact H0.
  - cbn [Nat.add searchLoop lessThan notNull].
    replace (z <? Z.of_nat columnCount)%Z with true by (symmetry; apply Z.ltb_lt; lia).
    replace (z <? 0)%Z with true by (symmetry; apply Z.ltb_lt; lia).
    cbn [jsAdd]. rewrite toNumber_exact by lia. apply IH; lia.
Qed.

(** The three numbers below [-2^53] that the loop leaves. *)
Lemma searchLoop_below columnCount cells r fuel0 z :
  searchLoop columnCount cells fuel0 (Finite 0) = Some r ->
  (- 2 ^ 53 - 3 <= z < - 2 ^ 53)%Z ->
  exists fuel, searchLoop columnCount cells fuel (Finite z) = Some r.
Proof.
  intros H0 Hz.
  assert (Hc : exists fuel, searchLoop columnCount cells fuel (Finite (- 2 ^ 53)) = Some r).
  { exists (Z.to_nat (- - 2 ^ 53) + fuel0).
    apply (searchLoop_climbs columnCount cells r fuel0 H0 _ (- 2 ^ 53)%Z eq_refl). lia. }
  destruct Hc as [m Hc].
  assert (Hstep : forall fuel y, (y < 0)%Z ->
            searchLoop columnCount cells (S fuel) (Finite y)
            = searchLoop columnCount cells fuel (jsAdd (Finite y) (Finite 1))).
  { intros fuel y Hy. cbn [searchLoop lessThan notNull].
    replace (y <? Z.of_nat columnCount)%Z with true by (symmetry; apply Z.ltb_lt; lia).
    replace (y <? 0)%Z with true by (symmetry; apply Z.ltb_lt; lia). reflexivity. }
  assert (E1 : jsAdd (Finite (- 2 ^ 53 - 1)) (Finite 1) = Finite (- 2 ^ 53))
    by (vm_compute; reflexivity).
  assert (E2 : jsAdd (Finite (- 2 ^ 53 - 2)) (Finite 1) = Finite (- 2 ^ 53))
    by (vm_compute; reflexivity).
  assert (E3 : jsAdd (Finite (- 2 ^ 53 - 3)) (Finite 1) = Finite (- 2 ^ 53 - 2))
    by (vm_compute; reflexivity).
  assert (Hcases : z = (- 2 ^ 53 - 1)%Z \/ z = (- 2 ^ 53 - 2)%Z \/ z = (- 2 ^ 53 - 3)%Z) by lia.
  destruct Hcases as [->|[->| ->]].
  - exists (S m). rewrite Hstep, E1 by lia. exact Hc.
  - exists (S m). rewrite Hstep, E2 by lia. exact Hc.
  - exists (S (S m)). rewrite Hstep, E3 by lia. rewrite Hstep, E2 by lia. exact Hc.
Qed.

Section SearchLoop.

Variables (columnCount : nat) (cells : list (option jsstring)).

Hypothesis row_length : length cells = columnCount.
Hypothesis array_length : (Z.of_nat columnCount <= 4294967295)%Z.

(** [nextAvailable] is what the loop returns. *)
Lemma searchLoop_returns colIndex r :
  nextAvailable columnCount cells colIndex = Some r
  <-> exists fuel, searchLoop columnCount cells fuel colIndex = Some r.
Proof.
  assert (Hto : forall r, nextAvailable columnCount cells colIndex = Some r ->
                  exists fuel, searchLoop columnCount cells fuel colIndex = Some r).
  { clear r. intros r H. destruct colIndex as [z| | |]; cbn [nextAvailable] in H.
    - destruct (Z.leb_spec (Z.of_nat columnCount) z) as [Hge|Hlt].
      + injection H as <-. exists 1. cbn [searchLoop lessThan].
        replace (z <? Z.of_nat columnCount)%Z with false by (symmetry; apply Z.ltb_ge; lia).
        reflexivity.
      + destruct (Z.ltb_spec z (- 2 ^ 53 - 3)%Z) as [Hfar|Hnear]; [discriminate H|].
        cbv zeta in H. injection H as <-.
        destruct (Z.le_gt_cases 0 z) as [Hpos|Hneg].
        * rewrite Z.max_r by lia.
          destruct (searchLoop_walks columnCount cells row_length ltac:(lia)
                      (columnCount - Z.to_nat z) (Z.to_nat z) eq_refl ltac:(lia)) as [fuel Hf].
          rewrite Z2Nat.id in Hf by lia. exists fuel. exact Hf.
        * rewrite Z.max_l by lia. change (Z.to_nat 0) with 0.
          destruct (searchLoop_walks columnCount cells row_length ltac:(lia)
                      columnCount 0 ltac:(lia) ltac:(lia)) as [fuel Hf].
          change (Z.of_nat 0) with 0%Z in Hf.
          destruct (Z.le_gt_cases (- 2 ^ 53)%Z z) as [Hin|Hout].
          { exists (Z.to_nat (- z) + fuel).
            apply (searchLoop_climbs columnCount cells _ fuel Hf _ z eq_refl). lia. }
          destruct (searchLoop_below columnCount cells _ fuel z Hf) as [m Hm]; [lia|].
          exists m. exact Hm.
    - injection H as <-. exists 1. reflexivity.
    - discriminate H.
    - injection H as <-. exists 1. reflexivity. }
  split; [apply Hto|]. intros [fuel Hf].
  destruct (nextAvailable columnCount cells colIndex) as [r'|] eqn:E.
  - destruct (Hto r' eq_refl) as [fuel' Hf']. f_equal.
    apply (searchLoop_unique _ _ _ _ _ _ _ Hf' Hf).
  - exfalso. rewrite searchLoop_stuck in Hf; [discriminate Hf|].
    destruct colIndex as [z| | |]; cbn [nextAvailable] in E; try discriminate E.
    + right. exists z. split; [reflexivity|].
      destruct (Z.of_nat columnCount <=? z)%Z; [discriminate E|].
      destruct (Z.ltb_spec z (- 2 ^ 53 - 3)%Z); [lia|discriminate E].
    + left. reflexivity.
Qed.

(** [nextAvailable] answers [None] where the loop never ends. *)
Lemma searchLoop_never_ends colIndex :
  nextAvailable columnCount cells colIndex = None
  <-> forall fuel, searchLoop columnCount cells fuel colIndex = None.
Proof.
  split.
  - intros E fuel. destruct (searchLoop columnCount cells fuel colIndex) as [r|] eqn:Ef; [|reflexivity].
    assert (H : nextAvailable columnCount cells colIndex = Some r)
      by (apply searchLoop_returns; eauto).
    congruence.
  - intros H. destruct (nextAvailable columnCount cells colIndex) as [r|] eqn:E; [|reflexivity].
    apply searchLoop_returns in E as [fuel Hf]. rewrite H in Hf. discriminate Hf.
Qed.

End SearchLoop.

(** C4, amended: a cell with rowspan 2 and colspan 2 that is not in the
    last row, whose anchor column and the next one lie inside the grid,
    and that is followed in its row by cells of positive colspan only,
    in a table whose span attributes are at most [2^52] in magnitude:
    the resolver returns a rectangular grid; the anchor holds the text
    of the cell and the three other positions of the span hold the
    filler.  The anchor of a cell is found by walking right over filled
    positions: the search loop returns, and what it returns is an empty
    position or the end of the row. *)
Theorem C4_span_fills_four_cells
    (rowsBefore rowsAfter : list (list TableCell))
    (cellsBefore cellsAfter : list TableCell) (A : TableCell)
    (columnCount anchor : Z) :
  let rows := rowsBefore ++ (cellsBefore ++ A :: cellsAfter) :: rowsAfter in
  let r0 := length rowsBefore in
  let c0 := Z.to_nat anchor in
  smallSpans rows ->
  spanOf (rowspanAttr A) = Finite 2 ->
  spanOf (colspanAttr A) = Finite 2 ->
  rowsAfter <> [] ->
  columnCountOf rows = Finite columnCount ->
  anchorOf rows rowsBefore cellsBefore = Some (Finite anchor) ->
  (anchor + 1 < columnCount <= 4294967295)%Z ->
  Forall (fun cell => exists s, spanOf (colspanAttr cell) = Finite s /\ (0 < s)%Z) cellsAfter ->
  (exists grid,
     resolveGrid rows = Some grid
     /\ gridShape (length rows) (Z.to_nat columnCount) grid
     /\ cellAt grid r0 c0 = Some (Some (cellText A))
     /\ cellAt grid r0 (S c0) = Some (Some filler)
     /\ cellAt grid (S r0) c0 = Some (Some filler)
     /\ cellAt grid (S r0) (S c0) = Some (Some filler))
  /\ (forall cells colIndex,
        length cells = Z.to_nat columnCount -> (- 2 ^ 53 - 3 <= colIndex)%Z ->
        exists a,
          nextAvailable (Z.to_nat columnCount) cells (Finite colIndex) = Some (Finite a)
          /\ (exists fuel,
                searchLoop (Z.to_nat columnCount) cells fuel (Finite colIndex)
                = Some (Finite a))
          /\ (Z.max 0 colIndex <= a)%Z
          /\ (forall j, (Z.max 0 colIndex <= Z.of_nat j < a)%Z ->
                exists v, cells !! j = Some (Some v))
          /\ ((a < Z.of_nat (length cells))%Z -> cells !! Z.to_nat a = Some None)).
Proof.
  intros rows r0 c0 Hsmall Hrow Hcol Hafter Hcc Hanchor Hrange Hpos.
  split.
  2:{ intros cells colIndex Hlen Hfrom.
      destruct (nextAvailable_spec (Z.to_nat columnCount) cells colIndex Hlen Hfrom)
        as (a & Ha & Hrest).
      exists a. split; [exact Ha|]. split; [|exact Hrest].
      apply (searchLoop_returns (Z.to_nat columnCount) cells Hlen); [lia|exact Ha]. }
  set (n := length rows). set (cc := Z.to_nat columnCount).
  (* the parts of the table are small *)
  assert (HsB : smallSpans rowsBefore /\ smallSpans rowsAfter
                /\ Forall (fun cell => smallAttr (rowspanAttr cell) /\ smallAttr (colspanAttr cell))
                     cellsBefore
                /\ (smallAttr (rowspanAttr A) /\ smallAttr (colspanAttr A))
                /\ Forall (fun cell => smallAttr (rowspanAttr cell) /\ smallAttr (colspanAttr cell))
                     cellsAfter).
  { unfold smallSpans, rows in *. apply Forall_app in Hsmall as [H1 H2].
    apply Forall_cons in H2 as [H2 H3]. apply Forall_app in H2 as [H2 H4].
    apply Forall_cons in H4 as [H4 H5]. auto. }
  destruct HsB as (HsRB & HsRA & HsCB & HsA & HsCA).
  rewrite (spanOf_small _ (proj1 HsA)) in Hrow. rewrite (spanOf_small _ (proj2 HsA)) in Hcol.
  injection Hrow as Hrow. injection Hcol as Hcol.
  assert (Hpos' : Forall (fun cell => (0 < exactSpan (colspanAttr cell))%Z) cellsAfter).
  { rewrite Forall_forall in Hpos, HsCA |- *. intros cell Hin.
    destruct (Hpos cell Hin) as (s & Hs & Hs0).
    rewrite (spanOf_small _ (proj2 (HsCA cell Hin))) in Hs. injection Hs as ->. exact Hs0. }
  assert (Hn : n = r0 + S (length rowsAfter)).
  { unfold n, rows, r0. rewrite length_app. reflexivity. }
  assert (Hlen : 0 < length rowsAfter) by (destruct rowsAfter; [congruence | simpl; lia]).
  (* the column count is a length *)
  unfold anchorOf, stateBefore in Hanchor. fold n in Hanchor.
  destruct (arrayLength (columnCountOf rows)) as [w|] eqn:Ew; [|discriminate Hanchor].
  cbn [mbind option_bind] in Hanchor.
  assert (Hw : w = cc).
  { pose proof (arrayLength_Some _ _ Ew) as [E _]. rewrite Hcc in E. injection E as E.
    unfold cc. rewrite E, Nat2Z.id. reflexivity. }
  rewrite Hw in *. clear w Hw.
  assert (Hwb : (Z.of_nat cc <= 4294967295)%Z) by (apply arrayLength_Some in Ew; tauto).
  assert (Hccz : Z.of_nat cc = columnCount).
  { pose proof (arrayLength_Some _ _ Ew) as [E _]. rewrite Hcc in E. injection E as E.
    symmetry. exact E. }
  pose proof (replicate_shape n cc) as Hs0.
  (* the pass is the pass in exact integers *)
  unfold resolveGrid. rewrite Ew. cbn [mbind option_bind]. fold n.
  rewrite (fillRows_exact n cc Hwb rows _ 0 Hs0 ltac:(unfold n; lia) Hsmall).
  rewrite (fillRows_exact n cc Hwb rowsBefore _ 0 Hs0 ltac:(fold r0; lia) HsRB) in Hanchor.
  cbn [mbind option_bind] in Hanchor.
  assert (Hs1 : gridShape n cc (exactFillRows n cc (replicate n (replicate cc None)) 0 rowsBefore)).
  { apply exactFillRows_shape; [exact Hs0 | fold r0; lia]. }
  destruct (placeCells_exact n cc Hwb r0 cellsBefore _ 0 Hs1 ltac:(lia) HsCB (inReach_0 cc))
    as [Hst Hreach].
  fold r0 in Hanchor. rewrite Hst in Hanchor. cbn [mbind option_bind fst snd] in Hanchor.
  eexists. split; [reflexivity|].
  rewrite (exactFillRows_split n cc _ rowsBefore cellsBefore A cellsAfter rowsAfter).
  fold r0.
  assert (Hs2 : gridShape n cc
                  (fold_left (exactPlaceCell n cc r0) cellsBefore
                     (exactFillRows n cc (replicate n (replicate cc None)) 0 rowsBefore, 0%Z)).1).
  { apply fold_exactPlaceCell_shape; [exact Hs1 | lia]. }
  destruct (fold_left (exactPlaceCell n cc r0) cellsBefore
              (exactFillRows n cc (replicate n (replicate cc None)) 0 rowsBefore, 0%Z))
    as [g2 col2]. cbn [fst snd] in *.
  assert (Hr0 : r0 < n) by lia.
  destruct (gridShape_row _ _ _ _ Hs2 Hr0) as (cells & Hcells & Hcl).
  rewrite Hcells in Hanchor. change (default [] (Some cells)) with cells in Hanchor.
  unfold inReach in Hreach.
  rewrite (nextAvailable_exact cc cells col2 Hcl) in Hanchor by lia.
  injection Hanchor as Hanchor.
  assert (Ha : exactNextAvailable (default [] (g2 !! r0)) col2 = anchor)
    by (rewrite Hcells; exact Hanchor).
  assert (Hmax : (0 <= anchor)%Z).
  { pose proof (exactNextAvailable_bound cells col2). lia. }
  (* the cell itself *)
  assert (Hplace : exactPlaceCell n cc r0 (g2, col2) A
                   = (fillSpan g2 r0 c0 2 2 (cellText A), (anchor + 2)%Z)).
  { unfold exactPlaceCell. rewrite Ha.
    destruct (Z.of_nat cc <=? anchor)%Z eqn:E; [apply Z.leb_le in E; lia|].
    rewrite Hrow, Hcol. fold c0. f_equal. f_equal; lia. }
  rewrite Hplace.
  destruct (fillSpan_2x2 n cc g2 r0 c0 (cellText A) Hs2 ltac:(lia) ltac:(unfold c0; lia))
    as (H00 & H01 & H10 & H11).
  assert (Hs3 : gridShape n cc (fillSpan g2 r0 c0 2 2 (cellText A)))
    by (apply fillSpan_shape, Hs2).
  set (g3 := fillSpan g2 r0 c0 2 2 (cellText A)) in *.
  (* the cells after it in the row *)
  assert (Hs4 : gridShape n cc
                  (fold_left (exactPlaceCell n cc r0) cellsAfter (g3, (anchor + 2)%Z)).1).
  { apply fold_exactPlaceCell_shape; [exact Hs3 | lia]. }
  assert (H00' : cellAt (fold_left (exactPlaceCell n cc r0) cellsAfter (g3, (anchor + 2)%Z)).1
                   r0 c0 = Some (Some (cellText A))).
  { rewrite fold_exactPlaceCell_left_of_cursor; [exact H00 | exact Hs3 | lia | exact Hpos' |].
    right. split; [reflexivity | unfold c0; lia]. }
  pose proof (fold_exactPlaceCell_keeps_filler n cc r0 cellsAfter r0 (S c0) g3 (anchor + 2)%Z
                Hs3 ltac:(lia) H01) as H01'.
  pose proof (fold_exactPlaceCell_keeps_filler n cc r0 cellsAfter (S r0) c0 g3 (anchor + 2)%Z
                Hs3 ltac:(lia) H10) as H10'.
  pose proof (fold_exactPlaceCell_keeps_filler n cc r0 cellsAfter (S r0) (S c0) g3 (anchor + 2)%Z
                Hs3 ltac:(lia) H11) as H11'.
  set (g4 := (fold_left (exactPlaceCell n cc r0) cellsAfter (g3, (anchor + 2)%Z)).1) in *.
  (* the rows after it *)
  split; [apply exactFillRows_shape; [exact Hs4 | lia]|].
  split; [rewrite exactFillRows_above; [exact H00' | exact Hs4 | lia | lia]|].
  repeat split; apply exactFillRows_keeps_filler; try assumption; lia.
Qed.

(** A table where the span starts in the second row, right of a cell
    that hangs down from the first row. *)
Lemma C4_span_fills_four_cells_witness :
  exists grid,
    resolveGrid spanTable = Some grid
    /\ cellAt grid 1 1 = Some (Some (js "A"))
    /\ cellAt grid 1 2 = Some (Some filler)
    /\ cellAt grid 2 1 = Some (Some filler)
    /\ cellAt grid 2 2 = Some (Some filler).
Proof.
  destruct (C4_span_fills_four_cells
              [[mkCell (js "X") (Some 2%Z) None; mkCell (js "Y") None None;
                mkCell (js "Z") None None; mkCell (js "W") None None]]
              [[mkCell (js "P") None None; mkCell (js "Q") None None]]
              [] [mkCell (js "V") None None] (mkCell (js "A") (Some 2%Z) (Some 2%Z))
              4 1)
    as [(grid & Hgrid & _ & H00 & H01 & H10 & H11) _].
  - repeat constructor; cbn; lia.
  - reflexivity.
  - reflexivity.
  - discriminate.
  - reflexivity.
  - vm_compute. reflexivity.
  - lia.
  - constructor; [exists 1%Z; split; [reflexivity | lia] | constructor].
  - exists grid. split; [exact Hgrid|]. split; [exact H00|]. split; [exact H01|].
    split; [exact H10 | exact H11].
Defined.

(** C4 as stated fails for a span that starts in the last row: the grid
    has no row below it, and two of the four positions do not exist. *)
Lemma C4_span_in_last_row_is_clipped :
  spanOf (rowspanAttr (mkCell (js "A") (Some 2%Z) (Some 2%Z))) = Finite 2
  /\ spanOf (colspanAttr (mkCell (js "A") (Some 2%Z) (Some 2%Z))) = Finite 2
  /\ resolveGrid lastRowTable = Some [[Some (js "A"); Some filler]]
  /\ ~ (exists grid v, resolveGrid lastRowTable = Some grid
                       /\ cellAt grid 1 0 = Some (Some v)).
Proof.
  split; [reflexivity|]. split; [reflexivity|]. split; [vm_compute; reflexivity|].
  intros (grid & v & Hgrid & Hcell). vm_compute in Hgrid.
  injection Hgrid as <-. discriminate Hcell.
Qed.

(** Beyond the integers a double holds exactly the sums round: colspans
    of 3, [10^20] and [-10^20] in the first row give a grid without
    columns. *)
Example column_count_rounds :
  columnCountOf [[mkCell (js "a") None (Some 3%Z); mkCell (js "b") None (Some (10 ^ 20)%Z);
                  mkCell (js "c") None (Some (- 10 ^ 20)%Z)]] = Finite 0.
Proof. vm_compute. reflexivity. Qed.

(** After a cell with a colspan of [-10^20] the index is [-10^20], and
    the search for the anchor of the next cell never ends: the grid has
    its one column, and the resolver does not return. *)
Example search_below_the_exact_integers_never_ends :
  let rows := [[mkCell (js "a") None None];
               [mkCell (js "b") None (Some (- 10 ^ 20)%Z); mkCell (js "c") None None]] in
  arrayLength (columnCountOf rows) = Some 1
  /\ resolveGrid rows = None
  /\ jsAdd (Finite (- 10 ^ 20)) (Finite 1) = Finite (- 10 ^ 20)
  /\ forall fuel, searchLoop 1 [None] fuel (Finite (- 10 ^ 20)) = None.
Proof.
  split; [reflexivity|]. split; [vm_compute; reflexivity|].
  assert (H : jsAdd (Finite (- 10 ^ 20)) (Finite 1) = Finite (- 10 ^ 20))
    by (vm_compute; reflexivity).
  split; [exact H|]. induction fuel as [|fuel IH]; [reflexivity|].
  cbn [searchLoop]. change (lessThan (Finite (- 10 ^ 20)) 1) with true.
  change (notNull [None] (Finite (- 10 ^ 20))) with true. cbv iota.
  rewrite H. exact IH.
Qed.

(* ---------------------------------------------------------------------- *)
(** ** The list tree builder *)
(* ---------------------------------------------------------------------- *)

Lemma numbering_step_needs_digit step rest :
  step ∈ numberingSteps -> exec step.1 (91%N :: rest) = None.
Proof.
  intros H. unfold numberingSteps in H. cbn [seqs fold_right] in H.
  repeat (apply elem_of_cons in H as [->|H]; [cbn [fst]; rewrite exec_bol; reflexivity|]).
  apply elem_of_nil in H. destruct H.
Qed.

Lemma cleanListContent_bracket rest : cleanListContent (91%N :: rest) = 91%N :: rest.
Proof.
  unfold cleanListContent.
  assert (H : forall steps, Forall (fun step => step ∈ numberingSteps) steps ->
            fold_left (fun c step => replace step.1 c step.2) steps (91%N :: rest)
            = 91%N :: rest).
  { induction steps as [|step steps IH]; intros Hall; [reflexivity|].
    apply Forall_cons in Hall as [Hin Hall]. cbn [fold_left].
    unfold replace at 2. rewrite (numbering_step_needs_digit step rest Hin). apply IH, Hall. }
  apply H. apply Forall_forall. auto.
Qed.

(** The numbering clean-up leaves a marked content as it is: the marker
    opens with a bracket, and every numbering pattern opens with a digit. *)
Lemma cleanListContent_marker level content :
  cleanListContent (indentMarker level ++ content) = indentMarker level ++ content.
Proof. apply cleanListContent_bracket. Qed.

(** Equal up to arithmetic in the positions. *)
Ltac arith_eq := repeat (first [lia | f_equal]).

Lemma layout_length : forall f start, length (layout start f) = fsize f.
Proof.
  induction f as [|x c IHc s IHs]; intros start; cbn [layout fsize length]; [reflexivity|].
  rewrite length_app, IHc, IHs. reflexivity.
Qed.

Lemma fheight_le_fsize : forall f, fheight f <= fsize f.
Proof. induction f as [|x c IHc s IHs]; cbn [fheight fsize]; lia. Qed.

Lemma insertAt_cons d item f : exists x c s, insertAt d item f = FCons x c s.
Proof.
  destruct f as [|x c [|y c2 s2]]; [|destruct d|]; cbn [insertAt]; eauto.
Qed.

Lemma spine_siblings start x c s :
  s <> FNil -> spine start (FCons x c s) = spine (S start + fsize c) s.
Proof. destruct s; [congruence | reflexivity]. Qed.

Lemma insertAt_size item : forall f d, fsize (insertAt d item f) = S (fsize f).
Proof.
  induction f as [|x c IHc s IHs]; intros d; [reflexivity|].
  destruct s as [|y c2 s2].
  - destruct d; cbn [insertAt fsize]; [lia|]. rewrite IHc. lia.
  - change (insertAt d item (FCons x c (FCons y c2 s2)))
      with (FCons x c (insertAt d item (FCons y c2 s2))).
    cbn [fsize] in *. rewrite IHs. cbn [fsize]. lia.
Qed.

Lemma spine_insert item : forall f start d,
  d <= length (spine start f) ->
  spine start (insertAt d item f) =
    take d (spine start f) ++ [(start + fsize f, indentLevel item)].
Proof.
  induction f as [|x c IHc s IHs]; intros start d Hd.
  - cbn in Hd. replace d with 0 by lia. cbn. rewrite Nat.add_0_r. reflexivity.
  - destruct s as [|y c2 s2].
    + destruct d as [|d].
      * cbn. arith_eq.
      * cbn [insertAt spine length] in *. rewrite IHc by lia. cbn [take app fsize].
        arith_eq.
    + change (insertAt d item (FCons x c (FCons y c2 s2)))
        with (FCons x c (insertAt d item (FCons y c2 s2))).
      destruct (insertAt_cons d item (FCons y c2 s2)) as (x' & c' & s' & E).
      rewrite spine_siblings in Hd |- * by (rewrite ?E; discriminate).
      rewrite IHs by exact Hd. cbn [fsize]. arith_eq.
Qed.

Lemma preorder_insert item : forall f start d0 d,
  d <= length (spine start f) ->
  preorder d0 (insertAt d item f) = preorder d0 f ++ [(d0 + d, item)].
Proof.
  induction f as [|x c IHc s IHs]; intros start d0 d Hd.
  - cbn in Hd. replace d with 0 by lia. cbn. rewrite Nat.add_0_r. reflexivity.
  - destruct s as [|y c2 s2].
    + destruct d as [|d].
      * cbn. rewrite Nat.add_0_r, app_nil_r. reflexivity.
      * cbn [insertAt spine length preorder] in *.
        rewrite (IHc (S start)) by lia. rewrite !app_nil_r.
        rewrite app_comm_cons. arith_eq.
    + change (insertAt d item (FCons x c (FCons y c2 s2)))
        with (FCons x c (insertAt d item (FCons y c2 s2))).
      rewrite spine_siblings in Hd by discriminate.
      cbn [preorder]. rewrite (IHs _ _ _ Hd).
      cbn [preorder]. rewrite app_comm_cons, !app_assoc. reflexivity.
Qed.

Lemma layout_insert_0 item : forall f start,
  layout start (insertAt 0 item f) = layout start f ++ [mkNode item []]
  /\ rootRefs start (insertAt 0 item f) = rootRefs start f ++ [start + fsize f].
Proof.
  induction f as [|x c IHc s IHs]; intros start.
  - cbn. rewrite Nat.add_0_r. split; reflexivity.
  - assert (E : insertAt 0 item (FCons x c s) = FCons x c (insertAt 0 item s))
      by (destruct s; reflexivity).
    rewrite E. cbn [layout rootRefs fsize].
    destruct (IHs (S start + fsize c)) as [-> ->]. split.
    + rewrite app_comm_cons, !app_assoc. reflexivity.
    + cbn [app]. arith_eq.
Qed.

Lemma rootRefs_insert_S item : forall f start d,
  S d <= length (spine start f) ->
  rootRefs start (insertAt (S d) item f) = rootRefs start f.
Proof.
  induction f as [|x c IHc s IHs]; intros start d Hd; [cbn in Hd; lia|].
  destruct s as [|y c2 s2]; [reflexivity|].
  change (insertAt (S d) item (FCons x c (FCons y c2 s2)))
    with (FCons x c (insertAt (S d) item (FCons y c2 s2))).
  rewrite spine_siblings in Hd by discriminate.
  cbn [rootRefs]. f_equal. apply (IHs _ _ Hd).
Qed.

(** Adding a child to the node of the path at depth [d]. *)
Lemma layout_insert_S item : forall f start d front p l new,
  length front = start -> new = start + fsize f ->
  spine start f !! d = Some (p, l) ->
  alter (pushChild new) p (front ++ layout start f ++ [mkNode item []]) =
    front ++ layout start (insertAt (S d) item f).
Proof.
  induction f as [|x c IHc s IHs]; intros start d front p l new Hlen Hnew Hp;
    [discriminate Hp|].
  destruct s as [|y c2 s2].
  - cbn [spine] in Hp. destruct d as [|d].
    + injection Hp as <- <-. cbn [insertAt layout].
      destruct (layout_insert_0 item c (S start)) as [-> ->].
      rewrite <- Hlen at 1. rewrite <- (Nat.add_0_r (length front)).
      rewrite alter_app_r. cbn [app alter list_alter]. unfold pushChild at 1.
      cbn [node_item node_children]. rewrite !app_nil_r.
      cbn [fsize] in Hnew. arith_eq.
    + cbn [lookup list_lookup] in Hp. cbn [insertAt layout].
      pose proof (lookup_lt_Some _ _ _ Hp) as Hd.
      rewrite (rootRefs_insert_S item c (S start) d) by lia.
      rewrite !app_nil_r.
      specialize (IHc (S start) d (front ++ [mkNode x (rootRefs (S start) c)]) p l new).
      rewrite <- !app_assoc in IHc. cbn [app] in IHc. apply IHc.
      * rewrite length_app. cbn. lia.
      * cbn [fsize] in Hnew. lia.
      * exact Hp.
  - change (insertAt (S d) item (FCons x c (FCons y c2 s2)))
      with (FCons x c (insertAt (S d) item (FCons y c2 s2))).
    rewrite spine_siblings in Hp by discriminate.
    remember (FCons y c2 s2) as sib eqn:Esib. clear Esib.
    cbn [layout].
    specialize (IHs (S start + fsize c) d
                  (front ++ mkNode x (rootRefs (S start) c) :: layout (S start) c) p l new).
    rewrite <- !app_assoc in IHs. cbn [app] in IHs |- *.
    rewrite <- !app_assoc. apply IHs.
    + rewrite length_app. cbn [length]. rewrite layout_length. lia.
    + cbn [fsize] in Hnew |- *. lia.
    + exact Hp.
Qed.

Lemma popStack_drop l : forall stack, exists k, popStack l stack = drop k stack.
Proof.
  induction stack as [|[ref x] below IH]; [exists 0; reflexivity|].
  cbn [popStack]. destruct (l <=? x)%Z.
  - destruct IH as [k ->]. exists (S k). reflexivity.
  - exists 0. reflexivity.
Qed.

Lemma popStack_twice l l0 : forall stack,
  (l <= l0)%Z -> popStack l (popStack l0 stack) = popStack l stack.
Proof.
  induction stack as [|[ref x] below IH]; intros Hl; [reflexivity|].
  cbn [popStack]. destruct (l0 <=? x)%Z eqn:E0.
  - apply Z.leb_le in E0. rewrite IH by exact Hl.
    destruct (l <=? x)%Z eqn:E; [reflexivity|]. apply Z.leb_gt in E. lia.
  - reflexivity.
Qed.

Lemma popStack_spine l sp :
  let d := length (popStack l (reverse sp)) in
  d <= length sp /\ popStack l (reverse sp) = reverse (take d sp).
Proof.
  cbn zeta. destruct (popStack_drop l (reverse sp)) as [k E]. rewrite E.
  rewrite length_drop, length_reverse. split; [lia|].
  rewrite <- (reverse_involutive (drop k (reverse sp))) at 1.
  f_equal. rewrite reverse_drop, reverse_involutive, length_reverse. reflexivity.
Qed.

Lemma nodeStack_addNode st item :
  nodeStack (addNode st item) =
    (length (heap st), indentLevel item) :: popStack (indentLevel item) (nodeStack st).
Proof.
  unfold addNode. destruct (popStack (indentLevel item) (nodeStack st)) as [|[parent l] below];
    reflexivity.
Qed.

(** One turn of the loop adds the item as the last node of the path, at
    the depth the stack has after the pops. *)
Lemma addNode_represents st f item :
  represents st f ->
  let d := length (popStack (indentLevel item) (nodeStack st)) in
  d <= length (spine 0 f) /\ represents (addNode st item) (insertAt d item f).
Proof.
  intros (Hheap & Hroots & Hstack). cbn zeta.
  destruct (popStack_spine (indentLevel item) (spine 0 f)) as [Hd Hpop].
  rewrite <- Hstack in Hd, Hpop.
  set (d := length (popStack (indentLevel item) (nodeStack st))) in *.
  split; [exact Hd|]. unfold represents.
  rewrite nodeStack_addNode, Hpop, (spine_insert item f 0 d Hd), reverse_app.
  assert (Hlen : length (heap st) = fsize f) by (rewrite Hheap; apply layout_length).
  rewrite Hlen. split; [|split; [|reflexivity]].
  - unfold addNode. rewrite Hpop, Hlen, Hheap. destruct d as [|d].
    + rewrite take_0. cbn [reverse rev_append heap].
      symmetry. apply (layout_insert_0 item f 0).
    + destruct (lookup_lt_is_Some_2 (spine 0 f) d Hd) as [[p l] Hp].
      rewrite (take_S_r _ _ _ Hp), reverse_app. cbn [reverse rev_append app heap].
      apply (layout_insert_S item f 0 d [] p l (fsize f)); [reflexivity | reflexivity | exact Hp].
  - unfold addNode. rewrite Hpop, Hlen, Hroots. destruct d as [|d].
    + rewrite take_0. cbn [reverse rev_append rootNodes].
      symmetry. apply (layout_insert_0 item f 0).
    + destruct (lookup_lt_is_Some_2 (spine 0 f) d Hd) as [[p l] Hp].
      rewrite (take_S_r _ _ _ Hp), reverse_app. cbn [reverse rev_append app rootNodes].
      symmetry. apply rootRefs_insert_S. exact Hd.
Qed.

Lemma stackAgrees_addNode st seen item :
  stackAgrees (nodeStack st) seen ->
  stackAgrees (nodeStack (addNode st item))
    ((indentLevel item, length (popStack (indentLevel item) (nodeStack st))) :: seen).
Proof.
  intros H l. rewrite nodeStack_addNode. cbn [popStack List.find fst snd].
  destruct (l <=? indentLevel item)%Z eqn:E.
  - apply Z.leb_le in E. rewrite popStack_twice by exact E.
    replace (indentLevel item <? l)%Z with false by (symmetry; apply Z.ltb_ge; exact E).
    apply H.
  - apply Z.leb_gt in E.
    replace (indentLevel item <? l)%Z with true by (symmetry; apply Z.ltb_lt; exact E).
    reflexivity.
Qed.

(** The tree after the loop: its nodes in document order are the items,
    each at its depth. *)
Lemma fold_addNode_represents : forall items st f seen,
  represents st f -> stackAgrees (nodeStack st) seen ->
  exists f', represents (fold_left addNode items st) f'
    /\ preorder 0 f' = preorder 0 f ++ zip (trueDepths seen (map indentLevel items)) items.
Proof.
  induction items as [|item items IH]; intros st f seen Hrep Hagree.
  - exists f. split; [exact Hrep|]. cbn. rewrite app_nil_r. reflexivity.
  - cbn [fold_left map trueDepths zip zip_with].
    destruct (addNode_represents st f item Hrep) as [Hd Hrep'].
    pose proof (stackAgrees_addNode st seen item Hagree) as Hagree'.
    rewrite <- (Hagree (indentLevel item)).
    set (d := length (popStack (indentLevel item) (nodeStack st))) in *.
    destruct (IH _ _ _ Hrep' Hagree') as (f' & Hf' & Hpre).
    exists f'. split; [exact Hf'|]. rewrite Hpre.
    rewrite (preorder_insert item f 0 0 d Hd), <- app_assoc. reflexivity.
Qed.

Lemma buildTree_represents items :
  exists f, represents (buildTree items) f
    /\ preorder 0 f = zip (trueDepths [] (map indentLevel items)) items.
Proof.
  apply (fold_addNode_represents items (mkBuild [] [] []) FNil []).
  - repeat split.
  - intros l. reflexivity.
Qed.

Section ListTreeFacts.

Variable URL : jsstring -> option URLRecord.
Variable listType : ListType.

Lemma flattenTreeToBlocks_nil fuel h depth :
  flattenTreeToBlocks URL listType (S fuel) h [] depth = Some [].
Proof. reflexivity. Qed.

Lemma flattenTreeToBlocks_cons fuel h ref others depth :
  flattenTreeToBlocks URL listType (S fuel) h (ref :: others) depth =
    (node ← h !! ref;
     let content :=
       if 3 <=? depth
       then indentMarker (depth + 1) ++ item_content (node_item node)
       else item_content (node_item node) in
     block ← createListItemBlock URL listType content (item_checked (node_item node));
     pushed ←
       match node_children node with
       | [] => Some [block]
       | _ :: _ =>
           below ← flattenTreeToBlocks URL listType fuel h (node_children node) (depth + 1);
           if depth <? 2 then Some [setChildren block below]
           else Some (block :: below)
       end;
     rest ← flattenTreeToBlocks URL listType (S fuel) h others depth;
     Some (pushed ++ rest)).
Proof. reflexivity. Qed.

(** The block of an item at depth [depth]: a leaf with the text of that
    depth.  From depth 3 on the text opens with the marker, which the
    numbering clean-up leaves alone. *)
Lemma createListItemBlock_leaf depth item :
  exists rt,
    parseInlineMarkdown URL (expectedText depth item) = Some rt
    /\ createListItemBlock URL listType
         (if 3 <=? depth then indentMarker (depth + 1) ++ item_content item
          else item_content item) (item_checked item)
       = Some (leafBlock listType rt (item_checked item)).
Proof.
  destruct (parseInlineMarkdown_total URL (expectedText depth item)) as [rt Hrt].
  exists rt. split; [exact Hrt|].
  unfold createListItemBlock, expectedText in *.
  destruct (3 <=? depth); rewrite ?cleanListContent_marker;
    destruct listType;
    unfold createTodoBlock, createBulletedListItem, createNumberedListItem;
    rewrite Hrt; reflexivity.
Qed.

Lemma outline_leaf level rt checked :
  outline level (leafBlock listType rt checked) = [(level, leafBlock listType rt checked)].
Proof. destruct listType; reflexivity. Qed.

Lemma outline_setChildren level rt checked below :
  outline level (setChildren (leafBlock listType rt checked) below) =
    (level, leafBlock listType rt checked) :: flat_map (outline (S level)) below.
Proof. destruct listType; reflexivity. Qed.

Lemma childrenNonEmpty_leaf rt checked :
  childrenNonEmpty (leafBlock listType rt checked) = true.
Proof. destruct listType; reflexivity. Qed.

Lemma childrenNonEmpty_setChildren rt checked below :
  below <> [] -> forallb childrenNonEmpty below = true ->
  childrenNonEmpty (setChildren (leafBlock listType rt checked) below) = true.
Proof.
  intros Hne Hall. destruct below as [|b below]; [congruence|].
  destruct listType; exact Hall.
Qed.

(** The traversal of a tree laid out in the heap: the blocks, in
    document order, are the blocks of the items; depths 0 and 1 nest,
    deeper items stay at level 2. *)
Lemma flattenTreeToBlocks_layout : forall f h start depth fuel,
  (forall i node, layout start f !! i = Some node -> h !! (start + i) = Some node) ->
  fheight f < fuel ->
  exists blocks,
    flattenTreeToBlocks URL listType fuel h (rootRefs start f) depth = Some blocks
    /\ Forall2 (itemMatches URL listType)
         (flat_map (outline (Nat.min depth 2)) blocks) (preorder depth f)
    /\ forallb childrenNonEmpty blocks = true.
Proof.
  induction f as [|item c IHc s IHs]; intros h start depth fuel Hin Hfuel;
    destruct fuel as [|fuel]; try lia.
  - exists []. split; [reflexivity|]. split; [constructor | reflexivity].
  - cbn [fheight] in Hfuel. cbn [rootRefs]. rewrite flattenTreeToBlocks_cons.
    pose proof (Hin 0 _ eq_refl) as Hnode. rewrite Nat.add_0_r in Hnode.
    rewrite Hnode. cbn [mbind option_bind node_item node_children item_checked].
    destruct (createListItemBlock_leaf depth item) as (rt & Hrt & ->).
    cbn [mbind option_bind].
    (* the siblings *)
    destruct (IHs h (S start + fsize c) depth (S fuel)) as (rest & -> & Hrest & Hrest');
      [|lia|].
    { intros i node Hi. replace (S start + fsize c + i) with (start + S (fsize c + i)) by lia.
      apply Hin.
      change ((layout (S start) c ++ layout (S start + fsize c) s) !! (fsize c + i)
              = Some node).
      rewrite lookup_app_r by (rewrite layout_length; lia).
      rewrite layout_length. replace (fsize c + i - fsize c) with i by lia. exact Hi. }
    assert (Hitem : itemMatches URL listType
                      (Nat.min depth 2, leafBlock listType rt (item_checked item))
                      (depth, item)).
    { split; [reflexivity|]. exists rt. split; [exact Hrt | reflexivity]. }
    cbn [preorder].
    (* the children *)
    destruct c as [|y c2 s2].
    + cbn [rootRefs mbind option_bind preorder app].
      eexists. split; [reflexivity|]. cbn [flat_map app forallb].
      rewrite outline_leaf, childrenNonEmpty_leaf. cbn [app andb].
      split; [constructor; [exact Hitem | exact Hrest] | exact Hrest'].
    + remember (FCons y c2 s2) as c eqn:Ec.
      destruct (rootRefs (S start) c) as [|r refs] eqn:Erefs;
        [subst c; discriminate Erefs|].
      cbv iota. rewrite <- Erefs.
      destruct (IHc h (S start) (depth + 1) fuel) as (below & -> & Hbelow & Hbelow');
        [|lia|].
      { intros i node Hi. replace (S start + i) with (start + S i) by lia.
        apply Hin.
        change ((layout (S start) c ++ layout (S start + fsize c) s) !! i = Some node).
        apply lookup_app_l_Some. exact Hi. }
      rewrite Nat.add_1_r in Hbelow. cbn [mbind option_bind].
      assert (Hne : below <> []).
      { intros ->. subst c. cbn in Hbelow. inversion Hbelow. }
      destruct (depth <? 2) eqn:Edepth.
      * apply Nat.ltb_lt in Edepth. eexists. split; [reflexivity|].
        cbn [flat_map app forallb].
        rewrite outline_setChildren, childrenNonEmpty_setChildren by assumption.
        replace (Nat.min (S depth) 2) with (S (Nat.min depth 2)) in Hbelow by lia.
        split; [|exact Hrest']. rewrite <- app_comm_cons. constructor; [exact Hitem|].
        apply Forall2_app; assumption.
      * apply Nat.ltb_ge in Edepth. eexists. split; [reflexivity|].
        cbn [flat_map app forallb]. rewrite flat_map_app, forallb_app.
        rewrite outline_leaf, childrenNonEmpty_leaf, Hbelow', Hrest'.
        replace (Nat.min (S depth) 2) with (Nat.min depth 2) in Hbelow by lia.
        split; [|reflexivity]. cbn [app]. constructor; [exact Hitem|].
        apply Forall2_app; assumption.
Qed.

(** The blocks of a list of items: in document order they are the blocks
    of the items, each at the level and with the text of its depth, and
    no [children] array is empty. *)
Lemma buildNestedList_blocks (items : list ListItem) :
  exists blocks,
    buildNestedList URL listType items = Some blocks
    /\ Forall2 (itemMatches URL listType)
         (flat_map (outline 0) blocks)
         (zip (trueDepths [] (map indentLevel items)) items)
    /\ forallb childrenNonEmpty blocks = true.
Proof.
  destruct items as [|item items].
  { exists []. split; [reflexivity|]. split; [constructor | reflexivity]. }
  unfold buildNestedList.
  destruct (buildTree_represents (item :: items)) as (f & (Hheap & Hroots & _) & Hpre).
  rewrite <- Hpre, Hroots.
  apply (flattenTreeToBlocks_layout f (heap (buildTree (item :: items))) 0 0).
  - intros i node Hi. rewrite Hheap. exact Hi.
  - rewrite Hheap, layout_length. pose proof (fheight_le_fsize f). lia.
Qed.

(** The blocks of the items that the collecting loop finds.  In document order they
    are the blocks of the items of the run.  An item of depth 0 is a
    block of the list, an item of depth 1 is in the [children] array of
    the block of its parent, and an item of depth 2 or more is in the
    [children] array of its ancestor of depth 1, after its parent: no
    block lies deeper, so the block of an item of depth 2 or more carries
    no [children], and no block carries an empty array.  From depth 3 on
    the text of the block is the marker of the depth counted from 1, a
    space and the content of the item; above, it is the content after the
    numbering clean-up.  The depth of an item is the number of its
    ancestors, and its parent is the nearest item before it with a
    smaller indent level. *)
Lemma parseNestedList_outline (lines : list jsstring) (startIndex : nat) :
  let items := (collectItems listType (drop startIndex lines) startIndex None).1 in
  exists blocks nextIndex,
    parseNestedList URL listType lines startIndex = Some (blocks, nextIndex)
    /\ Forall2 (itemMatches URL listType)
         (flat_map (outline 0) blocks)
         (zip (trueDepths [] (map indentLevel items)) items)
    /\ forallb childrenNonEmpty blocks = true.
Proof.
  cbn zeta. unfold parseNestedList.
  destruct (collectItems listType (drop startIndex lines) startIndex None) as [items stop].
  cbn [fst]. destruct (buildNestedList_blocks items) as (blocks & -> & Houtline & Hne).
  exists blocks, stop. split; [reflexivity|]. split; [exact Houtline | exact Hne].
Qed.

End ListTreeFacts.

(** Five levels of bullets, two columns of indent per level: [a] holds
    [b], [b] holds [c] and, after it, the marked [d] and [e]. *)
Lemma five_level_bullet_list :
  map indentLevel (collectItems BulletList fiveLevels 0 None).1 = [0; 1; 2; 3; 4]%Z
  /\ trueDepths [] [0; 1; 2; 3; 4]%Z = [0; 1; 2; 3; 4]
  /\ parseList (fun _ => None) fiveLevels 0 =
       Some (Some
         ([BulletedListItem [mkRun (js "a") noAnnotations None]
             (Some [BulletedListItem [mkRun (js "b") noAnnotations None]
                (Some [BulletedListItem [mkRun (js "c") noAnnotations None] None;
                       BulletedListItem [mkRun (js "[ind4] d") noAnnotations None] None;
                       BulletedListItem [mkRun (js "[ind5] e") noAnnotations None] None])])],
          5)).
Proof. repeat split; vm_compute; reflexivity. Qed.

(** Depths follow the nesting, not the width of the indent: an item
    indented by four levels under its parent is at depth 1. *)
Lemma trueDepths_irregular :
  trueDepths [] [0; 4; 2; 3; 2; 0; 1]%Z = [0; 1; 1; 2; 1; 0; 1].
Proof. reflexivity. Qed.

(* ====================================================================== *)
(** * Further properties *)
(* ====================================================================== *)

(* ---------------------------------------------------------------------- *)
(** ** Lines *)
(* ---------------------------------------------------------------------- *)

Lemma split_cons sep s : exists l ls, split sep s = l :: ls.
Proof.
  induction s as [|c s IH]; cbn [split]; [eauto|].
  destruct (c =? sep)%N; [eauto|]. destruct IH as (l & ls & ->). eauto.
Qed.

Lemma split_app sep a b :
  split sep (a ++ sep :: b) = split sep a ++ split sep b.
Proof.
  induction a as [|c a IH]; cbn [app split].
  - rewrite N.eqb_refl. reflexivity.
  - destruct (c =? sep)%N; [rewrite IH; reflexivity|].
    rewrite IH. destruct (split_cons sep a) as (l & ls & ->). reflexivity.
Qed.

Lemma split_one sep s : Forall (fun c => c <> sep) s -> split sep s = [s].
Proof.
  induction 1 as [|c s Hc _ IH]; cbn [split]; [reflexivity|].
  apply N.eqb_neq in Hc. rewrite Hc, IH. reflexivity.
Qed.

Lemma join_cons sep l l2 ls : join sep (l :: l2 :: ls) = l ++ sep ++ join sep (l2 :: ls).
Proof. reflexivity. Qed.

Lemma join_split sep s : join [sep] (split sep s) = s.
Proof.
  induction s as [|c s IH]; cbn [split]; [reflexivity|].
  destruct (split_cons sep s) as (l & ls & El). rewrite El in *.
  destruct (c =? sep)%N eqn:E.
  - apply N.eqb_eq in E. subst c. rewrite join_cons, IH. reflexivity.
  - destruct ls as [|l2 ls].
    + cbn [join] in *. congruence.
    + rewrite join_cons in *. transitivity (c :: (l ++ [sep] ++ join [sep] (l2 :: ls))); [reflexivity|].
      f_equal. exact IH.
Qed.

Lemma includes_cons c s p : includes (c :: s) p = false -> includes s p = false.
Proof. cbn [includes]. intros H. apply orb_false_iff in H as [_ H]. exact H. Qed.

Lemma includes_startsWith s p : includes s p = false -> startsWith s p = false.
Proof.
  destruct s; cbn [includes]; intros H; apply orb_false_iff in H as [H _]; exact H.
Qed.

Lemma includes_app_r a b p : includes (a ++ b) p = false -> includes b p = false.
Proof.
  induction a as [|c a IH]; [trivial|]. intros H. apply IH.
  apply (includes_cons c). exact H.
Qed.

Lemma startsWith_app_l s t p : startsWith s p = true -> startsWith (s ++ t) p = true.
Proof.
  intros H. apply startsWith_app in H as [rest ->]. apply startsWith_app.
  exists (rest ++ t). rewrite app_assoc. reflexivity.
Qed.

Lemma includes_app_l a b p : includes (a ++ b) p = false -> includes a p = false.
Proof.
  induction a as [|c a IH]; cbn [app includes]; intros H.
  - destruct p as [|x p]; [|destruct b; reflexivity].
    destruct b; cbn in H; discriminate.
  - apply orb_false_iff in H as [H1 H2]. rewrite (IH H2), orb_false_r.
    destruct (startsWith (c :: a) p) eqn:E; [|reflexivity].
    apply (startsWith_app_l _ b) in E. cbn [app] in E. congruence.
Qed.

(** A text without the pattern has no line with it. *)
Lemma includes_lines p s :
  includes s p = false -> Forall (fun l => includes l p = false) (split 10 s).
Proof.
  induction s as [|c s IH]; intros H; cbn [split].
  - constructor; [exact H | constructor].
  - pose proof (IH (includes_cons _ _ _ H)) as IH'.
    destruct (c =? 10)%N eqn:E.
    + constructor; [|exact IH'].
      apply (includes_app_l [] (c :: s)). exact H.
    + destruct (split_cons 10 s) as (l & ls & El). rewrite El in *.
      apply Forall_cons in IH' as [Hl Hls]. constructor; [|exact Hls].
      assert (Hs : exists rest, s = l ++ rest).
      { clear -El. revert l ls El. induction s as [|d s IHs]; intros l ls El; cbn [split] in El.
        - injection El as <- <-. exists []. reflexivity.
        - destruct (d =? 10)%N.
          + injection El as <- <-. eexists. reflexivity.
          + destruct (split_cons 10 s) as (l' & ls' & El'). rewrite El' in El.
            injection El as <- <-. destruct (IHs _ _ El') as [rest ->].
            exists rest. reflexivity. }
      destruct Hs as [rest ->].
      apply (includes_app_l (c :: l) rest). exact H.
Qed.

Lemma trimStart_suffix s : exists front, s = front ++ trimStart s.
Proof.
  induction s as [|c s [front IH]]; cbn [trimStart]; [exists []; reflexivity|].
  destruct (is_space c); [|exists []; reflexivity].
  exists (c :: front). cbn [app]. rewrite <- IH. reflexivity.
Qed.

(* ---------------------------------------------------------------------- *)
(** ** Code blocks *)
(* ---------------------------------------------------------------------- *)

Lemma replaceCR_no_CR s : Forall (fun c => c <> 13%N) (replaceCR s).
Proof.
  unfold replaceCR. induction s as [|c s IH]; cbn [map]; constructor; [|exact IH].
  destruct (c =? 13)%N eqn:E; [discriminate|]. apply N.eqb_neq. exact E.
Qed.

(** X1: the code block of any code and language tag holds one run of
    text of at most 2000 code units without carriage return: the code
    with its line endings turned into line feeds when that fits, and
    its first 1900 code units followed by the truncation notice when it
    does not.  The language is the normalized tag. *)
Theorem X1_createCodeBlock_bounded (code language : jsstring) :
  exists text,
    createCodeBlock code language =
      Code [mkRun text noAnnotations None] (normalizeLanguage language)
    /\ length text <= 2000
    /\ Forall (fun c => c <> 13%N) text
    /\ (length (replaceCR (replaceCRLF code)) <= 2000 ->
        text = replaceCR (replaceCRLF code))
    /\ (2000 < length (replaceCR (replaceCRLF code)) ->
        text = take 1900 (replaceCR (replaceCRLF code)) ++ truncation_notice).
Proof.
  unfold createCodeBlock, MAX_CODE_LENGTH.
  pose proof (replaceCR_no_CR (replaceCRLF code)) as Hcr.
  set (codeString := replaceCR (replaceCRLF code)) in *.
  destruct (length codeString <=? 2000) eqn:E.
  - apply Nat.leb_le in E. exists codeString.
    split; [reflexivity|]. split; [exact E|]. split; [exact Hcr|].
    split; [reflexivity | lia].
  - apply Nat.leb_gt in E. eexists. split; [reflexivity|].
    unfold slice. rewrite drop_0. change (2000 - 100 - 0) with 1900.
    split; [|split; [|split; [lia | reflexivity]]].
    + rewrite length_app, length_take. assert (Hn : length truncation_notice = 45) by reflexivity. lia.
    + apply Forall_app. split; [apply Forall_take, Hcr|].
      unfold truncation_notice. vm_compute. repeat (constructor; [discriminate|]). constructor.
Qed.

(* ---------------------------------------------------------------------- *)
(** ** Trimming *)
(* ---------------------------------------------------------------------- *)

Lemma trimStart_spaces s : forallb is_space s = true -> trimStart s = [].
Proof.
  induction s as [|c s IH]; cbn [forallb trimStart]; [reflexivity|].
  intros H. apply andb_true_iff in H as [-> H]. apply IH, H.
Qed.

Lemma trimStart_app_spaces a s : forallb is_space a = true -> trimStart (a ++ s) = trimStart s.
Proof.
  induction a as [|c a IH]; cbn [forallb app trimStart]; [reflexivity|].
  intros H. apply andb_true_iff in H as [-> H]. apply IH, H.
Qed.

Lemma trimStart_solid c s : is_space c = false -> trimStart (c :: s) = c :: s.
Proof. intros H. cbn [trimStart]. rewrite H. reflexivity. Qed.

(** What is left of a string when the white space in front is gone:
    nothing, or a string that opens with another character. *)
Lemma trimStart_cases s :
  (trimStart s = [] /\ forallb is_space s = true)
  \/ exists a c t, s = a ++ c :: t /\ forallb is_space a = true /\ is_space c = false
                   /\ trimStart s = c :: t.
Proof.
  induction s as [|c s IH]; [left; split; reflexivity|]. cbn [trimStart forallb].
  destruct (is_space c) eqn:E.
  - destruct IH as [[-> ->]|(a & d & t & -> & Ha & Hd & ->)]; [left; split; reflexivity|].
    right. exists (c :: a), d, t. cbn [forallb]. rewrite E, Ha. repeat split. exact Hd.
  - right. exists [], c, s. repeat split. exact E.
Qed.

Lemma trimStart_app_solid a c t :
  is_space c = false -> trimStart (a ++ c :: t) = trimStart a ++ c :: t.
Proof.
  intros Hc. induction a as [|d a IH]; cbn [app trimStart]; [rewrite Hc; reflexivity|].
  destruct (is_space d); [exact IH | reflexivity].
Qed.

Lemma trimEnd_app_spaces s a : forallb is_space a = true -> trimEnd (s ++ a) = trimEnd s.
Proof.
  intros H. unfold trimEnd. rewrite rev_app_distr, trimStart_app_spaces; [reflexivity|].
  rewrite forallb_forall in *. intros x Hx. apply H. apply in_rev. exact Hx.
Qed.

Lemma trimEnd_app_solid t c a :
  is_space c = false -> trimEnd (t ++ c :: a) = t ++ c :: trimEnd a.
Proof.
  intros Hc. unfold trimEnd.
  replace (rev (t ++ c :: a)) with (rev a ++ c :: rev t)
    by (rewrite rev_app_distr; cbn [rev]; rewrite <- app_assoc; reflexivity).
  rewrite trimStart_app_solid by exact Hc.
  rewrite rev_app_distr. cbn [rev]. rewrite rev_involutive, <- app_assoc. reflexivity.
Qed.


Lemma trimEnd_nil_iff a : forallb is_space a = true -> trimEnd a = [].
Proof.
  intros H. unfold trimEnd. rewrite trimStart_spaces; [reflexivity|].
  rewrite forallb_forall in *. intros x Hx. apply H, in_rev, Hx.
Qed.

Lemma trimEnd_cases s :
  (trimEnd s = [] /\ forallb is_space s = true)
  \/ exists t d a, s = t ++ d :: a /\ forallb is_space a = true /\ is_space d = false
                   /\ trimEnd s = t ++ [d].
Proof.
  unfold trimEnd. destruct (trimStart_cases (rev s)) as [[E H]|(a & c & t & E & Ha & Hc & Et)].
  - left. rewrite E. split; [reflexivity|].
    rewrite forallb_forall in *. intros x Hx. apply H. apply in_rev in Hx. exact Hx.
  - right. exists (rev t), c, (rev a). rewrite Et.
    split; [|split; [|split; [exact Hc | reflexivity]]].
    + rewrite <- (rev_involutive s), E, rev_app_distr. cbn [rev].
      rewrite <- app_assoc. reflexivity.
    + rewrite forallb_forall in *. intros x Hx. apply Ha, in_rev, Hx.
Qed.

Lemma trim_solid s : solid (trim s).
Proof.
  unfold trim. destruct (trimStart_cases s) as [[-> _]|(a & c & t & -> & Ha & Hc & ->)];
    [exact I|].
  destruct (trimEnd_cases (c :: t)) as [[E H]|(t' & d & b & E & Hb & Hd & ->)].
  - cbn [forallb] in H. rewrite Hc in H. discriminate.
  - destruct t' as [|c' t']; cbn [app] in *.
    + injection E as -> _. split; [exact Hd|]. exists [], d. split; [reflexivity | exact Hd].
    + injection E as <- _. split; [exact Hc|]. exists (c :: t'), d.
      split; [reflexivity | exact Hd].
Qed.

Lemma trim_of_solid s : solid s -> trim s = s.
Proof.
  destruct s as [|c s]; [reflexivity|]. intros (Hc & t & d & E & Hd).
  unfold trim. rewrite trimStart_solid by exact Hc. rewrite E.
  rewrite (trimEnd_app_solid t d []) by exact Hd. reflexivity.
Qed.

Lemma trim_idem s : trim (trim s) = trim s.
Proof. apply trim_of_solid, trim_solid. Qed.

Lemma trim_app_spaces_l a s : forallb is_space a = true -> trim (a ++ s) = trim s.
Proof. intros H. unfold trim. rewrite trimStart_app_spaces by exact H. reflexivity. Qed.

Lemma trim_app_spaces_r s a : forallb is_space a = true -> trim (s ++ a) = trim s.
Proof.
  intros H. unfold trim.
  destruct (trimStart_cases s) as [[E Hs]|(b & c & t & -> & Hb & Hc & E)].
  - rewrite E. rewrite trimStart_spaces; [reflexivity|].
    rewrite forallb_app, Hs, H. reflexivity.
  - rewrite E. rewrite <- app_assoc. cbn [app].
    rewrite trimStart_app_solid by exact Hc. rewrite (trimStart_spaces b Hb). cbn [app].
    change (c :: t ++ a) with ((c :: t) ++ a). apply trimEnd_app_spaces, H.
Qed.

Lemma blank_spaces s : blank s = true <-> forallb is_space s = true.
Proof.
  unfold blank, trim. split.
  - destruct (trimStart_cases s) as [[E H]|(a & c & t & -> & Ha & Hc & E)]; [trivial|].
    rewrite E. destruct (trimEnd_cases (c :: t)) as [[_ H]|(t' & d & b & _ & _ & _ & ->)].
    + cbn [forallb] in H. rewrite Hc in H. discriminate.
    + destruct t'; discriminate.
  - intros H. rewrite (trimStart_spaces s H). reflexivity.
Qed.

Lemma trim_nil_blank s : trim s = [] <-> blank s = true.
Proof. unfold blank. destruct (trim s); split; congruence. Qed.

Lemma is_space_lower c : is_space (lower_unit c) = is_space c.
Proof.
  unfold lower_unit.
  destruct ((65 <=? c) && (c <=? 90))%N eqn:E.
  - apply andb_true_iff in E as [E1 E2]. apply N.leb_le in E1, E2.
    unfold is_space.
    repeat match goal with
    | |- context [(?a <=? ?b)%N] => destruct (N.leb_spec a b); try lia
    | |- context [(?a =? ?b)%N] => destruct (N.eqb_spec a b); try lia
    end; reflexivity.
  - destruct (c =? 8490)%N eqn:E2; [|reflexivity].
    apply N.eqb_eq in E2. subst c. reflexivity.
Qed.

Lemma toLowerCase_trimStart s : toLowerCase (trimStart s) = trimStart (toLowerCase s).
Proof.
  unfold toLowerCase. induction s as [|c s IH]; [reflexivity|].
  cbn [trimStart map]. rewrite is_space_lower. destruct (is_space c); [exact IH | reflexivity].
Qed.

Lemma toLowerCase_trim s : toLowerCase (trim s) = trim (toLowerCase s).
Proof.
  unfold trim, trimEnd. rewrite <- toLowerCase_trimStart.
  unfold toLowerCase at 1. rewrite map_rev. fold (toLowerCase (trimStart (rev (trimStart s)))).
  rewrite toLowerCase_trimStart. unfold toLowerCase at 1. rewrite map_rev. reflexivity.
Qed.

(** The language tag may be written with white space around it. *)
Lemma normalizeLanguage_trim lang : normalizeLanguage (trim lang) = normalizeLanguage lang.
Proof.
  unfold normalizeLanguage, blank. rewrite trim_idem, toLowerCase_trim, trim_idem.
  reflexivity.
Qed.

(* ---------------------------------------------------------------------- *)
(** ** Fences *)
(* ---------------------------------------------------------------------- *)

(** X2: the serializer always finds its fence: a run of three backticks
    or more that the code does not contain, of three backticks exactly
    when the code holds no run of three. *)
Theorem X2_chooseFence_absent_from_code (codeContent : jsstring) :
  exists n,
    chooseFence codeContent = Some (JS.repeat 96 n)
    /\ 3 <= n
    /\ includes codeContent (JS.repeat 96 n) = false
    /\ (n = 3 <-> includes codeContent fence3 = false).
Proof.
  destruct (includes codeContent fence3) eqn:E.
  - destruct (chooseFence_avoids codeContent E) as (n & Hn & Hf & Hi).
    exists n. split; [exact Hf|]. split; [lia|]. split; [exact Hi|].
    split; [lia | discriminate].
  - exists 3. unfold chooseFence. rewrite E. split; [reflexivity|]. split; [lia|].
    split; [exact E|]. split; reflexivity.
Qed.

Section TokenizerFacts.

Variable laterRules : list jsstring -> nat -> list Block * nat.

Lemma tokenizeFrom_end fuel lines i :
  lines !! i = None -> tokenizeFrom laterRules (S fuel) lines i = Some [].
Proof. intros H. cbn [tokenizeFrom]. rewrite H. reflexivity. Qed.

Lemma tokenizeFrom_blank fuel lines i line :
  lines !! i = Some line -> blank line = true ->
  tokenizeFrom laterRules (S fuel) lines i = tokenizeFrom laterRules fuel lines (S i).
Proof. intros H Hb. cbn [tokenizeFrom]. rewrite H, Hb. reflexivity. Qed.

Lemma tokenizeFrom_fence fuel lines i line :
  lines !! i = Some line -> blank line = false ->
  startsWith (trimStart line) fence3 = true ->
  tokenizeFrom laterRules (S fuel) lines i =
    cons (fencedCode lines i line).1
      <$> tokenizeFrom laterRules fuel lines (fencedCode lines i line).2.
Proof.
  intros H Hb Hf. cbn [tokenizeFrom]. rewrite H, Hb, Hf.
  destruct (fencedCode lines i line). reflexivity.
Qed.

Lemma tokenizeFrom_rules fuel lines i line :
  lines !! i = Some line -> blank line = false ->
  startsWith (trimStart line) fence3 = false ->
  tokenizeFrom laterRules (S fuel) lines i =
    app (laterRules lines i).1
      <$> tokenizeFrom laterRules fuel lines (laterRules lines i).2.
Proof.
  intros H Hb Hf. cbn [tokenizeFrom]. rewrite H, Hb, Hf.
  destruct (laterRules lines i). reflexivity.
Qed.

(** Blank lines give no block. *)
Lemma tokenizeFrom_blanks : forall fuel lines i,
  Forall (fun l => blank l = true) (drop i lines) ->
  length lines - i < fuel ->
  tokenizeFrom laterRules fuel lines i = Some [].
Proof.
  induction fuel as [|fuel IH]; intros lines i Hall Hfuel; [lia|].
  destruct (lines !! i) as [line|] eqn:E; [|apply tokenizeFrom_end, E].
  pose proof (lookup_lt_Some _ _ _ E) as Hi.
  rewrite (drop_S _ _ _ E) in Hall. apply Forall_cons in Hall as [Hb Hall].
  rewrite (tokenizeFrom_blank _ _ _ _ E Hb). apply IH; [exact Hall | lia].
Qed.

End TokenizerFacts.

Lemma collectCodeLines_closed ls rest :
  Forall (fun l => includes l fence3 = false) ls ->
  collectCodeLines [] (ls ++ fence3 :: rest) = (ls, length ls).
Proof.
  induction 1 as [|l ls Hl _ IH]; [reflexivity|].
  cbn [app collectCodeLines length].
  destruct (trimStart_suffix l) as [front E].
  assert (Hs : startsWith (trimStart l) fence3 = false).
  { apply includes_startsWith. apply (includes_app_r front). rewrite <- E. exact Hl. }
  rewrite Hs. cbn [andb]. rewrite IH. reflexivity.
Qed.

Lemma normalizeLanguage_fence_tag language :
  normalizeLanguage
    (match trim (match language with [] => [] | _ => js " " ++ language end) with
     | [] => plain_text
     | c :: t => c :: t
     end) = normalizeLanguage language.
Proof.
  destruct language as [|a language]; [reflexivity|].
  change (js " " ++ a :: language) with ([32%N] ++ a :: language).
  rewrite trim_app_spaces_l by reflexivity.
  destruct (trim (a :: language)) as [|c t] eqn:E.
  - apply trim_nil_blank in E. unfold normalizeLanguage at 2. rewrite E. reflexivity.
  - rewrite <- E. apply normalizeLanguage_trim.
Qed.

Lemma createCodeBlock_language code l1 l2 :
  normalizeLanguage l1 = normalizeLanguage l2 -> createCodeBlock code l1 = createCodeBlock code l2.
Proof. intros H. unfold createCodeBlock. rewrite H. reflexivity. Qed.

(** X3: a code text without three backticks in a row survives the way
    from the page to the blocks: the Markdown the serializer writes for
    it, with a language tag of one line, is read back by the tokenizer as
    one block, the code block of that text and that tag. *)
Theorem X3_fenced_code_round_trip
    (laterRules : list jsstring -> nat -> list Block * nat)
    (language codeContent : jsstring) :
  includes codeContent fence3 = false ->
  Forall (fun c => c <> 10%N) language ->
  exists markdown,
    confluenceCodeBlock language codeContent = Some markdown
    /\ markdownToNotionBlocks laterRules markdown =
         Some [createCodeBlock codeContent language].
Proof.
  intros Hcode Hlang. unfold confluenceCodeBlock, chooseFence. rewrite Hcode.
  cbn [mbind option_bind]. eexists. split; [reflexivity|].
  set (tag := match language with [] => [] | _ => js " " ++ language end).
  unfold markdownToNotionBlocks.
  assert (Hlines : split 10 ([10; 10]%N ++ fence3 ++ tag ++ [10%N] ++ codeContent ++ [10%N]
                             ++ fence3 ++ [10; 10]%N)
                   = [[]; []; fence3 ++ tag] ++ split 10 codeContent ++ [fence3; []; []]).
  { change ([10; 10]%N ++ fence3 ++ tag ++ [10%N] ++ codeContent ++ [10%N]
              ++ fence3 ++ [10; 10]%N)
      with ([] ++ 10%N :: [] ++ 10%N :: fence3 ++ tag ++ [10%N] ++ codeContent ++ [10%N]
              ++ fence3 ++ [10; 10]%N).
    rewrite !split_app. cbn [app split]. f_equal. f_equal.
    rewrite (app_assoc fence3 tag). change ([10%N] ++ codeContent ++ [10%N] ++ fence3 ++ [10; 10]%N)
      with (10%N :: codeContent ++ 10%N :: fence3 ++ 10%N :: [] ++ 10%N :: []).
    rewrite !split_app.
    rewrite (split_one 10 (fence3 ++ tag)).
    2:{ apply Forall_app. split; [repeat constructor; discriminate|].
        unfold tag. destruct language as [|a language]; [constructor|].
        apply Forall_app. split; [repeat constructor; discriminate | exact Hlang]. }
    reflexivity. }
  rewrite Hlines.
  set (codeLines := split 10 codeContent).
  set (lines := [[]; []; fence3 ++ tag] ++ codeLines ++ [fence3; []; []]).
  assert (Hlen : length lines = 6 + length codeLines).
  { unfold lines. rewrite !length_app. cbn [length]. lia. }
  rewrite Hlen.
  change (6 + length codeLines) with (S (S (S (S (S (S (length codeLines))))))).
  rewrite (tokenizeFrom_blank laterRules _ lines 0 []) by reflexivity.
  rewrite (tokenizeFrom_blank laterRules _ lines 1 []) by reflexivity.
  assert (Hb : blank (fence3 ++ tag) = false).
  { destruct (blank (fence3 ++ tag)) eqn:E; [|reflexivity].
    apply blank_spaces in E. discriminate E. }
  assert (Hs : startsWith (trimStart (fence3 ++ tag)) fence3 = true)
    by (apply startsWith_app; exists tag; reflexivity).
  rewrite (tokenizeFrom_fence laterRules _ lines 2 (fence3 ++ tag) eq_refl Hb Hs).
  (* the fenced block *)
  assert (Hfence : fencedCode lines 2 (fence3 ++ tag) =
                   (createCodeBlock codeContent language, 4 + length codeLines)).
  { unfold fencedCode.
    change (trimStart (fence3 ++ tag)) with (fence3 ++ tag).
    rewrite Nat.sub_diag. cbn [take].
    change (drop 3 lines) with (codeLines ++ fence3 :: [[]; []]).
    rewrite collectCodeLines_closed by (apply includes_lines, Hcode).
    unfold codeLines. rewrite join_split. f_equal.
    apply createCodeBlock_language.
    change (drop 3 (fence3 ++ tag)) with tag.
    pose proof (normalizeLanguage_fence_tag language) as H. fold tag in H.
    destruct (trim tag); exact H. }
  rewrite Hfence. cbn [fst snd].
  rewrite (tokenizeFrom_blanks laterRules); [reflexivity| |lia].
  unfold lines. replace (4 + length codeLines) with (length ([[]; []; fence3 ++ tag] ++ codeLines) + 1)
    by (rewrite length_app; cbn [length]; lia).
  rewrite app_assoc, <- drop_drop, drop_app_length. cbn [drop].
  repeat constructor.
Qed.

(** A script of two lines in JavaScript. *)
Lemma X3_fenced_code_round_trip_witness :
  exists markdown,
    confluenceCodeBlock (js "js") (js "let a = 1;" ++ [10%N] ++ js "a++;") = Some markdown
    /\ markdownToNotionBlocks (fun _ i => ([], S i)) markdown =
         Some [createCodeBlock (js "let a = 1;" ++ [10%N] ++ js "a++;") (js "js")].
Proof.
  apply (X3_fenced_code_round_trip (fun _ i => ([], S i)) (js "js")
           (js "let a = 1;" ++ [10%N] ++ js "a++;")).
  - reflexivity.
  - repeat constructor; discriminate.
Defined.

(* ---------------------------------------------------------------------- *)
(** ** The page assembler *)
(* ---------------------------------------------------------------------- *)

Lemma chunks_fuel_nonempty {A} size : forall fuel (xs : list A),
  0 < size -> Forall (fun c => c <> []) (chunks_fuel fuel size xs).
Proof.
  induction fuel as [|fuel IH]; intros xs Hs; cbn [chunks_fuel]; [constructor|].
  destruct xs as [|x xs]; [constructor|]. constructor; [|apply IH, Hs].
  destruct size; [lia | discriminate].
Qed.

Section AssemblerTraces.

Variable laterRules : list jsstring -> nat -> list Block * nat.
Variable fetch : list Event -> Event -> FetchOutcome.

Hypothesis accepting :
  forall tr request, exists status data, fetch tr request = FetchResponse true status data.

Lemma uploadChunks_requests pageId apiToken totalChunks : forall chunkList chunkIndex tr,
  Forall (fun chunk => length chunk <= 100) chunkList ->
  exists events,
    uploadChunks fetch pageId apiToken totalChunks chunkList chunkIndex tr =
      (Returned tt, tr ++ events)
    /\ requestsOf events = map (appendRequest pageId apiToken) chunkList.
Proof using accepting.
  induction chunkList as [|chunk rest IH]; intros chunkIndex tr Hall.
  - exists []. rewrite app_nil_r. split; reflexivity.
  - apply Forall_cons in Hall as [Hc Hall]. cbn [uploadChunks].
    unfold bind at 1. unfold sendProgressUpdate at 1. unfold bind at 1.
    match goal with |- context [appendBlocksToPage fetch ?p ?b ?t ?tr'] =>
      destruct (accepting tr' (NotionRequest (appendEndpoint p) (js "PATCH") (ChildrenData b) t))
        as (status & data & Hf);
      rewrite (appendBlocksToPage_fits fetch p b t tr' status data Hc Hf)
    end.
    match goal with |- context [uploadChunks fetch _ _ _ rest ?k ?tr'] =>
      destruct (IH k tr' Hall) as (events & -> & Hreq)
    end.
    eexists (_ :: _ :: events). split; [rewrite <- !app_assoc; reflexivity|].
    change (requestsOf (?a :: ?b :: events)) with (requestsOf ([a; b] ++ events)).
    rewrite requestsOf_app, Hreq. reflexivity.
Qed.

(** The requests of a successful run: the page with the first hundred
    blocks, then one append for every further hundred. *)
Lemma createNotionPage_requests title markdown parentPageId apiToken sourceUrl converted tr0 :
  markdownToNotionBlocks laterRules markdown = Some converted ->
  exists page events,
    createNotionPage laterRules fetch title markdown parentPageId apiToken sourceUrl tr0 =
      (Returned (data_id page, data_url page), tr0 ++ events)
    /\ requestsOf events =
         NotionRequest (js "/pages") (js "POST")
           (PageData parentPageId title (take 100 (pageBlocks sourceUrl converted))) apiToken
         :: map (appendRequest (data_id page) apiToken)
                (chunks 100 (drop 100 (pageBlocks sourceUrl converted))).
Proof using accepting.
  intros Hmd. unfold createNotionPage, MAX_BLOCKS_PER_REQUEST.
  unfold bind at 1. unfold sendProgressUpdate at 1.
  rewrite Hmd. unfold bind at 1. unfold ret at 1.
  unfold bind at 1. unfold sendProgressUpdate at 1.
  fold (pageBlocks sourceUrl converted).
  set (blocks := pageBlocks sourceUrl converted).
  unfold bind at 1. unfold sendProgressUpdate at 1.
  unfold bind at 1.
  match goal with |- context [notionRequest fetch ?e ?m ?b ?t ?tr] =>
    destruct (accepting tr (NotionRequest e m b t)) as (status & page & Hf);
    rewrite (notionRequest_ok fetch e m b t tr status page Hf)
  end.
  exists page.
  unfold bind at 1. unfold sendProgressUpdate at 1. unfold bind at 1.
  assert (Hup : forall tr, exists events,
            match drop 100 blocks with
            | [] => ret tt
            | _ :: _ =>
                uploadChunks fetch (data_id page) apiToken
                  ((length (drop 100 blocks) + (100 - 1)) / 100)
                  (chunks 100 (drop 100 blocks)) 1
            end tr = (Returned tt, tr ++ events)
            /\ requestsOf events =
                 map (appendRequest (data_id page) apiToken) (chunks 100 (drop 100 blocks))).
  { intros tr. destruct (drop 100 blocks) as [|r rem] eqn:E.
    - exists []. rewrite app_nil_r. split; reflexivity.
    - rewrite <- E. apply uploadChunks_requests. apply chunks_fuel_bound. }
  match goal with |- context [match drop 100 blocks with [] => _ | _ :: _ => _ end ?tr] =>
    destruct (Hup tr) as (events & -> & Hreq)
  end.
  unfold bind at 1. unfold sendProgressUpdate at 1. unfold ret.
  eexists (_ :: _ :: _ :: _ :: _ :: (events ++ [_])).
  split; [rewrite <- !app_assoc; reflexivity|].
  change (requestsOf (?a :: ?b :: ?c :: ?d :: ?e :: ?l))
    with (requestsOf ([a; b; c; d; e] ++ l)).
  rewrite !requestsOf_app, Hreq. cbn. rewrite app_nil_r. reflexivity.
Qed.

End AssemblerTraces.

(** X4: on a network that accepts every request, the blocks of a page
    go out complete and in order: one request creates the page with the
    first hundred blocks, and each further request appends the next
    hundred, or what is left of them.  The blocks are the converted
    blocks, or the placeholder when there are none, after the source
    callout when a source URL is given. *)
Theorem X4_blocks_uploaded_in_order
    (laterRules : list jsstring -> nat -> list Block * nat)
    (fetch : list Event -> Event -> FetchOutcome)
    (title markdown parentPageId apiToken sourceUrl : jsstring)
    (converted : list Block) (tr0 : list Event) :
  (forall tr request, exists status data, fetch tr request = FetchResponse true status data) ->
  markdownToNotionBlocks laterRules markdown = Some converted ->
  let blocks := pageBlocks sourceUrl converted in
  exists page events appended,
    createNotionPage laterRules fetch title markdown parentPageId apiToken sourceUrl tr0 =
      (Returned (data_id page, data_url page), tr0 ++ events)
    /\ requestsOf events =
         NotionRequest (js "/pages") (js "POST")
           (PageData parentPageId title (take 100 blocks)) apiToken
         :: map (appendRequest (data_id page) apiToken) appended
    /\ take 100 blocks ++ concat appended = blocks
    /\ Forall (fun chunk => 1 <= length chunk <= 100) appended.
Proof.
  intros Hok Hmd blocks.
  destruct (createNotionPage_requests laterRules fetch Hok title markdown parentPageId
              apiToken sourceUrl converted tr0 Hmd) as (page & events & Hrun & Hreq).
  exists page, events, (chunks 100 (drop 100 blocks)).
  split; [exact Hrun|]. split; [exact Hreq|]. split.
  - rewrite chunks_concat by lia. apply take_drop.
  - pose proof (chunks_fuel_bound 100 (length (drop 100 blocks)) (drop 100 blocks)) as Hb.
    pose proof (chunks_fuel_nonempty 100 (length (drop 100 blocks)) (drop 100 blocks)
                  ltac:(lia)) as Hn.
    fold (chunks 100 (drop 100 blocks)) in Hb, Hn.
    rewrite Forall_forall in *. intros chunk Hin.
    specialize (Hb chunk Hin). specialize (Hn chunk Hin).
    destruct chunk; [congruence|]. cbn [length] in *. lia.
Qed.

(** 150 dividers: the page takes 100, one request appends 50. *)
Lemma X4_blocks_uploaded_in_order_witness :
  exists page events appended,
    createNotionPage dividerRules acceptingNetwork (js "Title") markdown150 toyParent
      (js "secret") [] [] = (Returned (data_id page, data_url page), [] ++ events)
    /\ requestsOf events =
         NotionRequest (js "/pages") (js "POST")
           (PageData toyParent (js "Title") (take 100 (replicate 150 Divider))) (js "secret")
         :: map (appendRequest (data_id page) (js "secret")) appended
    /\ take 100 (replicate 150 Divider) ++ concat appended = replicate 150 Divider
    /\ Forall (fun chunk => 1 <= length chunk <= 100) appended.
Proof.
  apply (X4_blocks_uploaded_in_order dividerRules acceptingNetwork (js "Title") markdown150
           toyParent (js "secret") [] (replicate 150 Divider) []).
  - intros tr request. exists 200, toyPage. reflexivity.
  - vm_compute. reflexivity.
Defined.

(** X5: a Markdown text of blank lines only gives no block, and the
    page is then created with the placeholder paragraph as its only
    content (after the source callout when a source URL is given), in
    one request. *)
Theorem X5_blank_markdown_gives_placeholder
    (laterRules : list jsstring -> nat -> list Block * nat)
    (fetch : list Event -> Event -> FetchOutcome)
    (title markdown parentPageId apiToken sourceUrl : jsstring) (tr0 : list Event) :
  (forall tr request, exists status data, fetch tr request = FetchResponse true status data) ->
  Forall (fun line => blank line = true) (split 10 markdown) ->
  markdownToNotionBlocks laterRules markdown = Some []
  /\ exists page events,
       createNotionPage laterRules fetch title markdown parentPageId apiToken sourceUrl tr0 =
         (Returned (data_id page, data_url page), tr0 ++ events)
       /\ requestsOf events =
            [ NotionRequest (js "/pages") (js "POST")
                (PageData parentPageId title
                   (match sourceUrl with
                    | [] => [placeholderBlock]
                    | _ => [sourceCallout sourceUrl; placeholderBlock]
                    end)) apiToken ].
Proof.
  intros Hok Hblank.
  assert (Hmd : markdownToNotionBlocks laterRules markdown = Some []).
  { unfold markdownToNotionBlocks. apply tokenizeFrom_blanks; [exact Hblank | lia]. }
  split; [exact Hmd|].
  destruct (createNotionPage_requests laterRules fetch Hok title markdown parentPageId
              apiToken sourceUrl [] tr0 Hmd) as (page & events & Hrun & Hreq).
  exists page, events. split; [exact Hrun|]. rewrite Hreq.
  unfold pageBlocks. destruct sourceUrl; reflexivity.
Qed.

Lemma X5_blank_markdown_gives_placeholder_witness :
  markdownToNotionBlocks dividerRules blankMarkdown = Some []
  /\ exists page events,
       createNotionPage dividerRules acceptingNetwork (js "Title") blankMarkdown toyParent
         (js "secret") [] [] = (Returned (data_id page, data_url page), [] ++ events)
       /\ requestsOf events =
            [ NotionRequest (js "/pages") (js "POST")
                (PageData toyParent (js "Title") [placeholderBlock]) (js "secret") ].
Proof.
  apply (X5_blank_markdown_gives_placeholder dividerRules acceptingNetwork (js "Title")
           blankMarkdown toyParent (js "secret") [] []).
  - intros tr request. exists 200, toyPage. reflexivity.
  - vm_compute. repeat constructor.
Defined.

Section Discipline.

Variable fetch : list Event -> Event -> FetchOutcome.

Lemma disciplined_ret {A} (a : A) : disciplined fetch (ret a).
Proof.
  intros tr. exists []. rewrite app_nil_r. split; [reflexivity|].
  split; intros i e H; discriminate H || (intros; discriminate).
Qed.

Lemma disciplined_throw {A} e : disciplined fetch (@throw A e).
Proof.
  intros tr. exists []. rewrite app_nil_r. split; [reflexivity|].
  split; [intros i x H; discriminate H | intros a H; discriminate H].
Qed.

Lemma disciplined_diverge {A} : disciplined fetch (@diverge A).
Proof.
  intros tr. exists []. rewrite app_nil_r. split; [reflexivity|].
  split; [intros i x H; discriminate H | intros a H; discriminate H].
Qed.

Lemma disciplined_lift {A} (r : JSError + A) : disciplined fetch (lift r).
Proof. destruct r; [apply disciplined_throw | apply disciplined_ret]. Qed.

Lemma disciplined_progress percent status :
  disciplined fetch (sendProgressUpdate percent status).
Proof.
  intros tr. exists [ProgressUpdate percent status]. split; [reflexivity|]. split.
  - intros [|i] e H; [|destruct i; discriminate H]. injection H as <-. discriminate.
  - intros a _ [|i] e H; [|destruct i; discriminate H]. injection H as <-. reflexivity.
Qed.

Lemma disciplined_request endpoint method body apiToken :
  disciplined fetch (notionRequest fetch endpoint method body apiToken).
Proof.
  intros tr. exists [NotionRequest endpoint method body apiToken].
  split; [apply notionRequest_trace|]. split.
  - intros [|i] e H; [|destruct i; discriminate H]. intros _. reflexivity.
  - intros a Ha [|i] e H; [|destruct i; discriminate H]. injection H as <-.
    cbn [take]. rewrite app_nil_r. unfold failedAt.
    unfold notionRequest in Ha.
    destruct (fetch tr (NotionRequest endpoint method body apiToken)) as [err|[|] status data];
      [discriminate Ha | reflexivity | discriminate Ha].
Qed.

Lemma bind_Returned {A B} (m : Eff A) (k : A -> Eff B) tr a tr' :
  m tr = (Returned a, tr') -> bind m k tr = k a tr'.
Proof. intros H. unfold bind. rewrite H. reflexivity. Qed.

Lemma bind_stops {A B} (m : Eff A) (k : A -> Eff B) tr :
  (forall a, fst (m tr) <> Returned a) ->
  snd (bind m k tr) = snd (m tr) /\ forall b, fst (bind m k tr) <> Returned b.
Proof.
  intros H. unfold bind. destruct (m tr) as [[a|e|] tr']; cbn [fst snd] in *.
  - destruct (H a). reflexivity.
  - split; [reflexivity | discriminate].
  - split; [reflexivity | discriminate].
Qed.

Lemma disciplined_bind {A B} (m : Eff A) (k : A -> Eff B) :
  disciplined fetch m -> (forall a, disciplined fetch (k a)) ->
  disciplined fetch (bind m k).
Proof.
  intros Hm Hk tr. destruct (Hm tr) as (ev1 & Htr1 & Hstop1 & Hret1).
  destruct (m tr) as [o1 tr1] eqn:Em. cbn [fst snd] in *. subst tr1.
  destruct o1 as [a|e|].
  - rewrite (bind_Returned m k tr a _ Em).
    destruct (Hk a (tr ++ ev1)) as (ev2 & Htr2 & Hstop2 & Hret2).
    exists (ev1 ++ ev2). split; [rewrite Htr2, app_assoc; reflexivity|].
    pose proof (Hret1 a eq_refl) as Hclean.
    assert (Hsplit : forall i e, (ev1 ++ ev2) !! i = Some e ->
              (i < length ev1 /\ ev1 !! i = Some e
               /\ tr ++ take i (ev1 ++ ev2) = tr ++ take i ev1)
              \/ (length ev1 <= i /\ ev2 !! (i - length ev1) = Some e
                  /\ tr ++ take i (ev1 ++ ev2) = (tr ++ ev1) ++ take (i - length ev1) ev2
                  /\ drop (S i) (ev1 ++ ev2) = drop (S (i - length ev1)) ev2)).
    { intros i e H. destruct (Nat.lt_ge_cases i (length ev1)) as [Hi|Hi].
      - left. split; [exact Hi|]. rewrite lookup_app_l in H by exact Hi.
        split; [exact H|]. rewrite take_app_le by lia. reflexivity.
      - right. split; [exact Hi|]. rewrite lookup_app_r in H by exact Hi.
        split; [exact H|]. split.
        + rewrite take_app_ge by exact Hi. rewrite app_assoc. reflexivity.
        + rewrite drop_app_ge by lia. f_equal. lia. }
    split.
    + intros i e H Hfail.
      destruct (Hsplit i e H) as [(Hi & H1 & E)|(Hi & H2 & E & Ed)].
      * rewrite E in Hfail. rewrite (Hclean i e H1) in Hfail. discriminate.
      * rewrite E in Hfail. rewrite Ed. apply (Hstop2 _ _ H2 Hfail).
    + intros b Hb i e H.
      destruct (Hsplit i e H) as [(Hi & H1 & E)|(Hi & H2 & E & Ed)].
      * rewrite E. apply (Hclean i e H1).
      * rewrite E. apply (Hret2 b Hb _ _ H2).
  - exists ev1. unfold bind. rewrite Em. cbn [fst snd]. split; [reflexivity|].
    split; [exact Hstop1 | discriminate].
  - exists ev1. unfold bind. rewrite Em. cbn [fst snd]. split; [reflexivity|].
    split; [exact Hstop1 | discriminate].
Qed.

Lemma disciplined_appendEach pageId apiToken : forall chunkList,
  disciplined fetch (appendEach fetch pageId chunkList apiToken).
Proof.
  induction chunkList as [|chunk rest IH]; cbn [appendEach]; [apply disciplined_ret|].
  apply disciplined_bind; [apply disciplined_request | intros _; exact IH].
Qed.

Lemma disciplined_appendBlocksToPage pageId blocks apiToken :
  disciplined fetch (appendBlocksToPage fetch pageId blocks apiToken).
Proof.
  unfold appendBlocksToPage. destruct (length blocks <=? MAX_BLOCKS_PER_REQUEST).
  - apply disciplined_bind; [apply disciplined_request | intros _; apply disciplined_ret].
  - apply disciplined_appendEach.
Qed.

Lemma disciplined_uploadChunks pageId apiToken totalChunks : forall chunkList chunkIndex,
  disciplined fetch (uploadChunks fetch pageId apiToken totalChunks chunkList chunkIndex).
Proof.
  induction chunkList as [|chunk rest IH]; intros chunkIndex; cbn [uploadChunks];
    [apply disciplined_ret|].
  apply disciplined_bind; [apply disciplined_progress|]. intros _.
  apply disciplined_bind; [apply disciplined_appendBlocksToPage|]. intros _. apply IH.
Qed.

Variable laterRules : list jsstring -> nat -> list Block * nat.

Lemma disciplined_createNotionPage title markdown parentPageId apiToken sourceUrl :
  disciplined fetch
    (createNotionPage laterRules fetch title markdown parentPageId apiToken sourceUrl).
Proof.
  unfold createNotionPage.
  apply disciplined_bind; [apply disciplined_progress|]. intros _.
  apply disciplined_bind.
  { destruct (markdownToNotionBlocks laterRules markdown);
      [apply disciplined_ret | apply disciplined_diverge]. }
  intros converted.
  apply disciplined_bind; [apply disciplined_progress|]. intros _.
  apply disciplined_bind; [apply disciplined_progress|]. intros _.
  apply disciplined_bind; [apply disciplined_request|]. intros page.
  apply disciplined_bind; [apply disciplined_progress|]. intros _.
  apply disciplined_bind.
  { destruct (drop MAX_BLOCKS_PER_REQUEST _);
      [apply disciplined_ret | apply disciplined_uploadChunks]. }
  intros _.
  apply disciplined_bind; [apply disciplined_progress | intros _; apply disciplined_ret].
Qed.

End Discipline.


Section HandlerFacts.

Variable URL : jsstring -> option URLRecord.
Variable laterRules : list jsstring -> nat -> list Block * nat.
Variable fetch : list Event -> Event -> FetchOutcome.

(** The body of the [try] block of [handleCreatePage]. *)
Lemma handleCreatePage_cases data tr :
  exists o ev1,
    stopsAtFailure fetch tr ev1
    /\ (forall a, o = Returned a -> noFailure fetch tr ev1)
    /\ match o with
       | Returned result =>
           handleCreatePage URL laterRules fetch data tr = (Returned result, tr ++ ev1)
           /\ success result = true
       | Thrown e =>
           handleCreatePage URL laterRules fetch data tr =
             (Returned (mkResult false None None (Some (errorText e))),
              tr ++ ev1 ++ [ProgressUpdate 50 (js "Error: " ++ err_message e)])
       | Diverged =>
           handleCreatePage URL laterRules fetch data tr = (Diverged, tr ++ ev1)
       end.
Proof.
  unfold handleCreatePage.
  match goal with |- context [tryCatch ?m ?h] => set (body := m); set (handler := h) end.
  assert (Hbody : disciplined fetch body).
  { unfold body.
    apply disciplined_bind.
    { destruct (req_apiToken data); [apply disciplined_throw | apply disciplined_ret]. }
    intros _. apply disciplined_bind.
    { destruct (req_title data); [apply disciplined_throw | apply disciplined_ret]. }
    intros _. apply disciplined_bind.
    { destruct (req_markdown data); [apply disciplined_throw | apply disciplined_ret]. }
    intros _. apply disciplined_bind; [apply disciplined_lift|]. intros validatedPageId.
    apply disciplined_bind; [apply disciplined_progress|]. intros _.
    apply disciplined_bind; [apply disciplined_createNotionPage|]. intros result.
    apply disciplined_ret. }
  assert (Hsuccess : forall result tr', body tr = (Returned result, tr') ->
                                        success result = true).
  { unfold body. intros result tr'. unfold bind.
    repeat match goal with
    | |- context [match ?x with [] => _ | _ :: _ => _ end] => destruct x; cbn [throw ret]
    | |- context [lift ?r tr] => destruct r; cbn [lift throw ret]
    | |- context [createNotionPage ?a ?b ?c ?d ?e ?f ?g ?t] =>
        destruct (createNotionPage a b c d e f g t) as [[?|?|] ?]
    | |- context [sendProgressUpdate ?p ?s ?t] => unfold sendProgressUpdate at 1
    end; intros H; try discriminate H; injection H as <- _; reflexivity. }
  destruct (Hbody tr) as (ev1 & Htr & Hstop & Hret).
  destruct (body tr) as [o tr1] eqn:Eb. cbn [fst snd] in *. subst tr1.
  exists o, ev1. split; [exact Hstop|]. split; [intros a ->; apply (Hret a eq_refl)|].
  unfold tryCatch. rewrite Eb. destruct o as [result|e|].
  - split; [reflexivity | apply (Hsuccess result _ eq_refl)].
  - unfold handler, bind, sendProgressUpdate, ret. rewrite <- app_assoc. reflexivity.
  - reflexivity.
Qed.

End HandlerFacts.

(** X6: whatever the network does, the worker sends no request after a
    request that failed (one the network rejected or answered with a
    status that is not ok): it neither retries nor goes on with the
    upload, and what it answers is not a success. *)
Theorem X6_no_request_after_failure
    (URL : jsstring -> option URLRecord)
    (laterRules : list jsstring -> nat -> list Block * nat)
    (fetch : list Event -> Event -> FetchOutcome)
    (data : PageRequest) (tr0 : list Event) :
  exists events,
    snd (handleCreatePage URL laterRules fetch data tr0) = tr0 ++ events
    /\ forall i e,
         events !! i = Some e ->
         failedAt fetch (tr0 ++ take i events) e = true ->
         requestsOf (drop (S i) events) = []
         /\ forall result,
              fst (handleCreatePage URL laterRules fetch data tr0) = Returned result ->
              success result = false.
Proof.
  destruct (handleCreatePage_cases URL laterRules fetch data tr0)
    as (o & ev1 & Hstop & Hret & Hrun).
  destruct o as [result|err|].
  - destruct Hrun as [Hrun _]. exists ev1. rewrite Hrun. split; [reflexivity|].
    intros i e H Hfail. rewrite (Hret result eq_refl i e H) in Hfail. discriminate.
  - exists (ev1 ++ [ProgressUpdate 50 (js "Error: " ++ err_message err)]).
    rewrite Hrun. split; [reflexivity|]. intros i e H Hfail.
    cbn [fst]. split; [|intros result [= <-]; reflexivity].
    destruct (Nat.lt_ge_cases i (length ev1)) as [Hi|Hi].
    + rewrite lookup_app_l in H by exact Hi. rewrite take_app_le in Hfail by lia.
      rewrite drop_app_le by lia. rewrite requestsOf_app, (Hstop i e H Hfail). reflexivity.
    + rewrite lookup_app_r in H by exact Hi.
      destruct (i - length ev1) as [|j]; [|destruct j; discriminate H].
      injection H as <-. discriminate Hfail.
  - exists ev1. rewrite Hrun. split; [reflexivity|].
    intros i e H Hfail. split; [apply (Hstop i e H Hfail) | intros result [=]].
Qed.

(** X7: a request without token, title or Markdown is answered with the
    error of the first of them that is missing, in that order, after one
    progress event that carries the error, and without any request to
    the network. *)
Theorem X7_missing_field_is_reported
    (URL : jsstring -> option URLRecord)
    (laterRules : list jsstring -> nat -> list Block * nat)
    (fetch : list Event -> Event -> FetchOutcome)
    (data : PageRequest) (tr0 : list Event) :
  req_apiToken data = [] \/ req_title data = [] \/ req_markdown data = [] ->
  let message :=
    match req_apiToken data, req_title data with
    | [], _ => js "Notion API token is required"
    | _, [] => js "Page title is required"
    | _, _ => js "Markdown content is required"
    end in
  handleCreatePage URL laterRules fetch data tr0 =
    (Returned (mkResult false None None (Some message)),
     tr0 ++ [ProgressUpdate 50 (js "Error: " ++ message)]).
Proof.
  intros H. cbn zeta. unfold handleCreatePage, tryCatch, bind.
  destruct (req_apiToken data) as [|a token]; [reflexivity|].
  destruct (req_title data) as [|b title]; [reflexivity|].
  destruct (req_markdown data) as [|c markdown]; [reflexivity|].
  destruct H as [H|[H|H]]; discriminate H.
Qed.

Lemma X7_missing_field_is_reported_witness :
  handleCreatePage simpleURL dividerRules acceptingNetwork
    (mkRequest [] (js "text") toyParent (js "secret") []) [] =
    (Returned (mkResult false None None (Some (js "Page title is required"))),
     [ProgressUpdate 50 (js "Error: Page title is required")]).
Proof.
  apply (X7_missing_field_is_reported simpleURL dividerRules acceptingNetwork
           (mkRequest [] (js "text") toyParent (js "secret") []) []).
  right. left. reflexivity.
Defined.

(* ---------------------------------------------------------------------- *)
(** ** The matcher and what a pattern can match *)
(* ---------------------------------------------------------------------- *)

Lemma star_loop_ext step g k1 k2 :
  (forall st k k', (forall s, k s = k' s) -> step st k = step st k') ->
  (forall s, k1 s = k2 s) ->
  forall fuel st, star_loop step g k1 fuel st = star_loop step g k2 fuel st.
Proof.
  intros Hstep Hk. induction fuel as [|fuel IH]; intros st; [reflexivity|].
  cbn [star_loop]. rewrite (Hk st).
  rewrite (Hstep st _ (fun st1 => if length (after st1) <? length (after st)
                                  then star_loop step g k2 fuel st1 else None)).
  - reflexivity.
  - intros s. destruct (length (after s) <? length (after st)); [apply IH | reflexivity].
Qed.

Lemma rmatch_ext r : forall st k k',
  (forall s, k s = k' s) -> rmatch r st k = rmatch r st k'.
Proof.
  induction r as [|p|r1 IH1 r2 IH2|r1 IH1 r2 IH2|g r1 IH1|n r1 IH1|n| | |r1 IH1|p];
    intros st k k' H; cbn [rmatch].
  - apply H.
  - destruct (after st) as [|c rest]; [reflexivity|]. rewrite H. reflexivity.
  - apply IH1. intros s. apply IH2, H.
  - rewrite (IH1 st k k' H), (IH2 st k k' H). reflexivity.
  - apply star_loop_ext; [exact IH1 | exact H].
  - apply IH1. intros s. apply H.
  - destruct (cap_get n (caps st)) as [l|]; [|apply H].
    destruct (startsWith (after st) l); [apply H | reflexivity].
  - destruct (before st); [apply H | reflexivity].
  - destruct (after st); [apply H | reflexivity].
  - rewrite H. reflexivity.
  - destruct (before st) as [|c ?]; [apply H|]. destruct (p c); [reflexivity | apply H].
Qed.

(** Fuel beyond the length of the input changes nothing. *)
Lemma star_loop_fuel r g k : forall fuel fuel' st,
  length (after st) < fuel -> length (after st) < fuel' ->
  star_loop (rmatch r) g k fuel st = star_loop (rmatch r) g k fuel' st.
Proof.
  induction fuel as [|fuel IH]; intros fuel' st H H'; [lia|].
  destruct fuel' as [|fuel']; [lia|]. cbn [star_loop].
  rewrite (rmatch_ext r st _ (fun st1 => if length (after st1) <? length (after st)
                                         then star_loop (rmatch r) g k fuel' st1 else None)).
  - reflexivity.
  - intros s. destruct (length (after s) <? length (after st)) eqn:E; [|reflexivity].
    apply Nat.ltb_lt in E. apply IH; lia.
Qed.

Lemma rmatch_star_unfold g r st k :
  rmatch (Star g r) st k =
    let again :=
      rmatch r st (fun st1 =>
        if length (after st1) <? length (after st) then rmatch (Star g r) st1 k else None) in
    if g then match again with Some x => Some x | None => k st end
    else match k st with Some x => Some x | None => again end.
Proof.
  cbn [rmatch star_loop]. cbn zeta.
  rewrite (rmatch_ext r st _ (fun st1 => if length (after st1) <? length (after st)
             then star_loop (rmatch r) g k (S (length (after st1))) st1 else None)).
  - reflexivity.
  - intros s. destruct (length (after s) <? length (after st)) eqn:E; [|reflexivity].
    apply Nat.ltb_lt in E. apply star_loop_fuel; lia.
Qed.

(** Whatever the matcher finds, the pattern can match. *)
Lemma rmatch_Matches r : forall st k res,
  rmatch r st k = Some res -> exists st', Matches r st st' /\ k st' = Some res.
Proof.
  induction r as [|p|r1 IH1 r2 IH2|r1 IH1 r2 IH2|g r1 IH1|n r1 IH1|n| | |r1 IH1|p];
    intros st k res H.
  - exists st. split; [constructor | exact H].
  - cbn [rmatch] in H. destruct st as [pre suf cs]. cbn [after before caps] in H.
    destruct suf as [|c rest]; [discriminate|]. destruct (p c) eqn:E; [|discriminate].
    eexists. split; [constructor; exact E | exact H].
  - cbn [rmatch] in H. apply IH1 in H as (st1 & M1 & H). apply IH2 in H as (st2 & M2 & H).
    exists st2. split; [econstructor; eassumption | exact H].
  - cbn [rmatch] in H. destruct (rmatch r1 st k) as [x|] eqn:E.
    + injection H as ->. apply IH1 in E as (st' & M & E).
      exists st'. split; [apply MatchesAltL, M | exact E].
    + apply IH2 in H as (st' & M & H). exists st'. split; [apply MatchesAltR, M | exact H].
  - remember (length (after st)) as n eqn:En. revert st En res H.
    induction n as [n IHn] using lt_wf_ind. intros st En res H.
    rewrite rmatch_star_unfold in H. cbn zeta in H.
    assert (Hagain : rmatch r1 st (fun st1 =>
                if length (after st1) <? length (after st)
                then rmatch (Star g r1) st1 k else None) = Some res ->
              exists st', Matches (Star g r1) st st' /\ k st' = Some res).
    { intros Ha. apply IH1 in Ha as (st1 & M1 & Ha).
      destruct (length (after st1) <? length (after st)) eqn:E; [|discriminate].
      apply Nat.ltb_lt in E.
      destruct (IHn (length (after st1)) ltac:(lia) st1 eq_refl res Ha) as (st2 & M2 & Hk).
      exists st2. split; [eapply MatchesStarStep; eassumption | exact Hk]. }
    assert (Hstop : k st = Some res ->
              exists st', Matches (Star g r1) st st' /\ k st' = Some res).
    { intros Hk. exists st. split; [constructor | exact Hk]. }
    destruct g.
    + match type of H with match ?a with _ => _ end = _ => destruct a as [x|] eqn:E end.
      * injection H as ->. apply Hagain. reflexivity.
      * apply Hstop, H.
    + destruct (k st) as [x|] eqn:E.
      * injection H as ->. apply Hstop. reflexivity.
      * apply Hagain, H.
  - cbn [rmatch] in H. apply IH1 in H as (st1 & M1 & H).
    eexists. split; [apply MatchesGroup, M1 | exact H].
  - cbn [rmatch] in H. destruct (cap_get n (caps st)) as [s|] eqn:Ec.
    + destruct (startsWith (after st) s) eqn:E; [|discriminate].
      eexists. split; [apply (MatchesBackref n st s Ec E) | exact H].
    + exists st. split; [apply MatchesBackrefUnset, Ec | exact H].
  - cbn [rmatch] in H. destruct (before st) eqn:E; [|discriminate].
    exists st. split; [apply MatchesBol, E | exact H].
  - cbn [rmatch] in H. destruct (after st) eqn:E; [|discriminate].
    exists st. split; [apply MatchesEol, E | exact H].
  - cbn [rmatch] in H. destruct (rmatch r1 st Some) eqn:E; [discriminate|].
    exists st. split; [apply MatchesNotAhead, E | exact H].
  - cbn [rmatch] in H. exists st. destruct (before st) as [|c ?] eqn:E.
    + split; [apply MatchesNotBehind; rewrite E; exact I | exact H].
    + destruct (p c) eqn:Ep; [discriminate|].
      split; [apply MatchesNotBehind; rewrite E; exact Ep | exact H].
Qed.

(** Whatever the pattern can match, the matcher does not miss: it finds
    this match or one it tries before. *)
Lemma Matches_rmatch r st st' :
  Matches r st st' -> forall k, is_Some (k st') -> is_Some (rmatch r st k).
Proof.
  induction 1 as [st|p c pre suf cs Hp|r1 r2 st st1 st2 _ IH1 _ IH2
                 |r1 r2 st st' _ IH|r1 r2 st st' _ IH
                 |g r st|g r st st1 st2 _ IH1 Hlt _ IH2
                 |n r st st1 _ IH|n st Hc|n st s Hc Hs|st Hb|st Ha|r st Hn|p st Hp];
    intros k Hk.
  - exact Hk.
  - cbn [rmatch after before caps]. rewrite Hp. exact Hk.
  - cbn [rmatch]. apply IH1. apply IH2, Hk.
  - cbn [rmatch]. destruct (IH k Hk) as [x ->]. eauto.
  - cbn [rmatch]. destruct (rmatch r1 st k); [eauto | apply IH, Hk].
  - rewrite rmatch_star_unfold. cbn zeta. destruct Hk as [x Hk]. rewrite Hk.
    destruct g; [|eauto].
    match goal with |- is_Some (match ?a with _ => _ end) => destruct a end; eauto.
  - rewrite rmatch_star_unfold. cbn zeta.
    assert (Hagain : is_Some (rmatch r st (fun s =>
                       if length (after s) <? length (after st)
                       then rmatch (Star g r) s k else None))).
    { apply IH1. apply Nat.ltb_lt in Hlt. rewrite Hlt. apply IH2, Hk. }
    destruct Hagain as [x ->]. destruct g; [eauto|]. destruct (k st); eauto.
  - cbn [rmatch]. apply IH. exact Hk.
  - cbn [rmatch]. rewrite Hc. exact Hk.
  - cbn [rmatch]. rewrite Hc, Hs. exact Hk.
  - cbn [rmatch]. rewrite Hb. exact Hk.
  - cbn [rmatch]. rewrite Ha. exact Hk.
  - cbn [rmatch]. rewrite Hn. exact Hk.
  - cbn [rmatch]. destruct (before st) as [|c ?]; [exact Hk|]. rewrite Hp. exact Hk.
Qed.

(** A pattern anchored at the start is tested at the start only. *)
Lemma test_anchored r s :
  test (Seq Bol r) s = true <-> exists st', Matches r (MState [] s []) st'.
Proof.
  unfold test. rewrite bool_decide_eq_true, exec_bol. unfold match_here. cbn [rmatch before].
  split.
  - intros [m H]. destruct (rmatch r (MState [] s []) Some) as [st'|] eqn:E; [|discriminate].
    apply rmatch_Matches in E as (st'' & M & _). eauto.
  - intros [st' M]. destruct (Matches_rmatch r _ _ M Some ltac:(eauto)) as [x ->]. eauto.
Qed.

Lemma exec_anchored_Some r s m :
  exec (Seq Bol r) s = Some m ->
  exists st', Matches r (MState [] s []) st'
    /\ m = Match 0 (consumed (MState [] s []) st') (caps st').
Proof.
  rewrite exec_bol. unfold match_here. cbn [rmatch before]. intros H.
  destruct (rmatch r (MState [] s []) Some) as [st'|] eqn:E; [|discriminate].
  injection H as <-. apply rmatch_Matches in E as (st'' & M & [= ->]). eauto.
Qed.

Lemma exec_anchored_is_Some r s st' :
  Matches r (MState [] s []) st' -> is_Some (exec (Seq Bol r) s).
Proof.
  intros M. rewrite exec_bol. unfold match_here. cbn [rmatch before].
  destruct (Matches_rmatch r _ _ M Some ltac:(eauto)) as [x ->]. eauto.
Qed.

(** What a match reads. *)
Lemma Matches_reads r st st' :
  Matches r st st' -> exists w, reads st st' w.
Proof.
  induction 1 as [st|p c pre suf cs Hp|r1 r2 st st1 st2 _ [w1 R1] _ [w2 R2]
                 |r1 r2 st st' _ IH|r1 r2 st st' _ IH
                 |g r st|g r st st1 st2 _ [w1 R1] Hlt _ [w2 R2]
                 |n r st st1 _ [w R]|n st Hc|n st s Hc Hs|st Hb|st Ha|r st Hn|p st Hp];
    try (exists []; apply reads_refl); try exact IH.
  - exists [c]. split; reflexivity.
  - exists (w1 ++ w2). eapply reads_trans; eassumption.
  - exists (w1 ++ w2). eapply reads_trans; eassumption.
  - exists w. exact R.
  - exists s. apply startsWith_app in Hs as [rest E]. split; [reflexivity|].
    cbn [after]. rewrite E at 1. rewrite E, drop_app_length. reflexivity.
Qed.

Lemma reads_inj st st' w1 w2 : reads st st' w1 -> reads st st' w2 -> w1 = w2.
Proof.
  intros [B1 _] [B2 _]. rewrite B1 in B2. apply app_inv_tail in B2.
  rewrite <- (rev_involutive w1), B2, rev_involutive. reflexivity.
Qed.

Lemma Matches_readsOnly (P : N -> Prop) r st st' :
  Matches r st st' -> readsOnly P r -> exists w, reads st st' w /\ Forall P w.
Proof.
  induction 1 as [st|p c pre suf cs Hp|r1 r2 st st1 st2 _ IH1 _ IH2
                 |r1 r2 st st' _ IH|r1 r2 st st' _ IH
                 |g r st|g r st st1 st2 _ IH1 Hlt _ IH2
                 |n r st st1 _ IH|n st Hc|n st s Hc Hs|st Hb|st Ha|r st Hn|p st Hp];
    cbn [readsOnly]; intros Hr;
    try (exists []; split; [apply reads_refl | constructor]).
  - exists [c]. split; [split; reflexivity|]. constructor; [apply Hr, Hp | constructor].
  - destruct Hr as [Hr1 Hr2]. destruct (IH1 Hr1) as (w1 & R1 & F1).
    destruct (IH2 Hr2) as (w2 & R2 & F2).
    exists (w1 ++ w2). split; [eapply reads_trans; eassumption | apply Forall_app; auto].
  - apply IH, Hr.
  - apply IH, Hr.
  - destruct (IH1 Hr) as (w1 & R1 & F1). destruct (IH2 Hr) as (w2 & R2 & F2).
    exists (w1 ++ w2). split; [eapply reads_trans; eassumption | apply Forall_app; auto].
  - destruct (IH Hr) as (w & R & F). exists w. split; [exact R | exact F].
  - destruct Hr.
Qed.

Lemma Matches_nogroups r st st' :
  Matches r st st' -> nogroups r = true -> caps st' = caps st.
Proof.
  induction 1 as [st|p c pre suf cs Hp|r1 r2 st st1 st2 _ IH1 _ IH2
                 |r1 r2 st st' _ IH|r1 r2 st st' _ IH
                 |g r st|g r st st1 st2 _ IH1 Hlt _ IH2
                 |n r st st1 _ IH|n st Hc|n st s Hc Hs|st Hb|st Ha|r st Hn|p st Hp];
    cbn [nogroups]; intros Hn'; try reflexivity.
  - apply andb_true_iff in Hn' as [N1 N2]. rewrite (IH2 N2), (IH1 N1). reflexivity.
  - apply andb_true_iff in Hn' as [N1 N2]. apply IH, N1.
  - apply andb_true_iff in Hn' as [N1 N2]. apply IH, N2.
  - rewrite (IH2 Hn'), (IH1 Hn'). reflexivity.
  - discriminate.
Qed.

Lemma Matches_consumes r st st' w :
  Matches r st st' -> reads st st' w -> consumes r = true -> w <> [].
Proof.
  intros M. revert w.
  induction M as [st|p c pre suf cs Hp|r1 r2 st st1 st2 M1 IH1 M2 IH2
                 |r1 r2 st st' _ IH|r1 r2 st st' _ IH
                 |g r st|g r st st1 st2 _ IH1 Hlt _ IH2
                 |n r st st1 _ IH|n st Hc|n st s Hc Hs|st Hb|st Ha|r st Hn|p st Hp];
    cbn [consumes]; intros w R Hc'; try discriminate.
  - destruct R as [B _]. cbn [before] in B. intros ->. cbn in B.
    apply (f_equal length) in B. cbn in B. lia.
  - destruct (Matches_reads _ _ _ M1) as [w1 R1]. destruct (Matches_reads _ _ _ M2) as [w2 R2].
    rewrite (reads_inj _ _ _ _ R (reads_trans _ _ _ _ _ R1 R2)).
    intros E. apply app_eq_nil in E as [-> ->].
    apply orb_true_iff in Hc' as [C|C]; [apply (IH1 [] R1 C) | apply (IH2 [] R2 C)]; reflexivity.
  - apply andb_true_iff in Hc' as [C _]. apply (IH w R C).
  - apply andb_true_iff in Hc' as [_ C]. apply (IH w R C).
  - apply (IH w); [|exact Hc']. destruct R as [B A]. split; [exact B | exact A].
Qed.

(** A pattern without groups: the state after the match is the state
    before it with the cursor moved over what was read. *)
Lemma Matches_plain (P : N -> Prop) r st st' :
  Matches r st st' -> nogroups r = true -> readsOnly P r ->
  exists w, after st = w ++ after st' /\ Forall P w
            /\ st' = MState (rev w ++ before st) (after st') (caps st)
            /\ (consumes r = true -> w <> []).
Proof.
  intros M Hn Hr. destruct (Matches_readsOnly P r st st' M Hr) as (w & R & F).
  exists w. split; [apply R|]. split; [exact F|]. split.
  - destruct st' as [b a cs]. pose proof (Matches_nogroups _ _ _ M Hn) as Hc.
    destruct R as [B A]. cbn [before after caps] in *. subst. reflexivity.
  - apply (Matches_consumes r st st' w M R).
Qed.

Lemma Matches_group (P : N -> Prop) n r st st' :
  Matches (Group n r) st st' -> nogroups r = true -> readsOnly P r ->
  exists w, after st = w ++ after st' /\ Forall P w
            /\ st' = MState (rev w ++ before st) (after st') ((n, w) :: caps st)
            /\ (consumes r = true -> w <> []).
Proof.
  intros M Hn Hr. inversion M as [| | | | | | |n' r' st0 st1 M1| | | | | |]; subst.
  destruct (Matches_plain P r st st1 M1 Hn Hr) as (w & A & F & E & C).
  exists w. cbn [after]. split; [exact A|]. split; [exact F|]. split; [|exact C].
  assert (R : reads st st1 w).
  { rewrite E. split; [reflexivity | exact A]. }
  rewrite (reads_consumed _ _ _ R). rewrite E at 1 3. reflexivity.
Qed.

(** The other way: how a pattern matches a given text. *)
Lemma Matches_chars g p w : forall pre suf cs,
  forallb p w = true ->
  Matches (Star g (Chr p)) (MState pre (w ++ suf) cs) (MState (rev w ++ pre) suf cs).
Proof.
  induction w as [|c w IH]; intros pre suf cs H; [constructor|].
  cbn [forallb] in H. apply andb_true_iff in H as [Hc H].
  eapply MatchesStarStep.
  - apply (MatchesChr p c pre (w ++ suf) cs Hc).
  - cbn [after app length]. lia.
  - cbn [rev]. rewrite <- app_assoc. apply IH, H.
Qed.

Lemma Matches_some_chars g p c w pre suf cs :
  p c = true -> forallb p w = true ->
  Matches (Plus g (Chr p)) (MState pre (c :: w ++ suf) cs)
    (MState (rev (c :: w) ++ pre) suf cs).
Proof.
  intros Hc Hw. unfold Plus. eapply MatchesSeq; [apply MatchesChr, Hc|].
  cbn [rev]. rewrite <- app_assoc. apply Matches_chars, Hw.
Qed.

Lemma Matches_upTo p : forall n w pre suf cs,
  length w <= n -> forallb p w = true ->
  Matches (UpTo n (Chr p)) (MState pre (w ++ suf) cs) (MState (rev w ++ pre) suf cs).
Proof.
  induction n as [|n IH]; intros w pre suf cs Hlen H.
  - destruct w; [constructor | cbn in Hlen; lia].
  - cbn [UpTo]. unfold Opt. destruct w as [|c w].
    + apply MatchesAltR. constructor.
    + cbn [forallb] in H. apply andb_true_iff in H as [Hc H]. cbn [length] in Hlen.
      apply MatchesAltL. eapply MatchesSeq; [apply MatchesChr, Hc|].
      cbn [rev]. rewrite <- app_assoc. apply IH; [lia | exact H].
Qed.

Lemma Matches_lit : forall s pre suf cs,
  s <> [] -> Matches (Lit s) (MState pre (s ++ suf) cs) (MState (rev s ++ pre) suf cs).
Proof.
  induction s as [|c s IH]; intros pre suf cs Hs; [congruence|].
  destruct s as [|d s].
  - cbn [Lit]. apply MatchesChr, N.eqb_refl.
  - change (Lit (c :: d :: s)) with (Seq (Chr (N.eqb c)) (Lit (d :: s))).
    eapply MatchesSeq; [apply MatchesChr, N.eqb_refl|].
    cbn [rev]. rewrite <- !app_assoc. cbn [app].
    specialize (IH (c :: pre) suf cs ltac:(discriminate)). cbn [rev] in IH.
    rewrite <- !app_assoc in IH. exact IH.
Qed.

Lemma readsOnly_lit (P : N -> Prop) s : Forall P s -> readsOnly P (Lit s).
Proof.
  induction s as [|c s IH]; intros H; [exact I|].
  apply Forall_cons in H as [Hc H]. destruct s as [|d s].
  - cbn. intros x Hx. apply N.eqb_eq in Hx. subst x. exact Hc.
  - change (Lit (c :: d :: s)) with (Seq (Chr (N.eqb c)) (Lit (d :: s))).
    split; [|apply IH, H]. intros x Hx. apply N.eqb_eq in Hx. subst x. exact Hc.
Qed.

Lemma Matches_lit_inv s st st' :
  Matches (Lit s) st st' ->
  after st = s ++ after st' /\ st' = MState (rev s ++ before st) (after st') (caps st).
Proof.
  revert st st'. induction s as [|c s IH]; intros st st' M.
  - inversion M; subst. destruct st'; split; reflexivity.
  - destruct s as [|d s].
    + cbn [Lit] in M. inversion M as [|p x pre suf cs Hx| | | | | | | | | | | |]; subst.
      apply N.eqb_eq in Hx. subst x. split; reflexivity.
    + change (Lit (c :: d :: s)) with (Seq (Chr (N.eqb c)) (Lit (d :: s))) in M.
      inversion M as [| |r1 r2 st0 st1 st2 M1 M2| | | | | | | | | | |]; subst.
      inversion M1 as [|p x pre suf cs Hx| | | | | | | | | | | |]; subst.
      apply N.eqb_eq in Hx. subst x.
      apply IH in M2 as [A E]. cbn [after before caps] in *.
      split; [rewrite A; reflexivity|]. rewrite E at 1. cbn [rev].
      rewrite <- !app_assoc. reflexivity.
Qed.

Lemma Matches_seq_inv r1 r2 st st2 :
  Matches (Seq r1 r2) st st2 -> exists st1, Matches r1 st st1 /\ Matches r2 st1 st2.
Proof. intros M. inversion M; subst. eauto. Qed.

Lemma Matches_alt_inv r1 r2 st st' :
  Matches (Alt r1 r2) st st' -> Matches r1 st st' \/ Matches r2 st st'.
Proof. intros M. inversion M; subst; auto. Qed.

Lemma Matches_eps_inv st st' : Matches Eps st st' -> st' = st.
Proof. intros M. inversion M; subst. reflexivity. Qed.

Lemma Matches_eol_inv st st' : Matches Eol st st' -> st' = st /\ after st = [].
Proof. intros M. inversion M; subst. auto. Qed.

Lemma Matches_bol_inv st st' : Matches Bol st st' -> st' = st /\ before st = [].
Proof. intros M. inversion M; subst. auto. Qed.

Lemma Matches_chr_inv p st st' :
  Matches (Chr p) st st' ->
  exists c suf, after st = c :: suf /\ p c = true
                /\ st' = MState (c :: before st) suf (caps st).
Proof. intros M. inversion M; subst. cbn. eauto. Qed.

Lemma Matches_end_inv st st' : Matches (Seq Eol Eps) st st' -> st' = st /\ after st = [].
Proof.
  intros M. apply Matches_seq_inv in M as (st1 & M1 & M2).
  apply Matches_eol_inv in M1 as [-> H]. apply Matches_eps_inv in M2 as ->. auto.
Qed.

(** A run of code units of one class ends where the first other unit
    stands. *)
Lemma run_unique (P : N -> Prop) a x r a' x' r' :
  a ++ x :: r = a' ++ x' :: r' ->
  Forall P a -> ~ P x -> Forall P a' -> ~ P x' ->
  a = a' /\ x = x' /\ r = r'.
Proof.
  revert a'. induction a as [|y a IH]; intros a' E Ha Hx Ha' Hx'.
  - destruct a' as [|y' a']; cbn [app] in E.
    + injection E as -> ->. auto.
    + injection E as -> _. apply Forall_cons in Ha' as [Hy _]. contradiction.
  - apply Forall_cons in Ha as [Hy Ha]. destruct a' as [|y' a']; cbn [app] in E.
    + injection E as -> _. contradiction.
    + injection E as -> E. apply Forall_cons in Ha' as [_ Ha'].
      destruct (IH a' E Ha Hx Ha' Hx') as (-> & -> & ->). auto.
Qed.

Lemma forallb_Forall_true (p : N -> bool) w :
  forallb p w = true <-> Forall (fun c => p c = true) w.
Proof. rewrite forallb_forall, Forall_forall. split; intros H x Hx; apply H;
  [apply list_elem_of_In | apply list_elem_of_In]; exact Hx. Qed.

Lemma repeat_Forall c n : Forall (fun x => x = c) (JS.repeat c n).
Proof. unfold JS.repeat. apply Forall_replicate. reflexivity. Qed.

(** The heading pattern on a line of hashes, one space and a text. *)
Lemma exec_heading n c t :
  1 <= n <= 6 -> is_space c = false -> forallb dot (c :: t) = true ->
  exists m, exec re_heading (JS.repeat 35 n ++ js " " ++ c :: t) = Some m
    /\ group 1 m = Some (JS.repeat 35 n) /\ group 2 m = Some (c :: t).
Proof.
  intros Hn Hc Ht. set (line := JS.repeat 35 n ++ js " " ++ c :: t).
  unfold re_heading. cbn [seqs fold_right].
  match goal with |- context [exec (Seq Bol ?r)] => set (R := r) end.
  assert (Hex : is_Some (exec (Seq Bol R) line)).
  { destruct n as [|n]; [lia|].
    cbn [forallb] in Ht. apply andb_true_iff in Ht as [Hd Ht].
    replace line with (35%N :: replicate n 35%N ++ (32%N :: [] ++ c :: t ++ []))
      by (unfold line, JS.repeat; rewrite app_nil_r; reflexivity).
    eapply exec_anchored_is_Some. unfold R.
    eapply MatchesSeq.
    { apply MatchesGroup. eapply MatchesSeq.
      - apply MatchesChr. reflexivity.
      - apply (Matches_upTo (N.eqb 35) 5 (replicate n 35%N)).
        + rewrite length_replicate. lia.
        + apply forallb_Forall_true, Forall_replicate. reflexivity. }
    cbn [before after caps].
    eapply MatchesSeq.
    { apply (Matches_some_chars true is_space 32%N []); reflexivity. }
    eapply MatchesSeq.
    { apply MatchesGroup. apply (Matches_some_chars true dot c t); assumption. }
    eapply MatchesSeq; [apply MatchesEol; reflexivity | apply MatchesEps]. }
  destruct Hex as [m Hm]. exists m. split; [exact Hm|].
  apply exec_anchored_Some in Hm as (st' & M & ->). unfold R in M.
  apply Matches_seq_inv in M as (st1 & M1 & M).
  apply Matches_seq_inv in M as (st2 & M3 & M).
  apply Matches_seq_inv in M as (st3 & M5 & M).
  apply Matches_end_inv in M as [-> Hend].
  apply (Matches_group (fun x => x = 35%N)) in M1 as (w1 & A1 & F1 & E1 & C1);
    [|reflexivity|cbn -[N.eqb]; repeat split; intros x Hx; apply N.eqb_eq in Hx; congruence].
  apply (Matches_plain (fun x => is_space x = true)) in M3 as (w2 & A2 & F2 & E2 & C2);
    [|reflexivity|cbn -[is_space dot]; repeat split; intros x Hx; exact Hx].
  apply (Matches_group (fun x => dot x = true)) in M5 as (w3 & A3 & F3 & E3 & C3);
    [|reflexivity|cbn -[is_space dot]; repeat split; intros x Hx; exact Hx].
  assert (K1 : caps st1 = [(1, w1)]) by (rewrite E1; reflexivity).
  assert (K2 : caps st2 = caps st1) by (rewrite E2; reflexivity).
  assert (K3 : caps st3 = (2, w3) :: caps st2) by (rewrite E3; reflexivity).
  rewrite Hend, app_nil_r in A3. rewrite A3 in A2. rewrite A2 in A1. cbn [after] in A1.
  clear E1 E2 E3 A2 A3.
  specialize (C2 eq_refl). destruct w2 as [|s w2]; [congruence|].
  apply Forall_cons in F2 as [Hs F2].
  assert (H35 : forall x, is_space x = true -> x <> 35%N) by (intros x Hx ->; discriminate Hx).
  destruct (run_unique (fun x => x = 35%N) (JS.repeat 35 n) 32%N (c :: t) w1 s (w2 ++ w3))
    as (E & Es & Erest); [exact A1 | apply repeat_Forall | discriminate | exact F1
                         | apply H35, Hs |].
  destruct w2 as [|s2 w2]; cbn [app] in Erest.
  - unfold group. cbn [groups]. rewrite K3, K2, K1, <- Erest, <- E. split; reflexivity.
  - injection Erest as Ec _. apply Forall_cons in F2 as [Hs2 _]. congruence.
Qed.

Section RuleFacts.

Variable URL : jsstring -> option URLRecord.

Lemma blockRules_heading lines i n c t :
  lines !! i = Some (JS.repeat 35 n ++ js " " ++ c :: t) ->
  1 <= n <= 6 -> is_space c = false -> forallb dot (c :: t) = true ->
  exists richText,
    parseInlineMarkdown URL (c :: t) = Some richText
    /\ blockRules URL lines i = Some ([Heading (Nat.min n 3) richText], S i).
Proof.
  intros Hline Hn Hc Ht.
  destruct (exec_heading n c t Hn Hc Ht) as (m & Hm & G1 & G2).
  destruct (parseInlineMarkdown_total URL (c :: t)) as [richText Hrt].
  exists richText. split; [exact Hrt|].
  unfold blockRules. rewrite Hline. cbn [mbind option_bind]. rewrite Hm, G1, G2.
  cbn [default id]. unfold createHeadingBlock. rewrite Hrt. cbn [fmap option_fmap option_map mbind option_bind].
  unfold JS.repeat. rewrite length_replicate.
  replace (Nat.min (Nat.max n 1) 3) with (Nat.min n 3) by lia. reflexivity.
Qed.

End RuleFacts.

(** X8: a line of one to six hashes, white space and a text becomes one
    heading block and moves the cursor by one line; the level of the
    block is the number of hashes up to three, so that the headings of
    levels four, five and six all become headings of level three. *)
Theorem X8_heading_levels_are_capped
    (URL : jsstring -> option URLRecord) (lines : list jsstring) (i n : nat)
    (c : N) (t : jsstring) :
  lines !! i = Some (JS.repeat 35 n ++ js " " ++ c :: t) ->
  1 <= n <= 6 -> is_space c = false -> forallb dot (c :: t) = true ->
  exists richText,
    parseInlineMarkdown URL (c :: t) = Some richText
    /\ blockRules URL lines i = Some ([Heading (Nat.min n 3) richText], S i).
Proof. apply blockRules_heading. Qed.

Lemma X8_heading_levels_are_capped_witness :
  exists richText,
    parseInlineMarkdown toyURL (js "Deep") = Some richText
    /\ blockRules toyURL [js "##### Deep"] 0 = Some ([Heading 3 richText], 1).
Proof.
  apply (X8_heading_levels_are_capped toyURL [js "##### Deep"] 0 5 68%N (js "eep"));
    [reflexivity | lia | reflexivity | reflexivity].
Defined.

Section TableFacts.

Variable URL : jsstring -> option URLRecord.

Lemma cellRichText_total cell :
  exists richText, cellRichText URL cell = Some richText /\ richText <> [].
Proof.
  unfold cellRichText. destruct (parseInlineMarkdown_total URL cell) as [rt ->].
  cbn [mbind option_bind]. destruct rt; eexists; (split; [reflexivity|]); discriminate.
Qed.

Lemma cellRichText_row row :
  exists cells, mapM (cellRichText URL) row = Some cells
                /\ length cells = length row /\ Forall (fun cell => cell <> []) cells.
Proof.
  induction row as [|cell row (cells & E & L & F)].
  - exists []. repeat split; constructor.
  - destruct (cellRichText_total cell) as (rt & Ert & Hrt).
    exists (rt :: cells). cbn [mapM]. rewrite Ert, E. cbn. rewrite L.
    repeat split. constructor; assumption.
Qed.

Lemma normalizeRow_length width row : length (normalizeRow width row) = width.
Proof.
  unfold normalizeRow. rewrite length_take, length_app, length_replicate. lia.
Qed.

Lemma createTableBlock_shape headers rows :
  exists children,
    createTableBlock URL headers rows = Some (Table (length headers) children)
    /\ length children = S (length rows)
    /\ Forall (fun row => length row = length headers
                          /\ Forall (fun cell => cell <> []) row) children.
Proof.
  unfold createTableBlock.
  destruct (cellRichText_row headers) as (headerRow & -> & Lh & Fh).
  cbn [mbind option_bind].
  assert (Hrows : exists dataRows,
    mapM (mapM (cellRichText URL)) (map (normalizeRow (length headers)) rows) = Some dataRows
    /\ length dataRows = length rows
    /\ Forall (fun row => length row = length headers
                          /\ Forall (fun cell => cell <> []) row) dataRows).
  { induction rows as [|row rows (dataRows & E & L & F)].
    - exists []. repeat split; constructor.
    - destruct (cellRichText_row (normalizeRow (length headers) row)) as (cells & Ec & Lc & Fc).
      exists (cells :: dataRows). cbn [map mapM]. rewrite Ec, E. cbn. rewrite L.
      repeat split. constructor; [|exact F].
      rewrite Lc, normalizeRow_length. auto. }
  destruct Hrows as (dataRows & -> & Ld & Fd). cbn [mbind option_bind].
  exists (headerRow :: dataRows). split; [reflexivity|]. split; [cbn; lia|].
  constructor; [auto | exact Fd].
Qed.

End TableFacts.

(** X9: every table block is rectangular: its width is the number of
    header cells, it has one row for the headers and one for each data
    row, every row has exactly that many cells, and no cell is an empty
    list of runs. Rows that are too short are padded, rows that are too
    long are cut. *)
Theorem X9_table_block_is_rectangular
    (URL : jsstring -> option URLRecord) (headers : list jsstring)
    (rows : list (list jsstring)) :
  exists children,
    createTableBlock URL headers rows = Some (Table (length headers) children)
    /\ length children = S (length rows)
    /\ Forall (fun row => length row = length headers
                          /\ Forall (fun cell => cell <> []) row) children.
Proof. apply createTableBlock_shape. Qed.

(** *** The text of a table cell *)

Lemma collapseRuns_spaces p s : forall inRun,
  (forall c, is_space c = true -> c <> 32%N -> p c = true) ->
  Forall (fun c => is_space c = true -> c = 32%N) s ->
  Forall (fun c => is_space c = true -> c = 32%N) (collapseRuns p inRun s).
Proof.
  induction s as [|c s IH]; intros inRun Hp Hs; [constructor|].
  apply Forall_cons in Hs as [Hc Hs]. cbn [collapseRuns].
  destruct (p c); [destruct inRun|]; repeat constructor; auto.
Qed.

Lemma collapseRuns_class p s : forall inRun,
  Forall (fun c => p c = true -> c = 32%N) (collapseRuns p inRun s).
Proof.
  induction s as [|c s IH]; intros inRun; [constructor|].
  cbn [collapseRuns]. destruct (p c) eqn:E; [destruct inRun|]; repeat constructor; auto.
  congruence.
Qed.

Lemma escapePipes_spaces s :
  Forall (fun c => is_space c = true -> c = 32%N) s ->
  Forall (fun c => is_space c = true -> c = 32%N) (escapePipes s).
Proof.
  induction 1 as [|c s Hc _ IH]; [constructor|].
  unfold escapePipes. cbn [flat_map]. destruct (c =? 124)%N.
  - cbn [app]. constructor; [discriminate|]. constructor; [discriminate|]. exact IH.
  - cbn [app]. constructor; assumption.
Qed.

Lemma escapePipes_escaped s i :
  escapePipes s !! i = Some 124%N ->
  exists j, i = S j /\ escapePipes s !! j = Some 92%N.
Proof.
  revert i. induction s as [|c s IH]; intros i H; [destruct i; discriminate|].
  unfold escapePipes in *. cbn [flat_map] in *. destruct (c =? 124)%N eqn:E; cbn [app] in *.
  - destruct i as [|[|k]].
    + discriminate.
    + exists 0. auto.
    + destruct (IH k H) as (j & -> & Hj). exists (S (S j)). auto.
  - destruct i as [|k].
    + injection H as ->. discriminate.
    + destruct (IH k H) as (j & -> & Hj). exists (S j). auto.
Qed.

Lemma cellText_facts cell :
  cellText cell <> []
  /\ Forall (fun c => is_space c = true -> c = 32%N) (cellText cell)
  /\ (forall i, cellText cell !! i = Some 124%N ->
        exists j, i = S j /\ cellText cell !! j = Some 92%N).
Proof.
  unfold cellText.
  set (t := collapseRuns is_space false (collapseRuns (N.eqb 10) false (trim (textContent cell)))).
  assert (Ht : Forall (fun c => is_space c = true -> c = 32%N) (escapePipes t)).
  { apply escapePipes_spaces. apply collapseRuns_class. }
  pose proof (escapePipes_escaped t) as He.
  destruct (escapePipes t) as [|c e].
  - split; [discriminate|]. split; [repeat constructor|].
    intros [|[|i]] H; discriminate.
  - split; [discriminate|]. split; [exact Ht | exact He].
Qed.

(** X10: the text of a table cell is never empty, its only white space
    is the plain space (so a row stays on one line), and every pipe in
    it follows a backslash. *)
Theorem X10_cell_text_stays_on_one_line (cell : TableCell) :
  cellText cell <> []
  /\ Forall (fun c => is_space c = true -> c = 32%N) (cellText cell)
  /\ (forall i, cellText cell !! i = Some 124%N ->
        exists j, i = S j /\ cellText cell !! j = Some 92%N).
Proof. apply cellText_facts. Qed.

(** *** The popup and the worker on page ids *)

Lemma removeDashes_idem s : removeDashes (removeDashes s) = removeDashes s.
Proof.
  unfold removeDashes. induction s as [|c s IH]; [reflexivity|].
  rewrite filter_cons. destruct (decide (c <> 45%N)) as [H|H]; [|exact IH].
  rewrite filter_cons. destruct (decide (c <> 45%N)); [|contradiction].
  rewrite IH. reflexivity.
Qed.

Lemma formatNotionId_removeDashes s :
  length (removeDashes s) = 32 -> formatNotionId (removeDashes s) = formatNotionId s.
Proof.
  intros H. unfold formatNotionId. rewrite removeDashes_idem, H. reflexivity.
Qed.

Lemma removeDashes_Forall (P : N -> Prop) s :
  P 45%N -> Forall P (removeDashes s) -> Forall P s.
Proof.
  intros H45. unfold removeDashes. induction s as [|c s IH]; [constructor|].
  rewrite filter_cons. destruct (decide (c <> 45%N)) as [H|H].
  - intros F. apply Forall_cons in F as [Hc F]. constructor; auto.
  - apply dec_stable in H. subst c. intros F. constructor; auto.
Qed.

Lemma hex_not_space x : hex_i x = true -> is_space x = false.
Proof.
  unfold hex_i, is_space, is_digit. intros H.
  assert (Hx : (48 <= x <= 102)%N).
  { repeat (apply orb_true_iff in H as [H|H]); apply andb_true_iff in H as [H1 H2];
      apply N.leb_le in H1, H2; lia. }
  repeat (apply orb_false_iff; split);
    try (apply N.eqb_neq; lia); apply andb_false_iff;
    [right | left]; apply N.leb_gt; lia.
Qed.

Lemma solid_of_no_space s : Forall (fun c => is_space c = false) s -> solid s.
Proof.
  intros F. unfold solid. destruct s as [|c t] eqn:E; [exact I|]. rewrite <- E.
  split; [apply Forall_cons in F as [Hc _]; exact Hc|].
  destruct (exists_last (l := s)) as (t' & d & E'); [rewrite E; discriminate|].
  exists t', d. split; [exact E'|]. rewrite <- E, E' in F.
  apply Forall_app in F as [_ F]. apply Forall_cons in F as [Hd _]. exact Hd.
Qed.

Lemma isValidNotionPageId_solid pageId :
  isValidNotionPageId pageId = true ->
  isHex32 (removeDashes pageId) = true /\ trim pageId = pageId.
Proof.
  unfold isValidNotionPageId. destruct pageId as [|c t] eqn:E; [discriminate|].
  rewrite <- E. rewrite test_bare_id. intros H. split; [exact H|].
  apply trim_of_solid, solid_of_no_space. apply isHex32_spec in H as [_ H].
  apply (removeDashes_Forall (fun c => is_space c = false)); [reflexivity|].
  eapply Forall_impl; [exact H|]. apply hex_not_space.
Qed.

Section PopupFacts.

Variable URL : jsstring -> option URLRecord.
Variable pageIdParam : jsstring -> option jsstring.

Lemma popup_id_accepted pageId :
  isValidNotionPageId pageId = true ->
  extractAndValidatePageId URL pageId = inr (formatNotionId pageId)
  /\ isHyphenatedUUID (formatNotionId pageId) = true.
Proof.
  intros H. apply isValidNotionPageId_solid in H as [Hh Ht].
  pose proof (extractAndValidatePageId_bare URL pageId) as Hb. rewrite Ht in Hb.
  specialize (Hb Hh).
  assert (Hf : formatNotionId (removeDashes pageId) = formatNotionId pageId).
  { apply formatNotionId_removeDashes. apply isHex32_spec in Hh. apply Hh. }
  rewrite Hf in Hb. split; [exact Hb|].
  apply (extractAndValidatePageId_shape URL pageId), Hb.
Qed.

Lemma popup_agrees input id :
  extractAndValidatePageId URL input = inr id ->
  extractNotionPageId URL pageIdParam input = Some id.
Proof.
  unfold extractAndValidatePageId, extractNotionPageId.
  destruct (blank input); [discriminate|].
  destruct (startsWith (trim input) (js "http://") || startsWith (trim input) (js "https://")).
  - destruct (URL (trim input)) as [u|]; [|discriminate].
    destruct (exec re_dash_id (pathname u)) as [m|].
    + intros [= <-]. reflexivity.
    + destruct (exec re_tail_id (pathname u)) as [m|]; [|discriminate].
      intros [= <-]. reflexivity.
  - destruct (test re_bare_id (removeDashes (trim input))); [|discriminate].
    intros [= <-]. reflexivity.
Qed.

End PopupFacts.

(** X11: a page id that passes the popup's check [isValidNotionPageId]
    is accepted by the worker, whatever the URL parser does: the worker
    answers with the id in the form 8-4-4-4-12. *)
Theorem X11_popup_checked_id_is_accepted
    (URL : jsstring -> option URLRecord) (pageId : jsstring) :
  isValidNotionPageId pageId = true ->
  extractAndValidatePageId URL pageId = inr (formatNotionId pageId)
  /\ isHyphenatedUUID (formatNotionId pageId) = true.
Proof. apply popup_id_accepted. Qed.

Lemma X11_popup_checked_id_is_accepted_witness :
  extractAndValidatePageId toyURL example_id = inr (formatNotionId example_id)
  /\ isHyphenatedUUID (formatNotionId example_id) = true.
Proof. apply (X11_popup_checked_id_is_accepted toyURL example_id). reflexivity. Defined.

(** X12: the popup never refuses what the worker accepts: on an input
    for which the worker's [extractAndValidatePageId] returns an id, the
    popup's [extractNotionPageId] returns the same id. *)
Theorem X12_popup_agrees_with_worker
    (URL : jsstring -> option URLRecord) (pageIdParam : jsstring -> option jsstring)
    (input id : jsstring) :
  extractAndValidatePageId URL input = inr id ->
  extractNotionPageId URL pageIdParam input = Some id.
Proof. apply popup_agrees. Qed.

Lemma X12_popup_agrees_with_worker_witness :
  extractNotionPageId simpleURL (fun _ => None) example_url = Some example_id.
Proof.
  apply (X12_popup_agrees_with_worker simpleURL (fun _ => None) example_url example_id).
  vm_compute. reflexivity.
Defined.

(** *** The matcher on runs of one class *)

Lemma rmatch_chr_cons p pre c suf cs k :
  rmatch (Chr p) (MState pre (c :: suf) cs) k
    = if p c then k (MState (c :: pre) suf cs) else None.
Proof. reflexivity. Qed.

Lemma rmatch_chr_nil p pre cs k : rmatch (Chr p) (MState pre [] cs) k = None.
Proof. reflexivity. Qed.

Lemma rmatch_seq r1 r2 st k :
  rmatch (Seq r1 r2) st k = rmatch r1 st (fun st1 => rmatch r2 st1 k).
Proof. reflexivity. Qed.

Lemma rmatch_group n r st k :
  rmatch (Group n r) st k =
    rmatch r st (fun st1 =>
      k (MState (before st1) (after st1) ((n, consumed st st1) :: caps st1))).
Proof. reflexivity. Qed.

(** A greedy run takes all of a stretch that ends where the class ends,
    when the rest of the pattern matches there. *)
Lemma rmatch_star_greedy p w : forall pre rest cs k,
  forallb p w = true ->
  match rest with c :: _ => p c = false | [] => True end ->
  is_Some (k (MState (rev w ++ pre) rest cs)) ->
  rmatch (Star true (Chr p)) (MState pre (w ++ rest) cs) k
    = k (MState (rev w ++ pre) rest cs).
Proof.
  induction w as [|c w IH]; intros pre rest cs k Hw Hrest Hk.
  - rewrite rmatch_star_unfold. cbn zeta. cbn [app rev].
    destruct rest as [|d rest].
    + rewrite rmatch_chr_nil. reflexivity.
    + rewrite rmatch_chr_cons, Hrest. reflexivity.
  - cbn [forallb] in Hw. apply andb_true_iff in Hw as [Hc Hw].
    rewrite rmatch_star_unfold. cbn zeta. cbn [app].
    rewrite rmatch_chr_cons, Hc. cbn [after].
    assert (Hlt : (length (w ++ rest) <? length (c :: w ++ rest)) = true)
      by (apply Nat.ltb_lt; cbn [length]; lia).
    rewrite Hlt. cbn [rev] in *. rewrite <- app_assoc in *. cbn [app] in *.
    rewrite (IH (c :: pre) rest cs k Hw Hrest Hk).
    destruct Hk as [x ->]. reflexivity.
Qed.

(** The end of the patterns for one line: white space, then the text
    up to the end of the line, captured. *)
Lemma rmatch_spaces_text g ws c t pre cs :
  forallb is_space ws = true -> is_space c = false -> forallb dot (c :: t) = true ->
  rmatch (seqs [re_spaces0; Group g (Plus true (Chr dot)); Eol])
    (MState pre (ws ++ c :: t) cs) Some
  = Some (MState (rev (c :: t) ++ rev ws ++ pre) [] ((g, c :: t) :: cs)).
Proof.
  intros Hws Hc Ht. cbn [forallb] in Ht. apply andb_true_iff in Ht as [Hd Ht].
  cbn [seqs fold_right]. rewrite rmatch_seq. unfold re_spaces0.
  assert (Hk : rmatch (Seq (Group g (Plus true (Chr dot))) (Seq Eol Eps))
                 (MState (rev ws ++ pre) (c :: t) cs) Some
               = Some (MState (rev (c :: t) ++ rev ws ++ pre) [] ((g, c :: t) :: cs))).
  { unfold Plus. rewrite rmatch_seq, rmatch_group, rmatch_seq, rmatch_chr_cons, Hd.
    match goal with |- rmatch _ _ ?k = _ => set (K := k) end.
    pose proof (rmatch_star_greedy dot t (c :: rev ws ++ pre) [] cs K Ht I) as Hg.
    rewrite app_nil_r in Hg.
    rewrite Hg by (unfold K; cbn [rmatch after before caps]; eauto).
    unfold K. cbn [rmatch after before caps]. f_equal. f_equal.
    - cbn [rev]. rewrite <- app_assoc. reflexivity.
    - f_equal. f_equal. unfold consumed. cbn [before].
      replace (rev t ++ c :: rev ws ++ pre) with (rev (c :: t) ++ (rev ws ++ pre))
        by (cbn [rev]; rewrite <- app_assoc; reflexivity).
      rewrite length_app. replace (length (rev (c :: t)) + length (rev ws ++ pre) - length (rev ws ++ pre))
        with (length (rev (c :: t))) by lia.
      rewrite take_app_length. apply rev_involutive. }
  rewrite (rmatch_star_greedy is_space ws pre (c :: t) cs _ Hws Hc); rewrite Hk; eauto.
Qed.

Lemma rmatch_alt r1 r2 st k :
  rmatch (Alt r1 r2) st k =
    match rmatch r1 st k with Some x => Some x | None => rmatch r2 st k end.
Proof. reflexivity. Qed.

Lemma rmatch_bol r suf cs k :
  rmatch (Seq Bol r) (MState [] suf cs) k = rmatch r (MState [] suf cs) k.
Proof. reflexivity. Qed.

(** *** The callout pattern *)

Lemma rmatch_emoji_bmp e pre rest cs k :
  between 9728 9983 e || between 9984 10175 e = true ->
  rmatch re_emoji (MState pre (e :: rest) cs) k = k (MState (e :: pre) rest cs).
Proof.
  intros He. unfold re_emoji. rewrite !rmatch_alt, !rmatch_seq, !rmatch_chr_cons.
  assert (Hr : (9728 <= e <= 10175)%N).
  { unfold between in He. apply orb_true_iff in He as [He|He];
      apply andb_true_iff in He as [H1 H2]; apply N.leb_le in H1, H2; lia. }
  replace (55356 =? e)%N with false by (symmetry; apply N.eqb_neq; lia).
  replace (55357 =? e)%N with false by (symmetry; apply N.eqb_neq; lia).
  replace (55358 =? e)%N with false by (symmetry; apply N.eqb_neq; lia).
  destruct (between 9728 9983 e), (between 9984 10175 e); try discriminate He;
    destruct (k _); reflexivity.
Qed.

Lemma rmatch_emoji_pair lo pre rest cs k :
  between 56320 57343 lo = true ->
  is_Some (k (MState (lo :: 55357%N :: pre) rest cs)) ->
  rmatch re_emoji (MState pre (55357%N :: lo :: rest) cs) k
    = k (MState (lo :: 55357%N :: pre) rest cs).
Proof.
  intros Hlo [x Hk]. unfold re_emoji. rewrite !rmatch_alt, !rmatch_seq, !rmatch_chr_cons.
  change (55356 =? 55357)%N with false. change (55357 =? 55357)%N with true.
  cbv beta iota. rewrite Hlo, Hk. reflexivity.
Qed.

Lemma rmatch_emoji_none e pre rest cs k :
  (e <? 9728)%N = true ->
  rmatch re_emoji (MState pre (e :: rest) cs) k = None.
Proof.
  intros He. apply N.ltb_lt in He.
  unfold re_emoji. rewrite !rmatch_alt, !rmatch_seq, !rmatch_chr_cons.
  replace (55356 =? e)%N with false by (symmetry; apply N.eqb_neq; lia).
  replace (55357 =? e)%N with false by (symmetry; apply N.eqb_neq; lia).
  replace (55358 =? e)%N with false by (symmetry; apply N.eqb_neq; lia).
  unfold between.
  replace (9728 <=? e)%N with false by (symmetry; apply N.leb_gt; lia).
  replace (9984 <=? e)%N with false by (symmetry; apply N.leb_gt; lia).
  reflexivity.
Qed.

Lemma re_callout_eq :
  re_callout = Seq Bol (Seq (Group 1 re_emoji)
                 (seqs [re_spaces0; Group 2 (Plus true (Chr dot)); Eol])).
Proof. reflexivity. Qed.

Lemma exec_callout_bmp e ws c t :
  between 9728 9983 e || between 9984 10175 e = true ->
  forallb is_space ws = true -> is_space c = false -> forallb dot (c :: t) = true ->
  exec re_callout (e :: ws ++ c :: t)
    = Some (Match 0 (e :: ws ++ c :: t) [(2, c :: t); (1, [e])]).
Proof.
  intros He Hws Hc Ht. rewrite re_callout_eq, exec_bol. unfold match_here.
  rewrite rmatch_bol, rmatch_seq, rmatch_group, rmatch_emoji_bmp by exact He.
  cbn [before after caps].
  change (consumed _ (MState [e] _ [])) with [e].
  rewrite rmatch_spaces_text by assumption.
  cbn [fmap option_fmap option_map]. f_equal. f_equal.
  replace (rev (c :: t) ++ rev ws ++ [e]) with (rev (e :: ws ++ c :: t) ++ []).
  - apply consumed_app.
  - rewrite app_nil_r. cbn [rev]. rewrite rev_app_distr. cbn [rev].
    rewrite <- !app_assoc. reflexivity.
Qed.

Lemma exec_callout_pair lo ws c t :
  between 56320 57343 lo = true ->
  forallb is_space ws = true -> is_space c = false -> forallb dot (c :: t) = true ->
  exec re_callout (55357%N :: lo :: ws ++ c :: t)
    = Some (Match 0 (55357%N :: lo :: ws ++ c :: t) [(2, c :: t); (1, [55357%N; lo])]).
Proof.
  intros Hlo Hws Hc Ht. rewrite re_callout_eq, exec_bol. unfold match_here.
  rewrite rmatch_bol, rmatch_seq, rmatch_group.
  rewrite rmatch_emoji_pair; [|exact Hlo|]; cbn [before after caps];
    change (consumed _ (MState [lo; 55357%N] _ [])) with [55357%N; lo];
    rewrite rmatch_spaces_text by assumption; [|eauto].
  cbn [fmap option_fmap option_map]. f_equal. f_equal.
  replace (rev (c :: t) ++ rev ws ++ [lo; 55357%N])
    with (rev (55357%N :: lo :: ws ++ c :: t) ++ []).
  - apply consumed_app.
  - rewrite app_nil_r. cbn [rev]. rewrite rev_app_distr. cbn [rev].
    rewrite <- !app_assoc. reflexivity.
Qed.

Lemma exec_callout_none e s : (e <? 9728)%N = true -> exec re_callout (e :: s) = None.
Proof.
  intros He. rewrite re_callout_eq, exec_bol. unfold match_here.
  rewrite rmatch_bol, rmatch_seq, rmatch_group, rmatch_emoji_none by exact He.
  reflexivity.
Qed.

(** *** Lines that open with a given code unit *)

Lemma includes_unit x s : Forall (fun c => c <> x) s -> includes s [x] = false.
Proof.
  induction 1 as [|c s Hc _ IH]; [reflexivity|].
  cbn [includes startsWith]. apply N.eqb_neq in Hc.
  rewrite N.eqb_sym in Hc. rewrite Hc. cbn [andb orb]. exact IH.
Qed.

Lemma blank_solid c s : is_space c = false -> blank (c :: s) = false.
Proof.
  intros Hc. destruct (blank (c :: s)) eqn:E; [|reflexivity].
  apply blank_spaces in E. cbn [forallb] in E. rewrite Hc in E. discriminate E.
Qed.

Lemma re_heading_eq :
  re_heading = Seq Bol (Seq (Group 1 (Seq (Chr (N.eqb 35)) (UpTo 5 (Chr (N.eqb 35)))))
                 (seqs [re_spaces1; Group 2 (Plus true (Chr dot)); Eol])).
Proof. reflexivity. Qed.

Lemma exec_heading_none c s : (35 =? c)%N = false -> exec re_heading (c :: s) = None.
Proof.
  intros Hc. rewrite re_heading_eq, exec_bol. unfold match_here.
  rewrite rmatch_bol, rmatch_seq, rmatch_group, rmatch_seq, rmatch_chr_cons, Hc. reflexivity.
Qed.

Lemma re_rule_eq :
  re_rule =
    Seq Bol (Seq (Group 1
      (Alt (Seq (Seq (Chr (N.eqb 45)) (Rep 2 (Chr (N.eqb 45)))) (Star true (Chr (N.eqb 45))))
      (Alt (Seq (Seq (Chr (N.eqb 95)) (Rep 2 (Chr (N.eqb 95)))) (Star true (Chr (N.eqb 95))))
           (Seq (Seq (Chr (N.eqb 42)) (Rep 2 (Chr (N.eqb 42)))) (Star true (Chr (N.eqb 42)))))))
      (Seq Eol Eps)).
Proof. reflexivity. Qed.

Lemma test_rule_false c s :
  (45 =? c)%N = false -> (95 =? c)%N = false -> (42 =? c)%N = false ->
  test re_rule (c :: s) = false.
Proof.
  intros H1 H2 H3. unfold test. rewrite re_rule_eq, exec_bol. unfold match_here.
  rewrite rmatch_bol, rmatch_seq, rmatch_group, !rmatch_alt, !rmatch_seq, !rmatch_chr_cons.
  rewrite H1, H2, H3. reflexivity.
Qed.

Lemma split_framed line :
  Forall (fun c => c <> 10%N) line ->
  split 10 ([10%N] ++ line ++ [10; 10]%N) = [[]; line; []; []].
Proof.
  intros H. change ([10%N] ++ line ++ [10; 10]%N) with ([] ++ 10%N :: (line ++ 10%N :: ([] ++ 10%N :: []))).
  rewrite !split_app, (split_one 10 line H). reflexivity.
Qed.

Section QuoteFacts.

Variable URL : jsstring -> option URLRecord.

(** The block of a quote. *)
Lemma quoteRule_single q i before rest :
  length before = i ->
  match rest with l :: _ => startsWith l (js "> ") = false | [] => True end ->
  trim q = q ->
  quoteRule URL (before ++ (js "> " ++ q) :: rest) i =
    block ← match exec re_callout q with
            | Some m =>
                createCalloutBlock URL (default [] (group 2 m)) (default [] (group 1 m))
                  (default (js "info") (ownProperty calloutTypes (default [] (group 1 m))))
            | None => createQuoteBlock URL q
            end;
    Some ([block], S i).
Proof.
  intros Hi Hrest Hq. unfold quoteRule, parseBlockquote.
  rewrite <- Hi, drop_app_length.
  assert (Hc : collectQuoteLines ((js "> " ++ q) :: rest) = [q]).
  { cbn [collectQuoteLines].
    replace (startsWith (js "> " ++ q) (js "> ")) with true
      by (symmetry; apply startsWith_app; eauto).
    cbv iota. change (drop 2 (js "> " ++ q)) with q.
    destruct rest as [|l rest]; [reflexivity|]. cbn [collectQuoteLines]. rewrite Hrest. reflexivity. }
  rewrite Hc. cbn [join length]. rewrite Hq. rewrite Nat.add_1_r.
  destruct (exec re_callout q); reflexivity.
Qed.

Lemma blockRules_quote q i before rest :
  length before = i ->
  Forall (fun c => c <> 124%N) q ->
  blockRules URL (before ++ (js "> " ++ q) :: rest) i =
    quoteRule URL (before ++ (js "> " ++ q) :: rest) i.
Proof.
  intros Hi Hq. unfold blockRules.
  rewrite (list_lookup_middle before rest (js "> " ++ q) i (eq_sym Hi)). cbn [mbind option_bind].
  change (js "> " ++ q) with (62%N :: 32%N :: q).
  rewrite exec_heading_none by reflexivity.
  rewrite test_rule_false by reflexivity.
  unfold tableRule. change (js "|") with [124%N]. rewrite includes_unit.
  - replace (startsWith (62%N :: 32%N :: q) (js "> ")) with true
      by (symmetry; apply startsWith_app; exists q; reflexivity).
    reflexivity.
  - constructor; [discriminate|]. constructor; [discriminate | exact Hq].
Qed.

Lemma convertMarkdown_quote q block :
  Forall (fun c => c <> 10%N /\ c <> 124%N) q -> trim q = q ->
  match exec re_callout q with
  | Some m =>
      createCalloutBlock URL (default [] (group 2 m)) (default [] (group 1 m))
        (default (js "info") (ownProperty calloutTypes (default [] (group 1 m))))
  | None => createQuoteBlock URL q
  end = Some block ->
  convertMarkdown URL ([10%N] ++ js "> " ++ q ++ [10; 10]%N) = Some [block].
Proof.
  intros Hq Ht Hb. unfold convertMarkdown, markdownToNotionBlocks.
  change ([10%N] ++ js "> " ++ q ++ [10; 10]%N) with ([10%N] ++ (js "> " ++ q) ++ [10; 10]%N).
  rewrite split_framed.
  2:{ constructor; [discriminate|]. constructor; [discriminate|].
      eapply Forall_impl; [exact Hq|]. intros c [H _]. exact H. }
  set (lines := [[]; js "> " ++ q; []; []]). change (length lines) with 4.
  rewrite (tokenizeFrom_blank _ _ lines 0 []) by reflexivity.
  rewrite (tokenizeFrom_rules _ _ lines 1 (js "> " ++ q)); [|reflexivity|apply blank_solid; reflexivity|reflexivity].
  assert (Hp : pushedBlocks URL lines 1 = ([block], 2)).
  { unfold pushedBlocks, lines.
    change [[]; js "> " ++ q; []; []] with ([[]] ++ (js "> " ++ q) :: [[]; []]).
    rewrite (blockRules_quote q 1 [[]] [[]; []]); [|reflexivity|].
    2:{ eapply Forall_impl; [exact Hq|]. intros c [_ H]. exact H. }
    rewrite (quoteRule_single q 1 [[]] [[]; []]); [|reflexivity|reflexivity|exact Ht].
    rewrite Hb. reflexivity. }
  rewrite Hp. cbn [fst snd].
  rewrite (tokenizeFrom_blank _ _ lines 2 []) by reflexivity.
  rewrite (tokenizeFrom_blank _ _ lines 3 []) by reflexivity.
  rewrite tokenizeFrom_end by reflexivity. reflexivity.
Qed.

End QuoteFacts.

(** *** Panels *)

Lemma squeezeNewlines_one_line s : forall run,
  Forall (fun c => c <> 10%N) s -> squeezeNewlines run s = s.
Proof.
  induction s as [|c s IH]; intros run H; [reflexivity|].
  apply Forall_cons in H as [Hc H]. cbn [squeezeNewlines].
  apply N.eqb_neq in Hc. rewrite Hc, IH by exact H. reflexivity.
Qed.

Lemma solid_prepend a front s :
  is_space a = false -> solid s -> s <> [] -> solid (a :: front ++ s).
Proof.
  intros Ha Hs Hn. destruct s as [|c t]; [congruence|].
  destruct Hs as (_ & t' & d & E & Hd). split; [exact Ha|].
  exists (a :: front ++ t'), d. split; [|exact Hd].
  rewrite E. cbn [app]. rewrite <- app_assoc. reflexivity.
Qed.

(** A text of one line, trimmed, without pipes. *)
Lemma one_line_text content :
  content <> [] -> trim content = content ->
  Forall (fun c => is_line_terminator c = false /\ c <> 124%N) content ->
  solid content
  /\ (exists c t, content = c :: t /\ is_space c = false)
  /\ forallb dot content = true
  /\ Forall (fun c => c <> 10%N /\ c <> 124%N) content.
Proof.
  intros Hn Ht Hc.
  assert (Hs : solid content) by (rewrite <- Ht; apply trim_solid).
  split; [exact Hs|]. split.
  - destruct content as [|c t]; [congruence|]. exists c, t. split; [reflexivity | apply Hs].
  - split.
    + apply forallb_Forall_true. eapply Forall_impl; [exact Hc|].
      intros c [H _]. unfold dot. rewrite H. reflexivity.
    + eapply Forall_impl; [exact Hc|]. intros c [H H']. split; [|exact H'].
      intros ->. discriminate H.
Qed.

Section PanelFacts.

Variable URL : jsstring -> option URLRecord.

Lemma panel_note_tip lo content :
  between 56320 57343 lo = true -> lo <> 10%N -> lo <> 124%N ->
  content <> [] -> trim content = content ->
  Forall (fun c => is_line_terminator c = false /\ c <> 124%N) content ->
  exists richText,
    parseInlineMarkdown URL content = Some richText
    /\ convertMarkdown URL
         ([10%N] ++ js "> " ++ ([55357%N; lo] ++ js " " ++ content) ++ [10; 10]%N)
       = Some [Callout richText [55357%N; lo]
                 (default (js "gray_background")
                    (ownProperty calloutColors
                       (default (js "info") (ownProperty calloutTypes [55357%N; lo]))))].
Proof.
  intros Hlo H10 H124 Hn Ht Hc.
  destruct (one_line_text content Hn Ht Hc) as (Hs & (c & t & -> & Hsp) & Hdot & Hq).
  destruct (parseInlineMarkdown_total URL (c :: t)) as [richText Hrt].
  exists richText. split; [exact Hrt|].
  apply convertMarkdown_quote.
  - constructor; [split; discriminate|]. constructor; [split; assumption|].
    constructor; [split; discriminate | exact Hq].
  - apply trim_of_solid.
    apply (solid_prepend 55357%N [lo; 32%N] (c :: t)); [reflexivity | exact Hs | discriminate].
  - change ([55357%N; lo] ++ js " " ++ c :: t) with (55357%N :: lo :: [32%N] ++ c :: t).
    rewrite exec_callout_pair by (assumption || reflexivity).
    unfold group. cbn [groups cap_get find fst snd Nat.eqb fmap option_fmap option_map default id].
    unfold createCalloutBlock. rewrite Hrt. reflexivity.
Qed.

Lemma panel_warning content :
  content <> [] -> trim content = content ->
  Forall (fun c => is_line_terminator c = false /\ c <> 124%N) content ->
  exists richText,
    parseInlineMarkdown URL ([65039%N] ++ js " " ++ content) = Some richText
    /\ convertMarkdown URL
         ([10%N] ++ js "> " ++ (emoji_warning ++ js " " ++ content) ++ [10; 10]%N)
       = Some [Callout richText [9888%N] (js "blue_background")].
Proof.
  intros Hn Ht Hc.
  destruct (one_line_text content Hn Ht Hc) as (Hs & (c & t & -> & Hsp) & Hdot & Hq).
  destruct (parseInlineMarkdown_total URL ([65039%N] ++ js " " ++ c :: t)) as [richText Hrt].
  exists richText. split; [exact Hrt|].
  apply convertMarkdown_quote.
  - constructor; [split; discriminate|]. constructor; [split; discriminate|].
    constructor; [split; discriminate | exact Hq].
  - apply trim_of_solid.
    apply (solid_prepend 9888%N [65039%N; 32%N] (c :: t)); [reflexivity | exact Hs | discriminate].
  - change (emoji_warning ++ js " " ++ c :: t) with (9888%N :: [] ++ 65039%N :: 32%N :: c :: t).
    rewrite exec_callout_bmp; [|reflexivity|reflexivity|reflexivity|].
    2:{ cbn [forallb] in *. rewrite Hdot. reflexivity. }
    unfold group. cbn [groups cap_get find fst snd Nat.eqb fmap option_fmap option_map default id].
    unfold createCalloutBlock. 
    change ([65039%N] ++ js " " ++ c :: t) with (65039%N :: 32%N :: c :: t) in Hrt.
    rewrite Hrt. reflexivity.
Qed.

Lemma panel_info content :
  content <> [] -> trim content = content ->
  Forall (fun c => is_line_terminator c = false /\ c <> 124%N) content ->
  exists richText,
    parseInlineMarkdown URL (emoji_info ++ js " " ++ content) = Some richText
    /\ convertMarkdown URL
         ([10%N] ++ js "> " ++ (emoji_info ++ js " " ++ content) ++ [10; 10]%N)
       = Some [Quote richText].
Proof.
  intros Hn Ht Hc.
  destruct (one_line_text content Hn Ht Hc) as (Hs & (c & t & -> & Hsp) & Hdot & Hq).
  destruct (parseInlineMarkdown_total URL (emoji_info ++ js " " ++ c :: t)) as [richText Hrt].
  exists richText. split; [exact Hrt|].
  apply convertMarkdown_quote.
  - constructor; [split; discriminate|]. constructor; [split; discriminate|].
    constructor; [split; discriminate | exact Hq].
  - apply trim_of_solid.
    apply (solid_prepend 8505%N [65039%N; 32%N] (c :: t)); [reflexivity | exact Hs | discriminate].
  - change (emoji_info ++ js " " ++ c :: t) with (8505%N :: 65039%N :: 32%N :: c :: t) in *.
    rewrite exec_callout_none by reflexivity.
    unfold createQuoteBlock. rewrite Hrt. reflexivity.
Qed.

Lemma infoPanel_one_line panelType emoji content :
  match ownProperty panelEmojis (match panelType with [] => js "info" | _ => panelType end) with
  | Some emoji => Some emoji
  | None => if existsb (eqb (match panelType with [] => js "info" | _ => panelType end))
                 objectPrototypeKeys then None else Some emoji_info
  end = Some emoji ->
  content <> [] -> trim content = content ->
  Forall (fun c => is_line_terminator c = false /\ c <> 124%N) content ->
  infoPanel panelType content
    = Some ([10%N] ++ js "> " ++ emoji ++ js " " ++ content ++ [10; 10]%N).
Proof.
  intros He Hn Ht Hc. unfold infoPanel. rewrite He. cbn [mbind option_bind].
  rewrite Ht, squeezeNewlines_one_line.
  - destruct content; [congruence | reflexivity].
  - eapply Forall_impl; [exact Hc|]. intros c [H _] ->. discriminate H.
Qed.

End PanelFacts.

(** X13: a note panel and a tip panel with a text of one line arrive as
    callouts of their kind: the Markdown the content script writes for
    them is read back by the worker as one callout block with the text,
    the emoji of the panel and the colour of its type.  The rule for panel
    contents gives the callout of a tip. *)
Theorem X13_note_and_tip_panels_become_callouts
    (URL : jsstring -> option URLRecord) (content : jsstring) :
  content <> [] -> trim content = content ->
  Forall (fun c => is_line_terminator c = false /\ c <> 124%N) content ->
  exists richText,
    parseInlineMarkdown URL content = Some richText
    /\ (exists markdown,
          infoPanel (js "note") content = Some markdown
          /\ convertMarkdown URL markdown
             = Some [Callout richText emoji_note (js "gray_background")])
    /\ (exists markdown,
          infoPanel (js "tip") content = Some markdown
          /\ convertMarkdown URL markdown
             = Some [Callout richText emoji_tip (js "green_background")])
    /\ convertMarkdown URL (panelContent content)
       = Some [Callout richText emoji_tip (js "green_background")].
Proof.
  intros Hn Ht Hc.
  destruct (panel_note_tip URL 56541%N content) as (rt & Hrt & Hnote);
    [reflexivity | discriminate | discriminate | assumption..|].
  destruct (panel_note_tip URL 56481%N content) as (rt' & Hrt' & Htip);
    [reflexivity | discriminate | discriminate | assumption..|].
  rewrite Hrt in Hrt'. injection Hrt' as <-.
  exists rt. split; [exact Hrt|]. split; [|split].
  - eexists. split; [apply infoPanel_one_line; [reflexivity | assumption..]|]. exact Hnote.
  - eexists. split; [apply infoPanel_one_line; [reflexivity | assumption..]|]. exact Htip.
  - unfold panelContent. rewrite Ht, squeezeNewlines_one_line; [exact Htip|].
    eapply Forall_impl; [exact Hc|]. intros c [H _] ->. discriminate H.
Qed.

Lemma X13_note_and_tip_panels_become_callouts_witness :
  exists richText,
    parseInlineMarkdown toyURL (js "Read this") = Some richText
    /\ (exists markdown,
          infoPanel (js "note") (js "Read this") = Some markdown
          /\ convertMarkdown toyURL markdown
             = Some [Callout richText emoji_note (js "gray_background")])
    /\ (exists markdown,
          infoPanel (js "tip") (js "Read this") = Some markdown
          /\ convertMarkdown toyURL markdown
             = Some [Callout richText emoji_tip (js "green_background")])
    /\ convertMarkdown toyURL (panelContent (js "Read this"))
       = Some [Callout richText emoji_tip (js "green_background")].
Proof.
  apply (X13_note_and_tip_panels_become_callouts toyURL (js "Read this"));
    [discriminate | reflexivity | repeat constructor; discriminate].
Defined.

(** X14: an info panel and a warning panel do not arrive as such.  The
    emoji of the info panel, U+2139, is outside the classes of the
    callout pattern: the panel is read back as a plain quote whose text
    opens with the emoji.  Of the emoji of the warning panel, U+26A0
    U+FE0F, the pattern takes the first code unit only: the panel is
    read back as a callout with the icon U+26A0 and the colour of the
    type info, and its text opens with U+FE0F. *)
Theorem X14_info_and_warning_panels_lose_their_type
    (URL : jsstring -> option URLRecord) (content : jsstring) :
  content <> [] -> trim content = content ->
  Forall (fun c => is_line_terminator c = false /\ c <> 124%N) content ->
  (exists richText markdown,
     infoPanel (js "info") content = Some markdown
     /\ parseInlineMarkdown URL (emoji_info ++ js " " ++ content) = Some richText
     /\ convertMarkdown URL markdown = Some [Quote richText])
  /\ (exists richText markdown,
        infoPanel (js "warning") content = Some markdown
        /\ parseInlineMarkdown URL ([65039%N] ++ js " " ++ content) = Some richText
        /\ convertMarkdown URL markdown
           = Some [Callout richText [9888%N] (js "blue_background")]).
Proof.
  intros Hn Ht Hc. split.
  - destruct (panel_info URL content Hn Ht Hc) as (rt & Hrt & Hconv).
    exists rt. eexists. split; [apply infoPanel_one_line; [reflexivity | assumption..]|].
    split; [exact Hrt | exact Hconv].
  - destruct (panel_warning URL content Hn Ht Hc) as (rt & Hrt & Hconv).
    exists rt. eexists. split; [apply infoPanel_one_line; [reflexivity | assumption..]|].
    split; [exact Hrt | exact Hconv].
Qed.

Lemma X14_info_and_warning_panels_lose_their_type_witness :
  (exists richText markdown,
     infoPanel (js "info") (js "Read this") = Some markdown
     /\ parseInlineMarkdown toyURL (emoji_info ++ js " " ++ js "Read this") = Some richText
     /\ convertMarkdown toyURL markdown = Some [Quote richText])
  /\ (exists richText markdown,
        infoPanel (js "warning") (js "Read this") = Some markdown
        /\ parseInlineMarkdown toyURL ([65039%N] ++ js " " ++ js "Read this") = Some richText
        /\ convertMarkdown toyURL markdown
           = Some [Callout richText [9888%N] (js "blue_background")]).
Proof.
  apply (X14_info_and_warning_panels_lose_their_type toyURL (js "Read this"));
    [discriminate | reflexivity | repeat constructor; discriminate].
Defined.

(** *** The emoji of a callout *)

(** What the emoji class matches: one code unit of the basic plane, or
    a pair of surrogates. *)
Lemma Matches_emoji st st' :
  Matches re_emoji st st' ->
  exists w, st' = MState (rev w ++ before st) (after st') (caps st)
    /\ ((exists e, w = [e] /\ (9728 <= e <= 10175)%N)
        \/ (exists hi lo, w = [hi; lo] /\ (55356 <= hi <= 55358)%N)).
Proof.
  assert (Hpair : forall p1 p2 st st',
    Matches (Seq (Chr p1) (Chr p2)) st st' ->
    exists hi lo, p1 hi = true /\ st' = MState (rev [hi; lo] ++ before st) (after st') (caps st)).
  { intros p1 p2 s s' M. apply Matches_seq_inv in M as (s1 & M1 & M2).
    apply Matches_chr_inv in M1 as (hi & suf & A & Hhi & ->).
    apply Matches_chr_inv in M2 as (lo & suf2 & A2 & Hlo & ->).
    exists hi, lo. split; [exact Hhi | reflexivity]. }
  assert (Hone : forall lo hi st st',
    Matches (Chr (between lo hi)) st st' ->
    exists e, (lo <= e <= hi)%N /\ st' = MState (rev [e] ++ before st) (after st') (caps st)).
  { intros lo hi s s' M. apply Matches_chr_inv in M as (e & suf & A & He & ->).
    exists e. split; [|reflexivity]. unfold between in He.
    apply andb_true_iff in He as [H1 H2]. apply N.leb_le in H1, H2. lia. }
  unfold re_emoji. intros M.
  apply Matches_alt_inv in M as [M|M].
  - apply Matches_alt_inv in M as [M|M]; [|apply Matches_alt_inv in M as [M|M]];
      apply Hpair in M as (hi & lo & Hhi & ->); apply N.eqb_eq in Hhi; subst hi;
      eexists; (split; [reflexivity|]); right; eexists _, lo; (split; [reflexivity | lia]).
  - apply Matches_alt_inv in M as [M|M]; apply Hone in M as (e & He & ->);
      eexists; (split; [reflexivity|]); left; exists e; (split; [reflexivity | lia]).
Qed.

Lemma exec_callout_groups content m :
  exec re_callout content = Some m ->
  exists emoji text,
    group 1 m = Some emoji /\ group 2 m = Some text /\ text <> []
    /\ ((exists e, emoji = [e] /\ (9728 <= e <= 10175)%N)
        \/ (exists hi lo, emoji = [hi; lo] /\ (55356 <= hi <= 55358)%N)).
Proof.
  rewrite re_callout_eq. intros H.
  apply exec_anchored_Some in H as (st' & M & ->).
  apply Matches_seq_inv in M as (st1 & M1 & M).
  cbn [seqs fold_right] in M.
  apply Matches_seq_inv in M as (st2 & M2 & M).
  apply Matches_seq_inv in M as (st3 & M3 & M).
  apply Matches_end_inv in M as [-> Hend].
  inversion M1 as [| | | | | | |n' r' st0 st1' M1'| | | | | |]; subst.
  apply Matches_emoji in M1' as (w & E1 & Hw). cbn [before caps] in E1.
  apply (Matches_plain (fun _ => True)) in M2 as (w2 & _ & _ & E2 & _);
    [|reflexivity|cbn -[dot is_space]; repeat split; intros; exact I].
  apply (Matches_group (fun _ => True)) in M3 as (w3 & _ & _ & E3 & C3);
    [|reflexivity|cbn -[dot is_space]; repeat split; intros; exact I].
  specialize (C3 eq_refl).
  exists w, w3. unfold group. cbn [groups].
  rewrite E3. cbn [caps]. rewrite E2. cbn [caps].
  assert (Hcons : consumed (MState [] content []) st1' = w).
  { rewrite E1. apply (consumed_app w []). }
  rewrite Hcons. rewrite E1. cbn [caps].
  split; [reflexivity|]. split; [reflexivity|]. split; [exact C3 | exact Hw].
Qed.

Lemma calloutType_never_warning emoji :
  ((exists e, emoji = [e] /\ (9728 <= e <= 10175)%N)
   \/ (exists hi lo, emoji = [hi; lo] /\ (55356 <= hi <= 55358)%N)) ->
  In (default (js "info") (ownProperty calloutTypes emoji))
     (map js ["info"; "note"; "tip"; "success"; "error"; "notification"; "comment"]%string).
Proof.
  intros Hw. destruct (ownProperty calloutTypes emoji) as [v|] eqn:E; [|left; reflexivity].
  apply ownProperty_In in E. cbn [default].
  unfold calloutTypes in E. cbn [In] in E.
  destruct E as [E|[E|[E|[E|[E|[E|[E|[E|[]]]]]]]]]; injection E as <- <-;
    try (destruct Hw as [(e & [=] & _)|(hi & lo & [= <- <-] & Hr)]; lia);
    vm_compute; tauto.
Qed.

Lemma parseBlockquote_type lines startIndex :
  let quoteData := parseBlockquote lines startIndex in
  if isCallout quoteData
  then In (quote_type quoteData)
          (map js ["info"; "note"; "tip"; "success"; "error"; "notification"; "comment"]%string)
       /\ quote_content quoteData <> []
       /\ 1 <= length (quote_emoji quoteData) <= 2
  else quote_type quoteData = [] /\ quote_emoji quoteData = [].
Proof.
  unfold parseBlockquote.
  destruct (exec re_callout _) as [m|] eqn:E; cbn [isCallout quote_type quote_emoji quote_content];
    [|split; reflexivity].
  apply exec_callout_groups in E as (emoji & text & -> & -> & Ht & Hw). cbn [default id].
  split; [apply calloutType_never_warning, Hw|]. split; [exact Ht|].
  destruct Hw as [(e & -> & _)|(hi & lo & -> & _)]; cbn [length]; lia.
Qed.

(** X15: no quote is ever read as a warning.  The callout pattern
    captures one code point, and the key of the type warning has two:
    the type that [parseBlockquote] answers is never warning, and no
    block made from a quote has the colour of warnings. *)
Theorem X15_no_quote_becomes_a_warning
    (URL : jsstring -> option URLRecord) (lines : list jsstring) (startIndex : nat) :
  quote_type (parseBlockquote lines startIndex) <> js "warning"
  /\ forall blocks next,
       quoteRule URL lines startIndex = Some (blocks, next) ->
       forall richText icon, ~ In (Callout richText icon (js "yellow_background")) blocks.
Proof.
  pose proof (parseBlockquote_type lines startIndex) as H. cbn zeta in H. split.
  - destruct (isCallout (parseBlockquote lines startIndex)).
    + destruct H as [H _]. intros E. rewrite E in H. cbn in H.
      repeat (destruct H as [H|H]; [discriminate H|]). exact H.
    + destruct H as [-> _]. discriminate.
  - intros blocks next. unfold quoteRule.
    destruct (isCallout (parseBlockquote lines startIndex)).
    + destruct H as [H _]. unfold createCalloutBlock.
      destruct (parseInlineMarkdown URL _) as [rt|]; [|discriminate].
      cbn [mbind option_bind]. intros [= <- _] richText icon [E|[]].
      injection E as _ _ E. revert E.
      cbn in H. repeat (destruct H as [H|H]; [rewrite <- H; vm_compute; discriminate|]).
      destruct H.
    + unfold createQuoteBlock. destruct (parseInlineMarkdown URL _) as [rt|]; [|discriminate].
      cbn. intros [= <- _] richText icon [E|[]]. discriminate E.
Qed.

(** *** Rows of a table *)

Lemma split_join sep pieces :
  pieces <> [] -> Forall (Forall (fun c => c <> sep)) pieces ->
  split sep (join [sep] pieces) = pieces.
Proof.
  induction pieces as [|p pieces IH]; intros Hn H; [congruence|].
  apply Forall_cons in H as [Hp H]. destruct pieces as [|p2 pieces].
  - cbn [join]. apply split_one, Hp.
  - rewrite join_cons. cbn [app]. rewrite split_app, (split_one _ _ Hp), IH by (discriminate || exact H).
    reflexivity.
Qed.

Lemma join_pad texts :
  texts <> [] ->
  32%N :: join (js " | ") texts ++ [32%N] = join [124%N] (map pad texts).
Proof.
  induction texts as [|t texts IH]; intros Hn; [congruence|].
  destruct texts as [|t2 texts]; [reflexivity|].
  rewrite join_cons. cbn [map]. rewrite join_cons. cbn [map] in IH.
  rewrite <- IH by discriminate. unfold pad. cbn [app].
  rewrite <- !app_assoc. reflexivity.
Qed.

Lemma rowMarkdown_rowLine rowData :
  rowMarkdown rowData = rowLine (rowTexts rowData) ++ [10%N].
Proof. unfold rowMarkdown, rowLine, rowTexts. rewrite <- !app_assoc. reflexivity. Qed.

Lemma rowLine_pieces texts :
  texts <> [] -> rowLine texts = 124%N :: join [124%N] (map pad texts) ++ [124%N].
Proof.
  intros Hn. rewrite <- (join_pad texts Hn). unfold rowLine. cbn [app].
  rewrite <- !app_assoc. reflexivity.
Qed.

Lemma popEmptyCells_spec reversed :
  exists k, reversed = replicate k [] ++ popEmptyCells reversed
    /\ (reversed <> [] -> popEmptyCells reversed <> []).
Proof.
  induction reversed as [|cell reversed (k & E & Hn)].
  - exists 0. split; [reflexivity | congruence].
  - destruct cell as [|c t]; [|exists 0; split; [reflexivity | discriminate]].
    destruct reversed as [|[|c2 t2] reversed];
      [exists 0; split; [reflexivity | discriminate]| |exists 0; split; [reflexivity | discriminate]].
    exists (S k). change (popEmptyCells ([] :: [] :: reversed)) with (popEmptyCells ([] :: reversed)).
    cbn [replicate app]. split; [rewrite <- E; reflexivity|].
    intros _. apply Hn. discriminate.
Qed.

Lemma popEmptyCells_id cell rest :
  cell <> [] -> popEmptyCells (cell :: rest) = cell :: rest.
Proof. destruct cell; [congruence | reflexivity]. Qed.

Lemma normalizeRow_padded width kept k :
  normalizeRow width (kept ++ replicate k []) = normalizeRow width kept.
Proof.
  unfold normalizeRow. rewrite <- app_assoc, <- replicate_add, length_app, length_replicate.
  rewrite !take_app, !take_replicate. f_equal. f_equal. lia.
Qed.

Lemma trim_pad t : trim (pad t) = trim t.
Proof.
  unfold pad. change (32%N :: t ++ [32%N]) with ([32%N] ++ (t ++ [32%N])).
  rewrite trim_app_spaces_l, trim_app_spaces_r by reflexivity. reflexivity.
Qed.

Lemma solid_between c s d :
  is_space c = false -> is_space d = false -> solid (c :: s ++ [d]).
Proof. intros Hc Hd. split; [exact Hc|]. exists (c :: s), d. auto. Qed.

Lemma rowLine_trim texts : texts <> [] -> trim (rowLine texts) = rowLine texts.
Proof.
  intros Hn. rewrite rowLine_pieces by exact Hn. apply trim_of_solid, solid_between; reflexivity.
Qed.

(** What [parseTableRow] reads from a line between two pipes: the
    trimmed pieces, short of the empty pieces at the end. *)
Lemma parseTableRow_pieces pieces :
  pieces <> [] -> Forall (Forall (fun c => c <> 124%N)) pieces ->
  exists k kept,
    parseTableRow (124%N :: join [124%N] pieces ++ [124%N]) = kept
    /\ map trim pieces = kept ++ replicate k []
    /\ kept <> []
    /\ ((forall t, last pieces = Some t -> blank t = false) -> k = 0).
Proof.
  intros Hn Hp. unfold parseTableRow.
  set (J := join [124%N] pieces).
  rewrite (trim_of_solid (124%N :: J ++ [124%N])) by (apply solid_between; reflexivity).
  rewrite blank_solid by reflexivity.
  replace (startsWith (124%N :: J ++ [124%N]) (js "|")) with true
    by (symmetry; apply startsWith_app; exists (J ++ [124%N]); reflexivity).
  change (drop 1 (124%N :: J ++ [124%N])) with (J ++ [124%N]).
  replace (endsWith (J ++ [124%N]) (js "|")) with true.
  2:{ symmetry. unfold endsWith. rewrite rev_app_distr. apply startsWith_app.
      exists (rev J). reflexivity. }
  rewrite length_app. cbn [length]. replace (length J + 1 - 1) with (length J) by lia.
  rewrite take_app_length. unfold J. rewrite split_join by assumption.
  destruct (popEmptyCells_spec (rev (map trim pieces))) as (k & E & Hne).
  set (P := popEmptyCells (rev (map trim pieces))) in *.
  assert (HP : P <> []).
  { apply Hne. destruct pieces; [congruence|]. cbn [map rev]. intros H.
    apply app_eq_nil in H as [_ H]. discriminate H. }
  exists k, (rev P). split; [|split; [|split]].
  - destruct (rev P) eqn:ER; [|reflexivity].
    apply (f_equal (@rev _)) in ER. rewrite rev_involutive in ER. cbn in ER. congruence.
  - rewrite <- (rev_involutive (map trim pieces)), E, rev_app_distr.
    f_equal. clear. induction k as [|k IH]; [reflexivity|].
    cbn [replicate rev]. rewrite IH. clear. induction k; [reflexivity|].
    cbn [replicate app]. f_equal. assumption.
  - intros H. apply (f_equal (@rev _)) in H. rewrite rev_involutive in H. cbn in H. congruence.
  - intros Hlast.
    destruct (exists_last (l := pieces) Hn) as (front & t & Et).
    assert (Ht : trim t <> []).
    { specialize (Hlast t). rewrite Et, last_snoc in Hlast. specialize (Hlast eq_refl).
      intros Hnil. apply trim_nil_blank in Hnil. congruence. }
    assert (Hid : P = rev (map trim pieces)).
    { unfold P. rewrite Et, map_app, rev_app_distr. cbn [map rev app].
      apply popEmptyCells_id, Ht. }
    rewrite <- Hid in E. apply (f_equal length) in E.
    rewrite length_app, length_replicate in E. lia.
Qed.

(** What [parseTableRow] reads from the line of a row: the trimmed
    texts, short of the empty texts at the end. *)
Lemma parseTableRow_rowLine texts :
  texts <> [] -> Forall (Forall (fun c => c <> 124%N)) texts ->
  exists k kept,
    parseTableRow (rowLine texts) = kept
    /\ map trim texts = kept ++ replicate k []
    /\ kept <> []
    /\ ((forall t, last texts = Some t -> blank t = false) -> k = 0).
Proof.
  intros Hn Hp. rewrite rowLine_pieces by exact Hn.
  destruct (parseTableRow_pieces (map pad texts)) as (k & kept & E1 & E2 & E3 & E4).
  { destruct texts; [congruence | discriminate]. }
  { apply Forall_map. eapply Forall_impl; [exact Hp|]. intros t Ht. unfold pad.
    constructor; [discriminate|]. apply Forall_app. split; [exact Ht|].
    constructor; [discriminate | constructor]. }
  exists k, kept. split; [exact E1|]. split; [|split; [exact E3|]].
  - rewrite <- E2, map_map. apply map_ext. intros t. symmetry. apply trim_pad.
  - intros Hlast. apply E4. intros t Ht.
    destruct (exists_last (l := texts) Hn) as (front & t' & Et).
    rewrite Et, map_app in Ht. cbn [map] in Ht. rewrite last_snoc in Ht. injection Ht as <-.
    specialize (Hlast t'). rewrite Et, last_snoc in Hlast. specialize (Hlast eq_refl).
    unfold blank in *. rewrite trim_pad. exact Hlast.
Qed.

(** *** Separator lines *)

Lemma Matches_seqs_eol rs : forall st st',
  Matches (seqs (rs ++ [Eol])) st st' -> after st' = [].
Proof.
  induction rs as [|r rs IH]; intros st st' M; cbn [app seqs fold_right] in M.
  - apply Matches_end_inv in M as [-> H]. exact H.
  - apply Matches_seq_inv in M as (st1 & _ & M). apply (IH _ _ M).
Qed.

(** A pattern anchored at both ends reads the whole string. *)
Lemma anchored_readsOnly (P : N -> Prop) rs s :
  test (seqs (Bol :: rs ++ [Eol])) s = true ->
  readsOnly P (seqs (rs ++ [Eol])) -> Forall P s.
Proof.
  intros Ht Hr. change (seqs (Bol :: rs ++ [Eol])) with (Seq Bol (seqs (rs ++ [Eol]))) in Ht.
  apply test_anchored in Ht as [st' M].
  pose proof (Matches_seqs_eol rs _ _ M) as Hend.
  destruct (Matches_readsOnly P _ _ _ M Hr) as (w & [_ A] & F).
  cbn [after] in A. rewrite Hend, app_nil_r in A. subst s. exact F.
Qed.

Lemma isSeparator_units trimmed :
  isSeparator trimmed = true ->
  Forall (fun c => separatorUnit c = true \/ c = 124%N) trimmed.
Proof.
  unfold isSeparator. intros H. apply orb_true_iff in H as [H|H].
  - apply (anchored_readsOnly _
      [Lit (js "|"); Plus true (Chr separatorUnit);
       Star true (Group 1 (Seq (Lit (js "|")) (Plus true (Chr separatorUnit))));
       Lit (js "|"); re_spaces0]); [exact H|].
    cbn -[separatorUnit is_space N.eqb]. repeat split; auto.
    all: intros c Hc; try (apply N.eqb_eq in Hc; subst c); auto.
    left. unfold separatorUnit. rewrite Hc. reflexivity.
  - apply (anchored_readsOnly _
      [Plus true (Chr separatorUnit);
       Plus true (Group 1 (Seq (Lit (js "|")) (Plus true (Chr separatorUnit))));
       Star true (Chr separatorUnit)]); [exact H|].
    cbn -[separatorUnit is_space N.eqb]. repeat split; auto.
    all: intros c Hc; try (apply N.eqb_eq in Hc; subst c); auto.
Qed.

Lemma rowLine_not_separator texts :
  Forall (Forall (fun c => c <> 124%N)) texts ->
  Exists (Exists (fun c => separatorUnit c = false)) texts ->
  isSeparator (rowLine texts) = false.
Proof.
  intros Hp He. destruct (isSeparator (rowLine texts)) eqn:E; [|reflexivity].
  exfalso. apply isSeparator_units in E.
  apply Exists_exists in He as (t & Ht & Hx). apply Exists_exists in Hx as (x & Hx & Hsep).
  assert (Hin : x ∈ rowLine texts).
  { unfold rowLine. apply elem_of_app. right. apply elem_of_app. left.
    clear - Ht Hx. induction texts as [|t' texts IH]; [inversion Ht|].
    destruct texts as [|t2 texts].
    - apply list_elem_of_singleton in Ht. subst t'. exact Hx.
    - rewrite join_cons. apply elem_of_cons in Ht as [->|Ht].
      + apply elem_of_app. left. exact Hx.
      + apply elem_of_app. right. apply elem_of_app. right. apply IH, Ht. }
  rewrite Forall_forall in E. destruct (E x Hin) as [H|H]; [congruence|].
  subst x. rewrite Forall_forall in Hp. specialize (Hp t Ht).
  rewrite Forall_forall in Hp. apply (Hp 124%N Hx). reflexivity.
Qed.

Lemma concat_shift (x : N) (X : jsstring) m :
  [x] ++ concat (replicate m (X ++ [x])) = concat (replicate m ([x] ++ X)) ++ [x].
Proof.
  induction m as [|m IH]; [reflexivity|].
  cbn [replicate concat]. rewrite <- !app_assoc, <- IH. reflexivity.
Qed.

Lemma separatorLine_groups m :
  separatorLine (S m)
  = 124%N :: js " --- " ++ concat (replicate m (124%N :: js " --- ")) ++ [124%N].
Proof.
  unfold separatorLine. cbn [replicate concat].
  change (js "|" ++ js " --- |" ++ ?x) with (124%N :: js " --- " ++ [124%N] ++ x).
  do 2 f_equal. apply (concat_shift 124%N (js " --- ")).
Qed.

Lemma Matches_separator_groups m : forall pre suf cs,
  exists pre' cs',
    Matches (Star true (Group 1 (Seq (Lit (js "|")) (Plus true (Chr separatorUnit)))))
      (MState pre (concat (replicate m (124%N :: js " --- ")) ++ suf) cs)
      (MState pre' suf cs').
Proof.
  induction m as [|m IH]; intros pre suf cs.
  - exists pre, cs. apply MatchesStarStop.
  - cbn [replicate concat]. rewrite <- app_assoc.
    set (rest := concat (replicate m (124%N :: js " --- ")) ++ suf).
    assert (M : Matches (Seq (Lit (js "|")) (Plus true (Chr separatorUnit)))
                  (MState pre ((124%N :: js " --- ") ++ rest) cs)
                  (MState (rev (js " --- ") ++ 124%N :: pre) rest cs)).
    { eapply MatchesSeq.
      - apply (MatchesChr (N.eqb 124) 124%N pre (js " --- " ++ rest) cs). reflexivity.
      - apply (Matches_some_chars true separatorUnit 32%N (js "--- ")); reflexivity. }
    apply MatchesGroup with (n := 1) in M. cbn [before after caps] in M.
    destruct (IH (rev (js " --- ") ++ 124%N :: pre) suf
                ((1, consumed (MState pre ((124%N :: js " --- ") ++ rest) cs)
                       (MState (rev (js " --- ") ++ 124%N :: pre) rest cs)) :: cs))
      as (pre' & cs' & M').
    exists pre', cs'. eapply MatchesStarStep; [exact M| |exact M'].
    cbn [after length app]. rewrite !length_app. cbn [length]. lia.
Qed.

Lemma isSeparator_separatorLine n : 1 <= n -> isSeparator (separatorLine n) = true.
Proof.
  intros Hn. destruct n as [|m]; [lia|]. unfold isSeparator. apply orb_true_iff. left.
  unfold re_separator_piped.
  change (seqs (Bol :: ?rs)) with (Seq Bol (seqs rs)).
  apply test_anchored. rewrite separatorLine_groups.
  destruct (Matches_separator_groups m (rev (js " --- ") ++ [124%N]) [124%N] [])
    as (pre' & cs' & M).
  exists (MState (124%N :: pre') [] cs'). cbn [seqs fold_right].
  eapply MatchesSeq.
  { apply (MatchesChr (N.eqb 124) 124%N []). reflexivity. }
  eapply MatchesSeq.
  { apply (Matches_some_chars true separatorUnit 32%N (js "--- ")); reflexivity. }
  eapply MatchesSeq; [exact M|].
  eapply MatchesSeq.
  { apply (MatchesChr (N.eqb 124) 124%N pre' [] cs'). reflexivity. }
  eapply MatchesSeq; [apply MatchesStarStop|].
  eapply MatchesSeq; [apply MatchesEol; reflexivity | apply MatchesEps].
Qed.

Lemma separatorLine_trim n : trim (separatorLine n) = separatorLine n.
Proof.
  apply trim_of_solid. destruct n as [|m].
  - split; [reflexivity|]. exists [], 124%N. auto.
  - rewrite separatorLine_groups.
    change (124%N :: js " --- " ++ ?x ++ [124%N]) with (124%N :: (js " --- " ++ x) ++ [124%N]).
    apply solid_between; reflexivity.
Qed.

Lemma separatorRow_line n : separatorRow n = separatorLine n ++ [10%N].
Proof. unfold separatorRow, separatorLine. rewrite <- !app_assoc. reflexivity. Qed.

(** *** Reading a table back *)

Lemma rowLine_head texts : exists X, rowLine texts = 124%N :: X.
Proof. unfold rowLine. eexists. reflexivity. Qed.

Lemma includes_head c X : includes (c :: X) [c] = true.
Proof. cbn [includes startsWith]. rewrite N.eqb_refl. destruct X; reflexivity. Qed.

Lemma split_head_length c X : 2 <= length (split c (c :: X)).
Proof.
  cbn [split]. rewrite N.eqb_refl. destruct (split_cons c X) as (l & ls & ->).
  cbn [length]. lia.
Qed.

Lemma test_pipe_head X : test re_pipe (124%N :: X) = true.
Proof. reflexivity. Qed.

Lemma readableTexts_facts texts :
  readableTexts texts ->
  texts <> [] /\ Forall (Forall (fun c => c <> 124%N)) texts
  /\ Forall (fun c => c <> 10%N) (rowLine texts)
  /\ isSeparator (rowLine texts) = false.
Proof.
  intros [Hc He].
  assert (Hn : texts <> []) by (intros ->; inversion He).
  assert (Hp : Forall (Forall (fun c => c <> 124%N)) texts).
  { eapply Forall_impl; [exact Hc|]. intros t Ht. eapply Forall_impl; [exact Ht|].
    intros c [H _]. exact H. }
  split; [exact Hn|]. split; [exact Hp|]. split; [|apply rowLine_not_separator; assumption].
  unfold rowLine. apply Forall_app. split; [repeat constructor; discriminate|].
  apply Forall_app. split; [|repeat constructor; discriminate].
  clear He Hn Hp. induction texts as [|t texts IH]; [constructor|].
  apply Forall_cons in Hc as [Ht Hc]. specialize (IH Hc).
  assert (Ht' : Forall (fun c => c <> 10%N) t).
  { eapply Forall_impl; [exact Ht|]. intros c [_ H]. exact H. }
  destruct texts as [|t2 texts]; [exact Ht'|].
  rewrite join_cons. apply Forall_app. split; [exact Ht'|].
  apply Forall_app. split; [repeat constructor; discriminate | exact IH].
Qed.

Lemma collectTableLines_rows rows : forall rest i acc found,
  Forall readableTexts rows ->
  match rest with [] => True | l :: _ => blank l = true end ->
  acc ++ map rowLine rows <> [] ->
  collectTableLines (map rowLine rows ++ rest) i acc found
    = Some (acc ++ map rowLine rows, i + length rows, found).
Proof.
  induction rows as [|texts rows IH]; intros rest i acc found Hr Hrest Hn.
  - cbn [map app length]. rewrite app_nil_r in *. rewrite Nat.add_0_r.
    destruct rest as [|l rest]; [reflexivity|].
    cbn [collectTableLines]. apply trim_nil_blank in Hrest. rewrite Hrest.
    change (isSeparator []) with false. cbv iota.
    change (includes [] (js "|")) with false. cbn [andb negb orb].
    destruct acc; [congruence | reflexivity].
  - apply Forall_cons in Hr as [Ht Hr].
    destruct (readableTexts_facts texts Ht) as (Hne & Hp & _ & Hsep).
    cbn [map app collectTableLines]. rewrite rowLine_trim by exact Hne. rewrite Hsep.
    destruct (rowLine_head texts) as [X EX]. rewrite EX.
    change (js "|") with [124%N]. rewrite includes_head.
    pose proof (split_head_length 124%N X) as Hlen.
    replace (1 <=? length (split 124 (124%N :: X)) - 1) with true
      by (symmetry; apply Nat.leb_le; lia).
    cbn [andb]. rewrite <- EX.
    rewrite IH; [|exact Hr|exact Hrest|].
    + rewrite <- app_assoc. cbn [app length]. f_equal. f_equal. f_equal. lia.
    + intros H. apply app_eq_nil in H as [H _]. apply app_eq_nil in H as [_ H]. discriminate H.
Qed.

Lemma parseTable_read header rows before rest n :
  readableTexts header -> Forall readableTexts rows ->
  match rest with [] => True | l :: _ => blank l = true end ->
  1 <= n ->
  parseTable (before ++ rowLine header :: separatorLine n :: map rowLine rows ++ rest)
    (length before)
  = Some (mkTable (parseTableRow (rowLine header)) (map parseTableRow (map rowLine rows))
            (length before + 2 + length rows)).
Proof.
  intros Hh Hr Hrest Hn. unfold parseTable. rewrite drop_app_length.
  destruct (readableTexts_facts header Hh) as (Hne & Hp & _ & Hsep).
  cbn [collectTableLines]. rewrite rowLine_trim by exact Hne. rewrite Hsep.
  destruct (rowLine_head header) as [X EX]. rewrite EX.
  change (js "|") with [124%N]. rewrite includes_head.
  pose proof (split_head_length 124%N X) as Hlen.
  replace (1 <=? length (split 124 (124%N :: X)) - 1) with true
    by (symmetry; apply Nat.leb_le; lia).
  cbn [andb]. rewrite <- EX. rewrite separatorLine_trim, isSeparator_separatorLine by exact Hn.
  rewrite collectTableLines_rows; [|exact Hr|exact Hrest|discriminate].
  cbn [mbind option_bind app].
  destruct (parseTableRow_rowLine header Hne Hp) as (k & kept & Ek & _ & Hk & _).
  rewrite Ek. destruct kept; [congruence|].
  cbn [negb andb]. rewrite andb_false_r. cbn [andb].
  f_equal. f_equal. lia.
Qed.

Lemma split_lines ls tail :
  Forall (Forall (fun c => c <> 10%N)) ls ->
  split 10 (concat (map (fun l => l ++ [10%N]) ls) ++ tail) = ls ++ split 10 tail.
Proof.
  induction 1 as [|l ls Hl _ IH]; [reflexivity|].
  cbn [map concat]. rewrite <- !app_assoc. cbn [app].
  rewrite split_app, (split_one _ _ Hl), IH. reflexivity.
Qed.

Lemma separatorLine_one_line n : Forall (fun c => c <> 10%N) (separatorLine n).
Proof.
  unfold separatorLine. apply Forall_app. split; [repeat constructor; discriminate|].
  induction n as [|n IH]; [constructor|]. cbn [replicate concat].
  apply Forall_app. split; [repeat constructor; discriminate | exact IH].
Qed.

Section TableRoundTrip.

Variable URL : jsstring -> option URLRecord.

Lemma createTableBlock_normalized headers rows1 rows2 :
  map (normalizeRow (length headers)) rows1 = map (normalizeRow (length headers)) rows2 ->
  createTableBlock URL headers rows1 = createTableBlock URL headers rows2.
Proof. intros H. unfold createTableBlock. rewrite H. reflexivity. Qed.

Lemma normalizeRow_parsed width rows :
  Forall readableTexts rows ->
  map (normalizeRow width) (map parseTableRow (map rowLine rows))
  = map (normalizeRow width) (map (map trim) rows).
Proof.
  induction 1 as [|texts rows Ht _ IH]; [reflexivity|].
  cbn [map]. rewrite IH. f_equal.
  destruct (readableTexts_facts texts Ht) as (Hne & Hp & _ & _).
  destruct (parseTableRow_rowLine texts Hne Hp) as (k & kept & -> & -> & _ & _).
  symmetry. apply normalizeRow_padded.
Qed.

Lemma blockRules_table_read header rows before rest n :
  readableTexts header -> Forall readableTexts rows ->
  match rest with [] => True | l :: _ => blank l = true end ->
  1 <= n ->
  blockRules URL (before ++ rowLine header :: separatorLine n :: map rowLine rows ++ rest)
    (length before)
  = block ← createTableBlock URL (parseTableRow (rowLine header)) (map (map trim) rows);
    Some ([block], length before + 2 + length rows).
Proof.
  intros Hh Hr Hrest Hn. unfold blockRules.
  rewrite (list_lookup_middle before _ (rowLine header) (length before) eq_refl).
  cbn [mbind option_bind].
  destruct (rowLine_head header) as [X EX]. rewrite EX.
  rewrite exec_heading_none by reflexivity. rewrite test_rule_false by reflexivity.
  unfold tableRule. change (js "|") with [124%N]. rewrite includes_head.
  rewrite test_pipe_head.
  pose proof (split_head_length 124%N X) as Hlen.
  replace (2 <=? length (split 124 (124%N :: X))) with true
    by (symmetry; apply Nat.leb_le; lia).
  rewrite orb_true_r. rewrite <- EX.
  rewrite (parseTable_read header rows before rest n Hh Hr Hrest Hn).
  cbn [headers table_rows table_nextIndex].
  destruct (readableTexts_facts header Hh) as (Hne & Hp & _).
  destruct (parseTableRow_rowLine header Hne Hp) as (k & kept & Ek & _ & Hk & _).
  replace (0 <? length (parseTableRow (rowLine header))) with true.
  2:{ symmetry. apply Nat.ltb_lt. rewrite Ek. destruct kept; [congruence|]. cbn. lia. }
  rewrite (createTableBlock_normalized _ _ (map (map trim) rows)); [reflexivity|].
  apply normalizeRow_parsed, Hr.
Qed.

(** The Markdown of a table, read back: the header is what
    [parseTableRow] reads from its line. *)
Lemma convertMarkdown_table_read header rows n block :
  readableTexts header -> Forall readableTexts rows -> 1 <= n ->
  createTableBlock URL (parseTableRow (rowLine header)) (map (map trim) rows) = Some block ->
  convertMarkdown URL
    ([10; 10]%N ++ ((rowLine header ++ [10%N]) ++ (separatorLine n ++ [10%N])
                    ++ concat (map (fun texts => rowLine texts ++ [10%N]) rows)) ++ [10%N])
  = Some [block].
Proof.
  intros Hh Hr Hn Hb. unfold convertMarkdown, markdownToNotionBlocks.
  set (ls := rowLine header :: separatorLine n :: map rowLine rows).
  assert (Hsplit : split 10
    ([10; 10]%N ++ ((rowLine header ++ [10%N]) ++ (separatorLine n ++ [10%N])
                    ++ concat (map (fun texts => rowLine texts ++ [10%N]) rows)) ++ [10%N])
    = [[]; []] ++ ls ++ [[]; []]).
  { replace ((rowLine header ++ [10%N]) ++ (separatorLine n ++ [10%N])
             ++ concat (map (fun texts => rowLine texts ++ [10%N]) rows))
      with (concat (map (fun l => l ++ [10%N]) ls)).
    2:{ unfold ls. cbn [map concat]. rewrite map_map. reflexivity. }
    set (body := concat (map (fun l => l ++ [10%N]) ls) ++ [10%N]).
    change ([10; 10]%N ++ body) with ([] ++ 10%N :: ([] ++ 10%N :: body)).
    do 2 rewrite split_app. unfold body. rewrite split_lines; [reflexivity|].
    unfold ls. constructor; [apply (readableTexts_facts header Hh)|].
    constructor; [apply separatorLine_one_line|].
    apply Forall_map. eapply Forall_impl; [exact Hr|].
    intros texts Ht. apply (readableTexts_facts texts Ht). }
  rewrite Hsplit. set (lines := [[]; []] ++ ls ++ [[]; []]).
  assert (Hlen : length lines = 6 + length rows).
  { unfold lines, ls. rewrite !length_app. cbn [length]. rewrite length_map. lia. }
  rewrite Hlen. change (S (6 + length rows)) with (S (S (S (4 + length rows)))).
  rewrite (tokenizeFrom_blank _ _ lines 0 []) by reflexivity.
  rewrite (tokenizeFrom_blank _ _ lines 1 []) by reflexivity.
  destruct (rowLine_head header) as [X EX].
  rewrite (tokenizeFrom_rules _ _ lines 2 (rowLine header));
    [|reflexivity|rewrite EX; apply blank_solid; reflexivity|rewrite EX; reflexivity].
  assert (Hp : pushedBlocks URL lines 2 = ([block], 4 + length rows)).
  { unfold pushedBlocks, lines, ls.
    change ([[]; []] ++ (rowLine header :: separatorLine n :: map rowLine rows) ++ [[]; []])
      with ([[]; []] ++ rowLine header :: separatorLine n :: map rowLine rows ++ [[]; []]).
    pose proof (blockRules_table_read header rows [[]; []] [[]; []] n Hh Hr eq_refl Hn) as Hq.
    change (length [[]; []]) with 2 in Hq. rewrite Hq, Hb. reflexivity. }
  rewrite Hp. cbn [fst snd].
  rewrite tokenizeFrom_blanks; [reflexivity| |lia].
  unfold lines, ls.
  replace (4 + length rows) with (length ([[]; []] ++ rowLine header :: separatorLine n :: map rowLine rows))
    by (rewrite length_app; cbn [length]; rewrite length_map; lia).
  change ([[]; []] ++ (rowLine header :: separatorLine n :: map rowLine rows) ++ [[]; []])
    with (([[]; []] ++ rowLine header :: separatorLine n :: map rowLine rows) ++ [[]; []]).
  rewrite drop_app_length. repeat constructor.
Qed.

Lemma parseTableRow_header header :
  readableTexts header -> (forall t, last header = Some t -> blank t = false) ->
  parseTableRow (rowLine header) = map trim header.
Proof.
  intros Hh Hlast. destruct (readableTexts_facts header Hh) as (Hne & Hp & _).
  destruct (parseTableRow_rowLine header Hne Hp) as (k & kept & Ek & Em & _ & Hk0).
  rewrite (Hk0 Hlast) in Em. cbn [replicate] in Em. rewrite app_nil_r in Em.
  rewrite Ek, Em. reflexivity.
Qed.

(** With a header whose last text is not blank, the header is read in
    full. *)
Lemma convertMarkdown_table header rows n block :
  readableTexts header -> (forall t, last header = Some t -> blank t = false) ->
  Forall readableTexts rows -> 1 <= n ->
  createTableBlock URL (map trim header) (map (map trim) rows) = Some block ->
  convertMarkdown URL
    ([10; 10]%N ++ ((rowLine header ++ [10%N]) ++ (separatorLine n ++ [10%N])
                    ++ concat (map (fun texts => rowLine texts ++ [10%N]) rows)) ++ [10%N])
  = Some [block].
Proof.
  intros Hh Hlast Hr Hn Hb. apply convertMarkdown_table_read; [exact Hh | exact Hr | exact Hn |].
  rewrite parseTableRow_header by assumption. exact Hb.
Qed.

End TableRoundTrip.

Lemma resolveGrid_shape rows grid :
  resolveGrid rows = Some grid ->
  exists columnCount,
    arrayLength (columnCountOf rows) = Some columnCount
    /\ gridShape (length rows) columnCount grid.
Proof.
  unfold resolveGrid.
  destruct (arrayLength (columnCountOf rows)) as [n|]; [|discriminate].
  cbn [mbind option_bind]. intros H. exists n. split; [reflexivity|].
  apply (fillRows_shape _ _ _ _ _ _ H), replicate_shape.
Qed.

(** X16: a table survives the way from the page to the blocks.  When
    the texts of the grid hold no pipe, every row has a text with a code
    unit other than white space, dashes and colons, and the last text of
    the first row is not blank, the Markdown the content script writes
    for the table is read back by the worker as one table block: its
    header is the first row of the grid, its rows are the other rows,
    every text trimmed. *)
Theorem X16_table_round_trip
    (URL : jsstring -> option URLRecord) (rows : list (list TableCell))
    (first : list (option jsstring)) (others : list (list (option jsstring))) :
  resolveGrid rows = Some (first :: others) ->
  readableTexts (rowTexts first) ->
  (forall t, last (rowTexts first) = Some t -> blank t = false) ->
  Forall (fun rowData => readableTexts (rowTexts rowData)) others ->
  exists markdown block,
    confluenceTable rows = Some markdown
    /\ createTableBlock URL (trimmedTexts first) (map trimmedTexts others) = Some block
    /\ convertMarkdown URL markdown = Some [block].
Proof.
  intros Hg Hh Hlast Hr.
  destruct (createTableBlock_shape URL (trimmedTexts first) (map trimmedTexts others))
    as (children & Hb & _).
  destruct (resolveGrid_shape rows _ Hg) as (columnCount & Hcc & _ & Hw).
  apply Forall_cons in Hw as [Hw _].
  assert (Hn : 1 <= columnCount).
  { rewrite <- Hw. destruct (readableTexts_facts _ Hh) as (Hne & _).
    destruct first; [exfalso; apply Hne; reflexivity | cbn; lia]. }
  eexists. eexists. split; [|split; [exact Hb|]].
  - unfold confluenceTable. destruct rows as [|r rows]; [discriminate Hg|].
    rewrite Hg. reflexivity.
  - cbn [mbind option_bind]. rewrite Hcc. cbn [default id].
    rewrite !rowMarkdown_rowLine, separatorRow_line.
    replace (concat (map rowMarkdown others))
      with (concat (map (fun texts => rowLine texts ++ [10%N]) (map rowTexts others))).
    2:{ rewrite map_map. f_equal. apply map_ext. intros rowData.
        symmetry. apply rowMarkdown_rowLine. }
    apply convertMarkdown_table; [exact Hh | exact Hlast | | exact Hn |].
    + apply Forall_map. exact Hr.
    + unfold trimmedTexts in Hb. rewrite <- (map_map rowTexts (map trim)) in Hb. exact Hb.
Qed.

Lemma X16_table_round_trip_witness :
  exists markdown block,
    confluenceTable plainTable = Some markdown
    /\ createTableBlock toyURL [js "Name"; js "Role"] [[js "Ada"; js "Engineer"]] = Some block
    /\ convertMarkdown toyURL markdown = Some [block].
Proof.
  apply (X16_table_round_trip toyURL plainTable
           [Some (js "Name"); Some (js "Role")] [[Some (js "Ada"); Some (js "Engineer")]]).
  - reflexivity.
  - split; [repeat constructor; discriminate|].
    apply Exists_cons_hd, Exists_cons_hd. reflexivity.
  - intros t [= <-]. reflexivity.
  - constructor; [|constructor]. split; [repeat constructor; discriminate|].
    apply Exists_cons_hd, Exists_cons_hd. reflexivity.
Defined.

(** *** Rows taken for separators *)

Lemma join_concat (x : N) p ps :
  join [x] (p :: ps) = p ++ concat (map (cons x) ps).
Proof.
  revert p. induction ps as [|p2 ps IH]; intros p; [cbn; rewrite app_nil_r; reflexivity|].
  rewrite join_cons, IH. reflexivity.
Qed.

Lemma Matches_separator_pieces ps : forall pre suf cs,
  Forall (fun p => p <> [] /\ forallb separatorUnit p = true) ps ->
  exists pre' cs',
    Matches (Star true (Group 1 (Seq (Lit (js "|")) (Plus true (Chr separatorUnit)))))
      (MState pre (concat (map (cons 124%N) ps) ++ suf) cs)
      (MState pre' suf cs').
Proof.
  induction ps as [|p ps IH]; intros pre suf cs Hps.
  - exists pre, cs. apply MatchesStarStop.
  - apply Forall_cons in Hps as [[Hne Hp] Hps].
    destruct p as [|c w]; [congruence|]. cbn [forallb] in Hp.
    apply andb_true_iff in Hp as [Hc Hw].
    cbn [map concat]. rewrite <- app_assoc.
    set (rest := concat (map (cons 124%N) ps) ++ suf).
    assert (M : Matches (Seq (Lit (js "|")) (Plus true (Chr separatorUnit)))
                  (MState pre ((124%N :: c :: w) ++ rest) cs)
                  (MState (rev (c :: w) ++ 124%N :: pre) rest cs)).
    { eapply MatchesSeq.
      - apply (MatchesChr (N.eqb 124) 124%N pre ((c :: w) ++ rest) cs). reflexivity.
      - apply (Matches_some_chars true separatorUnit c w); assumption. }
    apply MatchesGroup with (n := 1) in M. cbn [before after caps] in M.
    destruct (IH (rev (c :: w) ++ 124%N :: pre) suf
                ((1, consumed (MState pre ((124%N :: c :: w) ++ rest) cs)
                       (MState (rev (c :: w) ++ 124%N :: pre) rest cs)) :: cs) Hps)
      as (pre' & cs' & M').
    exists pre', cs'. eapply MatchesStarStep; [exact M| |exact M'].
    cbn [after length app]. rewrite !length_app. cbn [length]. lia.
Qed.

Lemma isSeparator_rowLine texts :
  texts <> [] -> Forall (fun t => forallb separatorUnit t = true) texts ->
  isSeparator (rowLine texts) = true.
Proof.
  intros Hn Ht. rewrite rowLine_pieces by exact Hn.
  destruct texts as [|t texts]; [congruence|]. cbn [map]. rewrite join_concat.
  apply Forall_cons in Ht as [Ht Hts].
  unfold isSeparator. apply orb_true_iff. left. unfold re_separator_piped.
  change (seqs (Bol :: ?rs)) with (Seq Bol (seqs rs)).
  apply test_anchored.
  destruct (Matches_separator_pieces (map pad texts) (rev (pad t) ++ [124%N]) [124%N] [])
    as (pre' & cs' & M).
  { apply Forall_map. eapply Forall_impl; [exact Hts|]. intros t' Ht'. cbn beta.
    split; [discriminate|]. unfold pad. cbn [forallb]. rewrite forallb_app, Ht'. reflexivity. }
  exists (MState (124%N :: pre') [] cs'). cbn [seqs fold_right].
  rewrite <- app_assoc.
  eapply MatchesSeq.
  { apply (MatchesChr (N.eqb 124) 124%N []). reflexivity. }
  eapply MatchesSeq.
  { unfold pad at 1. cbn [app].
    apply (Matches_some_chars true separatorUnit 32%N (t ++ [32%N])); [reflexivity|].
    rewrite forallb_app, Ht. reflexivity. }
  eapply MatchesSeq; [exact M|].
  eapply MatchesSeq.
  { apply (MatchesChr (N.eqb 124) 124%N pre' [] cs'). reflexivity. }
  eapply MatchesSeq; [apply MatchesStarStop|].
  eapply MatchesSeq; [apply MatchesEol; reflexivity | apply MatchesEps].
Qed.

(** X17: a row whose texts hold only white space, dashes and colons
    (a row of empty cells, for one) is taken for a separator line: the
    loop of [parseTable] passes over its line and keeps nothing of it, so
    that the row is missing from the table. *)
Theorem X17_separator_like_rows_are_dropped
    (rowData : list (option jsstring)) (rest : list jsstring) (i : nat)
    (tableLines : list jsstring) (foundSeparator : bool) :
  rowData <> [] ->
  Forall (fun t => forallb separatorUnit t = true) (rowTexts rowData) ->
  exists line,
    rowMarkdown rowData = line ++ [10%N]
    /\ isSeparator (trim line) = true
    /\ collectTableLines (line :: rest) i tableLines foundSeparator
       = collectTableLines rest (S i) tableLines true.
Proof.
  intros Hn Ht. exists (rowLine (rowTexts rowData)).
  assert (Hne : rowTexts rowData <> []) by (destruct rowData; [congruence | discriminate]).
  split; [apply rowMarkdown_rowLine|].
  rewrite rowLine_trim by exact Hne.
  pose proof (isSeparator_rowLine _ Hne Ht) as Hs. split; [exact Hs|].
  cbn [collectTableLines]. rewrite rowLine_trim by exact Hne. rewrite Hs. reflexivity.
Qed.

Lemma X17_separator_like_rows_are_dropped_witness :
  exists line,
    rowMarkdown [None; None] = line ++ [10%N]
    /\ isSeparator (trim line) = true
    /\ collectTableLines (line :: []) 3 [js "| a | b |"] true
       = collectTableLines [] 4 [js "| a | b |"] true.
Proof.
  apply (X17_separator_like_rows_are_dropped [None; None] [] 3 [js "| a | b |"] true).
  - discriminate.
  - repeat constructor.
Defined.

(** *** The cursor of the tokenizer *)

Lemma collectTableLines_progress rest : forall i acc found tableLines j found',
  collectTableLines rest i acc found = Some (tableLines, j, found') ->
  i <= j /\ length tableLines <= length acc + (j - i).
Proof.
  induction rest as [|line rest IH]; intros i acc found tableLines j found' H;
    cbn [collectTableLines] in H.
  - injection H as <- <- <-. lia.
  - destruct (isSeparator (trim line)).
    { apply IH in H. lia. }
    destruct (includes (trim line) (js "|") && (1 <=? length (split 124 (trim line)) - 1)).
    { apply IH in H. rewrite length_app in H. cbn [length] in H. lia. }
    destruct acc as [|a acc].
    + destruct (negb (includes (trim line) (js "|")) || (length (split 124 (trim line)) <? 2));
        [discriminate|].
      apply IH in H. cbn [length] in *. lia.
    + injection H as <- <- <-. lia.
Qed.

Lemma parseTable_progress lines startIndex tableData :
  parseTable lines startIndex = Some tableData ->
  startIndex < table_nextIndex tableData.
Proof.
  unfold parseTable.
  destruct (collectTableLines (drop startIndex lines) startIndex [] false)
    as [[[tableLines j] found']|] eqn:E; [|discriminate].
  cbn [mbind option_bind]. apply collectTableLines_progress in E as [Hle Hlen].
  destruct tableLines as [|first others]; [discriminate|].
  destruct (parseTableRow first); [discriminate|].
  destruct (_ && _); [discriminate|]. intros [= <-]. cbn [table_nextIndex length] in *. lia.
Qed.

Lemma collectItems_mono listType rest : forall i baseIndent items stop,
  collectItems listType rest i baseIndent = (items, stop) -> i <= stop.
Proof.
  induction rest as [|line rest IH]; intros i baseIndent items stop H;
    cbn [collectItems] in H.
  - injection H as <- <-. lia.
  - destruct (matchItem listType line) as [[[indent content] checked]|].
    + destruct (collectItems listType rest (S i) _) as [items' stop'] eqn:E.
      injection H as <- <-. apply IH in E. lia.
    + destruct rest as [|nextLine rest']; [injection H as <- <-; lia|].
      destruct (blank line); [|injection H as <- <-; lia].
      destruct (exec re_next_item nextLine); [|injection H as <- <-; lia].
      destruct (match baseIndent with None => true | Some b => b <=? _ end).
      * apply IH in H. lia.
      * injection H as <- <-. lia.
Qed.

Section Progress.

Variable URL : jsstring -> option URLRecord.

Lemma parseNestedList_progress listType lines i line blocks next :
  lines !! i = Some line -> is_Some (matchItem listType line) ->
  parseNestedList URL listType lines i = Some (blocks, next) -> i < next.
Proof.
  intros Hline [[[indent content] checked] Hm]. unfold parseNestedList.
  rewrite (drop_S _ _ _ Hline). cbn [collectItems]. rewrite Hm.
  destruct (collectItems listType (drop (S i) lines) (S i) _) as [items stop] eqn:E.
  apply collectItems_mono in E.
  destruct (buildNestedList URL listType _); [|discriminate].
  cbn [mbind option_bind]. intros [= _ <-]. lia.
Qed.

Lemma matchItem_is_Some listType line :
  is_Some (matchItem listType line) <->
  is_Some (exec (match listType with
                 | TaskList => re_task_item
                 | BulletList => re_bullet_item
                 | NumberList => re_number_item
                 end) line).
Proof.
  unfold matchItem. destruct listType; destruct (exec _ line); cbn;
    split; intros [x H]; try discriminate H; eauto.
Qed.

Lemma blockRules_progress lines i line blocks next :
  lines !! i = Some line -> listLineHasText line ->
  blockRules URL lines i = Some (blocks, next) -> i < next.
Proof.
  intros Hline [Hbullet Hnumber]. unfold blockRules. rewrite Hline. cbn [mbind option_bind].
  destruct (exec re_heading line).
  { destruct (createHeadingBlock URL _ _); [|discriminate]. cbn. intros [= _ <-]. lia. }
  destruct (test re_rule line); [intros [= _ <-]; lia|].
  destruct (tableRule URL lines i line) as [pushed|] eqn:Et.
  { unfold tableRule in Et. destruct (includes line (js "|")); [|discriminate].
    destruct (_ || _); [|discriminate].
    destruct (parseTable lines i) as [tableData|] eqn:Ep; [|discriminate].
    destruct (0 <? length (headers tableData)); [|discriminate].
    injection Et as <-. apply parseTable_progress in Ep.
    destruct (createTableBlock URL _ _); [|discriminate]. cbn. intros [= _ <-]. exact Ep. }
  destruct (startsWith line (js "> ")) eqn:Eq.
  { unfold quoteRule, parseBlockquote. rewrite (drop_S _ _ _ Hline).
    cbn [collectQuoteLines]. rewrite Eq.
    destruct (exec re_callout _); cbn [isCallout quote_nextIndex];
      (match goal with |- context [mbind _ ?x] => destruct x end; [|discriminate]);
      cbn; intros [= _ <-]; lia. }
  unfold parseList. rewrite Hline. cbn [mbind option_bind].
  destruct (test re_task_item line) eqn:Etask.
  { apply parseNestedList_progress with (line := line); [exact Hline|].
    apply matchItem_is_Some. unfold test in Etask. apply bool_decide_eq_true in Etask. exact Etask. }
  destruct (test re_bullet_start line) eqn:Eb.
  { apply parseNestedList_progress with (line := line); [exact Hline|].
    apply matchItem_is_Some. apply Hbullet. reflexivity. }
  destruct (test re_number_start line) eqn:En.
  { apply parseNestedList_progress with (line := line); [exact Hline|].
    apply matchItem_is_Some. apply Hnumber. reflexivity. }
  destruct (imageRule URL line) as [image|].
  { destruct image; [|discriminate]. cbn. intros [= _ <-]. lia. }
  destruct (createParagraphBlock URL line); [|discriminate]. cbn. intros [= _ <-]. lia.
Qed.

Lemma pushedBlocks_progress lines i line :
  lines !! i = Some line -> listLineHasText line -> i < (pushedBlocks URL lines i).2.
Proof.
  intros Hline Hl. unfold pushedBlocks.
  destruct (blockRules URL lines i) as [[blocks next]|] eqn:E; [|cbn; lia].
  cbn. eapply blockRules_progress; eassumption.
Qed.

Lemma fencedCode_progress lines i line : i < (fencedCode lines i line).2.
Proof.
  unfold fencedCode. destruct (collectCodeLines _ _) as [codeLines n]. cbn. lia.
Qed.

Lemma tokenizeFrom_total lines :
  Forall listLineHasText lines ->
  forall fuel i, length lines - i < fuel ->
    is_Some (tokenizeFrom (pushedBlocks URL) fuel lines i).
Proof.
  intros Hl. induction fuel as [|fuel IH]; intros i Hfuel; [lia|].
  destruct (lines !! i) as [line|] eqn:E.
  2:{ rewrite tokenizeFrom_end by exact E. eauto. }
  pose proof (lookup_lt_Some _ _ _ E) as Hi.
  destruct (blank line) eqn:Eb.
  { rewrite (tokenizeFrom_blank _ _ _ _ _ E Eb). apply IH. lia. }
  destruct (startsWith (trimStart line) fence3) eqn:Ef.
  - rewrite (tokenizeFrom_fence _ _ _ _ _ E Eb Ef).
    pose proof (fencedCode_progress lines i line).
    destruct (IH (fencedCode lines i line).2 ltac:(lia)) as [x ->]. cbn. eauto.
  - rewrite (tokenizeFrom_rules _ _ _ _ _ E Eb Ef).
    assert (Hline : listLineHasText line).
    { rewrite Forall_forall in Hl. apply Hl. eapply list_elem_of_lookup_2, E. }
    pose proof (pushedBlocks_progress lines i line E Hline).
    destruct (IH (pushedBlocks URL lines i).2 ltac:(lia)) as [x ->]. cbn. eauto.
Qed.

End Progress.

Section Totality.

Variable URL : jsstring -> option URLRecord.

Lemma parseNestedList_total listType lines i :
  is_Some (parseNestedList URL listType lines i).
Proof.
  unfold parseNestedList.
  destruct (collectItems listType (drop i lines) i None) as [items stop].
  destruct (buildNestedList_blocks URL listType items) as (blocks & -> & _). cbn. eauto.
Qed.

Lemma createImageBlock_total url caption : is_Some (createImageBlock URL url caption).
Proof.
  unfold createImageBlock. destruct (validateAndCleanUrl URL url); [|eauto].
  destruct caption as [|c caption]; [cbn; eauto|].
  destruct (parseInlineMarkdown_total URL (c :: caption)) as [rt ->]. cbn. eauto.
Qed.

(** Every step of the loop answers for a line of the text: the value
    [pushedBlocks] falls back on is never used. *)
Lemma blockRules_total lines i :
  i < length lines -> is_Some (blockRules URL lines i).
Proof.
  intros Hi. destruct (lookup_lt_is_Some_2 lines i Hi) as [line Hline].
  unfold blockRules. rewrite Hline. cbn [mbind option_bind].
  destruct (exec re_heading line).
  { unfold createHeadingBlock.
    destruct (parseInlineMarkdown_total URL (default [] (group 2 m))) as [rt ->]. cbn. eauto. }
  destruct (test re_rule line); [eauto|].
  destruct (tableRule URL lines i line) as [pushed|] eqn:Et.
  { unfold tableRule in Et. destruct (includes line (js "|")); [|discriminate].
    destruct (_ || _); [|discriminate].
    destruct (parseTable lines i) as [tableData|]; [|discriminate].
    destruct (0 <? length (headers tableData)); [|discriminate].
    injection Et as <-.
    destruct (createTableBlock_shape URL (headers tableData) (table_rows tableData))
      as (children & -> & _). cbn. eauto. }
  destruct (startsWith line (js "> ")).
  { unfold quoteRule. destruct (isCallout (parseBlockquote lines i)).
    - unfold createCalloutBlock.
      destruct (parseInlineMarkdown_total URL (quote_content (parseBlockquote lines i)))
        as [rt ->]. cbn. eauto.
    - unfold createQuoteBlock.
      destruct (parseInlineMarkdown_total URL (quote_content (parseBlockquote lines i)))
        as [rt ->]. cbn. eauto. }
  unfold parseList. rewrite Hline. cbn [mbind option_bind].
  destruct (test re_task_item line); [apply parseNestedList_total|].
  destruct (test re_bullet_start line); [apply parseNestedList_total|].
  destruct (test re_number_start line); [apply parseNestedList_total|].
  destruct (imageRule URL line) as [image|] eqn:Ei.
  { unfold imageRule in Ei. destruct (exec re_image line); [|discriminate].
    injection Ei as <-. destruct (createImageBlock_total (default [] (group 2 m))
                                    (default [] (group 1 m))) as [b ->]. cbn. eauto. }
  unfold createParagraphBlock. destruct (parseInlineMarkdown_total URL line) as [rt ->].
  cbn. eauto.
Qed.

End Totality.

(** X18: the converter answers for every Markdown text in which each
    line that opens a bulleted or numbered list has a text after its
    marker, that is, matches the pattern of the items as well as the
    pattern that opens the list. *)
Theorem X18_converter_terminates
    (URL : jsstring -> option URLRecord) (markdown : jsstring) :
  Forall listLineHasText (split 10 markdown) ->
  exists blocks, convertMarkdown URL markdown = Some blocks.
Proof.
  intros H. unfold convertMarkdown, markdownToNotionBlocks.
  apply (tokenizeFrom_total URL _ H). lia.
Qed.

Lemma X18_converter_terminates_witness :
  exists blocks, convertMarkdown toyURL (js "# T" ++ [10%N] ++ js "- a" ++ [10%N] ++ js "1. b")
                 = Some blocks.
Proof.
  apply (X18_converter_terminates toyURL).
  change (Forall listLineHasText [js "# T"; js "- a"; js "1. b"]).
  repeat constructor; intros H; vm_compute in H; try discriminate H; vm_compute; eauto.
Defined.

(** *** List lines without a text *)

Lemma bullet_marker_cases marker :
  one "-*+" marker = true -> marker = 45%N \/ marker = 42%N \/ marker = 43%N.
Proof.
  unfold one. cbn [js map list_ascii_of_string existsb].
  intros H. repeat (apply orb_true_iff in H as [H|H]); try discriminate H;
    apply N.eqb_eq in H; auto.
Qed.

Lemma forallb_is_space_Forall w :
  forallb is_space w = true -> Forall (fun c => is_space c = true) w.
Proof. apply forallb_Forall_true. Qed.

Lemma marker_solid marker : one "-*+" marker = true -> is_space marker = false.
Proof. intros H. destruct (bullet_marker_cases marker H) as [->|[->| ->]]; reflexivity. Qed.

Section StallFacts.

Variables (indent : jsstring) (marker s : N) (text : jsstring).

Hypothesis indent_spaces : forallb is_space indent = true.
Hypothesis marker_bullet : one "-*+" marker = true.
Hypothesis s_space : is_space s = true.
Hypothesis text_open : forall c, last text = Some c -> is_line_terminator c = true.

Local Abbreviation line := (indent ++ marker :: s :: text).

Lemma stall_head : exists c rest, line = c :: rest /\ (is_space c = true \/ c = marker).
Proof.
  unfold line. destruct indent as [|c ind]; cbn [app]; eauto.
  cbn [forallb] in indent_spaces. apply andb_true_iff in indent_spaces as [Hc _]. eauto.
Qed.

Lemma stall_head_neq x :
  is_space x = false -> x <> 45%N -> x <> 42%N -> x <> 43%N ->
  exists c rest, line = c :: rest /\ (x =? c)%N = false.
Proof.
  intros Hx H1 H2 H3. destruct stall_head as (c & rest & E & Hc).
  exists c, rest. split; [exact E|]. apply N.eqb_neq. intros <-.
  destruct Hc as [Hc| ->]; [congruence|].
  destruct (bullet_marker_cases marker marker_bullet) as [?|[?|?]]; congruence.
Qed.

(** What is left when a pattern has read the indent, the marker and
    some of the white space: a text that the patterns of the items
    cannot end with. *)
Lemma stall_split w0 m rest :
  line = w0 ++ m :: rest ->
  Forall (fun c => is_space c = true) w0 -> is_space m = false ->
  w0 = indent /\ m = marker /\ rest = s :: text.
Proof.
  intros E F0 Hm. unfold line in E.
  destruct (run_unique (fun c => is_space c = true) indent marker (s :: text) w0 m rest)
    as (-> & -> & ->); auto.
  - apply forallb_is_space_Forall, indent_spaces.
  - rewrite (marker_solid marker marker_bullet). discriminate.
  - rewrite Hm. discriminate.
Qed.

Lemma no_text_after w1 w2 :
  s :: text = w1 ++ w2 -> w1 <> [] -> w2 <> [] ->
  Forall (fun c => dot c = true) w2 -> False.
Proof.
  intros E H1 H2 F. destruct w1 as [|c w1]; [congruence|]. injection E as _ E.
  destruct (exists_last (l := w2) H2) as (w2' & d & ->).
  apply Forall_app in F as [_ F]. apply Forall_cons in F as [Hd _].
  specialize (text_open d). rewrite E, app_assoc, last_snoc in text_open.
  specialize (text_open eq_refl). unfold dot in Hd. rewrite text_open in Hd. discriminate Hd.
Qed.

Lemma stall_bullet_item : exec re_bullet_item line = None.
Proof.
  destruct (exec re_bullet_item line) as [found|] eqn:E; [exfalso|reflexivity].
  unfold re_bullet_item in E. change (seqs (Bol :: ?rs)) with (Seq Bol (seqs rs)) in E.
  apply exec_anchored_Some in E as (st' & M & _). cbn [seqs fold_right] in M.
  apply Matches_seq_inv in M as (st1 & M1 & M).
  apply Matches_seq_inv in M as (st2 & M2 & M).
  apply Matches_seq_inv in M as (st3 & M3 & M).
  apply Matches_seq_inv in M as (st4 & M4 & M).
  apply Matches_end_inv in M as [-> Hend].
  apply (Matches_group (fun c => is_space c = true)) in M1 as (w0 & A0 & F0 & _ & _);
    [|reflexivity|cbn -[is_space]; auto].
  apply Matches_chr_inv in M2 as (m & suf & A1 & Hm & E2).
  apply (Matches_plain (fun c => is_space c = true)) in M3 as (w1 & A2 & F1 & _ & C1);
    [|reflexivity|cbn -[is_space]; auto].
  apply (Matches_group (fun c => dot c = true)) in M4 as (w2 & A3 & F2 & _ & C2);
    [|reflexivity|cbn -[dot]; auto].
  rewrite Hend, app_nil_r in A3. rewrite E2 in A2. cbn [after] in A0, A2.
  rewrite A3 in A2. rewrite A2 in A1. rewrite A1 in A0.
  assert (Hms : is_space m = false).
  { destruct (bullet_marker_cases m Hm) as [->|[->| ->]]; reflexivity. }
  destruct (stall_split w0 m (w1 ++ w2) A0 F0 Hms) as (_ & _ & E).
  apply (no_text_after w1 w2); auto.
Qed.

Lemma stall_task_item : test re_task_item line = false.
Proof.
  destruct (test re_task_item line) eqn:E; [exfalso|reflexivity].
  unfold re_task_item in E. change (seqs (Bol :: ?rs)) with (Seq Bol (seqs rs)) in E.
  apply test_anchored in E as (st' & M). cbn [seqs fold_right] in M.
  apply Matches_seq_inv in M as (st1 & M1 & M).
  apply Matches_seq_inv in M as (st2 & M2 & M).
  apply Matches_seq_inv in M as (st3 & M3 & M).
  apply Matches_seq_inv in M as (st4 & M4 & M).
  apply Matches_seq_inv in M as (st5 & M5 & M).
  apply Matches_seq_inv in M as (st6 & M6 & M).
  apply Matches_end_inv in M as [-> Hend].
  apply (Matches_group (fun c => is_space c = true)) in M1 as (w0 & A0 & F0 & _ & _);
    [|reflexivity|cbn -[is_space]; auto].
  apply Matches_lit_inv in M2 as [A1 _].
  apply Matches_group with (P := fun _ => True) in M3 as (wx & A2 & _ & _ & _);
    [|reflexivity|cbn; auto].
  apply Matches_lit_inv in M4 as [A3 _].
  apply (Matches_plain (fun c => is_space c = true)) in M5 as (w1 & A4 & F1 & _ & C1);
    [|reflexivity|cbn -[is_space]; auto].
  apply (Matches_group (fun c => dot c = true)) in M6 as (w2 & A5 & F2 & _ & C2);
    [|reflexivity|cbn -[dot]; auto].
  rewrite Hend, app_nil_r in A5. rewrite A5 in A4. rewrite A4 in A3. rewrite A3 in A2.
  rewrite A2 in A1. rewrite A1 in A0. cbn [after] in A0.
  change (js "- [" ++ ?x) with (45%N :: 32%N :: 91%N :: x) in A0.
  destruct (stall_split w0 45%N _ A0 F0 eq_refl) as (_ & _ & E).
  apply (no_text_after (32%N :: 91%N :: wx ++ js "]" ++ w1) w2); auto.
  - transitivity (32%N :: 91%N :: wx ++ js "]" ++ w1 ++ w2); [symmetry; exact E|].
    cbn [app]. rewrite <- !app_assoc. reflexivity.
Qed.

Lemma stall_bullet_start : test re_bullet_start line = true.
Proof.
  unfold re_bullet_start. change (seqs (Bol :: ?rs)) with (Seq Bol (seqs rs)).
  apply test_anchored. unfold line. cbn [seqs fold_right].
  eexists. eapply MatchesSeq.
  { apply MatchesGroup. apply (Matches_chars true is_space indent [] _ []). exact indent_spaces. }
  cbn [before after caps]. eapply MatchesSeq.
  { apply MatchesChr. exact marker_bullet. }
  eapply MatchesSeq; [|apply MatchesEps].
  apply (Matches_some_chars true is_space s [] _ text); [exact s_space | reflexivity].
Qed.

Lemma stall_rule : test re_rule line = false.
Proof.
  destruct (test re_rule line) eqn:E; [exfalso|reflexivity].
  apply (anchored_readsOnly (fun c => c = 45%N \/ c = 95%N \/ c = 42%N)
           [Group 1 (Alt (Seq (Rep 3 (Chr (N.eqb 45))) (Star true (Chr (N.eqb 45))))
                    (Alt (Seq (Rep 3 (Chr (N.eqb 95))) (Star true (Chr (N.eqb 95))))
                         (Seq (Rep 3 (Chr (N.eqb 42))) (Star true (Chr (N.eqb 42))))))])
    in E.
  - unfold line in E. apply Forall_app in E as [_ E].
    apply Forall_cons in E as [_ E]. apply Forall_cons in E as [Hs _].
    destruct Hs as [->|[->| ->]]; discriminate s_space.
  - cbn -[N.eqb]. repeat split; intros c Hc; apply N.eqb_eq in Hc; auto.
Qed.

Lemma stall_blank : blank line = false.
Proof.
  destruct (blank line) eqn:E; [|reflexivity]. apply blank_spaces in E.
  unfold line in E. rewrite forallb_app in E. apply andb_true_iff in E as [_ E].
  cbn [forallb] in E. rewrite (marker_solid marker marker_bullet) in E. discriminate E.
Qed.

Lemma stall_trimStart : trimStart line = marker :: s :: text.
Proof.
  unfold line. rewrite trimStart_app_spaces by exact indent_spaces.
  apply trimStart_solid, marker_solid, marker_bullet.
Qed.

End StallFacts.

Section Stall.

Variable URL : jsstring -> option URLRecord.

Lemma blockRules_stalls lines i indent marker s text :
  lines !! i = Some (indent ++ marker :: s :: text) ->
  forallb is_space indent = true -> one "-*+" marker = true -> is_space s = true ->
  (forall c, last text = Some c -> is_line_terminator c = true) ->
  Forall (fun c => c <> 124%N) text ->
  blockRules URL lines i = Some ([], i).
Proof.
  intros Hline Hind Hm Hs Htext Hpipe. set (line := indent ++ marker :: s :: text) in *.
  pose proof (marker_solid marker Hm) as Hms.
  unfold blockRules. rewrite Hline. cbn [mbind option_bind].
  destruct (stall_head_neq indent marker s text Hind Hm 35%N) as (c & rest & E & Hc);
    [reflexivity | discriminate..|].
  fold line in E. rewrite E, (exec_heading_none c rest Hc), <- E.
  unfold line at 1. rewrite (stall_rule indent marker s text Hs).
  unfold tableRule. change (js "|") with [124%N]. rewrite includes_unit.
  2:{ unfold line. apply Forall_app. split.
      - apply forallb_is_space_Forall in Hind. eapply Forall_impl; [exact Hind|].
        intros x Hx ->. discriminate Hx.
      - constructor; [intros ->; discriminate Hm|].
        constructor; [intros ->; discriminate Hs | exact Hpipe]. }
  destruct (stall_head_neq indent marker s text Hind Hm 62%N) as (c' & rest' & E' & Hc');
    [reflexivity | discriminate..|].
  fold line in E'. rewrite E'. cbn [startsWith js map list_ascii_of_string].
  change (N_of_ascii ">") with 62%N. rewrite Hc'. cbn [andb]. rewrite <- E'.
  unfold parseList. rewrite Hline. cbn [mbind option_bind].
  unfold line at 1. rewrite (stall_task_item indent marker s text Hind Hm Htext).
  unfold line at 1. rewrite (stall_bullet_start indent marker s text Hind Hm Hs).
  unfold parseNestedList. rewrite (drop_S _ _ _ Hline). cbn [collectItems].
  unfold matchItem. unfold line at 1.
  rewrite (stall_bullet_item indent marker s text Hind Hm Htext). cbn [mbind option_bind].
  destruct (drop (S i) lines); [reflexivity|].
  unfold line. rewrite (stall_blank indent marker s text Hm). reflexivity.
Qed.

Lemma tokenizeFrom_stalls lines i line :
  lines !! i = Some line -> blank line = false ->
  startsWith (trimStart line) fence3 = false ->
  blockRules URL lines i = Some ([], i) ->
  forall fuel, tokenizeFrom (pushedBlocks URL) fuel lines i = None.
Proof.
  intros Hline Hb Hf Hr.
  assert (Hp : pushedBlocks URL lines i = ([], i))
    by (unfold pushedBlocks; rewrite Hr; reflexivity).
  induction fuel as [|fuel IH]; [reflexivity|].
  rewrite (tokenizeFrom_rules _ _ _ _ _ Hline Hb Hf), Hp. cbn [fst snd].
  rewrite IH. reflexivity.
Qed.

End Stall.

(** X19: a line that opens a bulleted list without a text for its item
    stops the converter.  When the line at the cursor is made of an
    indent, a marker, white space and a rest that is empty or ends in a
    line terminator (a carriage return, say), the list parser answers
    with no block and the index it was given, and the loop of the
    tokenizer does not end, however long it runs. *)
Theorem X19_list_line_without_text_stalls
    (URL : jsstring -> option URLRecord) (lines : list jsstring) (i : nat)
    (indent : jsstring) (marker s : N) (text : jsstring) :
  lines !! i = Some (indent ++ marker :: s :: text) ->
  forallb is_space indent = true -> one "-*+" marker = true -> is_space s = true ->
  (forall c, last text = Some c -> is_line_terminator c = true) ->
  Forall (fun c => c <> 124%N) text ->
  blockRules URL lines i = Some ([], i)
  /\ forall fuel, tokenizeFrom (pushedBlocks URL) fuel lines i = None.
Proof.
  intros Hline Hind Hm Hs Htext Hpipe.
  pose proof (blockRules_stalls URL lines i indent marker s text Hline Hind Hm Hs Htext Hpipe)
    as Hr.
  split; [exact Hr|].
  apply (tokenizeFrom_stalls URL lines i _ Hline); [| |exact Hr].
  - apply stall_blank; assumption.
  - rewrite stall_trimStart by assumption.
    destruct (bullet_marker_cases marker Hm) as [->|[->| ->]]; reflexivity.
Qed.

(** The item [- item] of a text with the line ends of Windows. *)
Lemma X19_list_line_without_text_stalls_witness :
  blockRules toyURL [js "- item" ++ [13%N]] 0 = Some ([], 0)
  /\ forall fuel, tokenizeFrom (pushedBlocks toyURL) fuel [js "- item" ++ [13%N]] 0 = None.
Proof.
  apply (X19_list_line_without_text_stalls toyURL [js "- item" ++ [13%N]] 0
           [] 45%N 32%N (js "item" ++ [13%N])).
  - reflexivity.
  - reflexivity.
  - reflexivity.
  - reflexivity.
  - intros c [= <-]. reflexivity.
  - repeat constructor; discriminate.
Defined.

(** *** File names of images *)

Lemma cleanFilename_safe s : Forall (fun c => safeUnit c = true) (cleanFilename s).
Proof.
  unfold cleanFilename. apply Forall_map, Forall_forall. intros c _. cbn beta.
  destruct (safeUnit c) eqn:E; [exact E | reflexivity].
Qed.

Lemma digits_fuel_digits fuel : forall n acc,
  Forall (fun c => is_digit c = true) acc ->
  Forall (fun c => is_digit c = true) (digits_fuel fuel n acc)
  /\ (0 < fuel -> digits_fuel fuel n acc <> []).
Proof.
  induction fuel as [|fuel IH]; intros n acc Hacc; cbn [digits_fuel].
  - split; [exact Hacc | lia].
  - assert (Hd : is_digit (48 + N.of_nat (n mod 10)) = true).
    { pose proof (Nat.mod_upper_bound n 10 ltac:(lia)). unfold is_digit.
      apply andb_true_iff. split; apply N.leb_le; lia. }
    destruct (n / 10 =? 0).
    + split; [constructor; assumption | discriminate].
    + destruct (IH (n / 10) (_ :: acc) ltac:(constructor; eassumption)) as [H1 H2].
      split; [exact H1|]. intros _. destruct fuel.
      * cbn [digits_fuel]. discriminate.
      * apply H2. lia.
Qed.

Lemma dec_digits n : Forall (fun c => is_digit c = true) (dec n) /\ dec n <> [].
Proof.
  unfold dec. destruct (digits_fuel_digits (S n) n [] ltac:(constructor)) as [H1 H2].
  split; [exact H1 | apply H2; lia].
Qed.

Lemma digit_safe c : is_digit c = true -> safeUnit c = true.
Proof. intros H. unfold safeUnit. rewrite H. rewrite !orb_true_r. reflexivity. Qed.

Lemma numbered_safe index :
  Forall (fun c => safeUnit c = true) (js "image-" ++ dec (index + 1)).
Proof.
  apply Forall_app. split; [repeat constructor|].
  eapply Forall_impl; [apply dec_digits|]. apply digit_safe.
Qed.


Lemma lower_letter_safe c : is_letter c = true -> safeUnit (lower_unit c) = true.
Proof.
  unfold is_letter, lower_unit, safeUnit. intros H.
  destruct ((65 <=? c)%N && (c <=? 90)%N) eqn:Eu.
  - apply andb_true_iff in Eu as [H1 H2]. apply N.leb_le in H1, H2.
    replace (97 <=? c + 32)%N with true by (symmetry; apply N.leb_le; lia).
    replace (c + 32 <=? 122)%N with true by (symmetry; apply N.leb_le; lia). reflexivity.
  - cbn [orb] in H. rewrite orb_false_r in H. apply andb_true_iff in H as [H1 H2].
    apply N.leb_le in H1, H2.
    replace (c =? 8490)%N with false by (symmetry; apply N.eqb_neq; lia).
    replace (97 <=? c)%N with true by (symmetry; apply N.leb_le; lia).
    replace (c <=? 122)%N with true by (symmetry; apply N.leb_le; lia). reflexivity.
Qed.

Lemma exec_image_ext_group s m :
  exec re_image_ext s = Some m ->
  exists w, group 1 m = Some w /\ Forall (fun c => is_letter c = true) w.
Proof.
  intros H. apply exec_from_sound in H as (_ & st' & Hr & _ & _ & Hg & _).
  apply rmatch_Matches in Hr as (st'' & M & [= ->]).
  unfold re_image_ext in M.
  apply Matches_seq_inv in M as (st1 & M1 & M).
  apply Matches_seq_inv in M as (st2 & M2 & M).
  apply Matches_eol_inv in M as [-> _].
  apply Matches_lit_inv in M1 as [_ E1].
  apply (Matches_group (fun c => is_letter c = true)) in M2 as (w & _ & F & E2 & _).
  - exists w. unfold group. rewrite Hg, E2. cbn [caps]. rewrite E1. cbn [caps].
    split; [reflexivity | exact F].
  - reflexivity.
  - cbn -[N.eqb N.sub is_letter]. unfold letter_i.
    repeat split; intros c Hc; apply orb_true_iff in Hc as [Hc|Hc];
      apply N.eqb_eq in Hc; subst c; reflexivity.
Qed.

Section ImageFilenameFacts.

Variable URL : jsstring -> option URLRecord.

Lemma getImageFilename_safe url alt index :
  getImageFilename URL url alt index <> []
  /\ Forall (fun c => safeUnit c = true) (getImageFilename URL url alt index).
Proof.
  unfold getImageFilename.
  pose proof (numbered_safe index) as Hnum.
  assert (Hnn : forall rest, (js "image-" ++ dec (index + 1)) ++ rest <> []) by discriminate.
  destruct (URL url) as [urlObj|].
  2:{ split; [apply Hnn|]. apply Forall_app. split; [exact Hnum | repeat constructor]. }
  set (extension := match exec re_image_ext (pathname urlObj) with
                    | Some m => match toLowerCase (default [] (group 1 m)) with
                                | [] => js "png" | lowered => lowered end
                    | None => js "png" end).
  assert (Hext : Forall (fun c => safeUnit c = true) extension).
  { unfold extension. destruct (exec re_image_ext (pathname urlObj)) as [m|] eqn:E;
      [|repeat constructor].
    apply exec_image_ext_group in E as (w & -> & F). cbn [default id].
    destruct (toLowerCase w) eqn:El; [repeat constructor|]. rewrite <- El.
    unfold toLowerCase. apply Forall_map. eapply Forall_impl; [exact F|].
    apply lower_letter_safe. }
  match goal with |- context [cleanFilename ?f] => set (filename := cleanFilename f) end.
  destruct (length filename <? 5) eqn:El.
  - destruct (match alt with [] => [] | _ => take 50 (cleanFilename alt) end) as [|a altBased] eqn:Ea.
    + split; [apply Hnn|]. apply Forall_app. split; [exact Hnum|].
      apply Forall_app. split; [repeat constructor | exact Hext].
    + split; [discriminate|]. rewrite <- Ea. destruct alt; [constructor|].
      apply Forall_take, cleanFilename_safe.
  - apply Nat.ltb_ge in El. split; [|apply cleanFilename_safe].
    intros H. rewrite H in El. cbn in El. lia.
Qed.

End ImageFilenameFacts.

(** X20: the file name chosen for an image is never empty and holds
    only letters, digits, dots, underscores and dashes, whatever the
    address, the alternative text and the parser of addresses. *)
Theorem X20_image_filename_is_safe
    (URL : jsstring -> option URLRecord) (url alt : jsstring) (index : nat) :
  getImageFilename URL url alt index <> []
  /\ Forall (fun c => safeUnit c = true) (getImageFilename URL url alt index).
Proof. apply getImageFilename_safe. Qed.

(** *** Rules and fences that are not closed *)

Lemma Matches_rep p n : forall w pre suf cs,
  length w = n -> forallb p w = true ->
  Matches (Rep n (Chr p)) (MState pre (w ++ suf) cs) (MState (rev w ++ pre) suf cs).
Proof.
  induction n as [|n IH]; intros w pre suf cs Hlen Hw.
  - destruct w; [constructor | discriminate].
  - destruct w as [|c w]; [discriminate|]. cbn [forallb] in Hw.
    apply andb_true_iff in Hw as [Hc Hw]. injection Hlen as Hlen.
    cbn [Rep]. eapply MatchesSeq; [apply MatchesChr, Hc|].
    cbn [rev]. rewrite <- app_assoc. apply IH; assumption.
Qed.

Lemma test_rule_run c n :
  c = 45%N \/ c = 95%N \/ c = 42%N -> 3 <= n -> test re_rule (JS.repeat c n) = true.
Proof.
  intros Hc Hn. unfold re_rule. cbn zeta.
  change (seqs (Bol :: ?rs)) with (Seq Bol (seqs rs)). apply test_anchored.
  assert (Hrun : Matches (Seq (Rep 3 (Chr (N.eqb c))) (Star true (Chr (N.eqb c))))
                   (MState [] (JS.repeat c n) [])
                   (MState (rev (JS.repeat c n)) [] [])).
  { unfold JS.repeat. replace n with (3 + (n - 3)) by lia. rewrite replicate_add.
    eapply MatchesSeq.
    - apply (Matches_rep (N.eqb c) 3 (replicate 3 c) []); [reflexivity|].
      cbn. rewrite N.eqb_refl. reflexivity.
    - rewrite rev_app_distr, <- (app_nil_r (replicate (n - 3) c)) at 1.
      rewrite <- (app_nil_r (rev (replicate 3 c))).
      rewrite <- app_assoc. cbn [app].
      apply (Matches_chars true (N.eqb c) (replicate (n - 3) c)).
      apply forallb_Forall_true, Forall_replicate, N.eqb_refl. }
  eexists. cbn [seqs fold_right]. eapply MatchesSeq.
  - apply MatchesGroup. destruct Hc as [->|[->| ->]].
    + apply MatchesAltL. exact Hrun.
    + apply MatchesAltR, MatchesAltL. exact Hrun.
    + apply MatchesAltR, MatchesAltR. exact Hrun.
  - eapply MatchesSeq; [apply MatchesEol; reflexivity | apply MatchesEps].
Qed.

(** X21: a line of three or more dashes, of three or more underscores
    or of three or more asterisks becomes a divider, and the cursor moves
    by one line. *)
Theorem X21_rules_become_dividers
    (URL : jsstring -> option URLRecord) (lines : list jsstring) (i n : nat) (c : N) :
  lines !! i = Some (JS.repeat c n) ->
  c = 45%N \/ c = 95%N \/ c = 42%N -> 3 <= n ->
  blockRules URL lines i = Some ([createDividerBlock], S i).
Proof.
  intros Hline Hc Hn. unfold blockRules. rewrite Hline. cbn [mbind option_bind].
  rewrite (test_rule_run c n Hc Hn).
  destruct n as [|n]; [lia|]. unfold JS.repeat. cbn [replicate].
  rewrite exec_heading_none; [reflexivity|].
  destruct Hc as [->|[->| ->]]; reflexivity.
Qed.

Lemma X21_rules_become_dividers_witness :
  blockRules toyURL [js "Title"; js "-----"] 1 = Some ([createDividerBlock], 2).
Proof.
  apply (X21_rules_become_dividers toyURL [js "Title"; js "-----"] 1 5 45%N);
    [reflexivity | auto | lia].
Defined.

Lemma trimStart_idem l : trimStart (trimStart l) = trimStart l.
Proof.
  induction l as [|c l IH]; [reflexivity|]. cbn [trimStart].
  destruct (is_space c) eqn:E; [exact IH|]. cbn [trimStart]. rewrite E. reflexivity.
Qed.

Lemma collectCodeLines_open ls :
  Forall (fun l => trim l <> fence3) ls -> collectCodeLines [] ls = (ls, length ls).
Proof.
  induction 1 as [|l ls Hl _ IH]; [reflexivity|].
  cbn [collectCodeLines length].
  replace (eqb (trim (trimStart l)) fence3) with false.
  - rewrite andb_false_r, IH. reflexivity.
  - symmetry. unfold trim. rewrite trimStart_idem. fold (trim l).
    destruct (eqb (trim l) fence3) eqn:E; [|reflexivity]. apply eqb_eq in E. contradiction.
Qed.

(** X22: a fence that is never closed takes the rest of the text.
    When a line opens with three backticks and no later line is a bare
    fence, every later line goes into the one code block, to the end of
    the text, and nothing after the fence is read as Markdown. *)
Theorem X22_unclosed_fence_takes_the_rest
    (laterRules : list jsstring -> nat -> list Block * nat)
    (lines : list jsstring) (i : nat) (tag : jsstring) (fuel : nat) :
  lines !! i = Some (fence3 ++ tag) ->
  Forall (fun l => trim l <> fence3) (drop (S i) lines) ->
  tokenizeFrom laterRules (S (S fuel)) lines i
  = Some [createCodeBlock (join [10%N] (drop (S i) lines))
            (match trim tag with [] => plain_text | language => language end)].
Proof.
  intros Hline Hopen.
  assert (Hts : trimStart (fence3 ++ tag) = fence3 ++ tag) by reflexivity.
  rewrite (tokenizeFrom_fence _ _ _ _ _ Hline).
  2:{ apply blank_solid. reflexivity. }
  2:{ rewrite Hts. apply startsWith_app. exists tag. reflexivity. }
  unfold fencedCode. rewrite Hts.
  change (drop 3 (fence3 ++ tag)) with tag.
  rewrite Nat.sub_diag. change (take 0 (fence3 ++ tag)) with (@nil N).
  rewrite (collectCodeLines_open _ Hopen). cbn [fst snd].
  rewrite tokenizeFrom_end; [destruct (trim tag); reflexivity|].
  apply lookup_ge_None. rewrite length_drop.
  pose proof (lookup_lt_Some _ _ _ Hline). lia.
Qed.

Lemma X22_unclosed_fence_takes_the_rest_witness :
  tokenizeFrom dividerRules 2 [js "```js"; js "let x"; js "# not a heading"] 0
  = Some [createCodeBlock (join [10%N] [js "let x"; js "# not a heading"]) (js "js")].
Proof.
  apply (X22_unclosed_fence_takes_the_rest dividerRules
           [js "```js"; js "let x"; js "# not a heading"] 0 (js "js") 0).
  - reflexivity.
  - repeat constructor; discriminate.
Defined.

(** *** Pipes in cells *)

Lemma collapseRuns_id p s : forall inRun,
  Forall (fun c => p c = false) s -> collapseRuns p inRun s = s.
Proof.
  induction s as [|c s IH]; intros inRun H; [reflexivity|].
  apply Forall_cons in H as [Hc H]. cbn [collapseRuns]. rewrite Hc, IH by exact H.
  reflexivity.
Qed.

Lemma escapePipes_id s : Forall (fun c => c <> 124%N) s -> escapePipes s = s.
Proof.
  unfold escapePipes. induction 1 as [|c s Hc _ IH]; [reflexivity|].
  cbn [flat_map]. apply N.eqb_neq in Hc. rewrite Hc, IH. reflexivity.
Qed.

Lemma escapePipes_app a b : escapePipes (a ++ b) = escapePipes a ++ escapePipes b.
Proof. unfold escapePipes. apply flat_map_app. Qed.

Lemma cellText_pipe a b rowspan colspan :
  a <> [] -> b <> [] ->
  Forall (fun c => is_space c = false /\ c <> 124%N) a ->
  Forall (fun c => is_space c = false /\ c <> 124%N) b ->
  cellText (mkCell (a ++ [124%N] ++ b) rowspan colspan) = a ++ [92; 124]%N ++ b.
Proof.
  intros Ha Hb Fa Fb. unfold cellText. cbn [textContent].
  assert (Hns : Forall (fun c => is_space c = false) (a ++ [124%N] ++ b)).
  { apply Forall_app. split; [eapply Forall_impl; [exact Fa|]; intros c [H _]; exact H|].
    constructor; [reflexivity|]. eapply Forall_impl; [exact Fb|]. intros c [H _]. exact H. }
  rewrite trim_of_solid by (apply solid_of_no_space, Hns).
  rewrite (collapseRuns_id (N.eqb 10)).
  2:{ eapply Forall_impl; [exact Hns|]. intros c Hc. cbn beta.
      destruct (N.eqb_spec 10 c) as [<-|]; [discriminate Hc | reflexivity]. }
  rewrite (collapseRuns_id is_space) by exact Hns.
  rewrite !escapePipes_app, (escapePipes_id a), (escapePipes_id b).
  - change (escapePipes [124%N]) with [92; 124]%N.
    destruct a; [congruence | reflexivity].
  - eapply Forall_impl; [exact Fb|]. intros c [_ H]. exact H.
  - eapply Forall_impl; [exact Fa|]. intros c [_ H]. exact H.
Qed.

Lemma trim_no_space s : Forall (fun c => is_space c = false) s -> trim s = s.
Proof. intros H. apply trim_of_solid, solid_of_no_space, H. Qed.

(** X23: the worker does not read the escape of a pipe.  The content
    script writes a pipe of a cell as a backslash and a pipe;
    [parseTableRow] cuts the row at every pipe, escaped or not, so that
    a cell with a pipe between two words comes back as two cells, the
    first of which ends in the backslash. *)
Theorem X23_escaped_pipe_splits_the_cell
    (a b : jsstring) (rowspan colspan : option Z) :
  a <> [] -> b <> [] ->
  Forall (fun c => is_space c = false /\ c <> 124%N) a ->
  Forall (fun c => is_space c = false /\ c <> 124%N) b ->
  let cell := mkCell (a ++ js "|" ++ b) rowspan colspan in
  exists line,
    rowMarkdown [Some (cellText cell)] = line ++ [10%N]
    /\ parseTableRow line = [a ++ [92%N]; b].
Proof.
  intros Ha Hb Fa Fb cell. exists (rowLine [cellText cell]).
  split; [apply (rowMarkdown_rowLine [Some (cellText cell)])|].
  unfold cell. change (js "|") with [124%N]. rewrite (cellText_pipe a b _ _ Ha Hb Fa Fb).
  assert (Fa' : Forall (fun c => is_space c = false) (a ++ [92%N])).
  { apply Forall_app. split; [|repeat constructor].
    eapply Forall_impl; [exact Fa|]. intros c [H _]. exact H. }
  assert (Fb' : Forall (fun c => is_space c = false) b).
  { eapply Forall_impl; [exact Fb|]. intros c [H _]. exact H. }
  replace (rowLine [a ++ [92; 124]%N ++ b])
    with (124%N :: join [124%N] [32%N :: a ++ [92%N]; b ++ [32%N]] ++ [124%N]).
  2:{ unfold rowLine. cbn [join].
      change (js "| " ++ ?x) with (124%N :: 32%N :: x).
      change (js " |") with [32%N; 124%N].
      do 3 (cbn [app]; rewrite <- ?app_assoc). reflexivity. }
  destruct (parseTableRow_pieces [32%N :: a ++ [92%N]; b ++ [32%N]])
    as (k & kept & -> & E2 & _ & E4); [discriminate| |].
  { constructor; [constructor; [discriminate|]|constructor; [|constructor]].
    - apply Forall_app. split; [|repeat constructor; discriminate].
      eapply Forall_impl; [exact Fa|]. intros c [_ H]. exact H.
    - apply Forall_app. split; [|repeat constructor; discriminate].
      eapply Forall_impl; [exact Fb|]. intros c [_ H]. exact H. }
  rewrite E4 in E2.
  2:{ intros t [= <-]. unfold blank. rewrite trim_app_spaces_r by reflexivity.
      rewrite trim_no_space by exact Fb'. destruct b; [congruence | reflexivity]. }
  cbn [replicate] in E2. rewrite app_nil_r in E2. rewrite <- E2. cbn [map].
  change (32%N :: a ++ [92%N]) with ([32%N] ++ (a ++ [92%N])).
  rewrite (trim_app_spaces_l [32%N] (a ++ [92%N])), (trim_app_spaces_r b [32%N]) by reflexivity.
  rewrite !trim_no_space by assumption. reflexivity.
Qed.

Lemma X23_escaped_pipe_splits_the_cell_witness :
  exists line,
    rowMarkdown [Some (cellText (mkCell (js "yes" ++ js "|" ++ js "no") None None))]
      = line ++ [10%N]
    /\ parseTableRow line = [js "yes" ++ [92%N]; js "no"].
Proof.
  apply (X23_escaped_pipe_splits_the_cell (js "yes") (js "no") None None);
    [discriminate | discriminate | repeat constructor; discriminate
    | repeat constructor; discriminate].
Defined.

(* ---------------------------------------------------------------------- *)
(** ** Inline code and strikethrough *)
(* ---------------------------------------------------------------------- *)

Ltac needs_key :=
  intros; cbn [fst snd] in *; unfold match_here, re_code, re_bold_star, re_bold_under, re_strike,
    re_italic_star, re_italic_under, re_link, re_nested, none, one;
  eval_js; cbn -[N.eqb];
  repeat match goal with H : (_ =? _)%N = false |- _ => rewrite ?H; clear H end;
  repeat match goal with
         | |- context [match ?b with [] => _ | _ :: _ => _ end] => is_var b; destruct b
         | |- context [if ?b then _ else _] => destruct b
         end;
  reflexivity.

Lemma patterns_need_key :
  Forall (fun p => (forall pre i, match_here (fst p) pre [] i = None) /\
                   (forall pre c suf i, (snd p =? c)%N = false ->
                      match_here (fst p) pre (c :: suf) i = None)) patternKeys.
Proof.
  unfold patternKeys. repeat (constructor; [split; [needs_key | needs_key]|]).
  constructor.
Qed.

Lemma match_here_delimited D d p c0 c' pre suf i :
  (forall pre rest cs k,
     rmatch D (MState pre (d ++ rest) cs) k = k (MState (rev d ++ pre) rest cs)) ->
  p c0 = true -> forallb p c' = true ->
  match d ++ suf with y :: _ => p y = false | [] => True end ->
  match_here (Seq D (Seq (Group 1 (Plus true (Chr p))) D)) pre
    (d ++ (c0 :: c') ++ d ++ suf) i
  = Some (Match i (d ++ (c0 :: c') ++ d) [(1, c0 :: c')]).
Proof.
  intros HD Hc0 Hc' Hd. unfold match_here.
  rewrite rmatch_seq, HD, rmatch_seq, rmatch_group. unfold Plus.
  rewrite rmatch_seq. cbn [app]. rewrite rmatch_chr_cons, Hc0.
  match goal with |- context [rmatch (Star true (Chr p)) _ ?k] => set (K := k) end.
  assert (HK : K (MState (rev c' ++ c0 :: rev d ++ pre) (d ++ suf) [])
               = Some (MState (rev d ++ rev c' ++ c0 :: rev d ++ pre) suf [(1, c0 :: c')])).
  { unfold K. cbn [before after caps]. rewrite HD. f_equal. f_equal. f_equal. f_equal.
    replace (rev c' ++ c0 :: rev d ++ pre) with (rev (c0 :: c') ++ (rev d ++ pre))
      by (cbn [rev]; rewrite <- app_assoc; reflexivity).
    apply consumed_app. }
  rewrite (rmatch_star_greedy p c' (c0 :: rev d ++ pre) (d ++ suf) [] K Hc' Hd)
    by (rewrite HK; eauto).
  rewrite HK. cbn [fmap option_fmap option_map caps]. f_equal. f_equal.
  replace (rev d ++ rev c' ++ c0 :: rev d ++ pre) with (rev (d ++ (c0 :: c') ++ d) ++ pre).
  - apply consumed_app.
  - rewrite !rev_app_distr. cbn [rev]. rewrite <- !app_assoc. reflexivity.
Qed.

Lemma scan_hit r pre suf i m : match_here r pre suf i = Some m -> scan r pre suf i = Some m.
Proof. intros H. destruct suf; cbn [scan]; rewrite H; reflexivity. Qed.

Lemma scan_end r pre i : match_here r pre [] i = None -> scan r pre [] i = None.
Proof. intros H. cbn [scan]. rewrite H. reflexivity. Qed.

Lemma execAll_whole r text m :
  (forall pre i, match_here r pre [] i = None) ->
  match_here r [] text 0 = Some m -> endIndex m = length text -> text <> [] ->
  execAll r text = Some [m].
Proof.
  intros Hnil Hm Hend Hne. unfold execAll.
  destruct text as [|t0 text']; [congruence|].
  set (text := t0 :: text') in *.
  change (length text) with (S (length text')) at 1.
  cbn [execAll_fuel]. unfold exec_from at 1.
  change (length text <? 0) with false. cbv iota.
  change (rev (take 0 text)) with (@nil N). change (drop 0 text) with text.
  rewrite (scan_hit _ _ _ _ _ Hm), Hend.
  unfold exec_from. rewrite Nat.ltb_irrefl, drop_all.
  rewrite (scan_end _ _ _ (Hnil _ _)). reflexivity.
Qed.

Lemma execAll_key r key text :
  (r, key) ∈ patternKeys -> Forall (fun c => (key =? c)%N = false) text ->
  execAll r text = Some [].
Proof.
  intros Hin Hall. pose proof patterns_need_key as H. rewrite Forall_forall in H.
  destruct (H _ Hin) as [Hnil Hcons]. cbn [fst snd] in *.
  apply (execAll_none r (fun c => (key =? c)%N = false)); assumption.
Qed.

Lemma test_nested_plain text : markupFree text -> test re_nested text = false.
Proof.
  intros Hfree. unfold test, exec, exec_from. cbn [length Nat.ltb Nat.leb take drop rev].
  rewrite (scan_none re_nested (fun c => is_markup c = false)); [reflexivity| | |exact Hfree].
  - intros pre i. reflexivity.
  - intros pre c suf i Hc. apply is_markup_false in Hc as (H1 & H2 & H3 & H4 & H5).
    needs_key.
Qed.

Lemma markupFree_keys content :
  markupFree content ->
  Forall (fun c => (96 =? c)%N = false) content /\ Forall (fun c => (42 =? c)%N = false) content
  /\ Forall (fun c => (95 =? c)%N = false) content /\ Forall (fun c => (126 =? c)%N = false) content
  /\ Forall (fun c => (91 =? c)%N = false) content.
Proof.
  intros H. repeat split; eapply Forall_impl; try exact H; intros c Hc;
    apply is_markup_false in Hc; tauto.
Qed.

Lemma none_of_key (key : string) k content :
  js key = [k] -> Forall (fun c => (k =? c)%N = false) content ->
  forallb (none key) content = true.
Proof.
  intros Hk H. induction H as [|c content Hc _ IH]; [reflexivity|].
  cbn [forallb]. rewrite IH, andb_true_r. unfold none, one. rewrite Hk. cbn [existsb]. rewrite N.eqb_sym, Hc. reflexivity.
Qed.

Lemma Lit1 a pre rest cs k :
  rmatch (Lit [a]) (MState pre ([a] ++ rest) cs) k = k (MState (rev [a] ++ pre) rest cs).
Proof. cbn [Lit app rev]. rewrite rmatch_chr_cons, N.eqb_refl. reflexivity. Qed.

Lemma Lit2 a pre rest cs k :
  rmatch (Lit [a; a]) (MState pre ([a; a] ++ rest) cs) k
  = k (MState (rev [a; a] ++ pre) rest cs).
Proof.
  cbn [Lit app rev]. rewrite rmatch_seq, rmatch_chr_cons, N.eqb_refl, rmatch_chr_cons, N.eqb_refl.
  reflexivity.
Qed.

Lemma match_here_code c0 c' :
  markupFree (c0 :: c') ->
  match_here re_code [] (inlineCode (c0 :: c')) 0
  = Some (Match 0 (inlineCode (c0 :: c')) [(1, c0 :: c')]).
Proof.
  intros Hfree. apply markupFree_keys in Hfree as (H & _).
  pose proof (none_of_key "`" 96%N _ eq_refl H) as Hn. cbn [forallb] in Hn.
  apply andb_true_iff in Hn as [Hn0 Hn'].
  pose proof (match_here_delimited (Lit [96%N]) [96%N] (none "`") c0 c' [] [] 0
                (Lit1 96%N) Hn0 Hn' eq_refl) as Hm.
  rewrite !app_nil_r in Hm. exact Hm.
Qed.

Lemma match_here_strike c0 c' :
  markupFree (c0 :: c') ->
  match_here re_strike [] (strikethroughRule (c0 :: c')) 0
  = Some (Match 0 (strikethroughRule (c0 :: c')) [(1, c0 :: c')]).
Proof.
  intros Hfree. apply markupFree_keys in Hfree as (_ & _ & _ & H & _).
  pose proof (none_of_key "~" 126%N _ eq_refl H) as Hn. cbn [forallb] in Hn.
  apply andb_true_iff in Hn as [Hn0 Hn'].
  pose proof (match_here_delimited (Lit [126%N; 126%N]) [126%N; 126%N] (none "~") c0 c' [] [] 0
                (Lit2 126%N) Hn0 Hn' eq_refl) as Hm.
  rewrite !app_nil_r in Hm. exact Hm.
Qed.

Lemma Forall_wrap (P : N -> Prop) (a b content : jsstring) :
  Forall P a -> Forall P b -> Forall P content -> Forall P (a ++ content ++ b).
Proof. intros. rewrite !Forall_app. auto. Qed.

Ltac absent_key :=
  apply Forall_wrap; [repeat constructor | repeat constructor | assumption].

Lemma collectMatches_code c0 c' :
  markupFree (c0 :: c') ->
  collectMatches patterns (inlineCode (c0 :: c'))
  = Some [toInlineMatch TCode (Match 0 (inlineCode (c0 :: c')) [(1, c0 :: c')])].
Proof.
  intros Hfree. pose proof (match_here_code _ _ Hfree) as Hm.
  apply markupFree_keys in Hfree as (H96 & H42 & H95 & H126 & H91).
  set (content := c0 :: c') in *. unfold patterns. cbn [collectMatches].
  rewrite (execAll_whole re_code _ _ (fun pre i => eq_refl) Hm eq_refl)
    by (unfold inlineCode; discriminate).
  rewrite (execAll_key re_bold_star 42%N), (execAll_key re_bold_under 95%N),
    (execAll_key re_strike 126%N), (execAll_key re_italic_star 42%N),
    (execAll_key re_italic_under 95%N), (execAll_key re_link 91%N);
    first [ reflexivity | unfold inlineCode; absent_key | unfold patternKeys; repeat constructor ].
Qed.

Lemma collectMatches_strike c0 c' :
  markupFree (c0 :: c') ->
  collectMatches patterns (strikethroughRule (c0 :: c'))
  = Some [toInlineMatch TStrikethrough (Match 0 (strikethroughRule (c0 :: c')) [(1, c0 :: c')])].
Proof.
  intros Hfree. pose proof (match_here_strike _ _ Hfree) as Hm.
  apply markupFree_keys in Hfree as (H96 & H42 & H95 & H126 & H91).
  set (content := c0 :: c') in *. unfold patterns. cbn [collectMatches].
  rewrite (execAll_whole re_strike _ _ (fun pre i => eq_refl) Hm eq_refl)
    by (unfold strikethroughRule; discriminate).
  rewrite (execAll_key re_code 96%N), (execAll_key re_bold_star 42%N),
    (execAll_key re_bold_under 95%N), (execAll_key re_italic_star 42%N),
    (execAll_key re_italic_under 95%N), (execAll_key re_link 91%N);
    first [ reflexivity | unfold strikethroughRule; absent_key | unfold patternKeys; repeat constructor ].
Qed.

Section InlineRoundTrip.
Variable URL : jsstring -> option URLRecord.

Lemma buildRichText_single recur text ty content0 m :
  collectMatches patterns text = Some [toInlineMatch ty m] ->
  index m = 0 -> endIndex m = length text ->
  m_content (toInlineMatch ty m) = content0 ->
  (ty = TCode \/ ty = TStrikethrough /\ test re_nested content0 = false) ->
  buildRichText URL recur text = Some [mkRun content0 (annotationsOf ty) None].
Proof.
  intros Hc Hi He Hcontent Hty. unfold buildRichText. rewrite Hc. cbn [mbind option_bind].
  unfold sortByStart, removeOverlapping. cbn [fold_left insertByStart existsb].
  cbn [app fold_left mbind option_bind]. unfold plainBefore.
  cbn [m_start m_end m_type toInlineMatch]. rewrite Hi, He. change (0 <? 0) with false. cbv iota. cbn [app].
  rewrite Hcontent.
  destruct Hty as [-> | [-> Hn]]; [|rewrite Hn]; cbn [mbind option_bind];
    rewrite Nat.ltb_irrefl; reflexivity.
Qed.

Lemma parseInlineMarkdown_single text ty content0 m a rest :
  text = a :: rest -> is_space a = false ->
  collectMatches patterns text = Some [toInlineMatch ty m] ->
  index m = 0 -> endIndex m = length text ->
  m_content (toInlineMatch ty m) = content0 ->
  (ty = TCode \/ ty = TStrikethrough /\ test re_nested content0 = false) ->
  length content0 <= MAX_TEXT_LENGTH ->
  parseInlineMarkdown URL text = Some [mkRun content0 (annotationsOf ty) None].
Proof.
  intros Ht Ha Hc Hi He Hcontent Hty Hlen. unfold parseInlineMarkdown.
  cbn [parseInline_fuel]. rewrite Ht at 1. rewrite (blank_solid a rest Ha).
  rewrite (buildRichText_single _ text ty content0 m Hc Hi He Hcontent Hty).
  cbn [fmap option_fmap option_map]. unfold finishRuns. cbn [map concat].
  rewrite splitLongSegment_short by exact Hlen. reflexivity.
Qed.

End InlineRoundTrip.

(** X24: inline code and struck-through text survive the trip: when the
    content is not empty, holds none of the code units that open an
    inline pattern and has at most 2000 code units, the Markdown the
    content script writes for it ([`content`] and [~~content~~]) is read
    back by the inline formatter as exactly one run with that content,
    without link, whose only annotation is code, respectively
    strikethrough. *)
Theorem X24_inline_code_and_strikethrough_round_trip
    (URL : jsstring -> option URLRecord) (content : jsstring) :
  content <> [] -> markupFree content -> length content <= MAX_TEXT_LENGTH ->
  parseInlineMarkdown URL (inlineCode content)
    = Some [mkRun content (mkAnn false false false true) None]
  /\ parseInlineMarkdown URL (strikethroughRule content)
    = Some [mkRun content (mkAnn false false true false) None].
Proof.
  intros Hne Hfree Hlen. destruct content as [|c0 c']; [congruence|]. split.
  - apply (parseInlineMarkdown_single URL _ TCode (c0 :: c')
             (Match 0 (inlineCode (c0 :: c')) [(1, c0 :: c')]) 96%N ((c0 :: c') ++ js "`"));
      try reflexivity; auto using collectMatches_code.
  - apply (parseInlineMarkdown_single URL _ TStrikethrough (c0 :: c')
             (Match 0 (strikethroughRule (c0 :: c')) [(1, c0 :: c')]) 126%N
             (126%N :: (c0 :: c') ++ js "~~"));
      try reflexivity; auto using collectMatches_strike, test_nested_plain.
Qed.

Lemma X24_inline_code_and_strikethrough_round_trip_witness :
  parseInlineMarkdown (fun _ => None) (js "`npm install`")
    = Some [mkRun (js "npm install") (mkAnn false false false true) None]
  /\ parseInlineMarkdown (fun _ => None) (js "~~old plan~~")
    = Some [mkRun (js "old plan") (mkAnn false false true false) None].
Proof.
  split.
  - apply (X24_inline_code_and_strikethrough_round_trip (fun _ => None) (js "npm install"));
      [discriminate | repeat constructor | vm_compute; lia].
  - apply (X24_inline_code_and_strikethrough_round_trip (fun _ => None) (js "old plan"));
      [discriminate | repeat constructor | vm_compute; lia].
Defined.

(** *** Task items *)

Lemma re_task_item_eq :
  re_task_item =
    Seq Bol (Seq (Group 1 re_spaces0)
      (Seq (Lit [45; 32; 91]%N) (Seq (Group 2 (Chr (one " x")))
        (Seq (Lit [93%N]) (Seq re_spaces1
          (seqs [Group 3 (Plus true (Chr dot)); Eol])))))).
Proof. reflexivity. Qed.

Ltac read_units :=
  repeat first [ rewrite rmatch_seq | rewrite rmatch_chr_cons; cbn [N.eqb Pos.eqb] ].

Lemma exec_task_item x c t :
  one " x" x = true -> is_space c = false -> forallb dot (c :: t) = true ->
  exec re_task_item ([45; 32; 91]%N ++ x :: [93; 32]%N ++ c :: t)
  = Some (Match 0 ([45; 32; 91]%N ++ x :: [93; 32]%N ++ c :: t)
            [(3, c :: t); (2, [x]); (1, [])]).
Proof.
  intros Hx Hc Ht. rewrite re_task_item_eq, exec_bol. unfold match_here.
  rewrite rmatch_bol, rmatch_seq, rmatch_group. unfold re_spaces0 at 1.
  match goal with |- context [rmatch (Star true (Chr is_space)) _ ?k] => set (K := k) end.
  assert (HK : K (MState [] ([45; 32; 91]%N ++ x :: [93; 32]%N ++ c :: t) [])
               = Some (MState (rev ([45; 32; 91]%N ++ x :: [93; 32]%N ++ c :: t)) []
                         [(3, c :: t); (2, [x]); (1, [])])).
  { unfold K. cbn [before after caps app]. change (consumed _ _) with (@nil N).
    cbn [Lit]. read_units.
    rewrite rmatch_group, rmatch_chr_cons, Hx. cbn [before after caps]. read_units.
    unfold re_spaces1, Plus. read_units.
    change (is_space 32) with true. cbv iota. cbn [seqs fold_right].
    pose proof (rmatch_spaces_text 3 [] c t [32; 93; x; 91; 32; 45]%N
                  [(2, consumed (MState [91; 32; 45]%N (x :: 93%N :: 32%N :: c :: t) [(1, [])])
                         (MState [x; 91; 32; 45]%N (93%N :: 32%N :: c :: t) [(1, [])]));
                   (1, [])] eq_refl Hc Ht) as Hr.
    cbn [seqs fold_right] in Hr. rewrite rmatch_seq in Hr. unfold re_spaces0 in Hr.
    cbn [app] in Hr. etransitivity; [exact Hr|].
    change (consumed _ _) with [x]. f_equal. f_equal.
    cbn [rev app]. rewrite <- !app_assoc. reflexivity. }
  pose proof (rmatch_star_greedy is_space [] []
                ([45; 32; 91]%N ++ x :: [93; 32]%N ++ c :: t) [] K eq_refl eq_refl) as Hg.
  cbn [app rev] in Hg. cbn [app] in HK. cbn [app]. rewrite Hg by (rewrite HK; eauto).
  rewrite HK. cbn [fmap option_fmap option_map caps]. f_equal. f_equal.
  rewrite <- (app_nil_r (rev _)). apply consumed_app.
Qed.

Lemma numbering_step_opens_with_digit step c rest :
  step ∈ numberingSteps -> is_digit c = false -> exec step.1 (c :: rest) = None.
Proof.
  intros H Hc. unfold numberingSteps in H. cbn [seqs fold_right] in H.
  repeat (apply elem_of_cons in H as [->|H];
          [cbn [fst]; rewrite exec_bol; unfold match_here, re_dup, re_digits, Plus;
           rewrite rmatch_bol;
           repeat first [rewrite rmatch_seq | rewrite rmatch_group];
           rewrite rmatch_chr_cons, Hc; reflexivity|]).
  apply elem_of_nil in H. destruct H.
Qed.

Lemma cleanListContent_no_digit c rest :
  is_digit c = false -> cleanListContent (c :: rest) = c :: rest.
Proof.
  intros Hc. unfold cleanListContent.
  assert (H : forall steps, Forall (fun step => step ∈ numberingSteps) steps ->
            fold_left (fun s step => replace step.1 s step.2) steps (c :: rest) = c :: rest).
  { induction steps as [|step steps IH]; intros Hall; [reflexivity|].
    apply Forall_cons in Hall as [Hin Hall]. cbn [fold_left].
    unfold replace at 2. rewrite (numbering_step_opens_with_digit step c rest Hin Hc).
    apply IH, Hall. }
  apply H. apply Forall_forall. auto.
Qed.

Lemma matchItem_task_empty : matchItem TaskList [] = None.
Proof. vm_compute. reflexivity. Qed.

Section TaskItem.
Variable URL : jsstring -> option URLRecord.

Lemma buildNestedList_single listType item :
  buildNestedList URL listType [item]
  = block ← createListItemBlock URL listType (item_content item) (item_checked item);
    Some [block].
Proof.
  unfold buildNestedList, buildTree. cbn [fold_left addNode heap rootNodes nodeStack popStack].
  cbn [length app heap rootNodes]. cbn [flattenTreeToBlocks].
  cbn [lookup list_lookup mbind option_bind node_item node_children Nat.leb].
  destruct (createListItemBlock URL listType (item_content item) (item_checked item));
    reflexivity.
Qed.

Lemma blockRules_task_item x c t richText :
  one " x" x = true -> is_space c = false -> forallb dot (c :: t) = true ->
  Forall (fun u => u <> 124%N) (c :: t) -> is_digit c = false ->
  parseInlineMarkdown URL (c :: t) = Some richText ->
  blockRules URL [[45; 32; 91]%N ++ x :: [93; 32]%N ++ c :: t; []] 0
  = Some ([ToDo richText (eqb [x] (js "x")) None], 1).
Proof.
  intros Hx Hc Ht Hpipe Hd Hrt.
  set (line := [45; 32; 91]%N ++ x :: [93; 32]%N ++ c :: t).
  unfold blockRules. cbn [lookup list_lookup mbind option_bind].
  unfold line at 1. cbn [app]. rewrite exec_heading_none by reflexivity.
  change (45%N :: 32%N :: 91%N :: x :: 93%N :: 32%N :: c :: t) with line.
  assert (Hrule : test re_rule line = false)
    by (apply (stall_rule [] 45%N 32%N (91%N :: x :: [93; 32]%N ++ c :: t)); reflexivity).
  rewrite Hrule. unfold tableRule. change (js "|") with [124%N].
  rewrite includes_unit.
  2:{ unfold line. cbn [app]. repeat (constructor; [discriminate|]).
      constructor; [intros ->; discriminate Hx|]. repeat (constructor; [discriminate|]).
      exact Hpipe. }
  change (startsWith line (js "> ")) with false. cbv iota.
  unfold parseList. cbn [lookup list_lookup mbind option_bind].
  assert (Htask : test re_task_item line = true).
  { unfold test, line. apply bool_decide_eq_true_2.
    rewrite (exec_task_item x c t Hx Hc Ht). eauto. }
  rewrite Htask. unfold parseNestedList.
  cbn [drop collectItems]. unfold matchItem at 1. unfold line at 1.
  rewrite (exec_task_item x c t Hx Hc Ht).
  cbn [mbind option_bind]. unfold group. cbn [groups]. unfold cap_get.
  cbn [find fst snd Nat.eqb fmap option_fmap option_map default id length].
  rewrite matchItem_task_empty. cbv iota beta zeta.
  rewrite buildNestedList_single. cbn [item_content item_checked].
  unfold createListItemBlock. rewrite (cleanListContent_no_digit c t Hd).
  unfold createTodoBlock. rewrite Hrt. reflexivity.
Qed.

End TaskItem.

Lemma convertMarkdown_one_line URL line blocks :
  Forall (fun c => c <> 10%N) line -> blank line = false ->
  startsWith (trimStart line) fence3 = false ->
  blockRules URL [line; []] 0 = Some (blocks, 1) ->
  convertMarkdown URL (line ++ [10%N]) = Some blocks.
Proof.
  intros Hline Hb Hf Hr. unfold convertMarkdown, markdownToNotionBlocks.
  change (line ++ [10%N]) with (line ++ 10%N :: []).
  rewrite split_app, (split_one 10 line Hline). cbn [app split].
  set (lines := [line; []]). change (length lines) with 2.
  rewrite (tokenizeFrom_rules _ _ lines 0 line eq_refl Hb Hf).
  assert (Hp : pushedBlocks URL lines 0 = (blocks, 1))
    by (unfold pushedBlocks, lines; rewrite Hr; reflexivity).
  rewrite Hp. cbn [fst snd].
  rewrite (tokenizeFrom_blank _ _ lines 1 []) by reflexivity.
  rewrite tokenizeFrom_end by reflexivity. cbn [fmap option_fmap option_map].
  rewrite app_nil_r. reflexivity.
Qed.

(** X25: a task item keeps its text and its tick.  When the trimmed
    content of the item is one line without pipes and without inline
    markup, does not open with a digit and has at most 2000 code units,
    the line the content script writes for the item is read back by the
    worker as exactly one to-do block: its text is the trimmed content in
    one plain run, and it is checked exactly when the item holds a ticked
    check box. *)
Theorem X25_task_item_round_trip
    (URL : jsstring -> option URLRecord) (checkbox : option bool) (content : jsstring) :
  blank content = false -> markupFree (trim content) ->
  Forall (fun c => is_line_terminator c = false /\ c <> 124%N) (trim content) ->
  (forall c, head (trim content) = Some c -> is_digit c = false) ->
  length (trim content) <= MAX_TEXT_LENGTH ->
  convertMarkdown URL (taskList checkbox content)
  = Some [ToDo [mkRun (trim content) noAnnotations None] (default false checkbox) None].
Proof.
  intros Hb Hfree Hline Hd Hlen. pose proof (trim_solid content) as Hs.
  destruct (trim content) as [|c t] eqn:E.
  { apply trim_nil_blank in E. congruence. }
  destruct Hs as [Hc _]. specialize (Hd c eq_refl).
  assert (Hdot : forallb dot (c :: t) = true).
  { apply forallb_Forall_true. eapply Forall_impl; [exact Hline|].
    intros u [Hu _]. unfold dot. rewrite Hu. reflexivity. }
  assert (Hpipe : Forall (fun u => u <> 124%N) (c :: t))
    by (eapply Forall_impl; [exact Hline|]; intros u [_ Hu]; exact Hu).
  assert (Hrt : parseInlineMarkdown URL (c :: t) = Some [mkRun (c :: t) noAnnotations None]).
  { rewrite parseInlineMarkdown_plain by (try apply blank_solid; assumption).
    unfold finishRuns. cbn [map concat]. rewrite splitLongSegment_short by exact Hlen.
    reflexivity. }
  set (x := if default false checkbox then 120%N else 32%N).
  assert (Hx : one " x" x = true) by (unfold x; destruct (default false checkbox); reflexivity).
  assert (Hck : eqb [x] (js "x") = default false checkbox)
    by (unfold x; destruct (default false checkbox); reflexivity).
  pose proof (blockRules_task_item URL x c t _ Hx Hc Hdot Hpipe Hd Hrt) as Hr.
  rewrite Hck in Hr.
  replace (taskList checkbox content)
    with (([45; 32; 91]%N ++ x :: [93; 32]%N ++ c :: t) ++ [10%N]).
  2:{ unfold taskList, x. rewrite E. destruct (default false checkbox); reflexivity. }
  apply convertMarkdown_one_line; [| |reflexivity|exact Hr].
  - cbn [app]. repeat (constructor; [discriminate|]).
    constructor; [unfold x; destruct (default false checkbox); discriminate|].
    repeat (constructor; [discriminate|]).
    eapply Forall_impl; [exact Hline|]. intros u [Hu _] ->. discriminate Hu.
  - apply blank_solid. reflexivity.
Qed.

Lemma X25_task_item_round_trip_witness :
  convertMarkdown toyURL (taskList (Some true) (js " send the report "))
  = Some [ToDo [mkRun (js "send the report") noAnnotations None] true None].
Proof.
  apply (X25_task_item_round_trip toyURL (Some true) (js " send the report ")).
  - reflexivity.
  - repeat constructor.
  - repeat constructor; discriminate.
  - intros c [= <-]. reflexivity.
  - vm_compute. lia.
Defined.

(** *** Links *)

Lemma rmatch_group_run g p c0 c' pre rest cs k :
  p c0 = true -> forallb p c' = true ->
  match rest with y :: _ => p y = false | [] => True end ->
  is_Some (k (MState (rev (c0 :: c') ++ pre) rest ((g, c0 :: c') :: cs))) ->
  rmatch (Group g (Plus true (Chr p))) (MState pre ((c0 :: c') ++ rest) cs) k
  = k (MState (rev (c0 :: c') ++ pre) rest ((g, c0 :: c') :: cs)).
Proof.
  intros Hc0 Hc' Hrest Hk. rewrite rmatch_group. unfold Plus.
  rewrite rmatch_seq. cbn [app]. rewrite rmatch_chr_cons, Hc0.
  match goal with |- context [rmatch (Star true (Chr p)) _ ?k0] => set (K := k0) end.
  assert (HK : K (MState (rev c' ++ c0 :: pre) rest cs)
               = k (MState (rev (c0 :: c') ++ pre) rest ((g, c0 :: c') :: cs))).
  { unfold K. cbn [before after caps]. f_equal.
    replace (rev c' ++ c0 :: pre) with (rev (c0 :: c') ++ pre)
      by (cbn [rev]; rewrite <- app_assoc; reflexivity).
    rewrite consumed_app. reflexivity. }
  rewrite (rmatch_star_greedy p c' (c0 :: pre) rest cs K Hc' Hrest) by (rewrite HK; exact Hk).
  exact HK.
Qed.

Local Abbreviation linkMarkdown text url := (js "[" ++ text ++ js "](" ++ url ++ js ")").

Lemma match_here_link t0 t' u0 u' :
  Forall (fun c => c <> 93%N) (t0 :: t') -> Forall (fun c => c <> 41%N) (u0 :: u') ->
  match_here re_link [] (linkMarkdown (t0 :: t') (u0 :: u')) 0
  = Some (Match 0 (linkMarkdown (t0 :: t') (u0 :: u')) [(2, u0 :: u'); (1, t0 :: t')]).
Proof.
  intros Ht Hu.
  assert (Hnt : forallb (none "]") (t0 :: t') = true).
  { apply (none_of_key "]" 93%N); [reflexivity|]. eapply Forall_impl; [exact Ht|].
    intros c Hc. apply N.eqb_neq. congruence. }
  assert (Hnu : forallb (none ")") (u0 :: u') = true).
  { apply (none_of_key ")" 41%N); [reflexivity|]. eapply Forall_impl; [exact Hu|].
    intros c Hc. apply N.eqb_neq. congruence. }
  cbn [forallb] in Hnt, Hnu.
  apply andb_true_iff in Hnt as [Ht0 Ht']. apply andb_true_iff in Hnu as [Hu0 Hu'].
  unfold match_here, re_link. eval_js. cbn [Lit app].
  read_units.
  pose proof (rmatch_group_run 2 (none ")") u0 u' (rev (91%N :: (t0 :: t') ++ [93; 40]%N)) [41%N]
                [(1, t0 :: t')] (fun st => rmatch (Chr (N.eqb 41)) st Some) Hu0 Hu' eq_refl) as H2.
  cbv beta in H2. rewrite !rmatch_chr_cons in H2. cbn [N.eqb Pos.eqb] in H2. specialize (H2 ltac:(eauto)).
  pose proof (rmatch_group_run 1 (none "]") t0 t' [91%N] ([93; 40]%N ++ (u0 :: u') ++ [41%N]) []
                (fun st => rmatch (Seq (Seq (Chr (N.eqb 93)) (Chr (N.eqb 40)))
                                    (Seq (Group 2 (Plus true (Chr (none ")")))) (Chr (N.eqb 41))))
                             st Some) Ht0 Ht' eq_refl) as H1.
  assert (Hk : rmatch (Seq (Seq (Chr (N.eqb 93)) (Chr (N.eqb 40)))
                         (Seq (Group 2 (Plus true (Chr (none ")")))) (Chr (N.eqb 41))))
                 (MState (rev (t0 :: t') ++ [91%N]) ([93; 40]%N ++ (u0 :: u') ++ [41%N])
                    [(1, t0 :: t')]) Some
               = Some (MState (41%N :: rev (u0 :: u') ++ rev (91%N :: (t0 :: t') ++ [93; 40]%N)) []
                         [(2, u0 :: u'); (1, t0 :: t')])).
  { cbn [app]. read_units.
    replace (40%N :: 93%N :: rev (t0 :: t') ++ [91%N])
      with (rev (91%N :: (t0 :: t') ++ [93; 40]%N))
      by (cbn [rev]; rewrite !rev_app_distr; cbn [rev app]; rewrite <- ?app_assoc; reflexivity).
    etransitivity; [exact H2|]. reflexivity. }
  cbv beta in H1. rewrite Hk in H1. specialize (H1 ltac:(eauto)).
  etransitivity; [apply (f_equal (fmap _)); exact H1|].
  cbn [fmap option_fmap option_map caps]. f_equal. f_equal.
  change (41%N :: rev (u0 :: u') ++ rev (91%N :: (t0 :: t') ++ [93; 40]%N))
    with (rev [41%N] ++ rev (u0 :: u') ++ rev (91%N :: (t0 :: t') ++ [93; 40]%N)).
  rewrite <- !rev_app_distr, <- (app_nil_r (rev _)).
  rewrite consumed_app. cbn [app]. rewrite <- !app_assoc. reflexivity.
Qed.

Lemma collectMatches_link t0 t' u0 u' :
  markupFree (t0 :: t') -> markupFree (u0 :: u') ->
  Forall (fun c => c <> 93%N) (t0 :: t') -> Forall (fun c => c <> 41%N) (u0 :: u') ->
  collectMatches patterns (linkMarkdown (t0 :: t') (u0 :: u'))
  = Some [toInlineMatch TLink
            (Match 0 (linkMarkdown (t0 :: t') (u0 :: u')) [(2, u0 :: u'); (1, t0 :: t')])].
Proof.
  intros Hft Hfu Ht Hu. pose proof (match_here_link _ _ _ _ Ht Hu) as Hm.
  apply markupFree_keys in Hft as (T96 & T42 & T95 & T126 & _).
  apply markupFree_keys in Hfu as (U96 & U42 & U95 & U126 & _).
  set (text := t0 :: t') in *. set (url := u0 :: u') in *.
  assert (Hkey : forall key, (key =? 91)%N = false -> (key =? 93)%N = false ->
            (key =? 40)%N = false -> (key =? 41)%N = false ->
            Forall (fun c => (key =? c)%N = false) text ->
            Forall (fun c => (key =? c)%N = false) url ->
            Forall (fun c => (key =? c)%N = false) (linkMarkdown text url)).
  { intros key K1 K2 K3 K4 KT KU. eval_js.
    rewrite !Forall_app. repeat split; try assumption; repeat constructor; assumption. }
  unfold patterns. cbn [collectMatches].
  rewrite (execAll_key re_code 96%N), (execAll_key re_bold_star 42%N),
    (execAll_key re_bold_under 95%N), (execAll_key re_strike 126%N),
    (execAll_key re_italic_star 42%N), (execAll_key re_italic_under 95%N);
    try (apply Hkey; solve [reflexivity | assumption]);
    try (unfold patternKeys; repeat constructor).
  rewrite (execAll_whole re_link _ _ (fun pre i => eq_refl) Hm eq_refl)
    by discriminate.
  reflexivity.
Qed.

Section LinkRun.
Variable URL : jsstring -> option URLRecord.

Lemma parseInlineMarkdown_link t0 t' u0 u' :
  markupFree (t0 :: t') -> markupFree (u0 :: u') ->
  Forall (fun c => c <> 93%N) (t0 :: t') -> Forall (fun c => c <> 41%N) (u0 :: u') ->
  length (t0 :: t') <= MAX_TEXT_LENGTH ->
  parseInlineMarkdown URL (linkMarkdown (t0 :: t') (u0 :: u'))
  = Some [mkRun (t0 :: t') noAnnotations
            (validateAndCleanUrl URL (u0 :: u') ≫= validateAndCleanUrl URL)].
Proof.
  intros Hft Hfu Ht Hu Hlen. unfold parseInlineMarkdown. cbn [parseInline_fuel].
  replace (blank (linkMarkdown (t0 :: t') (u0 :: u'))) with false
    by (symmetry; apply blank_solid; reflexivity).
  unfold buildRichText. rewrite (collectMatches_link _ _ _ _ Hft Hfu Ht Hu).
  cbn [mbind option_bind]. unfold sortByStart, removeOverlapping.
  cbn [fold_left insertByStart existsb]. cbn [app fold_left mbind option_bind].
  unfold plainBefore. cbn [m_start m_end m_type m_content m_link toInlineMatch].
  cbn [index endIndex whole group groups]. change (0 <? 0) with false. cbv iota.
  cbn [app mbind option_bind]. unfold endIndex. cbn [index whole Nat.add].
  rewrite Nat.ltb_irrefl. unfold group, cap_get.
  cbn [groups find fst snd Nat.eqb fmap option_fmap option_map mbind option_bind app].
  unfold finishRuns. cbn [map concat]. rewrite splitLongSegment_short by exact Hlen.
  reflexivity.
Qed.

End LinkRun.

(** X26: a Markdown link keeps its text whatever becomes of its
    address.  When the text and the address are not empty, hold none of
    the code units that open an inline pattern, the text has no closing
    bracket, the address no closing parenthesis, and the text has at most
    2000 code units, the inline formatter returns exactly one run: its
    content is the text, it has no annotation, and its link is the
    address after two rounds of validation, so that an address that
    validation refuses leaves the text in place without a link. *)
Theorem X26_link_keeps_its_text
    (URL : jsstring -> option URLRecord) (text url : jsstring) :
  text <> [] -> url <> [] -> markupFree text -> markupFree url ->
  Forall (fun c => c <> 93%N) text -> Forall (fun c => c <> 41%N) url ->
  length text <= MAX_TEXT_LENGTH ->
  parseInlineMarkdown URL (js "[" ++ text ++ js "](" ++ url ++ js ")")
  = Some [mkRun text noAnnotations (validateAndCleanUrl URL url ≫= validateAndCleanUrl URL)]
  /\ (validateAndCleanUrl URL url = None ->
      parseInlineMarkdown URL (js "[" ++ text ++ js "](" ++ url ++ js ")")
      = Some [mkRun text noAnnotations None]).
Proof.
  intros Hnt Hnu Hft Hfu Ht Hu Hlen.
  destruct text as [|t0 t']; [congruence|]. destruct url as [|u0 u']; [congruence|].
  pose proof (parseInlineMarkdown_link URL t0 t' u0 u' Hft Hfu Ht Hu Hlen) as H.
  split; [exact H|]. intros Hv. rewrite H, Hv. reflexivity.
Qed.

Lemma X26_link_keeps_its_text_witness :
  parseInlineMarkdown (fun _ => None) (js "[the wiki](ftp://files/a)")
  = Some [mkRun (js "the wiki") noAnnotations None].
Proof.
  apply (X26_link_keeps_its_text (fun _ => None) (js "the wiki") (js "ftp://files/a"));
    [discriminate | discriminate | repeat constructor | repeat constructor
    | repeat constructor; discriminate | repeat constructor; discriminate
    | vm_compute; lia | reflexivity].
Defined.

(** *** Headers that end in empty cells *)


Lemma parseTableRow_last_two_blank front a b :
  Forall (Forall (fun c => c <> 124%N)) (front ++ [a; b]) ->
  blank a = true -> blank b = true ->
  length (parseTableRow (rowLine (front ++ [a; b]))) < length (front ++ [a; b]).
Proof.
  intros Hp Ha Hb.
  assert (Hne : front ++ [a; b] <> []) by (destruct front; discriminate).
  destruct (parseTableRow_rowLine _ Hne Hp) as (k & kept & Ek & Em & Hk & _).
  rewrite Ek. apply (f_equal length) in Em as El.
  rewrite length_map, !length_app, length_replicate in El. cbn [length] in El.
  rewrite length_app. cbn [length].
  enough (k <> 0) by lia. intros ->. cbn [replicate] in Em. rewrite app_nil_r in Em.
  rewrite <- Ek in Em. clear Ek El Hk. revert Em. rewrite rowLine_pieces by exact Hne.
  unfold parseTableRow.
  set (J := join [124%N] (map pad (front ++ [a; b]))).
  rewrite (trim_of_solid (124%N :: J ++ [124%N])) by (apply solid_between; reflexivity).
  rewrite blank_solid by reflexivity.
  replace (startsWith (124%N :: J ++ [124%N]) (js "|")) with true
    by (symmetry; apply startsWith_app; exists (J ++ [124%N]); reflexivity).
  change (drop 1 (124%N :: J ++ [124%N])) with (J ++ [124%N]).
  replace (endsWith (J ++ [124%N]) (js "|")) with true.
  2:{ symmetry. unfold endsWith. rewrite rev_app_distr. apply startsWith_app.
      exists (rev J). reflexivity. }
  rewrite length_app. cbn [length]. replace (length J + 1 - 1) with (length J) by lia.
  rewrite take_app_length. unfold J. rewrite split_join.
  2:{ destruct front; discriminate. }
  2:{ apply Forall_map. eapply Forall_impl; [exact Hp|]. intros t Ht. unfold pad.
      constructor; [discriminate|]. apply Forall_app. split; [exact Ht|].
      constructor; [discriminate | constructor]. }
  rewrite map_map. rewrite (map_ext (fun t => trim (pad t)) trim) by (intros t; apply trim_pad).
  rewrite !map_app, rev_app_distr. cbn [map rev app].
  apply trim_nil_blank in Ha, Hb. rewrite Ha, Hb.
  change (popEmptyCells ([] :: [] :: ?r)) with (popEmptyCells ([] :: r)).
  intros E. apply (f_equal length) in E. rewrite length_app, length_map in E.
  cbn [length] in E.
  assert (L : length (rev (popEmptyCells ([] :: rev (map trim front))))
              <= S (length front)).
  { rewrite length_rev.
    destruct (popEmptyCells_spec ([] :: rev (map trim front))) as (k & Es & _).
    apply (f_equal length) in Es. rewrite length_app, length_replicate in Es.
    cbn [length] in Es. rewrite length_rev, length_map in Es. lia. }
  destruct (rev (popEmptyCells ([] :: rev (map trim front)))) eqn:ER;
    cbn [length] in E, L; lia.
Qed.



(** X27: a table whose header ends in two empty cells loses columns.
    When the last two texts of the first row of the grid are blank (and
    the texts are otherwise as readable as a round trip needs: no pipe, no
    line feed, in every row a text with a code unit other than white
    space, dashes and colons), the Markdown the content script writes for
    the table is read back by the worker as one table block with fewer
    columns than the grid: every row of the block, the header's too, has
    that smaller number of cells, and the texts of the columns beyond it
    are not in the block. *)
Theorem X27_blank_header_end_drops_columns
    (URL : jsstring -> option URLRecord) (rows : list (list TableCell))
    (first : list (option jsstring)) (others : list (list (option jsstring)))
    (front : list jsstring) (a b : jsstring) :
  resolveGrid rows = Some (first :: others) ->
  readableTexts (rowTexts first) ->
  rowTexts first = front ++ [a; b] -> blank a = true -> blank b = true ->
  Forall (fun rowData => readableTexts (rowTexts rowData)) others ->
  exists markdown width children,
    confluenceTable rows = Some markdown
    /\ convertMarkdown URL markdown = Some [Table width children]
    /\ width < length first
    /\ length children = S (length others)
    /\ Forall (fun row => length row = width) children.
Proof.
  intros Hg Hh Hfirst Ha Hb Hr.
  set (kept := parseTableRow (rowLine (rowTexts first))).
  destruct (createTableBlock_shape URL kept (map trimmedTexts others))
    as (children & Hblock & Hlen & Hshape).
  destruct (resolveGrid_shape rows _ Hg) as (columnCount & Hcc & _ & Hw).
  apply Forall_cons in Hw as [Hw _].
  destruct (readableTexts_facts _ Hh) as (Hne & Hp & _).
  assert (Hn : 1 <= columnCount).
  { rewrite <- Hw. destruct first; [exfalso; apply Hne; reflexivity | cbn; lia]. }
  eexists. exists (length kept), children. split; [|split; [|split; [|split]]].
  - unfold confluenceTable. destruct rows as [|r rows]; [discriminate Hg|].
    rewrite Hg. reflexivity.
  - cbn [mbind option_bind]. rewrite Hcc. cbn [default id].
    rewrite !rowMarkdown_rowLine, separatorRow_line.
    replace (concat (map rowMarkdown others))
      with (concat (map (fun texts => rowLine texts ++ [10%N]) (map rowTexts others))).
    2:{ rewrite map_map. f_equal. apply map_ext. intros rowData.
        symmetry. apply rowMarkdown_rowLine. }
    apply convertMarkdown_table_read; [exact Hh | | exact Hn |].
    + apply Forall_map. exact Hr.
    + unfold trimmedTexts in Hblock. rewrite <- (map_map rowTexts (map trim)) in Hblock.
      exact Hblock.
  - unfold kept. rewrite Hfirst in Hp |- *. 
    replace (length first) with (length (front ++ [a; b]))
      by (rewrite <- Hfirst; unfold rowTexts; apply length_map).
    apply parseTableRow_last_two_blank; assumption.
  - rewrite Hlen, length_map. reflexivity.
  - eapply Forall_impl; [exact Hshape|]. intros row [H _]. exact H.
Qed.

(** A header [Name] followed by two empty cells, over a row of three
    texts. *)
Lemma X27_blank_header_end_drops_columns_witness :
  exists markdown width children,
    confluenceTable [ [mkCell (js "Name") None None; mkCell [] None None; mkCell [] None None];
                      [mkCell (js "Ada") None None; mkCell (js "1815") None None;
                       mkCell (js "London") None None] ] = Some markdown
    /\ convertMarkdown toyURL markdown = Some [Table width children]
    /\ width < 3
    /\ length children = 2
    /\ Forall (fun row => length row = width) children.
Proof.
  apply (X27_blank_header_end_drops_columns toyURL _
           [Some (js "Name"); Some filler; Some filler]
           [[Some (js "Ada"); Some (js "1815"); Some (js "London")]]
           [js "Name"] filler filler).
  - reflexivity.
  - split; [repeat constructor; discriminate|].
    apply Exists_cons_hd, Exists_cons_hd. reflexivity.
  - reflexivity.
  - reflexivity.
  - reflexivity.
  - constructor; [|constructor]. split; [repeat constructor; discriminate|].
    apply Exists_cons_hd, Exists_cons_hd. reflexivity.
Defined.

(* ---------------------------------------------------------------------- *)
(** ** Image lines in the converter *)
(* ---------------------------------------------------------------------- *)




Section ImageLines.

Variable URL : jsstring -> option URLRecord.


End ImageLines.




(* ---------------------------------------------------------------------- *)
(** ** Runs of list lines *)
(* ---------------------------------------------------------------------- *)

















